(** * A shallow embedding of [set.h]: an ordered set on an unbalanced
    binary search tree whose iterators register themselves with the node
    they designate.

    The C++ heap is modelled explicitly.  Every [sentinel_node] (the anchor
    [fake_] embedded in a [set] object as well as every heap allocated
    [node]) lives in a finite map from addresses to records; every
    [s_iterator] object lives in a second finite map, because nodes keep
    raw pointers to the iterators positioned on them (the [share] vector).
    A [set] object is identified with the address of its embedded anchor;
    its [size_] field is kept in a third map under the same address.

    The element type [T] is instantiated with [Z] and its usual order.

    Operations are written in a state monad with three ways of not
    returning: a C++ exception ([Throw], only [std::bad_alloc] can occur),
    a failed [assert] and undefined behaviour (dereferencing a null or
    dangling pointer), the last two being [Crash]es.  Loops that chase
    pointers take fuel; the container operations supply it from the number
    of nodes on the heap. *)

From stdpp Require Import gmap list fin_maps sorting.
From Stdlib Require Import ZArith Lia.

Local Open Scope Z_scope.

(** ** Data *)

Abbreviation ptr := (option positive).

(** [std::vector<s_iterator*>]: the elements and the capacity.  The growth
    policy of a vector is implementation defined; [capacity] records the
    least capacity the standard guarantees (it never shrinks), so that
    [push_back] needs storage, and can fail, only when the vector is full. *)
Record vector := mk_vector { items : list positive; capacity : nat }.

Definition empty_vector : vector := mk_vector [] 0.

(** [sentinel_node] and its derived class [node].  [value_] is [None] for
    an object that is only a [sentinel_node] (the anchor). *)
Record sentinel_node := mk_node {
  left : ptr;
  right : ptr;
  parent : ptr;
  share : vector;
  value_ : option Z
}.

Record s_iterator := mk_iterator { node_ : ptr; container_ : ptr }.

Record state := mk_state {
  nodes : gmap positive sentinel_node;
  sizes : gmap positive Z;
  iters : gmap positive s_iterator;
  oracle : list bool
}.

(** [oracle] decides the allocation requests still to come: [false] makes
    the next request fail with [std::bad_alloc]; once the list is used up
    every request succeeds. *)

Definition with_left (n : sentinel_node) (p : ptr) : sentinel_node :=
  mk_node p (right n) (parent n) (share n) (value_ n).
Definition with_right (n : sentinel_node) (p : ptr) : sentinel_node :=
  mk_node (left n) p (parent n) (share n) (value_ n).
Definition with_parent (n : sentinel_node) (p : ptr) : sentinel_node :=
  mk_node (left n) (right n) p (share n) (value_ n).
Definition with_share (n : sentinel_node) (v : vector) : sentinel_node :=
  mk_node (left n) (right n) (parent n) v (value_ n).

Definition with_nodes (st : state) (h : gmap positive sentinel_node) : state :=
  mk_state h (sizes st) (iters st) (oracle st).
Definition with_sizes (st : state) (z : gmap positive Z) : state :=
  mk_state (nodes st) z (iters st) (oracle st).
Definition with_iters (st : state) (i : gmap positive s_iterator) : state :=
  mk_state (nodes st) (sizes st) i (oracle st).
Definition with_oracle (st : state) (o : list bool) : state :=
  mk_state (nodes st) (sizes st) (iters st) o.

(** ** The monad *)

Inductive crash := AssertFailed | Undefined | OutOfFuel.

Inductive res (A : Type) :=
  | Ok (a : A) (st : state)
  | Throw (st : state)
  | Crash (c : crash).
Arguments Ok {A} a st.
Arguments Throw {A} st.
Arguments Crash {A} c.

Definition M (A : Type) : Type := state → res A.

#[global] Instance M_ret : MRet M := λ A a st, Ok a st.
#[global] Instance M_bind : MBind M := λ A B f m st,
  match m st with
  | Ok a st' => f a st'
  | Throw st' => Throw st'
  | Crash c => Crash c
  end.

Definition throw {A} : M A := λ st, Throw st.
Definition crash_with {A} (c : crash) : M A := λ _, Crash c.
Definition assert (b : bool) : M unit :=
  if b then mret () else crash_with AssertFailed.

(** [try { m } catch (...) { h; throw; }] *)
Definition catch_rethrow {A} (m : M A) (h : M unit) : M A := λ st,
  match m st with
  | Throw st' => match h st' with
                 | Ok _ st'' => Throw st''
                 | Throw st'' => Throw st''
                 | Crash c => Crash c
                 end
  | r => r
  end.

(** A local object whose destructor [d] runs when the scope [m] is left,
    normally or by an exception. *)
Definition scoped {A} (m : M A) (d : M unit) : M A := λ st,
  match m st with
  | Ok a st' => match d st' with
                | Ok _ st'' => Ok a st''
                | Throw st'' => Throw st''
                | Crash c => Crash c
                end
  | Throw st' => match d st' with
                 | Ok _ st'' => Throw st''
                 | Throw st'' => Throw st''
                 | Crash c => Crash c
                 end
  | Crash c => Crash c
  end.

(** Results of code that only reads the heap. *)
Inductive outcome (A : Type) :=
  | Val (a : A)
  | Bad (c : crash).
Arguments Val {A} a.
Arguments Bad {A} c.

Definition lift {A} (f : gmap positive sentinel_node → outcome A) : M A := λ st,
  match f (nodes st) with
  | Val a => Ok a st
  | Bad c => Crash c
  end.

(** ** Memory *)

Definition alloc_ok : M bool := λ st,
  match oracle st with
  | [] => Ok true st
  | b :: o => Ok b (with_oracle st o)
  end.

Definition load (a : positive) : M sentinel_node := λ st,
  match nodes st !! a with
  | Some n => Ok n st
  | None => Crash Undefined
  end.

Definition store (a : positive) (n : sentinel_node) : M unit := λ st,
  Ok () (with_nodes st (<[a := n]> (nodes st))).

(** [p->field = v] *)
Definition modify (a : positive) (f : sentinel_node → sentinel_node) : M unit :=
  n ← load a; store a (f n).
Definition set_left (a : positive) (p : ptr) : M unit := modify a (λ n, with_left n p).
Definition set_right (a : positive) (p : ptr) : M unit := modify a (λ n, with_right n p).
Definition set_parent (a : positive) (p : ptr) : M unit := modify a (λ n, with_parent n p).

Definition load_iter (i : positive) : M s_iterator := λ st,
  match iters st !! i with
  | Some it => Ok it st
  | None => Crash Undefined
  end.

Definition store_iter (i : positive) (it : s_iterator) : M unit := λ st,
  Ok () (with_iters st (<[i := it]> (iters st))).

Definition set_node_ (i : positive) (p : ptr) : M unit :=
  it ← load_iter i; store_iter i (mk_iterator p (container_ it)).
Definition set_container_ (i : positive) (c : ptr) : M unit :=
  it ← load_iter i; store_iter i (mk_iterator (node_ it) c).

(** Storage for a new iterator object, and its release. *)
Definition new_iter (it : s_iterator) : M positive := λ st,
  let i := fresh (dom (iters st)) in
  Ok i (with_iters st (<[i := it]> (iters st))).
Definition free_iter (i : positive) : M unit := λ st,
  Ok () (with_iters st (delete i (iters st))).

(** [size_t] arithmetic. *)
Definition size_max : Z := 2 ^ 64.
Definition wrap (z : Z) : Z := z mod size_max.

Definition load_size (s : positive) : M Z := λ st,
  match sizes st !! s with
  | Some z => Ok z st
  | None => Crash Undefined
  end.
Definition store_size (s : positive) (z : Z) : M unit := λ st,
  Ok () (with_sizes st (<[s := z]> (sizes st))).

(** ** [std::vector] *)

(** [push_back]: a full vector is reallocated.  The new capacity is the
    new length, the least growth the standard allows; an implementation
    that grows faster reallocates at some of these calls only, so the
    allocation requests of the model include those of the program. *)
Definition push_back (v : vector) (i : positive) : M vector :=
  if (length (items v) <? capacity v)%nat
  then mret (mk_vector (items v ++ [i]) (capacity v))
  else alloc_ok ≫= λ ok : bool,
       if ok then mret (mk_vector (items v ++ [i]) (S (length (items v))))
       else throw.

(** [std::find] followed by [erase] of the position found. *)
Fixpoint remove_first (i : positive) (l : list positive) : list positive :=
  match l with
  | [] => []
  | x :: l' => if decide (x = i) then l' else x :: remove_first i l'
  end.

(** ** [sentinel_node] *)

(** [new node(l, r, p, v)] *)
Definition place_node (n : sentinel_node) : M positive := λ st,
  let a := fresh (dom (nodes st)) in
  Ok a (with_nodes st (<[a := n]> (nodes st))).

Definition new_node (l r p : ptr) (v : Z) : M positive :=
  alloc_ok ≫= λ ok : bool,
  if ok then place_node (mk_node l r p empty_vector (Some v)) else throw.

(** [~sentinel_node]: every registered iterator becomes singular. *)
Fixpoint clear_iterators (l : list positive) : M unit :=
  match l with
  | [] => mret ()
  | i :: l' => set_node_ i None;; clear_iterators l'
  end.

Definition sentinel_node_dtor (a : positive) : M unit :=
  n ← load a; clear_iterators (items (share n)).

(** [delete p] for a non-null [p]. *)
Definition release_node (a : positive) : M unit := λ st,
  Ok () (with_nodes st (delete a (nodes st))).

Definition delete_node (a : positive) : M unit :=
  sentinel_node_dtor a;; release_node a.

Definition add_iterator (a : positive) (i : positive) : M unit :=
  n ← load a;
  v ← push_back (share n) i;
  store a (with_share n v).

Definition remove_iterator (a : positive) (i : positive) : M unit :=
  n ← load a;
  store a (with_share n (mk_vector (remove_first i (items (share n))) (capacity (share n)))).

(** [std::swap(lhs.f, rhs.f)] on one pointer field. *)
Definition swap_field (get : sentinel_node → ptr)
    (set : sentinel_node → ptr → sentinel_node) (a b : positive) : M unit :=
  x ← load a;
  y ← load b;
  store a (set x (get y));;
  y' ← load b;
  store b (set y' (get x)).

(** [swap(sentinel_node&, sentinel_node&)] *)
Definition swap_nodes (a b : positive) : M unit :=
  swap_field left with_left a b;;
  swap_field right with_right a b;;
  swap_field parent with_parent a b.

(** Dereferencing a pointer that may be null. *)
Definition nonnull (p : ptr) : M positive :=
  match p with
  | Some a => mret a
  | None => crash_with Undefined
  end.

Definition get_left (a : positive) : M ptr := n ← load a; mret (left n).
Definition get_right (a : positive) : M ptr := n ← load a; mret (right n).
Definition get_parent (a : positive) : M ptr := n ← load a; mret (parent n).

(** [static_cast<node*>(p)->value_]; reading it from an object that is
    only a [sentinel_node] is undefined. *)
Definition get_value (a : positive) : M Z :=
  n ← load a;
  match value_ n with
  | Some v => mret v
  | None => crash_with Undefined
  end.

(** Fuel for the loops: one more than the number of nodes on the heap. *)
Definition heap_fuel : M nat := λ st, Ok (S (size (nodes st))) st.

(** ** [s_iterator] *)

Fixpoint find_min (fuel : nat) (h : gmap positive sentinel_node) (current : positive)
    : outcome positive :=
  match fuel with
  | O => Bad OutOfFuel
  | S f =>
      match h !! current with
      | None => Bad Undefined
      | Some n =>
          match left n with
          | Some l => find_min f h l
          | None => Val current
          end
      end
  end.

Fixpoint find_max (fuel : nat) (h : gmap positive sentinel_node) (current : positive)
    : outcome positive :=
  match fuel with
  | O => Bad OutOfFuel
  | S f =>
      match h !! current with
      | None => Bad Undefined
      | Some n =>
          match right n with
          | Some r => find_max f h r
          | None => Val current
          end
      end
  end.

(** [while (parent && node == parent->right) { node = parent; parent = parent->parent; }] *)
Fixpoint climb_right (fuel : nat) (h : gmap positive sentinel_node)
    (node : positive) (parent_ : ptr) : outcome ptr :=
  match fuel with
  | O => Bad OutOfFuel
  | S f =>
      match parent_ with
      | None => Val None
      | Some p =>
          match h !! p with
          | None => Bad Undefined
          | Some pn =>
              if decide (right pn = Some node) then climb_right f h p (parent pn)
              else Val (Some p)
          end
      end
  end.

Definition find_next (fuel : nat) (h : gmap positive sentinel_node) (node : positive)
    : outcome ptr :=
  match h !! node with
  | None => Bad Undefined
  | Some n =>
      match right n with
      | Some r =>
          match find_min fuel h r with
          | Val m => Val (Some m)
          | Bad c => Bad c
          end
      | None => climb_right fuel h node (parent n)
      end
  end.

(** [while (parent != nullptr && new_node == parent->left) { ... }] *)
Fixpoint climb_left (fuel : nat) (h : gmap positive sentinel_node)
    (new_node : positive) (parent_ : ptr) : outcome ptr :=
  match fuel with
  | O => Bad OutOfFuel
  | S f =>
      match parent_ with
      | None => Val None
      | Some p =>
          match h !! p with
          | None => Bad Undefined
          | Some pn =>
              if decide (left pn = Some new_node) then climb_left f h p (parent pn)
              else Val (Some p)
          end
      end
  end.

(** The predecessor computed by [operator--]. *)
Definition find_prev (fuel : nat) (h : gmap positive sentinel_node) (node : positive)
    : outcome ptr :=
  match h !! node with
  | None => Bad Undefined
  | Some n =>
      match left n with
      | Some l =>
          match find_max fuel h l with
          | Val m => Val (Some m)
          | Bad c => Bad c
          end
      | None => climb_left fuel h node (parent n)
      end
  end.

Definition append_to_node (this : positive) : M unit :=
  catch_rethrow
    (it ← load_iter this;
     match node_ it with
     | Some n => add_iterator n this
     | None => mret ()
     end)
    (set_node_ this None).

(** A constructor body [m] for the object at [this]: when it throws, the
    object never existed and its storage is given back. *)
Definition constructing (this : positive) (m : M unit) : M positive :=
  catch_rethrow m (free_iter this);; mret this.

(** [s_iterator(sentinel_node* node, const set* container)] *)
Definition s_iterator_ctor (node container : ptr) : M positive :=
  this ← new_iter (mk_iterator node container);
  constructing this (append_to_node this).

(** [s_iterator()] *)
Definition s_iterator_default_ctor : M positive :=
  new_iter (mk_iterator None None).

(** [s_iterator(const s_iterator& other)] *)
Definition s_iterator_copy (other : positive) : M positive :=
  o ← load_iter other;
  this ← new_iter (mk_iterator (node_ o) (container_ o));
  constructing this (append_to_node this).

Definition base_assert (this : positive) : M unit :=
  it ← load_iter this;
  match node_ it with
  | None => crash_with AssertFailed
  | Some a => l ← get_left a; assert (negb (bool_decide (l = Some a)))
  end.

Definition move_to_another_node (this : positive) (new_node : ptr) : M unit :=
  it ← load_iter this;
  let old := node_ it in
  catch_rethrow
    (set_node_ this new_node;;
     match new_node with
     | Some n => add_iterator n this
     | None => mret ()
     end)
    (set_node_ this old);;
  match old with
  | Some o => remove_iterator o this
  | None => mret ()
  end.

(** [operator=] *)
Definition s_iterator_assign (this other : positive) : M unit :=
  if decide (this = other) then mret ()
  else
    o ← load_iter other;
    set_container_ this (container_ o);;
    o' ← load_iter other;
    move_to_another_node this (node_ o').

(** [~s_iterator] *)
Definition s_iterator_dtor (this : positive) : M unit :=
  it ← load_iter this;
  match node_ it with
  | Some n => remove_iterator n this
  | None => mret ()
  end;;
  free_iter this.

(** [operator*] *)
Definition deref (this : positive) : M Z :=
  base_assert this;;
  it ← load_iter this;
  a ← nonnull (node_ it);
  get_value a.

(** [operator++()] *)
Definition incr (this : positive) : M unit :=
  base_assert this;;
  it ← load_iter this;
  a ← nonnull (node_ it);
  fuel ← heap_fuel;
  new_node ← lift (λ h, find_next fuel h a);
  move_to_another_node this new_node.

(** [operator--()] *)
Definition decr (this : positive) : M unit :=
  base_assert this;;
  it ← load_iter this;
  a ← nonnull (node_ it);
  fuel ← heap_fuel;
  new_node ← lift (λ h, find_prev fuel h a);
  move_to_another_node this new_node;;
  base_assert this.

(** [operator==] and [operator!=] *)
Definition iter_eq (l r : positive) : M bool :=
  x ← load_iter l;
  y ← load_iter r;
  assert (bool_decide (container_ x = container_ y));;
  assert (bool_decide (container_ x ≠ None));;
  mret (bool_decide (node_ x = node_ y)).

Definition iter_neq (l r : positive) : M bool :=
  b ← iter_eq l r; mret (negb b).

(** [operator++(int)] and [operator--(int)]: the copy [tmp] is returned
    in place (copy elision); it is destroyed when the step throws. *)
Definition post_incr (this : positive) : M positive :=
  tmp ← s_iterator_copy this;
  catch_rethrow (incr this) (s_iterator_dtor tmp);;
  mret tmp.

Definition post_decr (this : positive) : M positive :=
  tmp ← s_iterator_copy this;
  catch_rethrow (decr this) (s_iterator_dtor tmp);;
  mret tmp.

(** [for (auto it : node->share) it->node_ = node;] *)
Fixpoint retarget (xs : list positive) (node : ptr) : M unit :=
  match xs with
  | [] => mret ()
  | i :: xs' => set_node_ i node;; retarget xs' node
  end.

(** [swap(s_iterator& left, s_iterator& right)] *)
Definition swap_iterators (l r : positive) : M unit :=
  x ← load_iter l;
  y ← load_iter r;
  let left_node := node_ x in
  let right_node := node_ y in
  set_container_ l (container_ y);;
  set_container_ r (container_ x);;
  set_node_ l (node_ y);;
  set_node_ r (node_ x);;
  ln ← nonnull left_node;
  n ← load ln;
  retarget (items (share n)) left_node;;
  rn ← nonnull right_node;
  n' ← load rn;
  retarget (items (share n')) right_node.

(** ** [set] *)

Definition take_root (this : positive) : M ptr := get_left this.
Definition put_root (this : positive) (node : ptr) : M unit := set_left this node.

(** [size()] and [empty()] *)
Definition size_ (this : positive) : M Z := load_size this.
Definition empty (this : positive) : M bool := z ← size_ this; mret (z =? 0).

Definition incr_size (this : positive) : M unit :=
  z ← load_size this; store_size this (wrap (z + 1)).
Definition decr_size (this : positive) : M unit :=
  z ← load_size this; store_size this (wrap (z - 1)).

(** [delete p], which does nothing for a null pointer. *)
Definition delete_ptr (p : ptr) : M unit :=
  match p with
  | Some a => delete_node a
  | None => mret ()
  end.

Fixpoint del_subtree (fuel : nat) (d_node : ptr) : M unit :=
  match d_node with
  | None => mret ()
  | Some d =>
      match fuel with
      | O => crash_with OutOfFuel
      | S f =>
          l ← get_left d;
          del_subtree f l;;
          r ← get_right d;
          del_subtree f r;;
          delete_node d
      end
  end.

Fixpoint copy_tree (fuel : nat) (other_root : ptr) : M ptr :=
  match other_root with
  | None => mret None
  | Some o =>
      match fuel with
      | O => crash_with OutOfFuel
      | S f =>
          v ← get_value o;
          (* [new_node] is still null when [new] throws: nothing to tear down *)
          new_node ← catch_rethrow (new_node None None None v) (del_subtree (S f) None);
          catch_rethrow
            (ol ← get_left o;
             match ol with
             | Some _ =>
                 c ← copy_tree f ol;
                 set_left new_node c;;
                 l ← get_left new_node;
                 l' ← nonnull l;
                 set_parent l' (Some new_node)
             | None => mret ()
             end;;
             or ← get_right o;
             match or with
             | Some _ =>
                 c ← copy_tree f or;
                 set_right new_node c;;
                 r ← get_right new_node;
                 r' ← nonnull r;
                 set_parent r' (Some new_node)
             | None => mret ()
             end)
            (fuel' ← heap_fuel; del_subtree fuel' (Some new_node));;
          mret (Some new_node)
      end
  end.

Definition merge (fuel : nat) (left_ right_ : ptr) : M ptr :=
  match left_, right_ with
  | None, _ => mret right_
  | _, None => mret left_
  | Some l, Some r =>
      min_right ← lift (λ h, find_min fuel h r);
      if decide (min_right = r) then
        set_left min_right left_;;
        set_parent l (Some min_right);;
        mret right_
      else
        mp ← get_parent min_right;
        p ← nonnull mp;
        pl ← get_left p;
        (if decide (pl = Some min_right) then
           mr ← get_right min_right;
           set_left p mr;;
           mr ← get_right min_right;
           match mr with
           | Some x => mp ← get_parent min_right; set_parent x mp
           | None => mret ()
           end
         else
           mr ← get_right min_right;
           set_right p mr;;
           mr ← get_right min_right;
           match mr with
           | Some x => mp ← get_parent min_right; set_parent x mp
           | None => mret ()
           end);;
        set_left min_right left_;;
        set_right min_right right_;;
        set_parent l (Some min_right);;
        set_parent r (Some min_right);;
        mret (Some min_right)
  end.

(** [explicit set(const std::size_t size)], constructing the object whose
    storage is at [this]. *)
Definition set_ctor_size (this : positive) (size : Z) : M unit :=
  store this (mk_node None None None empty_vector None);;
  store_size this size;;
  set_left this (Some this);;
  set_parent this (Some this).

(** [set()] *)
Definition set_ctor (this : positive) : M unit := set_ctor_size this 0.

(** The members of a [set] whose constructor threw are destroyed. *)
Definition release_size (this : positive) : M unit := λ st,
  Ok () (with_sizes st (delete this (sizes st))).

Definition destroy_members (this : positive) : M unit :=
  delete_node this;; release_size this.

(** [set(const set& other)] *)
Definition set_copy_ctor (this other : positive) : M unit :=
  z ← size_ other;
  set_ctor_size this z;;
  catch_rethrow
    (catch_rethrow
       (e ← empty other;
        if (e : bool) then mret ()
        else
          r ← take_root other;
          fuel ← heap_fuel;
          c ← copy_tree fuel r;
          put_root this c;;
          r' ← take_root this;
          r'' ← nonnull r';
          set_parent r'' (Some this))
       (store_size this 0))
    (destroy_members this).

(** [clear()] *)
Definition clear (this : positive) : M unit :=
  e ← empty this;
  if (e : bool) then mret ()
  else
    r ← take_root this;
    fuel ← heap_fuel;
    del_subtree fuel r;;
    set_left this None;;
    store_size this 0.

(** [end()].  The source declares [begin()] and [end()] [noexcept]: there,
    a failed allocation while the iterator is registered ends the program
    ([std::terminate]); here it propagates as a throw, which adds runs to
    the model and removes none. *)
Definition end_ (this : positive) : M positive :=
  s_iterator_ctor (Some this) (Some this).

(** [begin()] *)
Definition begin_ (this : positive) : M positive :=
  e ← empty this;
  if (e : bool) then end_ this
  else
    r ← take_root this;
    r' ← nonnull r;
    fuel ← heap_fuel;
    m ← lift (λ h, find_min fuel h r');
    s_iterator_ctor (Some m) (Some this).

(** [return {iterator(...), b};]: the temporary iterator is copied into
    the pair (the class has no move constructor) and then destroyed. *)
Definition pair_of_temporary (mk : M positive) (b : bool) : M (positive * bool) :=
  tmp ← mk;
  r ← scoped (s_iterator_copy tmp) (s_iterator_dtor tmp);
  mret (r, b).

(** The outcome of the descent of [insert]: the node holding the value, or
    the last node visited. *)
Inductive descent :=
  | Found (current : positive)
  | Fell (parent_ : ptr).

Fixpoint insert_loop (fuel : nat) (h : gmap positive sentinel_node) (val : Z)
    (parent_ current : ptr) : outcome descent :=
  match current with
  | None => Val (Fell parent_)
  | Some c =>
      match fuel with
      | O => Bad OutOfFuel
      | S f =>
          match h !! c with
          | None => Bad Undefined
          | Some n =>
              match value_ n with
              | None => Bad Undefined
              | Some x =>
                  if val <? x then insert_loop f h val (Some c) (left n)
                  else if val >? x then insert_loop f h val (Some c) (right n)
                  else Val (Found c)
              end
          end
      end
  end.

(** The handler of the [try] block of [insert]. *)
Definition insert_handler (new_node : ptr) : M unit :=
  if bool_decide (new_node = None) then delete_ptr new_node else mret ().

Definition insert (this : positive) (val : Z) : M (positive * bool) :=
  e ← empty this;
  if (e : bool) then
    a ← new_node None None (Some this) val;
    put_root this (Some a);;
    incr_size this;;
    set_parent this None;;
    catch_rethrow
      (r ← take_root this;
       pair_of_temporary (s_iterator_ctor r (Some this)) true)
      (clear this)
  else
    root ← take_root this;
    fuel ← heap_fuel;
    d ← lift (λ h, insert_loop fuel h val None root);
    match d with
    | Found current =>
        pair_of_temporary (s_iterator_ctor (Some current) (Some this)) false
    | Fell parent_ =>
        it ← s_iterator_default_ctor;
        scoped
          (new_node ← catch_rethrow (new_node None None parent_ val)
                                    (insert_handler None);
           catch_rethrow
             (tmp ← s_iterator_ctor (Some new_node) (Some this);
              scoped (s_iterator_assign it tmp) (s_iterator_dtor tmp))
             (insert_handler (Some new_node));;
           p ← nonnull parent_;
           pv ← get_value p;
           (if val <? pv then set_left p (Some new_node)
            else set_right p (Some new_node));;
           incr_size this;;
           r ← s_iterator_copy it;
           mret (r, true))
          (s_iterator_dtor it)
    end.

(** [erase(const_iterator pos)], after [pos] has been copied from the
    caller's iterator. *)
Definition erase_body (this pos : positive) : M positive :=
  it ← load_iter pos;
  assert (bool_decide (Some this = container_ it));;
  e ← empty this;
  if (e : bool) then end_ this
  else
    it ← load_iter pos;
    node ← nonnull (node_ it);
    fuel ← heap_fuel;
    return_value ← lift (λ h, find_next fuel h node);
    it ← load_iter pos;
    node_to_delete ← nonnull (node_ it);
    dp ← get_parent node_to_delete;
    l ← get_left node_to_delete;
    r ← get_right node_to_delete;
    new_subtree ← merge fuel l r;
    del_parent ← nonnull dp;
    dl ← get_left del_parent;
    (if decide (dl = Some node_to_delete) then set_left del_parent new_subtree
     else set_right del_parent new_subtree);;
    match new_subtree with
    | Some x => set_parent x dp
    | None => mret ()
    end;;
    root ← take_root this;
    (if decide (root = Some node_to_delete)
     then put_root this (match new_subtree with Some _ => new_subtree | None => dp end)
     else mret ());;
    delete_node node_to_delete;;
    decr_size this;;
    s_iterator_ctor return_value (Some this).

Definition erase (this p : positive) : M positive :=
  pos ← s_iterator_copy p;
  scoped (erase_body this pos) (s_iterator_dtor pos).

(** The loops of [lower_bound] and [upper_bound]. *)
Fixpoint lower_bound_loop (fuel : nat) (h : gmap positive sentinel_node) (val : Z)
    (current result : ptr) : outcome ptr :=
  match current with
  | None => Val result
  | Some c =>
      match fuel with
      | O => Bad OutOfFuel
      | S f =>
          match h !! c with
          | None => Bad Undefined
          | Some n =>
              match value_ n with
              | None => Bad Undefined
              | Some x =>
                  if x >=? val then lower_bound_loop f h val (left n) (Some c)
                  else lower_bound_loop f h val (right n) result
              end
          end
      end
  end.

Fixpoint upper_bound_loop (fuel : nat) (h : gmap positive sentinel_node) (val : Z)
    (current result : ptr) : outcome ptr :=
  match current with
  | None => Val result
  | Some c =>
      match fuel with
      | O => Bad OutOfFuel
      | S f =>
          match h !! c with
          | None => Bad Undefined
          | Some n =>
              match value_ n with
              | None => Bad Undefined
              | Some x =>
                  if x >? val then upper_bound_loop f h val (left n) (Some c)
                  else upper_bound_loop f h val (right n) result
              end
          end
      end
  end.

Definition lower_bound (this : positive) (val : Z) : M positive :=
  e ← empty this;
  if (e : bool) then end_ this
  else
    current ← take_root this;
    fuel ← heap_fuel;
    result ← lift (λ h, lower_bound_loop fuel h val current None);
    match result with
    | None => end_ this
    | Some _ => s_iterator_ctor result (Some this)
    end.

Definition upper_bound (this : positive) (val : Z) : M positive :=
  e ← empty this;
  if (e : bool) then end_ this
  else
    current ← take_root this;
    fuel ← heap_fuel;
    result ← lift (λ h, upper_bound_loop fuel h val current None);
    match result with
    | None => end_ this
    | Some _ => s_iterator_ctor result (Some this)
    end.

(** The static [find(root, val)]. *)
Fixpoint find_node (fuel : nat) (h : gmap positive sentinel_node) (root_ : ptr) (val : Z)
    : outcome ptr :=
  match root_ with
  | None => Val None
  | Some r =>
      match fuel with
      | O => Bad OutOfFuel
      | S f =>
          match h !! r with
          | None => Bad Undefined
          | Some n =>
              match value_ n with
              | None => Bad Undefined
              | Some x =>
                  if x =? val then Val root_
                  else if val <? x then find_node f h (left n) val
                  else find_node f h (right n) val
              end
          end
      end
  end.

(** [find(const T& val)] *)
Definition find (this : positive) (val : Z) : M positive :=
  e ← empty this;
  if (e : bool) then end_ this
  else
    r ← take_root this;
    fuel ← heap_fuel;
    it ← lift (λ h, find_node fuel h r val);
    match it with
    | Some _ => s_iterator_ctor it (Some this)
    | None => end_ this
    end.

(** [erase(const T& val)] *)
Definition erase_value (this : positive) (val : Z) : M Z :=
  it ← find this val;
  scoped
    (e ← end_ this;
     b ← scoped (iter_eq it e) (s_iterator_dtor e);
     if (b : bool) then mret 0
     else r ← erase this it; s_iterator_dtor r;; mret 1)
    (s_iterator_dtor it).

(** [swap(set& lhs, set& rhs)] *)
Definition swap_sizes (lhs rhs : positive) : M unit :=
  x ← load_size lhs;
  y ← load_size rhs;
  store_size lhs y;;
  store_size rhs x.

Definition swap (lhs rhs : positive) : M unit :=
  lhs_root ← take_root lhs;
  rhs_left ← take_root rhs;
  swap_nodes lhs rhs;;
  swap_sizes lhs rhs;;
  match lhs_root with
  | Some x => set_parent x (Some rhs)
  | None => mret ()
  end;;
  match rhs_left with
  | Some x => set_parent x (Some lhs)
  | None => mret ()
  end.

(** [~set()], followed by the destruction of the members. *)
Definition set_dtor (this : positive) : M unit :=
  clear this;; destroy_members this.

(** ** Client code *)

(** The loop [for (auto it = s.begin(); it != s.end(); ++it)] pushing every
    dereferenced element to [out]. *)
Fixpoint collect (fuel : nat) (this it : positive) (out : list Z) : M (list Z) :=
  match fuel with
  | O => crash_with OutOfFuel
  | S f =>
      e ← end_ this;
      go ← scoped (iter_neq it e) (s_iterator_dtor e);
      if (go : bool) then
        v ← deref it;
        incr it;;
        collect f this it (out ++ [v])
      else mret out
  end.

Definition to_list (this : positive) : M (list Z) :=
  it ← begin_ this;
  fuel ← heap_fuel;
  scoped (collect fuel this it []) (s_iterator_dtor it).

(** [s.insert(v);] as a statement: the returned pair is a temporary. *)
Definition insert_stmt (this : positive) (v : Z) : M unit :=
  r ← insert this v;
  s_iterator_dtor (fst r).

Fixpoint insert_all (this : positive) (vs : list Z) : M unit :=
  match vs with
  | [] => mret ()
  | v :: vs' => insert_stmt this v;; insert_all this vs'
  end.

(** [erase(pos);] as a statement. *)
Definition erase_stmt (this p : positive) : M unit :=
  r ← erase this p;
  s_iterator_dtor r.

(** Storage for an object with an anchor (a [set] variable coming into
    scope). *)
Definition fresh_addr : M positive := λ st, Ok (fresh (dom (nodes st))) st.

Definition init_state : state := mk_state ∅ ∅ ∅ [].

(** * Verification *)

(** ** The tree a heap represents *)

(** A binary tree that records, for every node, its address and its
    value.  [rep h par t] says that the heap [h] holds [t] as a linked
    structure whose root has parent pointer [par]. *)
Inductive tree :=
  | Leaf
  | Node (l : tree) (a : positive) (v : Z) (r : tree).

Definition root (t : tree) : ptr :=
  match t with
  | Leaf => None
  | Node _ a _ _ => Some a
  end.

Fixpoint elems (t : tree) : list (positive * Z) :=
  match t with
  | Leaf => []
  | Node l a v r => elems l ++ (a, v) :: elems r
  end.

Definition addrs (t : tree) : list positive := (elems t).*1.
Definition values (t : tree) : list Z := (elems t).*2.

Fixpoint count (t : tree) : nat :=
  match t with
  | Leaf => O
  | Node l _ _ r => S (count l + count r)
  end.

Fixpoint bst (t : tree) : Prop :=
  match t with
  | Leaf => True
  | Node l _ v r =>
      Forall (λ x, x < v) (values l) ∧ Forall (λ x, v < x) (values r) ∧ bst l ∧ bst r
  end.

(** The pointer fields and the value of a node, without its [share]. *)
Definition lnk (n : sentinel_node) : ptr * ptr * ptr * option Z :=
  (left n, right n, parent n, value_ n).

Fixpoint rep (h : gmap positive sentinel_node) (par : ptr) (t : tree) : Prop :=
  match t with
  | Leaf => True
  | Node l a v r =>
      lnk <$> h !! a = Some (root l, root r, par, Some v)
      ∧ rep h (Some a) l ∧ rep h (Some a) r
  end.

(** Two heaps with the same nodes and the same links. *)
Definition same_links (h h' : gmap positive sentinel_node) : Prop :=
  ∀ a, lnk <$> h' !! a = lnk <$> h !! a.

Implicit Types (h : gmap positive sentinel_node) (t l r : tree) (st : state).
Implicit Types (a b s i : positive) (par : ptr) (n : sentinel_node).

Lemma addrs_node l a v r : addrs (Node l a v r) = addrs l ++ a :: addrs r.
Proof. unfold addrs. simpl. by rewrite fmap_app. Qed.

Lemma values_node l a v r : values (Node l a v r) = values l ++ v :: values r.
Proof. unfold values. simpl. by rewrite fmap_app. Qed.

Lemma addrs_length t : length (addrs t) = count t.
Proof.
  induction t as [|l IHl a v r IHr]; [done|].
  rewrite addrs_node, length_app. simpl. lia.
Qed.

Lemma values_length t : length (values t) = count t.
Proof. unfold values. rewrite length_fmap, <- addrs_length. unfold addrs. by rewrite length_fmap. Qed.

Lemma lnk_lookup h a x :
  lnk <$> h !! a = Some x →
  ∃ n, h !! a = Some n ∧ left n = x.1.1.1 ∧ right n = x.1.1.2
       ∧ parent n = x.1.2 ∧ value_ n = x.2.
Proof.
  destruct (h !! a) as [n|]; [|done]. intros [= <-]. by exists n.
Qed.

Lemma same_links_refl h : same_links h h.
Proof. by intros a. Qed.

Lemma same_links_sym h h' : same_links h h' → same_links h' h.
Proof. intros H a. by rewrite H. Qed.

Lemma same_links_trans h1 h2 h3 :
  same_links h1 h2 → same_links h2 h3 → same_links h1 h3.
Proof. intros H1 H2 a. by rewrite H2, H1. Qed.

Lemma same_links_dom h h' : same_links h h' → dom h' = dom h.
Proof.
  intros H. apply set_eq. intros a. rewrite !elem_of_dom.
  specialize (H a). destruct (h !! a), (h' !! a); naive_solver.
Qed.

Lemma same_links_size h h' : same_links h h' → size h' = size h.
Proof.
  intros H. rewrite <- !size_dom. by rewrite (same_links_dom _ _ H).
Qed.

(** [rep] only looks at the links of the nodes of the tree. *)
Lemma rep_frame h h' par t :
  (∀ a, a ∈ addrs t → lnk <$> h' !! a = lnk <$> h !! a) →
  rep h par t → rep h' par t.
Proof.
  revert par. induction t as [|l IHl a v r IHr]; intros par Hag; [done|].
  simpl. intros (Ha & Hl & Hr). rewrite addrs_node in Hag. split_and!.
  - rewrite Hag; [done|]. set_solver.
  - apply IHl; [|done]. intros b Hb. apply Hag. set_solver.
  - apply IHr; [|done]. intros b Hb. apply Hag. set_solver.
Qed.

Lemma rep_same_links h h' par t : same_links h h' → rep h par t → rep h' par t.
Proof. intros H. apply rep_frame. intros a _. apply H. Qed.

Lemma rep_in_dom h par t a : rep h par t → a ∈ addrs t → is_Some (h !! a).
Proof.
  revert par. induction t as [|l IHl b v r IHr]; intros par; simpl.
  - intros _ Ha. by apply elem_of_nil in Ha.
  - intros (Hb & Hl & Hr). rewrite addrs_node.
    intros [Ha|Ha]%elem_of_app; [by eapply IHl|].
    apply elem_of_cons in Ha as [->|Ha]; [|by eapply IHr].
    destruct (h !! b); [by eexists|done].
Qed.

(** Every node of a represented tree holds a value. *)
Lemma rep_value h par t a :
  rep h par t → a ∈ addrs t → ∃ n v, h !! a = Some n ∧ value_ n = Some v ∧ (a, v) ∈ elems t.
Proof.
  revert par. induction t as [|l IHl b v r IHr]; intros par; simpl.
  - intros _ Ha. by apply elem_of_nil in Ha.
  - intros (Hb & Hl & Hr). rewrite addrs_node.
    intros [Ha|Ha]%elem_of_app.
    + destruct (IHl _ Hl Ha) as (n & w & ? & ? & ?). exists n, w. set_solver.
    + apply elem_of_cons in Ha as [->|Ha].
      * apply lnk_lookup in Hb as (n & ? & ? & ? & ? & ?). exists n, v. set_solver.
      * destruct (IHr _ Hr Ha) as (n & w & ? & ? & ?). exists n, w. set_solver.
Qed.

(** ** The pointer-chasing loops only read links *)

Lemma same_links_lookup h h' a :
  same_links h h' →
  match h !! a, h' !! a with
  | Some n, Some n' =>
      left n' = left n ∧ right n' = right n ∧ parent n' = parent n ∧ value_ n' = value_ n
  | None, None => True
  | _, _ => False
  end.
Proof.
  intros H. specialize (H a). unfold lnk in H.
  destruct (h !! a), (h' !! a); simplify_eq/=; done.
Qed.

Ltac links_at H a :=
  let P := fresh "P" in
  pose proof (same_links_lookup _ _ a H) as P;
  destruct (_ !! a) as [?n|], (_ !! a) as [?n|]; try done;
  destruct P as (?Hl & ?Hr & ?Hp & ?Hv).

Lemma find_min_links h h' fuel a :
  same_links h h' → find_min fuel h' a = find_min fuel h a.
Proof.
  intros H. revert a. induction fuel as [|f IH]; intros a; [done|]. simpl.
  links_at H a. rewrite Hl. destruct (left n); eauto.
Qed.

Lemma find_max_links h h' fuel a :
  same_links h h' → find_max fuel h' a = find_max fuel h a.
Proof.
  intros H. revert a. induction fuel as [|f IH]; intros a; [done|]. simpl.
  links_at H a. rewrite Hr. destruct (right n); eauto.
Qed.

Lemma climb_right_links h h' fuel a par :
  same_links h h' → climb_right fuel h' a par = climb_right fuel h a par.
Proof.
  intros H. revert a par. induction fuel as [|f IH]; intros a [p|]; try done. simpl.
  links_at H p. rewrite Hr, Hp. case_decide; eauto.
Qed.

Lemma climb_left_links h h' fuel a par :
  same_links h h' → climb_left fuel h' a par = climb_left fuel h a par.
Proof.
  intros H. revert a par. induction fuel as [|f IH]; intros a [p|]; try done. simpl.
  links_at H p. rewrite Hl, Hp. case_decide; eauto.
Qed.

Lemma find_next_links h h' fuel a :
  same_links h h' → find_next fuel h' a = find_next fuel h a.
Proof.
  intros H. unfold find_next. links_at H a. rewrite Hr, Hp.
  destruct (right n); [by rewrite (find_min_links _ _ _ _ H)|].
  by apply climb_right_links.
Qed.

Lemma find_prev_links h h' fuel a :
  same_links h h' → find_prev fuel h' a = find_prev fuel h a.
Proof.
  intros H. unfold find_prev. links_at H a. rewrite Hl, Hp.
  destruct (left n); [by rewrite (find_max_links _ _ _ _ H)|].
  by apply climb_left_links.
Qed.

Lemma insert_loop_links h h' fuel v par cur :
  same_links h h' → insert_loop fuel h' v par cur = insert_loop fuel h v par cur.
Proof.
  intros H. revert par cur. induction fuel as [|f IH]; intros par [c|]; try done. simpl.
  links_at H c. rewrite Hl, Hr, Hv. destruct (value_ n); [|done].
  repeat case_match; eauto.
Qed.

Lemma lower_bound_loop_links h h' fuel v cur res :
  same_links h h' → lower_bound_loop fuel h' v cur res = lower_bound_loop fuel h v cur res.
Proof.
  intros H. revert cur res. induction fuel as [|f IH]; intros [c|] res; try done. simpl.
  links_at H c. rewrite Hl, Hr, Hv. destruct (value_ n); [|done].
  repeat case_match; eauto.
Qed.

Lemma upper_bound_loop_links h h' fuel v cur res :
  same_links h h' → upper_bound_loop fuel h' v cur res = upper_bound_loop fuel h v cur res.
Proof.
  intros H. revert cur res. induction fuel as [|f IH]; intros [c|] res; try done. simpl.
  links_at H c. rewrite Hl, Hr, Hv. destruct (value_ n); [|done].
  repeat case_match; eauto.
Qed.

(** ** The loops on a represented tree *)

(** Leftmost and rightmost address of the tree with root [a] and left
    (right) subtree [t]. *)
Fixpoint tmin (t : tree) (a : positive) : positive :=
  match t with
  | Leaf => a
  | Node l b _ _ => tmin l b
  end.

Fixpoint tmax (t : tree) (a : positive) : positive :=
  match t with
  | Leaf => a
  | Node _ b _ r => tmax r b
  end.

Fixpoint tdescend (t : tree) (v : Z) (par : ptr) : descent :=
  match t with
  | Leaf => Fell par
  | Node l a x r =>
      if v <? x then tdescend l v (Some a)
      else if v >? x then tdescend r v (Some a)
      else Found a
  end.

Fixpoint tlower (t : tree) (v : Z) (res : ptr) : ptr :=
  match t with
  | Leaf => res
  | Node l a x r => if x >=? v then tlower l v (Some a) else tlower r v res
  end.

Fixpoint tupper (t : tree) (v : Z) (res : ptr) : ptr :=
  match t with
  | Leaf => res
  | Node l a x r => if x >? v then tupper l v (Some a) else tupper r v res
  end.

Lemma rep_node h par l a v r :
  rep h par (Node l a v r) →
  ∃ n, h !! a = Some n ∧ left n = root l ∧ right n = root r ∧ parent n = par
       ∧ value_ n = Some v ∧ rep h (Some a) l ∧ rep h (Some a) r.
Proof.
  simpl. intros (Ha & Hl & Hr).
  apply lnk_lookup in Ha as (n & ? & ? & ? & ? & ?). by exists n.
Qed.

Ltac rep_inv H :=
  apply rep_node in H as (?n & ?Hn & ?Hleft & ?Hright & ?Hparent & ?Hvalue & ?Hrepl & ?Hrepr).

Lemma find_min_rep h par l a v r fuel :
  rep h par (Node l a v r) → (count l < fuel)%nat →
  find_min fuel h a = Val (tmin l a).
Proof.
  revert par a v r fuel. induction l as [|ll IHl b w lr _]; intros par a v r fuel H Hf.
  - rep_inv H. destruct fuel; [lia|]. simpl. by rewrite Hn, Hleft.
  - rep_inv H. destruct fuel; [lia|]. simpl. rewrite Hn, Hleft. simpl.
    eapply IHl; [done|]. simpl in Hf. lia.
Qed.

Lemma find_max_rep h par l a v r fuel :
  rep h par (Node l a v r) → (count r < fuel)%nat →
  find_max fuel h a = Val (tmax r a).
Proof.
  revert par a v l fuel. induction r as [|rl _ b w rr IHr]; intros par a v l fuel H Hf.
  - rep_inv H. destruct fuel; [lia|]. simpl. by rewrite Hn, Hright.
  - rep_inv H. destruct fuel; [lia|]. simpl. rewrite Hn, Hright. simpl.
    eapply IHr; [done|]. simpl in Hf. lia.
Qed.

Lemma insert_loop_rep h par t fuel v p :
  rep h par t → (count t < fuel)%nat →
  insert_loop fuel h v p (root t) = Val (tdescend t v p).
Proof.
  revert par fuel p. induction t as [|l IHl a x r IHr]; intros par fuel p H Hf; [by destruct fuel|].
  rep_inv H. destruct fuel; [lia|]. simpl in *. rewrite Hn, Hvalue, Hleft, Hright.
  repeat case_match; [eapply IHl|eapply IHr|]; eauto; lia.
Qed.

Lemma lower_bound_loop_rep h par t fuel v res :
  rep h par t → (count t < fuel)%nat →
  lower_bound_loop fuel h v (root t) res = Val (tlower t v res).
Proof.
  revert par fuel res. induction t as [|l IHl a x r IHr]; intros par fuel res H Hf; [by destruct fuel|].
  rep_inv H. destruct fuel; [lia|]. simpl in *. rewrite Hn, Hvalue, Hleft, Hright.
  case_match; [eapply IHl|eapply IHr]; eauto; lia.
Qed.

Lemma upper_bound_loop_rep h par t fuel v res :
  rep h par t → (count t < fuel)%nat →
  upper_bound_loop fuel h v (root t) res = Val (tupper t v res).
Proof.
  revert par fuel res. induction t as [|l IHl a x r IHr]; intros par fuel res H Hf; [by destruct fuel|].
  rep_inv H. destruct fuel; [lia|]. simpl in *. rewrite Hn, Hvalue, Hleft, Hright.
  case_match; [eapply IHl|eapply IHr]; eauto; lia.
Qed.

(** ** Running the monad *)

Lemma bind_unfold {A B} (m : M A) (f : A → M B) st :
  (m ≫= f) st = match m st with
                | Ok a st' => f a st'
                | Throw st' => Throw st'
                | Crash c => Crash c
                end.
Proof. done. Qed.

Lemma bind_ok {A B} (m : M A) (f : A → M B) st (x : A) st' :
  m st = Ok x st' → (m ≫= f) st = f x st'.
Proof. intros H. by rewrite bind_unfold, H. Qed.

Lemma ret_unfold {A} (x : A) st : (mret x : M A) st = Ok x st.
Proof. done. Qed.

Lemma scoped_ok {A} (m : M A) d st (x : A) st' st'' :
  m st = Ok x st' → d st' = Ok () st'' → scoped m d st = Ok x st''.
Proof. intros H1 H2. unfold scoped. by rewrite H1, H2. Qed.

Lemma catch_rethrow_ok {A} (m : M A) hd st (x : A) st' :
  m st = Ok x st' → catch_rethrow m hd st = Ok x st'.
Proof. intros H. unfold catch_rethrow. by rewrite H. Qed.

Lemma lift_val {A} (f : gmap positive sentinel_node → outcome A) st (x : A) :
  f (nodes st) = Val x → lift f st = Ok x st.
Proof. intros H. unfold lift. by rewrite H. Qed.

Ltac sstate :=
  cbn [nodes sizes iters oracle with_nodes with_sizes with_iters with_oracle
       left right parent share value_ with_left with_right with_parent with_share
       node_ container_ items capacity fst snd] in *.

Lemma load_run st a n : nodes st !! a = Some n → load a st = Ok n st.
Proof. intros H. unfold load. by rewrite H. Qed.

Lemma get_left_run st a n : nodes st !! a = Some n → get_left a st = Ok (left n) st.
Proof. intros H. unfold get_left. by rewrite (bind_ok _ _ _ _ _ (load_run _ _ _ H)). Qed.

Lemma get_right_run st a n : nodes st !! a = Some n → get_right a st = Ok (right n) st.
Proof. intros H. unfold get_right. by rewrite (bind_ok _ _ _ _ _ (load_run _ _ _ H)). Qed.

Lemma get_parent_run st a n : nodes st !! a = Some n → get_parent a st = Ok (parent n) st.
Proof. intros H. unfold get_parent. by rewrite (bind_ok _ _ _ _ _ (load_run _ _ _ H)). Qed.

Lemma get_value_run st a n v :
  nodes st !! a = Some n → value_ n = Some v → get_value a st = Ok v st.
Proof.
  intros H Hv. unfold get_value. rewrite (bind_ok _ _ _ _ _ (load_run _ _ _ H)).
  by rewrite Hv.
Qed.

Lemma modify_run st a n f :
  nodes st !! a = Some n → modify a f st = Ok () (with_nodes st (<[a := f n]> (nodes st))).
Proof. intros H. unfold modify. by rewrite (bind_ok _ _ _ _ _ (load_run _ _ _ H)). Qed.

Lemma set_left_run st a n p :
  nodes st !! a = Some n →
  set_left a p st = Ok () (with_nodes st (<[a := with_left n p]> (nodes st))).
Proof. apply modify_run. Qed.

Lemma set_right_run st a n p :
  nodes st !! a = Some n →
  set_right a p st = Ok () (with_nodes st (<[a := with_right n p]> (nodes st))).
Proof. apply modify_run. Qed.

Lemma set_parent_run st a n p :
  nodes st !! a = Some n →
  set_parent a p st = Ok () (with_nodes st (<[a := with_parent n p]> (nodes st))).
Proof. apply modify_run. Qed.

Lemma load_iter_run st i it : iters st !! i = Some it → load_iter i st = Ok it st.
Proof. intros H. unfold load_iter. by rewrite H. Qed.

Lemma set_node__run st i it p :
  iters st !! i = Some it →
  set_node_ i p st = Ok () (with_iters st (<[i := mk_iterator p (container_ it)]> (iters st))).
Proof. intros H. unfold set_node_. by rewrite (bind_ok _ _ _ _ _ (load_iter_run _ _ _ H)). Qed.

Lemma set_container__run st i it c :
  iters st !! i = Some it →
  set_container_ i c st = Ok () (with_iters st (<[i := mk_iterator (node_ it) c]> (iters st))).
Proof. intros H. unfold set_container_. by rewrite (bind_ok _ _ _ _ _ (load_iter_run _ _ _ H)). Qed.

Lemma load_size_run st s z : sizes st !! s = Some z → load_size s st = Ok z st.
Proof. intros H. unfold load_size. by rewrite H. Qed.

Lemma empty_run st s z : sizes st !! s = Some z → empty s st = Ok (z =? 0) st.
Proof.
  intros H. unfold empty, size_. by rewrite (bind_ok _ _ _ _ _ (load_size_run _ _ _ H)).
Qed.

Lemma heap_fuel_run st : heap_fuel st = Ok (S (size (nodes st))) st.
Proof. done. Qed.

(** ** Registration of iterators when no allocation fails *)

Definition pushed (v : vector) (i : positive) : vector :=
  mk_vector (items v ++ [i])
    (if (length (items v) <? capacity v)%nat then capacity v else S (length (items v))).

Definition removed (v : vector) (i : positive) : vector :=
  mk_vector (remove_first i (items v)) (capacity v).

Lemma push_back_run st v i :
  oracle st = [] → push_back v i st = Ok (pushed v i) st.
Proof.
  intros Ho. unfold push_back, pushed. case_match; [done|].
  rewrite bind_unfold. unfold alloc_ok. by rewrite Ho.
Qed.

Lemma add_iterator_run st a n i :
  nodes st !! a = Some n → oracle st = [] →
  add_iterator a i st
  = Ok () (with_nodes st (<[a := with_share n (pushed (share n) i)]> (nodes st))).
Proof.
  intros H Ho. unfold add_iterator.
  rewrite (bind_ok _ _ _ _ _ (load_run _ _ _ H)).
  by rewrite (bind_ok _ _ _ _ _ (push_back_run _ _ _ Ho)).
Qed.

Lemma remove_iterator_run st a n i :
  nodes st !! a = Some n →
  remove_iterator a i st
  = Ok () (with_nodes st (<[a := with_share n (removed (share n) i)]> (nodes st))).
Proof.
  intros H. unfold remove_iterator.
  by rewrite (bind_ok _ _ _ _ _ (load_run _ _ _ H)).
Qed.

(** The heap after an iterator registered with, or left, the node at [a]. *)
Definition reg (a : positive) (i : positive) (h : gmap positive sentinel_node)
    : gmap positive sentinel_node :=
  alter (λ n, with_share n (pushed (share n) i)) a h.

Definition unreg (a : positive) (i : positive) (h : gmap positive sentinel_node)
    : gmap positive sentinel_node :=
  alter (λ n, with_share n (removed (share n) i)) a h.

Lemma insert_as_alter h a n (f : sentinel_node → sentinel_node) :
  h !! a = Some n → <[a := f n]> h = alter f a h.
Proof.
  intros H. apply map_eq. intros b. destruct (decide (a = b)) as [->|Hne].
  - by rewrite lookup_insert_eq, lookup_alter_eq, H.
  - by rewrite lookup_insert_ne, lookup_alter_ne.
Qed.

Lemma alter_share_links h a (f : vector → vector) :
  same_links h (alter (λ n, with_share n (f (share n))) a h).
Proof.
  intros b. destruct (decide (a = b)) as [->|Hne].
  - rewrite lookup_alter_eq. by destruct (h !! b).
  - by rewrite lookup_alter_ne.
Qed.

Lemma reg_links h a i : same_links h (reg a i h).
Proof. apply (alter_share_links h a (λ v, pushed v i)). Qed.

Lemma unreg_links h a i : same_links h (unreg a i h).
Proof. apply (alter_share_links h a (λ v, removed v i)). Qed.

Definition reg_opt (p : ptr) (i : positive) (h : gmap positive sentinel_node) :=
  match p with
  | Some a => reg a i h
  | None => h
  end.

Definition unreg_opt (p : ptr) (i : positive) (h : gmap positive sentinel_node) :=
  match p with
  | Some a => unreg a i h
  | None => h
  end.

(** A pointer that is null or designates a live node. *)
Definition valid_ptr h (p : ptr) : Prop :=
  match p with
  | Some a => is_Some (h !! a)
  | None => True
  end.

Lemma reg_opt_links h p i : same_links h (reg_opt p i h).
Proof. destruct p; [apply reg_links|apply same_links_refl]. Qed.

Lemma unreg_opt_links h p i : same_links h (unreg_opt p i h).
Proof. destruct p; [apply unreg_links|apply same_links_refl]. Qed.

Lemma valid_ptr_links h h' p : same_links h h' → valid_ptr h p → valid_ptr h' p.
Proof.
  intros H. destruct p as [a|]; [|done]. simpl. rewrite <- !elem_of_dom.
  by rewrite (same_links_dom _ _ H).
Qed.

Lemma add_iterator_reg st a i :
  is_Some (nodes st !! a) → oracle st = [] →
  add_iterator a i st = Ok () (with_nodes st (reg a i (nodes st))).
Proof.
  intros [n Hn] Ho. rewrite (add_iterator_run _ _ _ _ Hn Ho). unfold reg.
  by rewrite (insert_as_alter _ _ _ (λ n, with_share n (pushed (share n) i)) Hn).
Qed.

Lemma remove_iterator_unreg st a i :
  is_Some (nodes st !! a) →
  remove_iterator a i st = Ok () (with_nodes st (unreg a i (nodes st))).
Proof.
  intros [n Hn]. rewrite (remove_iterator_run _ _ _ _ Hn). unfold unreg.
  by rewrite (insert_as_alter _ _ _ (λ n, with_share n (removed (share n) i)) Hn).
Qed.

Lemma append_to_node_run st i it :
  iters st !! i = Some it → valid_ptr (nodes st) (node_ it) → oracle st = [] →
  append_to_node i st = Ok () (with_nodes st (reg_opt (node_ it) i (nodes st))).
Proof.
  intros Hi Hv Ho. unfold append_to_node. apply catch_rethrow_ok.
  rewrite (bind_ok _ _ _ _ _ (load_iter_run _ _ _ Hi)).
  destruct (node_ it) as [a|]; simpl.
  - by apply add_iterator_reg.
  - by destruct st.
Qed.

Lemma s_iterator_ctor_run st p c :
  valid_ptr (nodes st) p → oracle st = [] →
  s_iterator_ctor p c st
  = Ok (fresh (dom (iters st)))
       (mk_state (reg_opt p (fresh (dom (iters st))) (nodes st)) (sizes st)
          (<[fresh (dom (iters st)) := mk_iterator p c]> (iters st)) (oracle st)).
Proof.
  intros Hv Ho. unfold s_iterator_ctor, new_iter. rewrite bind_unfold.
  set (i := fresh (dom (iters st))).
  unfold constructing. rewrite bind_unfold.
  by rewrite (catch_rethrow_ok _ _ _ _ _
    (append_to_node_run (with_iters st _) i (mk_iterator p c)
       (lookup_insert_eq _ _ _) Hv Ho)).
Qed.

Lemma s_iterator_copy_run st j it :
  iters st !! j = Some it →
  s_iterator_copy j st = s_iterator_ctor (node_ it) (container_ it) st.
Proof.
  intros Hj. unfold s_iterator_copy.
  by rewrite (bind_ok _ _ _ _ _ (load_iter_run _ _ _ Hj)).
Qed.

Lemma s_iterator_dtor_run st i it :
  iters st !! i = Some it → valid_ptr (nodes st) (node_ it) →
  s_iterator_dtor i st
  = Ok () (mk_state (unreg_opt (node_ it) i (nodes st)) (sizes st)
             (delete i (iters st)) (oracle st)).
Proof.
  intros Hi Hv. unfold s_iterator_dtor.
  rewrite (bind_ok _ _ _ _ _ (load_iter_run _ _ _ Hi)).
  destruct (node_ it) as [a|]; simpl.
  - by rewrite (bind_ok _ _ _ _ _ (remove_iterator_unreg _ _ _ Hv)).
  - by rewrite bind_unfold.
Qed.

Lemma move_to_another_node_run st i it p :
  iters st !! i = Some it → valid_ptr (nodes st) (node_ it) →
  valid_ptr (nodes st) p → oracle st = [] →
  move_to_another_node i p st
  = Ok () (mk_state (unreg_opt (node_ it) i (reg_opt p i (nodes st))) (sizes st)
             (<[i := mk_iterator p (container_ it)]> (iters st)) (oracle st)).
Proof.
  intros Hi Hv Hp Ho. unfold move_to_another_node.
  rewrite (bind_ok _ _ _ _ _ (load_iter_run _ _ _ Hi)).
  rewrite bind_unfold. unfold catch_rethrow.
  rewrite (bind_ok _ _ _ _ _ (set_node__run _ _ _ _ Hi)).
  destruct p as [a|]; simpl.
  - rewrite add_iterator_reg; [|done..]. sstate.
    destruct (node_ it) as [o|]; simpl; [|done].
    rewrite remove_iterator_unreg; [done|]. sstate.
    eapply (valid_ptr_links _ _ (Some o)); [apply reg_links|done].
  - destruct (node_ it) as [o|]; simpl; [|done].
    by rewrite remove_iterator_unreg.
Qed.

(** ** The invariant of a container *)

(** The [set] object at [s] holds the tree [t]: its anchor is a plain
    [sentinel_node] whose right pointer is null, [size_] counts the nodes of
    [t], and, unless the set is empty, the anchor's left pointer is the root
    of a search tree laid out on the heap without sharing. *)
Definition set_inv st s t : Prop :=
  ∃ n, nodes st !! s = Some n ∧ value_ n = None ∧ right n = None
       ∧ sizes st !! s = Some (Z.of_nat (count t))
       ∧ Z.of_nat (count t) < size_max
       ∧ (t ≠ Leaf → left n = root t)
       ∧ rep (nodes st) (Some s) t ∧ NoDup (addrs t) ∧ bst t.

Lemma fresh_iter_not_in st : iters st !! fresh (dom (iters st)) = None.
Proof. apply not_elem_of_dom, is_fresh. Qed.

Lemma fresh_node_not_in st : nodes st !! fresh (dom (nodes st)) = None.
Proof. apply not_elem_of_dom, is_fresh. Qed.

Lemma lookup_fresh_ne {V} (m : gmap positive V) j x :
  m !! j = Some x → j ≠ fresh (dom m).
Proof.
  intros Hj ->. assert (fresh (dom m) ∉ dom m) as Hn by apply is_fresh.
  apply Hn, elem_of_dom. by eexists.
Qed.

(** ** Erasing from an empty container *)

(** [erase] in an empty container with an iterator of that container. *)
Lemma erase_empty_run st s p it :
  is_Some (nodes st !! s) →
  sizes st !! s = Some 0 →
  iters st !! p = Some it →
  container_ it = Some s →
  valid_ptr (nodes st) (node_ it) →
  oracle st = [] →
  ∃ q st',
    erase s p st = Ok q st'
    ∧ iters st' !! q = Some (mk_iterator (Some s) (Some s))
    ∧ same_links (nodes st) (nodes st')
    ∧ sizes st' = sizes st
    ∧ (∀ j x, iters st !! j = Some x → iters st' !! j = Some x).
Proof.
  intros Hs Hz Hp Hc Hv Ho.
  set (pos := fresh (dom (iters st))).
  set (st1 := mk_state (reg_opt (node_ it) pos (nodes st)) (sizes st)
                (<[pos := mk_iterator (node_ it) (container_ it)]> (iters st)) (oracle st)).
  set (q := fresh (dom (iters st1))).
  set (st2 := mk_state (reg s q (nodes st1)) (sizes st1)
                (<[q := mk_iterator (Some s) (Some s)]> (iters st1)) (oracle st1)).
  assert (iters st1 !! pos = Some (mk_iterator (node_ it) (container_ it))) as Hpos
    by apply lookup_insert_eq.
  assert (same_links (nodes st) (nodes st1)) as Hl1 by apply reg_opt_links.
  assert (erase_body s pos st1 = Ok q st2) as Hbody.
  { unfold erase_body.
    rewrite (bind_ok _ _ _ _ _ (load_iter_run _ _ _ Hpos)). sstate.
    rewrite Hc, bool_decide_eq_true_2 by done. simpl.
    rewrite bind_unfold, ret_unfold.
    rewrite (bind_ok _ _ _ _ _ (empty_run st1 _ _ Hz)). simpl.
    unfold end_. rewrite s_iterator_ctor_run; [done| |done].
    by apply (valid_ptr_links _ _ (Some s) Hl1). }
  assert (q ≠ pos) as Hrp.
  { intros E. pose proof (fresh_iter_not_in st1) as Hf. fold q in Hf. congruence. }
  assert (iters st2 !! pos = Some (mk_iterator (node_ it) (container_ it))) as Hpos2.
  { unfold st2. sstate. by rewrite lookup_insert_ne. }
  assert (same_links (nodes st1) (nodes st2)) as Hl2 by apply reg_links.
  assert (valid_ptr (nodes st2) (node_ it)) as Hv2.
  { eapply valid_ptr_links; [|done]. by eapply same_links_trans. }
  eexists q, _. split; [|split_and!].
  - unfold erase.
    rewrite bind_unfold, (s_iterator_copy_run _ _ _ Hp), (s_iterator_ctor_run _ _ _ Hv Ho).
    eapply scoped_ok; [done|]. by apply (s_iterator_dtor_run _ _ _ Hpos2).
  - unfold st2. sstate. rewrite lookup_delete_ne, lookup_insert_eq; done.
  - sstate. eapply same_links_trans; [|apply unreg_opt_links].
    by eapply same_links_trans.
  - done.
  - intros j x Hj. unfold st2. sstate.
    pose proof (lookup_fresh_ne _ _ _ Hj) as Hjp. fold pos in Hjp.
    assert (iters st1 !! j = Some x) as Hj1.
    { unfold st1. sstate. by rewrite lookup_insert_ne. }
    pose proof (lookup_fresh_ne _ _ _ Hj1) as Hjr. fold q in Hjr.
    rewrite lookup_delete_ne, lookup_insert_ne by done. done.
Qed.

(** [erase] with an iterator whose [container_] is not this set: the
    assertion [this == pos.container_] fails. *)
Lemma erase_foreign_asserts st s p it :
  iters st !! p = Some it → container_ it ≠ Some s →
  valid_ptr (nodes st) (node_ it) → oracle st = [] →
  erase s p st = Crash AssertFailed.
Proof.
  intros Hp Hc Hv Ho. unfold erase.
  rewrite bind_unfold, (s_iterator_copy_run _ _ _ Hp), (s_iterator_ctor_run _ _ _ Hv Ho).
  unfold scoped, erase_body.
  rewrite (bind_ok _ _ _ _ _ (load_iter_run _ _ _ (lookup_insert_eq _ _ _))). sstate.
  by rewrite bool_decide_eq_false_2 by congruence.
Qed.

(** C10 (as amended).  In an empty container ([size_] is zero), [erase]
    called with an iterator of that container (its [container_] is this
    set, its node is null or live, as is the case for [end()]) returns
    normally, without a failed assertion; the iterator returned is
    positioned on the anchor, like [end()]; no node is freed and no link,
    value or size changes; the iterators that existed before the call are
    untouched. Called with any other iterator (one built by [s_iterator()],
    or one of another set), [erase] fails the assertion
    [this == pos.container_]. *)
Theorem erase_empty_returns_end st s p it :
  is_Some (nodes st !! s) →
  sizes st !! s = Some 0 →
  iters st !! p = Some it →
  valid_ptr (nodes st) (node_ it) →
  oracle st = [] →
  (container_ it = Some s →
   ∃ q st',
     erase s p st = Ok q st'
     ∧ iters st' !! q = Some (mk_iterator (Some s) (Some s))
     ∧ same_links (nodes st) (nodes st')
     ∧ sizes st' = sizes st
     ∧ (∀ j x, iters st !! j = Some x → iters st' !! j = Some x))
  ∧ (container_ it ≠ Some s → erase s p st = Crash AssertFailed).
Proof.
  intros Hs Hz Hp Hv Ho. split.
  - intros Hc. by apply (erase_empty_run st s p it).
  - intros Hc. by apply (erase_foreign_asserts st s p it).
Qed.

(** The state a program ends in, started on the empty heap. *)
Definition final_state {A} (m : M A) : state :=
  match m init_state with
  | Ok _ st => st
  | Throw st => st
  | Crash _ => init_state
  end.

(** A default-constructed set together with an iterator from [end()]. *)
Definition empty_set_with_end : M positive :=
  s ← fresh_addr; set_ctor s;; end_ s.

(** A default-constructed set together with an iterator built by
    [s_iterator()], and two default-constructed sets together with an
    iterator from [end()] of the second. *)
Definition empty_set_with_default : M positive :=
  s ← fresh_addr; set_ctor s;; s_iterator_default_ctor.

Definition two_empty_sets_with_end : M positive :=
  a ← fresh_addr; set_ctor a;; b ← fresh_addr; set_ctor b;; end_ b.

Lemma erase_empty_returns_end_witness :
  (∃ q st',
     erase 1 1 (final_state empty_set_with_end) = Ok q st'
     ∧ iters st' !! q = Some (mk_iterator (Some 1%positive) (Some 1%positive))
     ∧ same_links (nodes (final_state empty_set_with_end)) (nodes st')
     ∧ sizes st' = sizes (final_state empty_set_with_end)
     ∧ (∀ j x, iters (final_state empty_set_with_end) !! j = Some x →
               iters st' !! j = Some x))
  ∧ erase 1 1 (final_state two_empty_sets_with_end) = Crash AssertFailed.
Proof.
  split.
  - apply (erase_empty_returns_end (final_state empty_set_with_end) 1 1
             (mk_iterator (Some 1%positive) (Some 1%positive)));
      vm_compute; eauto.
  - apply (erase_empty_returns_end (final_state two_empty_sets_with_end) 1 1
             (mk_iterator (Some 2%positive) (Some 2%positive)));
      vm_compute; eauto; congruence.
Defined.

(** C10 (counterexample).  In an empty set, [erase] with an iterator built
    by [s_iterator()], and [erase] with the iterator from [end()] of
    another set, fail the assertion [this == pos.container_]: they do not
    return [end()]. *)
Lemma erase_empty_other_iterator :
  (empty 1 (final_state empty_set_with_default)
   = Ok true (final_state empty_set_with_default)
   ∧ iters (final_state empty_set_with_default) !! 1%positive
     = Some (mk_iterator None None)
   ∧ erase 1 1 (final_state empty_set_with_default) = Crash AssertFailed)
  ∧ (empty 1 (final_state two_empty_sets_with_end)
     = Ok true (final_state two_empty_sets_with_end)
     ∧ iters (final_state two_empty_sets_with_end) !! 1%positive
       = Some (mk_iterator (Some 2%positive) (Some 2%positive))
     ∧ erase 1 1 (final_state two_empty_sets_with_end) = Crash AssertFailed).
Proof. vm_compute. repeat split. Qed.

(** ** Searching a search tree *)

Lemma elems_values t a v : (a, v) ∈ elems t → v ∈ values t.
Proof. intros H. unfold values. apply list_elem_of_fmap. by exists (a, v). Qed.

Lemma elems_addrs t a v : (a, v) ∈ elems t → a ∈ addrs t.
Proof. intros H. unfold addrs. apply list_elem_of_fmap. by exists (a, v). Qed.

Lemma values_elems t v : v ∈ values t → ∃ a, (a, v) ∈ elems t.
Proof.
  unfold values. intros ([a w] & -> & H)%list_elem_of_fmap. by exists a.
Qed.

Lemma elems_node l a v r x : x ∈ elems (Node l a v r) ↔ x ∈ elems l ∨ x = (a, v) ∨ x ∈ elems r.
Proof. simpl. rewrite elem_of_app, elem_of_cons. tauto. Qed.

Lemma in_values_node l a v r x :
  x ∈ values (Node l a v r) ↔ x ∈ values l ∨ x = v ∨ x ∈ values r.
Proof. rewrite values_node, elem_of_app, elem_of_cons. tauto. Qed.

Lemma in_addrs_node l a v r b :
  b ∈ addrs (Node l a v r) ↔ b ∈ addrs l ∨ b = a ∨ b ∈ addrs r.
Proof. rewrite addrs_node, elem_of_app, elem_of_cons. tauto. Qed.

(** [lower_bound]: the result is the address of the least element that is
    not less than [v], or the initial [res] when there is none. *)
Lemma tlower_spec t v res :
  bst t →
  (tlower t v res = res ∧ ∀ y, y ∈ values t → y < v)
  ∨ (∃ a x, tlower t v res = Some a ∧ (a, x) ∈ elems t ∧ v ≤ x
            ∧ ∀ y, y ∈ values t → v ≤ y → x ≤ y).
Proof.
  revert res. induction t as [|l IHl a x r IHr]; intros res Hb.
  - left. split; [done|]. intros y Hy. by apply elem_of_nil in Hy.
  - destruct Hb as (Hlt & Hgt & Hbl & Hbr). rewrite Forall_forall in Hlt, Hgt. simpl.
    destruct (Z.geb_spec x v) as [Hxv|Hxv].
    + right. destruct (IHl (Some a) Hbl) as [[-> Hall]|(b & y & -> & Hin & Hvy & Hleast)].
      * exists a, x. split_and!; [done|apply elems_node; auto|lia|].
        intros y [Hy|[->|Hy]]%in_values_node Hvy; [|lia|].
        -- specialize (Hall _ Hy). lia.
        -- specialize (Hgt _ Hy). lia.
      * exists b, y. split_and!; [done|apply elems_node; auto|done|].
        pose proof (Hlt _ (elems_values _ _ _ Hin)) as Hyx.
        intros z [Hz|[->|Hz]]%in_values_node Hvz; [by apply Hleast|lia|].
        specialize (Hgt _ Hz). lia.
    + destruct (IHr res Hbr) as [[-> Hall]|(b & y & -> & Hin & Hvy & Hleast)].
      * left. split; [done|].
        intros y [Hy|[->|Hy]]%in_values_node; [|lia|by apply Hall].
        specialize (Hlt _ Hy). lia.
      * right. exists b, y. split_and!; [done|apply elems_node; auto|done|].
        intros z [Hz|[->|Hz]]%in_values_node Hvz; [|lia|by apply Hleast].
        specialize (Hlt _ Hz). lia.
Qed.

(** [upper_bound]: the least element greater than [v]. *)
Lemma tupper_spec t v res :
  bst t →
  (tupper t v res = res ∧ ∀ y, y ∈ values t → y ≤ v)
  ∨ (∃ a x, tupper t v res = Some a ∧ (a, x) ∈ elems t ∧ v < x
            ∧ ∀ y, y ∈ values t → v < y → x ≤ y).
Proof.
  revert res. induction t as [|l IHl a x r IHr]; intros res Hb.
  - left. split; [done|]. intros y Hy. by apply elem_of_nil in Hy.
  - destruct Hb as (Hlt & Hgt & Hbl & Hbr). rewrite Forall_forall in Hlt, Hgt. simpl.
    destruct (Z.gtb_spec x v) as [Hxv|Hxv].
    + right. destruct (IHl (Some a) Hbl) as [[-> Hall]|(b & y & -> & Hin & Hvy & Hleast)].
      * exists a, x. split_and!; [done|apply elems_node; auto|lia|].
        intros y [Hy|[->|Hy]]%in_values_node Hvy; [|lia|].
        -- specialize (Hall _ Hy). lia.
        -- specialize (Hgt _ Hy). lia.
      * exists b, y. split_and!; [done|apply elems_node; auto|done|].
        pose proof (Hlt _ (elems_values _ _ _ Hin)) as Hyx.
        intros z [Hz|[->|Hz]]%in_values_node Hvz; [by apply Hleast|lia|].
        specialize (Hgt _ Hz). lia.
    + destruct (IHr res Hbr) as [[-> Hall]|(b & y & -> & Hin & Hvy & Hleast)].
      * left. split; [done|].
        intros y [Hy|[->|Hy]]%in_values_node; [|lia|by apply Hall].
        specialize (Hlt _ Hy). lia.
      * right. exists b, y. split_and!; [done|apply elems_node; auto|done|].
        intros z [Hz|[->|Hz]]%in_values_node Hvz; [|lia|by apply Hleast].
        specialize (Hlt _ Hz). lia.
Qed.

(** ** Facts about represented trees *)

Lemma count_le_size h par t : rep h par t → NoDup (addrs t) → (count t ≤ size h)%nat.
Proof.
  intros Hrep Hnd. rewrite <- addrs_length, <- size_dom.
  unfold size, set_size. simpl. apply submseteq_length, NoDup_submseteq; [done|].
  intros a Ha. apply elem_of_elements, elem_of_dom. by eapply rep_in_dom.
Qed.

Lemma NoDup_node l a v r :
  NoDup (addrs (Node l a v r)) →
  NoDup (addrs l) ∧ NoDup (addrs r) ∧ (a ∉ addrs l) ∧ (a ∉ addrs r)
  ∧ (∀ x, x ∈ addrs l → x ∉ addrs r).
Proof.
  rewrite addrs_node. intros (Hl & Hd & Hr)%NoDup_app.
  apply NoDup_cons in Hr as [Ha Hr]. split_and!; try done.
  - intros Hin. apply (Hd _ Hin). set_solver.
  - intros x Hx Hxr. apply (Hd _ Hx). set_solver.
Qed.

Lemma root_in_addrs t a : root t = Some a → a ∈ addrs t.
Proof. destruct t; [done|]. intros [= ->]. apply in_addrs_node. auto. Qed.

(** The subtree below a node of the tree. *)
Lemma rep_subtree h par t a :
  rep h par t → NoDup (addrs t) → a ∈ addrs t →
  ∃ l v r p, rep h p (Node l a v r) ∧ NoDup (addrs (Node l a v r))
             ∧ (a, v) ∈ elems t
             ∧ (∀ x, x ∈ addrs (Node l a v r) → x ∈ addrs t).
Proof.
  revert par. induction t as [|l IHl b w r IHr]; intros par Hrep Hnd Ha.
  - by apply elem_of_nil in Ha.
  - pose proof (NoDup_node _ _ _ _ Hnd) as (Hndl & Hndr & _).
    pose proof Hrep as Hrep'. simpl in Hrep'. destruct Hrep' as (_ & Hl & Hr).
    apply in_addrs_node in Ha as [Ha|[->|Ha]].
    + destruct (IHl _ Hl Hndl Ha) as (l' & v & r' & p & ? & ? & ? & Hsub).
      exists l', v, r', p. split_and!; [done..|apply elems_node; auto|].
      intros x Hx. apply in_addrs_node. auto.
    + exists l, w, r, par. split_and!; [done..|apply elems_node; auto|done].
    + destruct (IHr _ Hr Hndr Ha) as (l' & v & r' & p & ? & ? & ? & Hsub).
      exists l', v, r', p. split_and!; [done..|apply elems_node; auto|].
      intros x Hx. apply in_addrs_node. auto.
Qed.

(** A node of the tree: it is live, holds its value, and its left pointer
    is not a self reference. *)
Lemma rep_elem h par t a v :
  rep h par t → NoDup (addrs t) → (a, v) ∈ elems t →
  ∃ n, h !! a = Some n ∧ value_ n = Some v ∧ left n ≠ Some a.
Proof.
  revert par. induction t as [|l IHl b w r IHr]; intros par Hrep Hnd Ha.
  - by apply elem_of_nil in Ha.
  - pose proof (NoDup_node _ _ _ _ Hnd) as (Hndl & Hndr & Hbl & _).
    rep_inv Hrep. apply elems_node in Ha as [Ha|[[= -> ->]|Ha]]; [by eapply IHl| |by eapply IHr].
    exists n. split_and!; [done..|]. rewrite Hleft. intros E. by apply Hbl, root_in_addrs.
Qed.

Lemma NoDup_fst_functional (l : list (positive * Z)) a v w :
  NoDup l.*1 → (a, v) ∈ l → (a, w) ∈ l → v = w.
Proof.
  induction l as [|[b x] l IH]; intros Hnd Hv Hw; [by apply elem_of_nil in Hv|].
  rewrite fmap_cons in Hnd. apply NoDup_cons in Hnd as [Hb Hnd]. simpl in Hb.
  apply elem_of_cons in Hv as [Hv|Hv]; apply elem_of_cons in Hw as [Hw|Hw];
    simplify_eq; try done.
  - exfalso. apply Hb, list_elem_of_fmap. by exists (b, w).
  - exfalso. apply Hb, list_elem_of_fmap. by exists (b, v).
  - by apply IH.
Qed.

Lemma NoDup_addrs_elems t a v w :
  NoDup (addrs t) → (a, v) ∈ elems t → (a, w) ∈ elems t → v = w.
Proof. apply NoDup_fst_functional. Qed.

Lemma base_assert_run st i it a n :
  iters st !! i = Some it → node_ it = Some a →
  nodes st !! a = Some n → left n ≠ Some a →
  base_assert i st = Ok () st.
Proof.
  intros Hi Hnode Hn Hl. unfold base_assert.
  rewrite (bind_ok _ _ _ _ _ (load_iter_run _ _ _ Hi)), Hnode.
  rewrite (bind_ok _ _ _ _ _ (get_left_run _ _ _ Hn)).
  by rewrite bool_decide_eq_false_2.
Qed.

Lemma deref_run st i it a n v :
  iters st !! i = Some it → node_ it = Some a →
  nodes st !! a = Some n → left n ≠ Some a → value_ n = Some v →
  deref i st = Ok v st.
Proof.
  intros Hi Hnode Hn Hl Hv. unfold deref.
  rewrite (bind_ok _ _ _ _ _ (base_assert_run _ _ _ _ _ Hi Hnode Hn Hl)).
  rewrite (bind_ok _ _ _ _ _ (load_iter_run _ _ _ Hi)), Hnode. simpl.
  rewrite bind_unfold, ret_unfold. by apply get_value_run with n.
Qed.

(** Dereferencing only depends on the links. *)
Lemma same_links_elem h h' a n v :
  same_links h h' → h !! a = Some n → value_ n = Some v → left n ≠ Some a →
  ∃ n', h' !! a = Some n' ∧ value_ n' = Some v ∧ left n' ≠ Some a.
Proof.
  intros H Hn Hv Hl. pose proof (same_links_lookup _ _ a H) as P.
  rewrite Hn in P. destruct (h' !! a) as [n'|]; [|done].
  destruct P as (El & _ & _ & Ev). exists n'. by rewrite El, Ev.
Qed.

Lemma set_inv_fuel st s t : set_inv st s t → (count t < S (size (nodes st)))%nat.
Proof.
  intros (n & _ & _ & _ & _ & _ & _ & Hrep & Hnd & _).
  pose proof (count_le_size _ _ _ Hrep Hnd). lia.
Qed.

Lemma count_zero t : count t = O → t = Leaf.
Proof. by destruct t. Qed.

(** A new iterator on [p]: what the rest of the state looks like. *)
Lemma s_iterator_ctor_spec st p c :
  valid_ptr (nodes st) p → oracle st = [] →
  ∃ q st',
    s_iterator_ctor p c st = Ok q st'
    ∧ iters st' !! q = Some (mk_iterator p c)
    ∧ iters st !! q = None
    ∧ same_links (nodes st) (nodes st')
    ∧ sizes st' = sizes st
    ∧ oracle st' = []
    ∧ (∀ j x, iters st !! j = Some x → iters st' !! j = Some x).
Proof.
  intros Hv Ho. eexists _, _. split; [by apply s_iterator_ctor_run|]. sstate.
  split_and!; [apply lookup_insert_eq|apply fresh_iter_not_in|apply reg_opt_links|done..|].
  intros j x Hj. rewrite lookup_insert_ne; [done|].
  apply not_eq_sym. by eapply lookup_fresh_ne.
Qed.

Lemma set_inv_anchor st s t :
  set_inv st s t → ∃ n, nodes st !! s = Some n ∧ value_ n = None ∧ right n = None.
Proof. intros (n & ? & ? & ? & _). by exists n. Qed.

Lemma set_inv_anchor_not_in st s t : set_inv st s t → s ∉ addrs t.
Proof.
  intros (n & Hn & Hv & _ & _ & _ & _ & Hrep & _) Hin.
  destruct (rep_value _ _ _ _ Hrep Hin) as (n' & v & Hn' & Hv' & _). congruence.
Qed.

Lemma lower_bound_spec st s t v :
  set_inv st s t → oracle st = [] →
  ∃ q st' p,
    lower_bound s v st = Ok q st'
    ∧ iters st' !! q = Some (mk_iterator (Some p) (Some s))
    ∧ same_links (nodes st) (nodes st')
    ∧ sizes st' = sizes st
    ∧ ((p = s ∧ ∀ y, y ∈ values t → y < v)
       ∨ (∃ x, (p, x) ∈ elems t ∧ v ≤ x ∧ (∀ y, y ∈ values t → v ≤ y → x ≤ y)
               ∧ deref q st' = Ok x st')).
Proof.
  intros Hinv Ho. pose proof (set_inv_fuel _ _ _ Hinv) as Hfuel.
  destruct Hinv as (n & Hn & Hval & Hright & Hsz & Hbound & Hroot & Hrep & Hnd & Hbst).
  assert (valid_ptr (nodes st) (Some s)) as Hvs by (by eexists).
  unfold lower_bound. rewrite (bind_ok _ _ _ _ _ (empty_run _ _ _ Hsz)).
  destruct (Z.eqb_spec (Z.of_nat (count t)) 0) as [Hz|Hz].
  { assert (t = Leaf) as -> by (apply count_zero; lia).
    destruct (s_iterator_ctor_spec st (Some s) (Some s) Hvs Ho)
      as (q & st' & Hrun & Hq & _ & Hl & Hs & _).
    exists q, st', s. split_and!; [done..|]. left. split; [done|].
    intros y Hy. by apply elem_of_nil in Hy. }
  assert (t ≠ Leaf) as Hne by (intros ->; simpl in Hz; lia).
  unfold take_root. rewrite (bind_ok _ _ _ _ _ (get_left_run _ _ _ Hn)).
  rewrite (bind_ok _ _ _ _ _ (heap_fuel_run _)).
  assert (lower_bound_loop (S (size (nodes st))) (nodes st) v (left n) None
          = Val (tlower t v None)) as Hloop.
  { rewrite (Hroot Hne). by eapply lower_bound_loop_rep. }
  rewrite (bind_ok _ _ _ _ _
    (lift_val (λ h, lower_bound_loop _ h v (left n) None) st _ Hloop)).
  destruct (tlower_spec t v None Hbst) as [[-> Hall]|(a & x & -> & Hin & Hvx & Hleast)].
  - destruct (s_iterator_ctor_spec st (Some s) (Some s) Hvs Ho)
      as (q & st' & Hrun & Hq & _ & Hl & Hs & _).
    exists q, st', s. split_and!; [done..|]. by left.
  - destruct (rep_elem _ _ _ _ _ Hrep Hnd Hin) as (na & Hna & Hva & Hla).
    assert (valid_ptr (nodes st) (Some a)) as Hva' by (by eexists).
    destruct (s_iterator_ctor_spec st (Some a) (Some s) Hva' Ho)
      as (q & st' & Hrun & Hq & _ & Hl & Hs & _).
    exists q, st', a. split_and!; [done..|]. right. exists x. split_and!; [done..|].
    destruct (same_links_elem _ _ _ _ _ Hl Hna Hva Hla) as (n' & Hn' & Hv' & Hl').
    by eapply deref_run.
Qed.

Lemma upper_bound_spec st s t v :
  set_inv st s t → oracle st = [] →
  ∃ q st' p,
    upper_bound s v st = Ok q st'
    ∧ iters st' !! q = Some (mk_iterator (Some p) (Some s))
    ∧ same_links (nodes st) (nodes st')
    ∧ sizes st' = sizes st
    ∧ ((p = s ∧ ∀ y, y ∈ values t → y ≤ v)
       ∨ (∃ x, (p, x) ∈ elems t ∧ v < x ∧ (∀ y, y ∈ values t → v < y → x ≤ y)
               ∧ deref q st' = Ok x st')).
Proof.
  intros Hinv Ho. pose proof (set_inv_fuel _ _ _ Hinv) as Hfuel.
  destruct Hinv as (n & Hn & Hval & Hright & Hsz & Hbound & Hroot & Hrep & Hnd & Hbst).
  assert (valid_ptr (nodes st) (Some s)) as Hvs by (by eexists).
  unfold upper_bound. rewrite (bind_ok _ _ _ _ _ (empty_run _ _ _ Hsz)).
  destruct (Z.eqb_spec (Z.of_nat (count t)) 0) as [Hz|Hz].
  { assert (t = Leaf) as -> by (apply count_zero; lia).
    destruct (s_iterator_ctor_spec st (Some s) (Some s) Hvs Ho)
      as (q & st' & Hrun & Hq & _ & Hl & Hs & _).
    exists q, st', s. split_and!; [done..|]. left. split; [done|].
    intros y Hy. by apply elem_of_nil in Hy. }
  assert (t ≠ Leaf) as Hne by (intros ->; simpl in Hz; lia).
  unfold take_root. rewrite (bind_ok _ _ _ _ _ (get_left_run _ _ _ Hn)).
  rewrite (bind_ok _ _ _ _ _ (heap_fuel_run _)).
  assert (upper_bound_loop (S (size (nodes st))) (nodes st) v (left n) None
          = Val (tupper t v None)) as Hloop.
  { rewrite (Hroot Hne). by eapply upper_bound_loop_rep. }
  rewrite (bind_ok _ _ _ _ _
    (lift_val (λ h, upper_bound_loop _ h v (left n) None) st _ Hloop)).
  destruct (tupper_spec t v None Hbst) as [[-> Hall]|(a & x & -> & Hin & Hvx & Hleast)].
  - destruct (s_iterator_ctor_spec st (Some s) (Some s) Hvs Ho)
      as (q & st' & Hrun & Hq & _ & Hl & Hs & _).
    exists q, st', s. split_and!; [done..|]. by left.
  - destruct (rep_elem _ _ _ _ _ Hrep Hnd Hin) as (na & Hna & Hva & Hla).
    assert (valid_ptr (nodes st) (Some a)) as Hva' by (by eexists).
    destruct (s_iterator_ctor_spec st (Some a) (Some s) Hva' Ho)
      as (q & st' & Hrun & Hq & _ & Hl & Hs & _).
    exists q, st', a. split_and!; [done..|]. right. exists x. split_and!; [done..|].
    destruct (same_links_elem _ _ _ _ _ Hl Hna Hva Hla) as (n' & Hn' & Hv' & Hl').
    by eapply deref_run.
Qed.

(** C7.  On every set, [lower_bound(v)] returns an iterator to the least
    element that is not less than [v], [upper_bound(v)] an iterator to the
    least element greater than [v], and each returns an iterator on the
    anchor, the position of [end()], when there is no such element.  Neither
    changes a link, a value or a size. *)
Theorem bounds_spec st s t v :
  set_inv st s t → oracle st = [] →
  (∃ q st' p,
     lower_bound s v st = Ok q st'
     ∧ iters st' !! q = Some (mk_iterator (Some p) (Some s))
     ∧ same_links (nodes st) (nodes st')
     ∧ sizes st' = sizes st
     ∧ ((p = s ∧ ∀ y, y ∈ values t → y < v)
        ∨ (∃ x, (p, x) ∈ elems t ∧ v ≤ x ∧ (∀ y, y ∈ values t → v ≤ y → x ≤ y)
                ∧ deref q st' = Ok x st')))
  ∧ (∃ q st' p,
       upper_bound s v st = Ok q st'
       ∧ iters st' !! q = Some (mk_iterator (Some p) (Some s))
       ∧ same_links (nodes st) (nodes st')
       ∧ sizes st' = sizes st
       ∧ ((p = s ∧ ∀ y, y ∈ values t → y ≤ v)
          ∨ (∃ x, (p, x) ∈ elems t ∧ v < x ∧ (∀ y, y ∈ values t → v < y → x ≤ y)
                  ∧ deref q st' = Ok x st'))).
Proof.
  intros Hinv Ho. split; [by apply lower_bound_spec|by apply upper_bound_spec].
Qed.

(** The set {1, 3, 5, 7}, built by inserting 5, 3, 7 and 1 into a
    default-constructed set; the set object is at address 1. *)
Definition set_1357 : M unit :=
  s ← fresh_addr; set_ctor s;; insert_all s [5; 3; 7; 1].

Definition tree_1357 : tree :=
  Node (Node (Node Leaf 5 1 Leaf) 3 3 Leaf) 2 5 (Node Leaf 4 7 Leaf).

Ltac concrete_inv :=
  eexists; split_and!;
    [vm_compute; reflexivity
    |reflexivity
    |reflexivity
    |vm_compute; reflexivity
    |vm_compute; reflexivity
    |intros ?H; first [reflexivity | by destruct H]
    |vm_compute; tauto
    |apply (bool_decide_unpack _); vm_compute; exact I
    |simpl; repeat first [split | apply Forall_nil_2 | apply Forall_cons_2 | lia]].

Lemma set_1357_inv : set_inv (final_state set_1357) 1 tree_1357.
Proof. concrete_inv. Qed.

(** What an operation returning an iterator designates: the value under
    the iterator, or [None] when the iterator is on the anchor of [s]. *)
Definition designated (s : positive) (m : M positive) (st : state) : option (option Z) :=
  match m st with
  | Ok q st' =>
      match iters st' !! q with
      | Some it =>
          if bool_decide (node_ it = Some s) then Some None
          else match deref q st' with
               | Ok x _ => Some (Some x)
               | _ => None
               end
      | None => None
      end
  | _ => None
  end.

(** The examples of the specification. *)
Example bounds_on_1357 :
  let st := final_state set_1357 in
  designated 1 (lower_bound 1 2) st = Some (Some 3)
  ∧ designated 1 (lower_bound 1 3) st = Some (Some 3)
  ∧ designated 1 (lower_bound 1 4) st = Some (Some 5)
  ∧ designated 1 (lower_bound 1 8) st = Some None
  ∧ designated 1 (upper_bound 1 2) st = Some (Some 3)
  ∧ designated 1 (upper_bound 1 3) st = Some (Some 5)
  ∧ designated 1 (upper_bound 1 7) st = Some None.
Proof. vm_compute. tauto. Qed.

Lemma bounds_spec_witness :
  set_inv (final_state set_1357) 1 tree_1357
  ∧ oracle (final_state set_1357) = []
  ∧ (∃ q st' p,
       lower_bound 1 2 (final_state set_1357) = Ok q st'
       ∧ iters st' !! q = Some (mk_iterator (Some p) (Some 1%positive))
       ∧ same_links (nodes (final_state set_1357)) (nodes st')
       ∧ sizes st' = sizes (final_state set_1357)
       ∧ ((p = 1%positive ∧ ∀ y, y ∈ values tree_1357 → y < 2)
          ∨ (∃ x, (p, x) ∈ elems tree_1357 ∧ 2 ≤ x
                  ∧ (∀ y, y ∈ values tree_1357 → 2 ≤ y → x ≤ y)
                  ∧ deref q st' = Ok x st'))).
Proof.
  split; [apply set_1357_inv|]. split; [reflexivity|].
  apply (bounds_spec (final_state set_1357) 1 tree_1357 2);
    [apply set_1357_inv|reflexivity].
Defined.

(** ** Iterator bookkeeping leaves the tree alone *)

(** The part of the state that operations on iterators never change: the
    nodes with their links and values, the sizes, and the oracle. *)
Definition frame st st' : Prop :=
  same_links (nodes st) (nodes st') ∧ sizes st' = sizes st ∧ oracle st' = oracle st.

Lemma frame_refl st : frame st st.
Proof. split_and!; [apply same_links_refl|done..]. Qed.

Lemma frame_trans st1 st2 st3 : frame st1 st2 → frame st2 st3 → frame st1 st3.
Proof.
  intros (H1 & H2 & H3) (H1' & H2' & H3'). split_and!; [|congruence..].
  by eapply same_links_trans.
Qed.

Lemma frame_valid st st' p : frame st st' → valid_ptr (nodes st) p → valid_ptr (nodes st') p.
Proof. intros (H & _). by apply valid_ptr_links. Qed.

Lemma set_inv_frame st st' s t : frame st st' → set_inv st s t → set_inv st' s t.
Proof.
  intros (Hl & Hs & _) (n & Hn & Hv & Hr & Hsz & Hb & Hroot & Hrep & Hnd & Hbst).
  pose proof (same_links_lookup _ _ s Hl) as P. rewrite Hn in P.
  destruct (nodes st' !! s) as [n'|] eqn:Hn'; [|done].
  destruct P as (El & Er & Ep & Ev). exists n'.
  split_and!; try done; try congruence.
  - intros Hne. rewrite El. by apply Hroot.
  - by eapply rep_same_links.
Qed.

Lemma iterator_eta (it : s_iterator) : mk_iterator (node_ it) (container_ it) = it.
Proof. by destruct it. Qed.

Lemma s_iterator_ctor_frame st p c :
  valid_ptr (nodes st) p → oracle st = [] →
  ∃ q st',
    s_iterator_ctor p c st = Ok q st'
    ∧ iters st !! q = None
    ∧ iters st' = <[q := mk_iterator p c]> (iters st)
    ∧ frame st st'.
Proof.
  intros Hv Ho. eexists _, _. split; [by apply s_iterator_ctor_run|]. sstate.
  split_and!; [apply fresh_iter_not_in|done|]. split_and!; [apply reg_opt_links|done..].
Qed.

Lemma s_iterator_copy_frame st j it :
  iters st !! j = Some it → valid_ptr (nodes st) (node_ it) → oracle st = [] →
  ∃ q st',
    s_iterator_copy j st = Ok q st'
    ∧ iters st !! q = None
    ∧ iters st' = <[q := it]> (iters st)
    ∧ frame st st'.
Proof.
  intros Hj Hv Ho. rewrite (s_iterator_copy_run _ _ _ Hj).
  destruct (s_iterator_ctor_frame st (node_ it) (container_ it) Hv Ho)
    as (q & st' & ? & ? & Hi & ?).
  rewrite iterator_eta in Hi. by exists q, st'.
Qed.

Lemma s_iterator_dtor_frame st i it :
  iters st !! i = Some it → valid_ptr (nodes st) (node_ it) →
  ∃ st',
    s_iterator_dtor i st = Ok () st'
    ∧ iters st' = delete i (iters st)
    ∧ frame st st'.
Proof.
  intros Hi Hv. eexists. split; [by eapply s_iterator_dtor_run|]. sstate.
  split; [done|]. split_and!; [apply unreg_opt_links|done..].
Qed.

Lemma move_to_another_node_frame st i it p :
  iters st !! i = Some it → valid_ptr (nodes st) (node_ it) →
  valid_ptr (nodes st) p → oracle st = [] →
  ∃ st',
    move_to_another_node i p st = Ok () st'
    ∧ iters st' = <[i := mk_iterator p (container_ it)]> (iters st)
    ∧ frame st st'.
Proof.
  intros Hi Hv Hp Ho. eexists. split; [by eapply move_to_another_node_run|]. sstate.
  split; [done|]. split_and!; [|done..].
  eapply same_links_trans; [apply reg_opt_links|apply unreg_opt_links].
Qed.

Lemma s_iterator_assign_frame st i j it o :
  i ≠ j → iters st !! i = Some it → iters st !! j = Some o →
  valid_ptr (nodes st) (node_ it) → valid_ptr (nodes st) (node_ o) → oracle st = [] →
  ∃ st',
    s_iterator_assign i j st = Ok () st'
    ∧ iters st' = <[i := o]> (iters st)
    ∧ frame st st'.
Proof.
  intros Hij Hi Hj Hv Hvo Ho. unfold s_iterator_assign.
  rewrite decide_False by done.
  rewrite (bind_ok _ _ _ _ _ (load_iter_run _ _ _ Hj)).
  rewrite (bind_ok _ _ _ _ _ (set_container__run _ _ _ _ Hi)).
  set (st1 := with_iters st _).
  assert (iters st1 !! j = Some o) as Hj1.
  { unfold st1. sstate. by rewrite lookup_insert_ne. }
  assert (iters st1 !! i = Some (mk_iterator (node_ it) (container_ o))) as Hi1.
  { unfold st1. sstate. by rewrite lookup_insert_eq. }
  rewrite (bind_ok _ _ _ _ _ (load_iter_run _ _ _ Hj1)).
  destruct (move_to_another_node_frame st1 i _ (node_ o) Hi1 Hv Hvo Ho)
    as (st' & Hrun & Hit & Hfr).
  exists st'. split; [done|]. split.
  - rewrite Hit. unfold st1. sstate. by rewrite insert_insert_eq, iterator_eta.
  - exact Hfr.
Qed.

(** [pair_of_temporary]: one new iterator remains. *)
Lemma pair_of_temporary_frame st p c (b : bool) :
  valid_ptr (nodes st) p → oracle st = [] →
  ∃ q st',
    pair_of_temporary (s_iterator_ctor p c) b st = Ok (q, b) st'
    ∧ iters st !! q = None
    ∧ iters st' = <[q := mk_iterator p c]> (iters st)
    ∧ frame st st'.
Proof.
  intros Hv Ho. unfold pair_of_temporary.
  destruct (s_iterator_ctor_frame st p c Hv Ho) as (tmp & st1 & Hrun1 & Hfresh1 & Hit1 & Hfr1).
  rewrite (bind_ok _ _ _ _ _ Hrun1).
  assert (iters st1 !! tmp = Some (mk_iterator p c)) as Htmp
    by (rewrite Hit1; apply lookup_insert_eq).
  assert (oracle st1 = []) as Ho1 by (destruct Hfr1 as (_ & _ & ->); done).
  destruct (s_iterator_copy_frame st1 tmp _ Htmp (frame_valid _ _ _ Hfr1 Hv) Ho1)
    as (q & st2 & Hrun2 & Hfresh2 & Hit2 & Hfr2).
  assert (q ≠ tmp) as Hne by congruence.
  assert (iters st2 !! tmp = Some (mk_iterator p c)) as Htmp2.
  { rewrite Hit2. by rewrite lookup_insert_ne. }
  destruct (s_iterator_dtor_frame st2 tmp _ Htmp2
              (frame_valid _ _ _ (frame_trans _ _ _ Hfr1 Hfr2) Hv))
    as (st3 & Hrun3 & Hit3 & Hfr3).
  exists q, st3. split_and!.
  - by rewrite (bind_ok _ _ _ _ _ (scoped_ok _ _ _ _ _ _ Hrun2 Hrun3)).
  - rewrite Hit1 in Hfresh2. by rewrite lookup_insert_ne in Hfresh2.
  - rewrite Hit3, Hit2, Hit1.
    rewrite delete_insert_ne by done. rewrite delete_insert_eq.
    by rewrite delete_id.
  - eauto using frame_trans.
Qed.

(** ** Insertion on the tree *)

(** The tree after [insert] attached a new node at address [a]. *)
Fixpoint tins (t : tree) (v : Z) (a : positive) : tree :=
  match t with
  | Leaf => Node Leaf a v Leaf
  | Node l b x r =>
      if v <? x then Node (tins l v a) b x r
      else if v >? x then Node l b x (tins r v a)
      else t
  end.

Lemma tdescend_found t v p a : tdescend t v p = Found a → (a, v) ∈ elems t.
Proof.
  revert p. induction t as [|l IHl b x r IHr]; intros p; simpl; [done|].
  destruct (Z.ltb_spec v x); [intros ?%IHl; set_solver|].
  destruct (Z.gtb_spec v x); [intros ?%IHr; set_solver|].
  intros [= ->]. assert (v = x) as -> by lia. set_solver.
Qed.

Lemma tdescend_fell t v p q : bst t → tdescend t v p = Fell q → v ∉ values t.
Proof.
  revert p. induction t as [|l IHl b x r IHr]; intros p Hb; simpl.
  - intros _ H. by apply elem_of_nil in H.
  - destruct Hb as (Hlt & Hgt & Hbl & Hbr). rewrite Forall_forall in Hlt, Hgt.
    destruct (Z.ltb_spec v x).
    + intros Hd [Hv|[->|Hv]]%in_values_node; [by eapply IHl|lia|].
      specialize (Hgt _ Hv). lia.
    + destruct (Z.gtb_spec v x); [|done].
      intros Hd [Hv|[->|Hv]]%in_values_node; [|lia|by eapply IHr].
      specialize (Hlt _ Hv). lia.
Qed.

Lemma tdescend_present t v p :
  bst t → v ∈ values t → ∃ a, tdescend t v p = Found a ∧ (a, v) ∈ elems t.
Proof.
  intros Hb Hv. destruct (tdescend t v p) as [a|q] eqn:Hd.
  - exists a. split; [done|]. by eapply tdescend_found.
  - by destruct (tdescend_fell _ _ _ _ Hb Hd).
Qed.

Lemma tins_root t v a : t ≠ Leaf → root (tins t v a) = root t.
Proof. destruct t as [|l b x r]; [done|]. intros _. simpl. by repeat case_match. Qed.

Lemma tins_elems t v a p q x :
  tdescend t v p = Fell q →
  x ∈ elems (tins t v a) ↔ x = (a, v) ∨ x ∈ elems t.
Proof.
  revert p. induction t as [|l IHl b y r IHr]; intros p; simpl.
  - intros _. set_solver.
  - destruct (Z.ltb_spec v y).
    { intros Hd. rewrite elems_node, (IHl _ Hd), elem_of_app, elem_of_cons. tauto. }
    destruct (Z.gtb_spec v y); [|done].
    intros Hd. rewrite elems_node, (IHr _ Hd), elem_of_app, elem_of_cons. tauto.
Qed.

Lemma tins_values t v a p q x :
  tdescend t v p = Fell q →
  x ∈ values (tins t v a) ↔ x = v ∨ x ∈ values t.
Proof.
  intros Hd. split.
  - intros [b Hb]%values_elems. apply (tins_elems _ _ _ _ _ _ Hd) in Hb as [[= -> ->]|Hb];
      [by left|right; by eapply elems_values].
  - intros [->|[b Hb]%values_elems]; eapply elems_values, (tins_elems _ _ _ _ _ _ Hd); eauto.
Qed.

Lemma tins_addrs t v a p q b :
  tdescend t v p = Fell q →
  b ∈ addrs (tins t v a) ↔ b = a ∨ b ∈ addrs t.
Proof.
  revert p. induction t as [|l IHl c y r IHr]; intros p; simpl.
  - intros _. rewrite in_addrs_node. set_solver.
  - destruct (Z.ltb_spec v y).
    { intros Hd. rewrite !in_addrs_node, (IHl _ Hd). tauto. }
    destruct (Z.gtb_spec v y); [|done].
    intros Hd. rewrite !in_addrs_node, (IHr _ Hd). tauto.
Qed.

Lemma tins_count t v a p q :
  tdescend t v p = Fell q → count (tins t v a) = S (count t).
Proof.
  revert p. induction t as [|l IHl c y r IHr]; intros p; simpl; [done|].
  destruct (Z.ltb_spec v y); [intros Hd; simpl; by rewrite (IHl _ Hd)|].
  destruct (Z.gtb_spec v y); [|done].
  intros Hd. simpl. rewrite (IHr _ Hd). lia.
Qed.

Lemma tins_NoDup t v a p q :
  tdescend t v p = Fell q → a ∉ addrs t → NoDup (addrs t) → NoDup (addrs (tins t v a)).
Proof.
  revert p. induction t as [|l IHl c y r IHr]; intros p; simpl.
  - intros _ _ _. rewrite addrs_node. apply NoDup_singleton.
  - intros Hd Ha Hnd. pose proof (NoDup_node _ _ _ _ Hnd) as (Hl & Hr & Hcl & Hcr & Hdisj).
    rewrite in_addrs_node in Ha.
    destruct (Z.ltb_spec v y).
    { rewrite addrs_node. apply NoDup_app. split_and!.
      - eapply IHl; eauto.
      - intros b [->|Hb]%(tins_addrs _ _ _ _ _ _ Hd) Hin; set_solver.
      - apply NoDup_cons. split; [done|done]. }
    destruct (Z.gtb_spec v y); [|done].
    rewrite addrs_node. apply NoDup_app. split_and!; [done| |].
    + intros b Hb [->|Hin]%elem_of_cons; [done|].
      apply (tins_addrs _ _ _ _ _ _ Hd) in Hin as [->|Hin]; [tauto|].
      by apply (Hdisj b).
    + apply NoDup_cons. split; [|eapply IHr; eauto].
      intros [->|Hin]%(tins_addrs _ _ _ _ _ _ Hd); tauto.
Qed.

Lemma tins_bst t v a p q : tdescend t v p = Fell q → bst t → bst (tins t v a).
Proof.
  revert p. induction t as [|l IHl c y r IHr]; intros p; simpl.
  - intros _ _. split_and!; try done; apply Forall_nil_2.
  - intros Hd (Hlt & Hgt & Hbl & Hbr).
    destruct (Z.ltb_spec v y).
    { simpl. split_and!; [|done|by eapply IHl|done].
      apply Forall_forall. intros z [->|Hz]%(tins_values _ _ _ _ _ _ Hd); [done|].
      rewrite Forall_forall in Hlt. by apply Hlt. }
    destruct (Z.gtb_spec v y); [|done].
    simpl. split_and!; [done| |done|by eapply IHr].
    apply Forall_forall. intros z [->|Hz]%(tins_values _ _ _ _ _ _ Hd); [lia|].
    rewrite Forall_forall in Hgt. by apply Hgt.
Qed.

(** Linking the new node below the node the descent stopped at turns the
    heap into a representation of [tins t v a]. *)
Lemma tins_rep t v a : ∀ h par p q,
  rep h par t → NoDup (addrs t) → a ∉ addrs t →
  tdescend t v p = Fell q → t ≠ Leaf →
  ∃ qa nq x,
    q = Some qa ∧ qa ∈ addrs t ∧ h !! qa = Some nq ∧ value_ nq = Some x
    ∧ ∀ h',
        (∀ b, b ∈ addrs t → b ≠ qa → lnk <$> h' !! b = lnk <$> h !! b) →
        lnk <$> h' !! qa
          = Some (if v <? x then (Some a, right nq, parent nq, Some x)
                  else (left nq, Some a, parent nq, Some x)) →
        lnk <$> h' !! a = Some (None, None, Some qa, Some v) →
        rep h' par (tins t v a).
Proof.
  induction t as [|l IHl b y r IHr]; intros h par p q Hrep Hnd Ha Hd Hne; [done|].
  pose proof (NoDup_node _ _ _ _ Hnd) as (Hndl & Hndr & Hbl & Hbr & Hdisj).
  rewrite in_addrs_node in Ha.
  pose proof Hrep as Hrep0. rep_inv Hrep. simpl in Hd. simpl.
  destruct (Z.ltb_spec v y) as [Hlt|Hge].
  - destruct l as [|ll lb lx lr].
    + simpl in Hd. injection Hd as <-. exists b, n, y.
      split_and!; [done|apply in_addrs_node; auto|done..|].
      intros h' Hother Hq Hnew. destruct (Z.ltb_spec v y); [|lia].
      simpl. rewrite Hq, Hnew, Hright, Hparent. split_and!; try done.
      eapply rep_frame; [|done]. intros c Hc. apply Hother.
      * apply in_addrs_node. auto.
      * intros ->. done.
    + destruct (IHl h (Some b) (Some b) q Hrepl Hndl ltac:(tauto) Hd ltac:(done))
        as (qa & nq & x & -> & Hqa & Hnq & Hx & Hbuild).
      exists qa, nq, x. split_and!; [done|apply in_addrs_node; auto|done..|].
      intros h' Hother Hq Hnew. split_and!.
      * rewrite Hother; [|apply in_addrs_node; auto|intros ->; done].
        rewrite Hn. simpl. unfold lnk.
        rewrite Hleft, Hright, Hparent, Hvalue. simpl. by repeat case_match.
      * apply Hbuild; [|done..]. intros c Hc Hcq. apply Hother; [|done].
        apply in_addrs_node. auto.
      * eapply rep_frame; [|done]. intros c Hc. apply Hother.
        -- apply in_addrs_node. auto.
        -- intros ->. by apply (Hdisj qa).
  - destruct (Z.gtb_spec v y) as [Hgt|Hle]; [|done].
    destruct r as [|rl rb rx rr].
    + simpl in Hd. injection Hd as <-. exists b, n, y.
      split_and!; [done|apply in_addrs_node; auto|done..|].
      intros h' Hother Hq Hnew. destruct (Z.ltb_spec v y); [lia|].
      simpl. rewrite Hq, Hnew, Hleft, Hparent. split_and!; try done.
      eapply rep_frame; [|done]. intros c Hc. apply Hother.
      * apply in_addrs_node. auto.
      * intros ->. done.
    + destruct (IHr h (Some b) (Some b) q Hrepr Hndr ltac:(tauto) Hd ltac:(done))
        as (qa & nq & x & -> & Hqa & Hnq & Hx & Hbuild).
      exists qa, nq, x. split_and!; [done|apply in_addrs_node; auto|done..|].
      intros h' Hother Hq Hnew. split_and!.
      * rewrite Hother; [|apply in_addrs_node; auto|intros ->; done].
        rewrite Hn. simpl. unfold lnk.
        rewrite Hleft, Hright, Hparent, Hvalue. simpl. by repeat case_match.
      * eapply rep_frame; [|done]. intros c Hc. apply Hother.
        -- apply in_addrs_node. auto.
        -- intros ->. by apply (Hdisj qa).
      * apply Hbuild; [|done..]. intros c Hc Hcq. apply Hother; [|done].
        apply in_addrs_node. auto.
Qed.

(** ** [insert] when no allocation fails *)

Lemma new_node_run st (l r p : ptr) v :
  oracle st = [] →
  new_node l r p v st
  = Ok (fresh (dom (nodes st)))
       (with_nodes st (<[fresh (dom (nodes st)) := mk_node l r p empty_vector (Some v)]> (nodes st))).
Proof. intros Ho. unfold new_node, alloc_ok. by rewrite bind_unfold, Ho. Qed.

Lemma incr_size_run st s z :
  sizes st !! s = Some z →
  incr_size s st = Ok () (with_sizes st (<[s := wrap (z + 1)]> (sizes st))).
Proof. intros H. unfold incr_size. by rewrite (bind_ok _ _ _ _ _ (load_size_run _ _ _ H)). Qed.

Lemma decr_size_run st s z :
  sizes st !! s = Some z →
  decr_size s st = Ok () (with_sizes st (<[s := wrap (z - 1)]> (sizes st))).
Proof. intros H. unfold decr_size. by rewrite (bind_ok _ _ _ _ _ (load_size_run _ _ _ H)). Qed.

Lemma wrap_small z : 0 ≤ z < size_max → wrap z = z.
Proof. intros H. unfold wrap. by apply Z.mod_small. Qed.

Lemma insert_empty st s v :
  set_inv st s Leaf → oracle st = [] →
  ∃ q st',
    insert s v st = Ok (q, true) st'
    ∧ set_inv st' s (Node Leaf (fresh (dom (nodes st))) v Leaf)
    ∧ oracle st' = []
    ∧ iters st !! q = None
    ∧ iters st' = <[q := mk_iterator (Some (fresh (dom (nodes st)))) (Some s)]> (iters st).
Proof.
  intros (n & Hn & Hval & Hright & Hsz & _) Ho.
  set (a := fresh (dom (nodes st))).
  assert (a ≠ s) as Has by (apply not_eq_sym; by eapply lookup_fresh_ne).
  unfold insert. rewrite (bind_ok _ _ _ _ _ (empty_run _ _ _ Hsz)). simpl.
  rewrite (bind_ok _ _ _ _ _ (new_node_run _ _ _ _ _ Ho)). fold a.
  set (N := mk_node None None (Some s) empty_vector (Some v)).
  set (st1 := with_nodes st _).
  assert (nodes st1 !! s = Some n) as Hn1.
  { unfold st1. sstate. by rewrite lookup_insert_ne. }
  unfold put_root. rewrite (bind_ok _ _ _ _ _ (set_left_run _ _ _ _ Hn1)).
  set (st2 := with_nodes st1 _).
  rewrite (bind_ok _ _ _ _ _ (incr_size_run st2 _ _ Hsz)).
  set (st3 := with_sizes st2 _).
  assert (nodes st3 !! s = Some (with_left n (Some a))) as Hn3.
  { unfold st3, st2. sstate. by rewrite lookup_insert_eq. }
  rewrite (bind_ok _ _ _ _ _ (set_parent_run _ _ _ _ Hn3)).
  set (st4 := with_nodes st3 _).
  assert (nodes st4 !! s = Some (with_parent (with_left n (Some a)) None)) as Hn4.
  { unfold st4. sstate. by rewrite lookup_insert_eq. }
  assert (nodes st4 !! a = Some N) as Ha4.
  { unfold st4, st3, st2, st1. sstate.
    rewrite !lookup_insert_ne by done. by rewrite lookup_insert_eq. }
  assert (set_inv st4 s (Node Leaf a v Leaf)) as Hinv4.
  { eexists. split_and!; [exact Hn4|done|done| |done|done| | |].
    - unfold st4, st3. sstate. rewrite lookup_insert_eq. done.
    - cbn [rep root]. by rewrite Ha4.
    - rewrite addrs_node. apply NoDup_singleton.
    - simpl. split_and!; try done; apply Forall_nil_2. }
  destruct (pair_of_temporary_frame st4 (Some a) (Some s) true ltac:(by eexists) Ho)
    as (q & st5 & Hrun & Hfresh & Hit & Hfr).
  exists q, st5. split_and!.
  - apply catch_rethrow_ok. unfold take_root.
    by rewrite (bind_ok _ _ _ _ _ (get_left_run _ _ _ Hn4)).
  - by eapply set_inv_frame.
  - destruct Hfr as (_ & _ & ->). done.
  - done.
  - done.
Qed.

Lemma insert_found st s t v a :
  set_inv st s t → oracle st = [] → tdescend t v None = Found a →
  ∃ q st',
    insert s v st = Ok (q, false) st'
    ∧ frame st st'
    ∧ iters st !! q = None
    ∧ iters st' = <[q := mk_iterator (Some a) (Some s)]> (iters st).
Proof.
  intros Hinv Ho Hd. pose proof (set_inv_fuel _ _ _ Hinv) as Hfuel.
  destruct Hinv as (n & Hn & Hval & Hright & Hsz & Hbound & Hroot & Hrep & Hnd & Hbst).
  assert (t ≠ Leaf) as Hne by (by intros ->).
  unfold insert. rewrite (bind_ok _ _ _ _ _ (empty_run _ _ _ Hsz)).
  destruct (Z.eqb_spec (Z.of_nat (count t)) 0) as [Hz|Hz].
  { destruct Hne. apply count_zero. lia. }
  unfold take_root. rewrite (bind_ok _ _ _ _ _ (get_left_run _ _ _ Hn)).
  rewrite (bind_ok _ _ _ _ _ (heap_fuel_run _)).
  assert (insert_loop (S (size (nodes st))) (nodes st) v None (left n)
          = Val (Found a)) as Hloop.
  { rewrite (Hroot Hne), <- Hd. by eapply insert_loop_rep. }
  rewrite (bind_ok _ _ _ _ _
    (lift_val (λ h, insert_loop _ h v None (left n)) st _ Hloop)).
  apply tdescend_found in Hd.
  destruct (rep_elem _ _ _ _ _ Hrep Hnd Hd) as (na & Hna & _).
  destruct (pair_of_temporary_frame st (Some a) (Some s) false ltac:(by eexists) Ho)
    as (q & st' & Hrun & Hfresh & Hit & Hfr).
  by exists q, st'.
Qed.

(** [it = iterator(p, c);] for a live iterator [it]: a temporary is
    constructed, assigned from and destroyed. *)
Lemma assign_from_temporary st i d p c :
  iters st !! i = Some d → valid_ptr (nodes st) (node_ d) →
  valid_ptr (nodes st) p → oracle st = [] →
  ∃ st',
    (tmp ← s_iterator_ctor p c;
     scoped (s_iterator_assign i tmp) (s_iterator_dtor tmp)) st = Ok () st'
    ∧ iters st' = <[i := mk_iterator p c]> (iters st)
    ∧ frame st st'.
Proof.
  intros Hi Hvd Hvp Ho.
  destruct (s_iterator_ctor_frame st p c Hvp Ho) as (tmp & st1 & Hrun1 & Hfresh1 & Hit1 & Hfr1).
  assert (i ≠ tmp) as Hne by congruence.
  assert (oracle st1 = []) as Ho1 by (destruct Hfr1 as (_ & _ & ->); done).
  assert (iters st1 !! i = Some d) as Hi1 by (rewrite Hit1; by rewrite lookup_insert_ne).
  assert (iters st1 !! tmp = Some (mk_iterator p c)) as Ht1
    by (rewrite Hit1; apply lookup_insert_eq).
  destruct (s_iterator_assign_frame st1 i tmp d _ Hne Hi1 Ht1
              (frame_valid _ _ _ Hfr1 Hvd) (frame_valid _ _ _ Hfr1 Hvp) Ho1)
    as (st2 & Hrun2 & Hit2 & Hfr2).
  assert (iters st2 !! tmp = Some (mk_iterator p c)) as Ht2.
  { rewrite Hit2. by rewrite lookup_insert_ne. }
  destruct (s_iterator_dtor_frame st2 tmp _ Ht2
              (frame_valid _ _ _ (frame_trans _ _ _ Hfr1 Hfr2) Hvp))
    as (st3 & Hrun3 & Hit3 & Hfr3).
  exists st3. split_and!.
  - rewrite (bind_ok _ _ _ _ _ Hrun1). by eapply scoped_ok.
  - rewrite Hit3, Hit2, Hit1. rewrite delete_insert_ne by done.
    rewrite delete_insert_eq. by rewrite delete_id.
  - eauto using frame_trans.
Qed.

Lemma same_links_at h h' a : same_links h h' → lnk <$> h' !! a = lnk <$> h !! a.
Proof. intros H. apply H. Qed.

Lemma insert_fell st s t v q0 :
  set_inv st s t → oracle st = [] → t ≠ Leaf →
  tdescend t v None = Fell q0 → Z.of_nat (count t) + 1 < size_max →
  ∃ q st',
    insert s v st = Ok (q, true) st'
    ∧ set_inv st' s (tins t v (fresh (dom (nodes st))))
    ∧ oracle st' = []
    ∧ iters st !! q = None
    ∧ iters st' = <[q := mk_iterator (Some (fresh (dom (nodes st)))) (Some s)]> (iters st).
Proof.
  intros Hinv Ho Hne Hd Hb. pose proof (set_inv_fuel _ _ _ Hinv) as Hfuel.
  pose proof (set_inv_anchor_not_in _ _ _ Hinv) as Hs.
  destruct Hinv as (n & Hn & Hval & Hright & Hsz & Hbound & Hroot & Hrep & Hnd & Hbst).
  set (a := fresh (dom (nodes st))).
  assert (nodes st !! a = None) as Hafresh by apply fresh_node_not_in.
  assert (a ∉ addrs t) as Ha.
  { intros Hin. destruct (rep_in_dom _ _ _ _ Hrep Hin) as [? ?]. congruence. }
  assert (a ≠ s) as Has by congruence.
  destruct (tins_rep t v a (nodes st) (Some s) None q0 Hrep Hnd Ha Hd Hne)
    as (qa & nq & x & -> & Hqa & Hnq & Hx & Hbuild).
  assert (qa ≠ s) as Hqs by (intros ->; done).
  assert (qa ≠ a) as Hqa' by (intros ->; done).
  (* the descent *)
  unfold insert. rewrite (bind_ok _ _ _ _ _ (empty_run _ _ _ Hsz)).
  destruct (Z.eqb_spec (Z.of_nat (count t)) 0) as [Hz|Hz].
  { destruct Hne. apply count_zero. lia. }
  unfold take_root. rewrite (bind_ok _ _ _ _ _ (get_left_run _ _ _ Hn)).
  rewrite (bind_ok _ _ _ _ _ (heap_fuel_run _)).
  assert (insert_loop (S (size (nodes st))) (nodes st) v None (left n)
          = Val (Fell (Some qa))) as Hloop.
  { rewrite (Hroot Hne), <- Hd. by eapply insert_loop_rep. }
  rewrite (bind_ok _ _ _ _ _
    (lift_val (λ h, insert_loop _ h v None (left n)) st _ Hloop)).
  (* the local iterator *)
  unfold s_iterator_default_ctor. rewrite bind_unfold. unfold new_iter at 1.
  set (i0 := fresh (dom (iters st))).
  assert (iters st !! i0 = None) as Hi0 by apply fresh_iter_not_in.
  set (st1 := with_iters st _).
  (* the new node *)
  set (N := mk_node None None (Some qa) empty_vector (Some v)).
  set (st2 := with_nodes st1 (<[a := N]> (nodes st1))).
  assert (new_node None None (Some qa) v st1 = Ok a st2) as Hrun2
    by (by apply new_node_run).
  assert (iters st2 !! i0 = Some (mk_iterator None None)) as Hi2
    by apply lookup_insert_eq.
  assert (nodes st2 !! a = Some N) as Ha2 by apply lookup_insert_eq.
  (* the iterator on it *)
  destruct (assign_from_temporary st2 i0 _ (Some a) (Some s) Hi2 I ltac:(by eexists) Ho)
    as (st5 & Hrun5 & Hit5 & Hfr5).
  assert (oracle st5 = []) as Ho5 by (destruct Hfr5 as (_ & _ & ->); done).
  (* the link *)
  assert (lnk <$> nodes st5 !! qa = Some (lnk nq)) as Hq5.
  { destruct Hfr5 as (Hl & _). rewrite (same_links_at _ _ qa Hl).
    unfold st2, st1. sstate. rewrite lookup_insert_ne by done. by rewrite Hnq. }
  destruct (nodes st5 !! qa) as [n5|] eqn:Hn5; [|done].
  injection Hq5 as Hl5 Hr5 Hp5 Hv5.
  assert (get_value qa st5 = Ok x st5) as Hrunv.
  { eapply get_value_run; [done|]. by rewrite Hv5. }
  set (n6 := if v <? x then with_left n5 (Some a) else with_right n5 (Some a)).
  set (st6 := with_nodes st5 (<[qa := n6]> (nodes st5))).
  assert ((if v <? x then set_left qa (Some a) else set_right qa (Some a)) st5
          = Ok () st6) as Hrun6.
  { unfold st6, n6. destruct (v <? x); [by apply set_left_run|by apply set_right_run]. }
  assert (sizes st6 !! s = Some (Z.of_nat (count t))) as Hsz6.
  { unfold st6. sstate. destruct Hfr5 as (_ & -> & _). done. }
  set (st7 := with_sizes st6 (<[s := wrap (Z.of_nat (count t) + 1)]> (sizes st6))).
  assert (iters st7 !! i0 = Some (mk_iterator (Some a) (Some s))) as Hi7.
  { unfold st7, st6. sstate. rewrite Hit5. apply lookup_insert_eq. }
  assert (valid_ptr (nodes st7) (Some a)) as Hva7.
  { unfold st7, st6, valid_ptr. sstate. rewrite lookup_insert_ne by done.
    destruct Hfr5 as (Hl & _). pose proof (same_links_at _ _ a Hl) as E.
    rewrite Ha2 in E. destruct (nodes st5 !! a); [by eexists|done]. }
  destruct (s_iterator_copy_frame st7 i0 _ Hi7 Hva7 Ho5)
    as (q & st8 & Hrun8 & Hfresh8 & Hit8 & Hfr8).
  assert (q ≠ i0) as Hqi by congruence.
  assert (iters st8 !! i0 = Some (mk_iterator (Some a) (Some s))) as Hi8.
  { rewrite Hit8. by rewrite lookup_insert_ne. }
  destruct (s_iterator_dtor_frame st8 i0 _ Hi8 (frame_valid _ _ (Some a) Hfr8 Hva7))
    as (st9 & Hrun9 & Hit9 & Hfr9).
  (* the links of the final heap *)
  assert (∀ b, lnk <$> nodes st9 !! b
               = if decide (b = qa) then Some (lnk n6)
                 else if decide (b = a) then Some (lnk N)
                 else lnk <$> nodes st !! b) as Hlinks.
  { intros b. destruct Hfr9 as (Hl9 & _), Hfr8 as (Hl8 & _), Hfr5 as (Hl5' & _).
    rewrite (same_links_at _ _ b Hl9), (same_links_at _ _ b Hl8).
    unfold st7, st6. sstate. case_decide as Hbq.
    { subst b. by rewrite lookup_insert_eq. }
    rewrite lookup_insert_ne by done. rewrite (same_links_at _ _ b Hl5').
    unfold st2, st1. sstate. case_decide as Hba.
    { subst b. by rewrite lookup_insert_eq. }
    by rewrite lookup_insert_ne. }
  exists q, st9. split_and!.
  - eapply scoped_ok; [|exact Hrun9].
    rewrite (bind_ok _ _ _ _ _ (catch_rethrow_ok _ _ _ _ _ Hrun2)).
    rewrite (bind_ok _ _ _ _ _ (catch_rethrow_ok _ _ _ _ _ Hrun5)).
    simpl. rewrite bind_unfold, ret_unfold.
    rewrite (bind_ok _ _ _ _ _ Hrunv).
    rewrite (bind_ok _ _ _ _ _ Hrun6).
    rewrite (bind_ok _ _ _ _ _ (incr_size_run _ _ _ Hsz6)).
    by rewrite (bind_ok _ _ _ _ _ Hrun8).
  - pose proof (Hlinks s) as Hls. rewrite !decide_False, Hn in Hls by done.
    destruct (nodes st9 !! s) as [n9|] eqn:Hn9; [|done].
    injection Hls as El Er Ep Ev.
    exists n9. split_and!; try done; try congruence.
    + destruct Hfr9 as (_ & -> & _), Hfr8 as (_ & -> & _). unfold st7. sstate.
      rewrite lookup_insert_eq, (tins_count _ _ _ _ _ Hd). f_equal.
      rewrite wrap_small; lia.
    + rewrite (tins_count _ _ _ _ _ Hd). lia.
    + intros _. rewrite El, (tins_root _ _ _ Hne). by apply Hroot.
    + apply Hbuild.
      * intros b Hb' Hbq. rewrite Hlinks, !decide_False; [done| |done].
        intros ->. done.
      * rewrite Hlinks, decide_True by done. unfold n6.
        destruct (v <? x); unfold lnk; sstate; by rewrite ?Hl5, ?Hr5, ?Hp5, ?Hv5, ?Hx.
      * rewrite Hlinks, decide_False, decide_True by done. done.
    + by eapply tins_NoDup.
    + by eapply tins_bst.
  - destruct Hfr9 as (_ & _ & ->), Hfr8 as (_ & _ & ->). done.
  - unfold st7, st6 in Hfresh8. sstate.
    rewrite Hit5 in Hfresh8. rewrite lookup_insert_ne in Hfresh8 by done.
    unfold st2, st1 in Hfresh8. sstate. by rewrite lookup_insert_ne in Hfresh8.
  - rewrite Hit9, Hit8. unfold st7, st6. sstate. rewrite Hit5. unfold st2, st1. sstate.
    rewrite delete_insert_ne by done. rewrite insert_insert_eq, delete_insert_eq.
    by rewrite delete_id.
Qed.

(** [insert] on a set: either the value is found and nothing but iterator
    bookkeeping changes, or a node at a fresh address is attached where the
    descent fell off the tree. *)
Lemma insert_spec st s t v :
  set_inv st s t → oracle st = [] →
  (v ∉ values t → Z.of_nat (count t) + 1 < size_max) →
  ∃ q (ins : bool) st' t' a,
    insert s v st = Ok (q, ins) st'
    ∧ set_inv st' s t' ∧ oracle st' = []
    ∧ iters st !! q = None
    ∧ iters st' = <[q := mk_iterator (Some a) (Some s)]> (iters st)
    ∧ (a, v) ∈ elems t'
    ∧ (if ins then (v ∉ values t) ∧ t' = tins t v a ∧ nodes st !! a = None
                 ∧ ∃ p q', tdescend t v p = Fell q'
       else v ∈ values t ∧ t' = t ∧ frame st st').
Proof.
  intros Hinv Ho Hb.
  assert (bst t) as Hbst by (destruct Hinv as (? & ? & ? & ? & ? & ? & ? & ? & ? & ?); done).
  destruct (tdescend t v None) as [a|q0] eqn:Hd.
  - destruct (insert_found _ _ _ _ _ Hinv Ho Hd) as (q & st' & Hrun & Hfr & Hfresh & Hit).
    pose proof (tdescend_found _ _ _ _ Hd) as Hin.
    exists q, false, st', t, a. split_and!; try done.
    + by eapply set_inv_frame.
    + destruct Hfr as (_ & _ & ->). done.
    + by eapply elems_values.
  - pose proof (tdescend_fell _ _ _ _ Hbst Hd) as Hnot.
    set (a := fresh (dom (nodes st))).
    assert (∃ q st', insert s v st = Ok (q, true) st'
              ∧ set_inv st' s (tins t v a) ∧ oracle st' = []
              ∧ iters st !! q = None
              ∧ iters st' = <[q := mk_iterator (Some a) (Some s)]> (iters st))
      as (q & st' & Hrun & Hinv' & Ho' & Hfresh & Hit).
    { destruct t as [|l b x r].
      - by apply insert_empty.
      - eapply insert_fell; eauto. }
    exists q, true, st', (tins t v a), a. split_and!; try done.
    + apply (tins_elems _ _ _ _ _ _ Hd). by left.
    + apply fresh_node_not_in.
    + by exists None, q0.
Qed.

Lemma store_run st a n : store a n st = Ok () (with_nodes st (<[a := n]> (nodes st))).
Proof. done. Qed.

Lemma store_size_run st s z :
  store_size s z st = Ok () (with_sizes st (<[s := z]> (sizes st))).
Proof. done. Qed.

Lemma set_ctor_size_run st s z :
  set_ctor_size s z st
  = Ok () (mk_state (<[s := mk_node (Some s) None (Some s) empty_vector None]> (nodes st))
             (<[s := z]> (sizes st)) (iters st) (oracle st)).
Proof.
  unfold set_ctor_size.
  rewrite (bind_ok _ _ _ _ _ (store_run _ _ _)).
  rewrite (bind_ok _ _ _ _ _ (store_size_run _ _ _)).
  rewrite (bind_ok _ _ _ _ _
    (set_left_run (with_sizes (with_nodes st _) _) s _ (Some s) (lookup_insert_eq _ _ _))).
  rewrite (set_parent_run (with_nodes _ _) s _ (Some s) (lookup_insert_eq _ _ _)).
  sstate. by rewrite !insert_insert_eq.
Qed.

Lemma set_ctor_spec st s :
  ∃ st',
    set_ctor s st = Ok () st'
    ∧ set_inv st' s Leaf
    ∧ nodes st' !! s = Some (mk_node (Some s) None (Some s) empty_vector None)
    ∧ sizes st' !! s = Some 0
    ∧ oracle st' = oracle st ∧ iters st' = iters st.
Proof.
  eexists. split; [apply set_ctor_size_run|]. sstate.
  split_and!; try done; try apply lookup_insert_eq.
  eexists. split_and!; [apply lookup_insert_eq|done|done| |done|done|done| |done].
  - apply lookup_insert_eq.
  - apply NoDup_nil_2.
Qed.

(** C3.  When [v] is already an element of the set, [insert(v)] returns
    the pair of an iterator on the node that already holds [v] and [false];
    dereferencing the iterator gives [v]; every node keeps its links and
    its value, no node is added or freed, [size_] is unchanged, the set
    still holds the same tree and the iterators that existed are untouched. *)
Theorem insert_existing st s t v :
  set_inv st s t → oracle st = [] → v ∈ values t →
  ∃ q st' a,
    insert s v st = Ok (q, false) st'
    ∧ iters st' !! q = Some (mk_iterator (Some a) (Some s))
    ∧ (a, v) ∈ elems t
    ∧ deref q st' = Ok v st'
    ∧ same_links (nodes st) (nodes st')
    ∧ sizes st' = sizes st
    ∧ set_inv st' s t
    ∧ (∀ j x, iters st !! j = Some x → iters st' !! j = Some x).
Proof.
  intros Hinv Ho Hv.
  destruct (insert_spec st s t v Hinv Ho ltac:(done))
    as (q & ins & st' & t' & a & Hrun & Hinv' & Ho' & Hfresh & Hit & Hin & Hcase).
  destruct ins; [by destruct Hcase as (? & _)|].
  destruct Hcase as (_ & -> & Hfr).
  assert (iters st' !! q = Some (mk_iterator (Some a) (Some s))) as Hq
    by (rewrite Hit; apply lookup_insert_eq).
  exists q, st', a. split_and!; try done.
  - destruct Hinv' as (n & _ & _ & _ & _ & _ & _ & Hrep & Hnd & _).
    destruct (rep_elem _ _ _ _ _ Hrep Hnd Hin) as (na & Hna & Hva & Hla).
    by eapply deref_run.
  - by destruct Hfr.
  - by destruct Hfr as (_ & ? & _).
  - intros j x Hj. rewrite Hit, lookup_insert_ne; [done|congruence].
Qed.

Lemma insert_existing_witness :
  set_inv (final_state set_1357) 1 tree_1357
  ∧ oracle (final_state set_1357) = []
  ∧ 3 ∈ values tree_1357
  ∧ ∃ q st' a,
      insert 1 3 (final_state set_1357) = Ok (q, false) st'
      ∧ iters st' !! q = Some (mk_iterator (Some a) (Some 1%positive))
      ∧ (a, 3) ∈ elems tree_1357
      ∧ deref q st' = Ok 3 st'
      ∧ same_links (nodes (final_state set_1357)) (nodes st')
      ∧ sizes st' = sizes (final_state set_1357)
      ∧ set_inv st' 1 tree_1357
      ∧ (∀ j x, iters (final_state set_1357) !! j = Some x → iters st' !! j = Some x).
Proof.
  assert (3 ∈ values tree_1357) as H3 by (vm_compute; set_solver).
  split; [apply set_1357_inv|]. split; [reflexivity|]. split; [exact H3|].
  apply (insert_existing (final_state set_1357) 1 tree_1357 3);
    [apply set_1357_inv|reflexivity|exact H3].
Defined.

(** ** A sequence of [insert] statements *)

Lemma insert_stmt_spec st s t v :
  set_inv st s t → oracle st = [] →
  (v ∉ values t → Z.of_nat (count t) + 1 < size_max) →
  ∃ st' t',
    insert_stmt s v st = Ok () st'
    ∧ set_inv st' s t' ∧ oracle st' = []
    ∧ iters st' = iters st
    ∧ (∀ x, x ∈ values t' ↔ x = v ∨ x ∈ values t)
    ∧ (count t' ≤ S (count t))%nat.
Proof.
  intros Hinv Ho Hb.
  destruct (insert_spec st s t v Hinv Ho Hb)
    as (q & ins & st1 & t' & a & Hrun & Hinv' & Ho' & Hfresh & Hit & Hin & Hcase).
  assert (iters st1 !! q = Some (mk_iterator (Some a) (Some s))) as Hq
    by (rewrite Hit; apply lookup_insert_eq).
  assert (valid_ptr (nodes st1) (Some a)) as Hva.
  { destruct Hinv' as (n & _ & _ & _ & _ & _ & _ & Hrep & Hnd & _).
    eapply rep_in_dom; [done|]. by eapply elems_addrs. }
  destruct (s_iterator_dtor_frame st1 q _ Hq Hva) as (st2 & Hrun2 & Hit2 & Hfr2).
  exists st2, t'. split_and!.
  - unfold insert_stmt. by rewrite (bind_ok _ _ _ _ _ Hrun).
  - by eapply set_inv_frame.
  - destruct Hfr2 as (_ & _ & ->). done.
  - rewrite Hit2, Hit, delete_insert_eq. by apply delete_id.
  - destruct ins.
    + destruct Hcase as (_ & -> & _ & p & q' & Hd). intros x. by eapply tins_values.
    + destruct Hcase as (Hv & -> & _). intros x. split; [auto|]. by intros [->|?].
  - destruct ins.
    + destruct Hcase as (_ & -> & _ & p & q' & Hd). by rewrite (tins_count _ _ _ _ _ Hd).
    + destruct Hcase as (_ & -> & _). lia.
Qed.

Lemma insert_all_spec vs : ∀ st s t,
  set_inv st s t → oracle st = [] →
  Z.of_nat (count t) + Z.of_nat (length vs) < size_max →
  ∃ st' t',
    insert_all s vs st = Ok () st'
    ∧ set_inv st' s t' ∧ oracle st' = []
    ∧ iters st' = iters st
    ∧ (∀ x, x ∈ values t' ↔ x ∈ vs ∨ x ∈ values t).
Proof.
  induction vs as [|v vs IH]; intros st s t Hinv Ho Hb.
  - exists st, t. split_and!; try done. set_solver.
  - simpl in Hb.
    destruct (insert_stmt_spec st s t v Hinv Ho ltac:(lia))
      as (st1 & t1 & Hrun1 & Hinv1 & Ho1 & Hit1 & Hval1 & Hcount1).
    destruct (IH st1 s t1 Hinv1 Ho1 ltac:(lia))
      as (st2 & t2 & Hrun2 & Hinv2 & Ho2 & Hit2 & Hval2).
    exists st2, t2. split_and!; try done.
    + simpl. by rewrite (bind_ok _ _ _ _ _ Hrun1).
    + congruence.
    + intros x. rewrite Hval2, Hval1, elem_of_cons. tauto.
Qed.

(** ** The in-order successor *)

(** The element that follows the first occurrence of [a] in a list. *)
Fixpoint next_in (l : list positive) (a : positive) : option positive :=
  match l with
  | [] => None
  | x :: l' => if decide (x = a) then head l' else next_in l' a
  end.

Lemma next_in_app_r (xs ys : list positive) a :
  a ∉ xs → next_in (xs ++ ys) a = next_in ys a.
Proof.
  induction xs as [|x xs IH]; [done|]. intros Hn. simpl.
  rewrite decide_False by set_solver. apply IH. set_solver.
Qed.

Lemma next_in_app_l (xs ys : list positive) a :
  a ∈ xs →
  next_in (xs ++ ys) a = match next_in xs a with
                         | Some b => Some b
                         | None => head ys
                         end.
Proof.
  induction xs as [|x xs IH]; [by intros ?%elem_of_nil|]. intros Hin. simpl.
  case_decide as Hx.
  - destruct xs; simpl; done.
  - apply IH. set_solver.
Qed.

Lemma head_addrs l a v r : head (addrs (Node l a v r)) = Some (tmin l a).
Proof.
  revert a v r. induction l as [|ll IH b w lr _]; intros a v r.
  - by rewrite addrs_node.
  - rewrite addrs_node. specialize (IH b w lr).
    destruct (addrs (Node ll b w lr)); simplify_eq/=. done.
Qed.

Lemma find_next_rep t : ∀ h par fuel a k res,
  rep h par t → NoDup (addrs t) → a ∈ addrs t →
  (∀ x f, root t = Some x → (k ≤ f)%nat → climb_right f h x par = Val res) →
  (count t + k ≤ fuel)%nat →
  find_next fuel h a
  = Val (match next_in (addrs t) a with
         | Some b => Some b
         | None => res
         end).
Proof.
  induction t as [|l IHl x v r IHr]; intros h par fuel a k res Hrep Hnd Ha Hclimb Hfuel.
  { by apply elem_of_nil in Ha. }
  pose proof (NoDup_node _ _ _ _ Hnd) as (Hndl & Hndr & Hxl & Hxr & Hdisj).
  rep_inv Hrep. simpl in Hfuel. rewrite addrs_node.
  apply in_addrs_node in Ha as [Ha|[->|Ha]].
  - rewrite (next_in_app_l _ _ _ Ha). simpl.
    rewrite (IHl h (Some x) fuel a 1%nat (Some x) Hrepl Hndl Ha); [|intros lx f Hlx Hf|lia].
    { by destruct (next_in (addrs l) a). }
    destruct f as [|f]; [lia|]. simpl. rewrite Hn, Hright.
    rewrite decide_False; [done|]. intros Hr.
    apply (Hdisj lx); by apply root_in_addrs.
  - rewrite (next_in_app_r _ _ _ Hxl). simpl. rewrite decide_True by done.
    unfold find_next. rewrite Hn, Hright, Hparent.
    destruct r as [|rl rx rv rr]; simpl.
    + apply Hclimb; [done|lia].
    + rewrite (find_min_rep _ _ _ _ _ _ _ Hrepr); [|simpl in Hfuel; lia].
      by rewrite head_addrs.
  - assert (a ∉ addrs l) as Hal by (intros Hl; by apply (Hdisj a)).
    assert (a ≠ x) as Hax by (intros ->; done).
    rewrite (next_in_app_r _ _ _ Hal). simpl. rewrite decide_False by done.
    apply (IHr h (Some x) fuel a (S k) res Hrepr Hndr Ha); [|lia].
    intros rx f Hrx Hf. destruct f as [|f]; [lia|]. simpl.
    rewrite Hn, Hright, Hparent, decide_True by done.
    apply Hclimb; [done|lia].
Qed.

(** In a set, the successor of the last element is the anchor. *)
Lemma find_next_set st s t a :
  set_inv st s t → a ∈ addrs t →
  find_next (S (size (nodes st))) (nodes st) a
  = Val (Some (default s (next_in (addrs t) a))).
Proof.
  intros Hinv Ha. pose proof (set_inv_fuel _ _ _ Hinv) as Hfuel.
  destruct Hinv as (n & Hn & Hval & Hright & Hsz & Hbound & Hroot & Hrep & Hnd & Hbst).
  rewrite (find_next_rep t (nodes st) (Some s) _ a 1%nat (Some s) Hrep Hnd Ha).
  - by destruct (next_in (addrs t) a).
  - intros x f Hx Hf. destruct f as [|f]; [lia|]. simpl.
    rewrite Hn, Hright. by rewrite decide_False.
  - lia.
Qed.

Lemma iter_eq_run st i j x y :
  iters st !! i = Some x → iters st !! j = Some y →
  container_ x = container_ y → container_ x ≠ None →
  iter_eq i j st = Ok (bool_decide (node_ x = node_ y)) st.
Proof.
  intros Hi Hj Hc Hne. unfold iter_eq.
  rewrite (bind_ok _ _ _ _ _ (load_iter_run _ _ _ Hi)).
  rewrite (bind_ok _ _ _ _ _ (load_iter_run _ _ _ Hj)).
  by rewrite (bool_decide_eq_true_2 _ Hc), (bool_decide_eq_true_2 _ Hne).
Qed.

(** [it != end()], including the temporary [end()] iterator. *)
Lemma at_end_test st s i p :
  is_Some (nodes st !! s) → oracle st = [] →
  iters st !! i = Some (mk_iterator (Some p) (Some s)) →
  ∃ st',
    (∀ A (k : bool → M A),
       (e ← end_ s; go ← scoped (iter_neq i e) (s_iterator_dtor e); k go) st
       = k (negb (bool_decide (p = s))) st')
    ∧ iters st' = iters st
    ∧ frame st st'.
Proof.
  intros Hs Ho Hi. unfold end_.
  destruct (s_iterator_ctor_frame st (Some s) (Some s) Hs Ho)
    as (e & st1 & Hrun1 & Hfresh1 & Hit1 & Hfr1).
  assert (i ≠ e) as Hne by congruence.
  assert (iters st1 !! i = Some (mk_iterator (Some p) (Some s))) as Hi1
    by (rewrite Hit1; by rewrite lookup_insert_ne).
  assert (iters st1 !! e = Some (mk_iterator (Some s) (Some s))) as He1
    by (rewrite Hit1; apply lookup_insert_eq).
  destruct (s_iterator_dtor_frame st1 e _ He1 (frame_valid _ _ (Some s) Hfr1 Hs))
    as (st2 & Hrun2 & Hit2 & Hfr2).
  exists st2. split_and!.
  - intros A k. rewrite (bind_ok _ _ _ _ _ Hrun1).
    assert (scoped (iter_neq i e) (s_iterator_dtor e) st1
            = Ok (negb (bool_decide (p = s))) st2) as Hgo.
    { eapply scoped_ok; [|done].
      unfold iter_neq.
      rewrite (bind_ok _ _ _ _ _ (iter_eq_run _ _ _ _ _ Hi1 He1 eq_refl ltac:(done))).
      rewrite ret_unfold. sstate. do 2 f_equal.
      apply bool_decide_ext. split; congruence. }
    by rewrite (bind_ok _ _ _ _ _ Hgo).
  - rewrite Hit2, Hit1, delete_insert_eq. by apply delete_id.
  - eauto using frame_trans.
Qed.

(** ** Iterating over a set *)

Lemma next_in_elem (xs : list positive) a b : next_in xs a = Some b → b ∈ xs.
Proof.
  induction xs as [|x xs IH]; [done|]. simpl. case_decide.
  - destruct xs; [done|]. intros [= ->]. set_solver.
  - intros ?%IH. set_solver.
Qed.

Lemma incr_spec st s t a i c :
  set_inv st s t → oracle st = [] → a ∈ addrs t →
  iters st !! i = Some (mk_iterator (Some a) c) →
  ∃ st',
    incr i st = Ok () st'
    ∧ iters st' = <[i := mk_iterator (Some (default s (next_in (addrs t) a))) c]> (iters st)
    ∧ frame st st'.
Proof.
  intros Hinv Ho Ha Hi.
  pose proof (find_next_set _ _ _ _ Hinv Ha) as Hnext.
  destruct (set_inv_anchor _ _ _ Hinv) as (ns & Hns & _).
  destruct Hinv as (n & Hn & Hval & Hright & Hsz & Hbound & Hroot & Hrep & Hnd & Hbst).
  destruct (rep_subtree _ _ _ _ Hrep Hnd Ha) as (l & v & r & p & _ & _ & Hin & _).
  destruct (rep_elem _ _ _ _ _ Hrep Hnd Hin) as (na & Hna & Hva & Hla).
  assert (valid_ptr (nodes st) (Some (default s (next_in (addrs t) a)))) as Hvn.
  { destruct (next_in (addrs t) a) as [b|] eqn:E; simpl; [|by eexists].
    eapply rep_in_dom; [done|]. by eapply next_in_elem. }
  destruct (move_to_another_node_frame st i _ _ Hi ltac:(by eexists) Hvn Ho)
    as (st' & Hrun & Hit & Hfr).
  exists st'. split_and!; [|done..].
  unfold incr.
  rewrite (bind_ok _ _ _ _ _ (base_assert_run _ _ _ _ _ Hi eq_refl Hna Hla)).
  rewrite (bind_ok _ _ _ _ _ (load_iter_run _ _ _ Hi)). simpl.
  rewrite bind_unfold, ret_unfold.
  rewrite (bind_ok _ _ _ _ _ (heap_fuel_run _)).
  by rewrite (bind_ok _ _ _ _ _ (lift_val (λ h, find_next _ h a) st _ Hnext)).
Qed.

Lemma collect_spec s t (suf : list (positive * Z)) : ∀ st pre out i fuel,
  set_inv st s t → oracle st = [] → elems t = pre ++ suf →
  iters st !! i = Some (mk_iterator (Some (default s (head suf.*1))) (Some s)) →
  (length suf < fuel)%nat →
  ∃ st',
    collect fuel s i out st = Ok (out ++ suf.*2) st'
    ∧ iters st' = <[i := mk_iterator (Some s) (Some s)]> (iters st)
    ∧ frame st st'.
Proof.
  induction suf as [|[a v] suf IH]; intros st pre out i fuel Hinv Ho Hel Hi Hfuel.
  - destruct fuel as [|f]; [simpl in Hfuel; lia|]. simpl in *.
    destruct (set_inv_anchor _ _ _ Hinv) as (ns & Hns & _).
    destruct (at_end_test st s i s ltac:(by eexists) Ho Hi) as (st' & Hrun & Hit & Hfr).
    exists st'. split_and!; [|by rewrite Hit, insert_id|done].
    rewrite Hrun. rewrite bool_decide_eq_true_2 by done. simpl.
    by rewrite app_nil_r.
  - destruct fuel as [|f]; [simpl in Hfuel; lia|]. simpl in Hi, Hfuel.
    pose proof (set_inv_anchor_not_in _ _ _ Hinv) as Hs.
    destruct (set_inv_anchor _ _ _ Hinv) as (ns & Hns & _).
    assert ((a, v) ∈ elems t) as Hin by (rewrite Hel; set_solver).
    pose proof (elems_addrs _ _ _ Hin) as Ha.
    assert (a ≠ s) as Has by (intros ->; done).
    destruct (at_end_test st s i a ltac:(by eexists) Ho Hi) as (st1 & Hrun1 & Hit1 & Hfr1).
    pose proof (set_inv_frame _ _ _ _ Hfr1 Hinv) as Hinv1.
    assert (oracle st1 = []) as Ho1 by (destruct Hfr1 as (_ & _ & ->); done).
    assert (iters st1 !! i = Some (mk_iterator (Some a) (Some s))) as Hi1 by (by rewrite Hit1).
    assert (deref i st1 = Ok v st1) as Hderef.
    { destruct Hinv1 as (n & _ & _ & _ & _ & _ & _ & Hrep & Hnd & _).
      destruct (rep_elem _ _ _ _ _ Hrep Hnd Hin) as (na & Hna & Hva & Hla).
      by eapply deref_run. }
    destruct (incr_spec st1 s t a i _ Hinv1 Ho1 Ha Hi1) as (st2 & Hrun2 & Hit2 & Hfr2).
    assert (next_in (addrs t) a = head suf.*1) as Hnext.
    { assert (NoDup (addrs t)) as Hnd
        by (destruct Hinv as (? & ? & ? & ? & ? & ? & ? & ? & ? & ?); done).
      unfold addrs in *. rewrite Hel, fmap_app, fmap_cons in *. simpl in *.
      apply NoDup_app in Hnd as (_ & Hd & _).
      rewrite next_in_app_r; [simpl; by rewrite decide_True|].
      intros Hp. apply (Hd _ Hp). set_solver. }
    rewrite Hnext in Hit2.
    pose proof (set_inv_frame _ _ _ _ Hfr2 Hinv1) as Hinv2.
    assert (oracle st2 = []) as Ho2 by (destruct Hfr2 as (_ & _ & ->); done).
    destruct (IH st2 (pre ++ [(a, v)]) (out ++ [v]) i f Hinv2 Ho2)
      as (st3 & Hrun3 & Hit3 & Hfr3).
    { by rewrite <- app_assoc. }
    { rewrite Hit2. apply lookup_insert_eq. }
    { lia. }
    exists st3. split_and!.
    + simpl. rewrite Hrun1.
      rewrite bool_decide_eq_false_2 by done. simpl.
      rewrite (bind_ok _ _ _ _ _ Hderef), (bind_ok _ _ _ _ _ Hrun2), Hrun3.
      by rewrite <- app_assoc.
    + rewrite Hit3, Hit2, Hit1. by rewrite insert_insert_eq.
    + eauto using frame_trans.
Qed.

Lemma begin_spec st s t :
  set_inv st s t → oracle st = [] →
  ∃ i st',
    begin_ s st = Ok i st'
    ∧ iters st !! i = None
    ∧ iters st' = <[i := mk_iterator (Some (default s (head (addrs t)))) (Some s)]> (iters st)
    ∧ frame st st'.
Proof.
  intros Hinv Ho. pose proof (set_inv_fuel _ _ _ Hinv) as Hfuel.
  destruct Hinv as (n & Hn & Hval & Hright & Hsz & Hbound & Hroot & Hrep & Hnd & Hbst).
  unfold begin_. rewrite (bind_ok _ _ _ _ _ (empty_run _ _ _ Hsz)).
  destruct (Z.eqb_spec (Z.of_nat (count t)) 0) as [Hz|Hz].
  { assert (t = Leaf) as -> by (apply count_zero; lia).
    by apply s_iterator_ctor_frame; [eexists|]. }
  destruct t as [|l a v r]; [done|].
  unfold take_root. rewrite (bind_ok _ _ _ _ _ (get_left_run _ _ _ Hn)).
  rewrite (Hroot ltac:(done)). simpl root. simpl nonnull. rewrite bind_unfold, ret_unfold.
  rewrite (bind_ok _ _ _ _ _ (heap_fuel_run _)).
  assert (find_min (S (size (nodes st))) (nodes st) a = Val (tmin l a)) as Hmin.
  { eapply find_min_rep; [done|]. simpl in Hfuel. lia. }
  rewrite (bind_ok _ _ _ _ _ (lift_val (λ h, find_min _ h a) st _ Hmin)).
  rewrite head_addrs. simpl.
  apply s_iterator_ctor_frame; [|done].
  eapply rep_in_dom; [done|].
  pose proof (head_addrs l a v r) as Hh.
  destruct (addrs (Node l a v r)) as [|x xs]; simplify_eq/=. set_solver.
Qed.

(** Iterating from [begin()] to [end()] yields the values of the tree in
    order, and leaves the state as it was up to iterator bookkeeping. *)
Lemma to_list_spec st s t :
  set_inv st s t → oracle st = [] →
  ∃ st',
    to_list s st = Ok (values t) st'
    ∧ iters st' = iters st
    ∧ frame st st'.
Proof.
  intros Hinv Ho.
  destruct (begin_spec _ _ _ Hinv Ho) as (i & st1 & Hrun1 & Hfresh1 & Hit1 & Hfr1).
  pose proof (set_inv_frame _ _ _ _ Hfr1 Hinv) as Hinv1.
  assert (oracle st1 = []) as Ho1 by (destruct Hfr1 as (_ & _ & ->); done).
  pose proof (set_inv_fuel _ _ _ Hinv1) as Hfuel.
  destruct (collect_spec s t (elems t) st1 [] [] i (S (size (nodes st1))) Hinv1 Ho1 eq_refl)
    as (st2 & Hrun2 & Hit2 & Hfr2).
  { rewrite Hit1. apply lookup_insert_eq. }
  { rewrite <- addrs_length in Hfuel. unfold addrs in Hfuel.
    by rewrite length_fmap in Hfuel. }
  destruct (set_inv_anchor _ _ _ Hinv1) as (ns & Hns & _).
  destruct (s_iterator_dtor_frame st2 i (mk_iterator (Some s) (Some s)))
    as (st3 & Hrun3 & Hit3 & Hfr3).
  { rewrite Hit2. apply lookup_insert_eq. }
  { eapply (frame_valid _ _ (Some s)); [done|]. by eexists. }
  exists st3. split_and!.
  - unfold to_list. rewrite (bind_ok _ _ _ _ _ Hrun1).
    rewrite (bind_ok _ _ _ _ _ (heap_fuel_run _)).
    by eapply scoped_ok.
  - rewrite Hit3, Hit2, Hit1, insert_insert_eq, delete_insert_eq. by apply delete_id.
  - eauto using frame_trans.
Qed.

Lemma bst_sorted t : bst t → StronglySorted Z.lt (values t).
Proof.
  induction t as [|l IHl a v r IHr]; [intros _; constructor|].
  intros (Hlt & Hgt & Hbl & Hbr). rewrite values_node.
  rewrite Forall_forall in Hlt, Hgt.
  apply StronglySorted_app_2; [|by apply IHl|].
  - intros x y Hx [->|Hy]%elem_of_cons; [by apply Hlt|].
    specialize (Hlt _ Hx). specialize (Hgt _ Hy). lia.
  - apply StronglySorted_cons. split; [|by apply IHr].
    apply Forall_forall. intros y Hy. by apply Hgt.
Qed.

(** C2.  After any sequence of [insert] statements on an empty set (a
    sequence that [size_t] can count), walking an iterator from [begin()]
    to [end()] and collecting what it designates yields a strictly
    increasing list that has exactly the inserted values as elements. *)
Theorem insert_all_then_iterate st s vs :
  set_inv st s Leaf → oracle st = [] →
  Z.of_nat (length vs) < size_max →
  ∃ xs st',
    (insert_all s vs;; to_list s) st = Ok xs st'
    ∧ StronglySorted Z.lt xs
    ∧ (∀ x, x ∈ xs ↔ x ∈ vs).
Proof.
  intros Hinv Ho Hlen.
  destruct (insert_all_spec vs st s Leaf Hinv Ho ltac:(simpl; lia))
    as (st1 & t & Hrun1 & Hinv1 & Ho1 & _ & Hvals).
  destruct (to_list_spec st1 s t Hinv1 Ho1) as (st2 & Hrun2 & _).
  exists (values t), st2. split_and!.
  - by rewrite (bind_ok _ _ _ _ _ Hrun1).
  - apply bst_sorted. destruct Hinv1 as (? & ? & ? & ? & ? & ? & ? & ? & ? & ?); done.
  - intros x. rewrite Hvals. split; [intros [?|?%elem_of_nil]; done|auto].
Qed.

(** A default-constructed set, at address 1. *)
Definition empty_set : M unit := s ← fresh_addr; set_ctor s.

Lemma empty_set_inv : set_inv (final_state empty_set) 1 Leaf.
Proof. concrete_inv. Qed.

Lemma insert_all_then_iterate_witness :
  set_inv (final_state empty_set) 1 Leaf
  ∧ oracle (final_state empty_set) = []
  ∧ Z.of_nat (length [3; 1; 2; 3; 1]) < size_max
  ∧ ∃ xs st',
      (insert_all 1 [3; 1; 2; 3; 1];; to_list 1) (final_state empty_set) = Ok xs st'
      ∧ StronglySorted Z.lt xs
      ∧ (∀ x, x ∈ xs ↔ x ∈ [3; 1; 2; 3; 1]).
Proof.
  split; [apply empty_set_inv|]. split; [reflexivity|]. split; [vm_compute; reflexivity|].
  apply (insert_all_then_iterate (final_state empty_set) 1 [3; 1; 2; 3; 1]);
    [apply empty_set_inv|reflexivity|vm_compute; reflexivity].
Defined.

Example iterate_31231 :
  ∃ st', (insert_all 1 [3; 1; 2; 3; 1];; to_list 1) (final_state empty_set)
         = Ok [1; 2; 3] st'.
Proof. eexists. vm_compute. reflexivity. Qed.

(** ** Deletion on the tree *)

(** The leftmost node of the tree with root [(a, v)] and left subtree [l]:
    its address and value, its right subtree (given the right subtree [r]
    of the root) and its parent pointer. *)
Fixpoint tminelem (l : tree) (a : positive) (v : Z) : positive * Z :=
  match l with
  | Leaf => (a, v)
  | Node ll b w _ => tminelem ll b w
  end.

Fixpoint tminright (l : tree) (r : tree) : tree :=
  match l with
  | Leaf => r
  | Node ll _ _ lr => tminright ll lr
  end.

Fixpoint tminparent (l : tree) (a : positive) (par : ptr) : ptr :=
  match l with
  | Leaf => par
  | Node ll b _ _ => tminparent ll b (Some a)
  end.

(** The tree without its leftmost node. *)
Fixpoint tdelmin (t : tree) : tree :=
  match t with
  | Leaf => Leaf
  | Node l a v r =>
      match l with
      | Leaf => r
      | Node _ _ _ _ => Node (tdelmin l) a v r
      end
  end.

(** [merge]: the leftmost node of [r] becomes the root, with [l] to its
    left and the rest of [r] to its right. *)
Definition tmerge (l r : tree) : tree :=
  match l, r with
  | Leaf, _ => r
  | _, Leaf => l
  | Node _ _ _ _, Node rl ra rv rr =>
      match rl with
      | Leaf => Node l ra rv rr
      | Node _ _ _ _ => Node l (tminelem rl ra rv).1 (tminelem rl ra rv).2 (tdelmin r)
      end
  end.

(** [erase] of the node at address [e]. *)
Fixpoint terase (t : tree) (e : positive) : tree :=
  match t with
  | Leaf => Leaf
  | Node l a v r =>
      if decide (a = e) then tmerge l r
      else Node (terase l e) a v (terase r e)
  end.

(** The node at address [e]: its subtrees, value and parent pointer. *)
Fixpoint tfind (t : tree) (e : positive) (par : ptr) : option (tree * Z * tree * ptr) :=
  match t with
  | Leaf => None
  | Node l a v r =>
      if decide (a = e) then Some (l, v, r, par)
      else match tfind l e (Some a) with
           | Some x => Some x
           | None => tfind r e (Some a)
           end
  end.

Lemma tminelem_tmin l a v : (tminelem l a v).1 = tmin l a.
Proof. revert a v. induction l as [|ll IH b w lr _]; intros a v; simpl; [done|apply IH]. Qed.

Lemma tdelmin_elems l a v r :
  elems (Node l a v r) = tminelem l a v :: elems (tdelmin (Node l a v r)).
Proof.
  revert a v r. induction l as [|ll IH b w lr _]; intros a v r; [done|].
  change (tdelmin (Node (Node ll b w lr) a v r)) with (Node (tdelmin (Node ll b w lr)) a v r).
  change (elems (Node (Node ll b w lr) a v r)) with (elems (Node ll b w lr) ++ (a, v) :: elems r).
  rewrite (IH b w lr). done.
Qed.

Lemma tmerge_elems l r : elems (tmerge l r) = elems l ++ elems r.
Proof.
  destruct l as [|ll la lv lr]; [done|].
  destruct r as [|rl ra rv rr]; [by rewrite app_nil_r|].
  unfold tmerge. destruct rl as [|rll rla rlv rlr]; [done|].
  rewrite (tdelmin_elems (Node rll rla rlv rlr) ra rv rr).
  set (T := tdelmin _). set (m := tminelem _ _ _). set (L := Node ll la lv lr).
  change (elems (Node L m.1 m.2 T)) with (elems L ++ (m.1, m.2) :: elems T).
  by destruct m.
Qed.

Lemma filter_not_in (xs : list (positive * Z)) e :
  e ∉ xs.*1 → filter (λ x, x.1 ≠ e) xs = xs.
Proof.
  induction xs as [|[b w] xs IH]; [done|]. rewrite fmap_cons. simpl. intros Hn.
  rewrite filter_cons_True by (simpl; set_solver). f_equal. apply IH. set_solver.
Qed.

Lemma terase_elems t e :
  NoDup (addrs t) → elems (terase t e) = filter (λ x, x.1 ≠ e) (elems t).
Proof.
  induction t as [|l IHl a v r IHr]; [done|]. intros Hnd.
  pose proof (NoDup_node _ _ _ _ Hnd) as (Hndl & Hndr & Hal & Har & _).
  simpl. rewrite filter_app. case_decide as Hae.
  - subst a. rewrite filter_cons_False by (simpl; naive_solver).
    rewrite tmerge_elems. by rewrite !filter_not_in.
  - rewrite filter_cons_True by done. simpl. by rewrite IHl, IHr.
Qed.

Lemma terase_notin t e : e ∉ addrs t → terase t e = t.
Proof.
  induction t as [|l IHl a v r IHr]; [done|]. rewrite in_addrs_node. intros Hn. simpl.
  rewrite decide_False by (intros ->; tauto). rewrite IHl, IHr by tauto. done.
Qed.

Lemma elems_count t : length (elems t) = count t.
Proof. rewrite <- addrs_length. unfold addrs. by rewrite length_fmap. Qed.

Lemma terase_split t e v :
  NoDup (addrs t) → (e, v) ∈ elems t →
  ∃ pre post, elems t = pre ++ (e, v) :: post ∧ elems (terase t e) = pre ++ post
              ∧ e ∉ pre.*1 ∧ e ∉ post.*1.
Proof.
  intros Hnd Hin. rewrite (terase_elems _ _ Hnd).
  apply list_elem_of_split in Hin as (pre & post & Hsplit). exists pre, post.
  unfold addrs in Hnd. rewrite Hsplit, fmap_app, fmap_cons in Hnd. simpl in Hnd.
  apply NoDup_app in Hnd as (_ & Hd & Hpost). apply NoDup_cons in Hpost as [Hpost _].
  assert (e ∉ pre.*1) as Hpre by (intros Hp; apply (Hd _ Hp); set_solver).
  split_and!; [done| |done..].
  rewrite Hsplit, filter_app, filter_cons_False by (simpl; naive_solver).
  by rewrite !filter_not_in.
Qed.

Lemma terase_count t e v :
  NoDup (addrs t) → (e, v) ∈ elems t → S (count (terase t e)) = count t.
Proof.
  intros Hnd Hin. destruct (terase_split _ _ _ Hnd Hin) as (pre & post & E1 & E2 & _).
  rewrite <- !elems_count, E1, E2, !length_app. simpl. lia.
Qed.

Lemma sorted_bst t : StronglySorted Z.lt (values t) → bst t.
Proof.
  induction t as [|l IHl a v r IHr]; [done|]. rewrite values_node.
  intros (Hlr & Hl & Hr)%StronglySorted_app.
  apply StronglySorted_cons in Hr as [Hv Hr]. simpl. split_and!; [| |auto..].
  - apply Forall_forall. intros x Hx. apply (Hlr x v Hx). set_solver.
  - done.
Qed.

Lemma terase_inv t e v :
  NoDup (addrs t) → bst t → (e, v) ∈ elems t →
  NoDup (addrs (terase t e)) ∧ bst (terase t e) ∧ e ∉ addrs (terase t e).
Proof.
  intros Hnd Hbst Hin.
  destruct (terase_split _ _ _ Hnd Hin) as (pre & post & E1 & E2 & Hpre & Hpost).
  apply bst_sorted in Hbst. unfold values, addrs in *.
  rewrite E1, fmap_app, fmap_cons in Hnd. rewrite E1, fmap_app, fmap_cons in Hbst.
  rewrite E2, !fmap_app. simpl in *.
  split_and!.
  - apply NoDup_app in Hnd as (H1 & H2 & H3). apply NoDup_cons in H3 as [_ H3].
    apply NoDup_app. split_and!; [done| |done]. intros x Hx Hx'. apply (H2 x Hx). set_solver.
  - apply sorted_bst. unfold values. rewrite E2, fmap_app.
    apply StronglySorted_app in Hbst as (H1 & H2 & H3).
    apply StronglySorted_cons in H3 as [_ H3].
    apply StronglySorted_app_2; [|done..]. intros x y Hx Hy. apply (H1 x y Hx). set_solver.
  - rewrite elem_of_app. tauto.
Qed.

(** ** Pointer surgery *)

Lemma modify_alter st a (f : sentinel_node → sentinel_node) :
  is_Some (nodes st !! a) →
  modify a f st = Ok () (with_nodes st (alter f a (nodes st))).
Proof.
  intros [n Hn]. rewrite (modify_run _ _ _ _ Hn). by rewrite (insert_as_alter _ _ _ f Hn).
Qed.

Lemma is_Some_alter h (f : sentinel_node → sentinel_node) a b :
  is_Some (alter f a h !! b) ↔ is_Some (h !! b).
Proof.
  destruct (decide (a = b)) as [->|Hne].
  - rewrite lookup_alter_eq. by rewrite fmap_is_Some.
  - by rewrite lookup_alter_ne.
Qed.

(** Changing the parent pointer of the root of a represented tree. *)
Lemma rep_reparent h h' par par' t :
  rep h par t →
  (∀ b, b ∈ addrs t → root t ≠ Some b → lnk <$> h' !! b = lnk <$> h !! b) →
  (∀ b n, root t = Some b → h !! b = Some n →
          lnk <$> h' !! b = Some (left n, right n, par', value_ n)) →
  NoDup (addrs t) →
  rep h' par' t.
Proof.
  destruct t as [|l a v r]; [done|]. intros Hrep Hother Hroot Hnd.
  pose proof (NoDup_node _ _ _ _ Hnd) as (Hndl & Hndr & Hal & Har & _).
  rep_inv Hrep. simpl. rewrite (Hroot a n eq_refl Hn), Hleft, Hright, Hvalue.
  split_and!; [done| |].
  - eapply rep_frame; [|done]. intros b Hb. apply Hother.
    + apply in_addrs_node. auto.
    + simpl. intros [= ->]. done.
  - eapply rep_frame; [|done]. intros b Hb. apply Hother.
    + apply in_addrs_node. auto.
    + simpl. intros [= ->]. done.
Qed.

(** The leftmost node on the heap. *)
Lemma rep_min h par l a v r :
  rep h par (Node l a v r) →
  ∃ n, h !! tmin l a = Some n ∧ left n = None ∧ right n = root (tminright l r)
       ∧ parent n = tminparent l a par ∧ value_ n = Some (tminelem l a v).2
       ∧ rep h (Some (tmin l a)) (tminright l r).
Proof.
  revert par a v r. induction l as [|ll IH b w lr _]; intros par a v r Hrep.
  - rep_inv Hrep. exists n. by split_and!.
  - rep_inv Hrep. simpl. by apply IH.
Qed.

Lemma tmin_in l a v r : tmin l a ∈ addrs (Node l a v r).
Proof.
  pose proof (head_addrs l a v r) as H.
  destruct (addrs (Node l a v r)); simplify_eq/=. set_solver.
Qed.

Lemma tmin_in_left ll b w lr a : tmin (Node ll b w lr) a ∈ addrs (Node ll b w lr).
Proof. simpl. apply tmin_in. Qed.

Lemma tminright_sub l r x : x ∈ addrs (tminright l r) → x ∈ addrs l ∨ x ∈ addrs r.
Proof.
  revert r. induction l as [|ll IH b w lr _]; intros r; simpl; [auto|].
  intros [?|?]%IH; left; apply in_addrs_node; auto.
Qed.

(** The parent of the leftmost node, when that node is not the root. *)
Lemma rep_min_parent h par ll b w lr a v r :
  rep h par (Node (Node ll b w lr) a v r) →
  ∃ mp n, tminparent (Node ll b w lr) a par = Some mp
          ∧ (mp = a ∨ mp ∈ addrs (Node ll b w lr))
          ∧ mp ≠ tmin (Node ll b w lr) a
          ∧ h !! mp = Some n ∧ left n = Some (tmin (Node ll b w lr) a).
Proof.
  revert par b w lr a v r. induction ll as [|lll IH c u llr _]; intros par b w lr a v r Hrep.
  - rep_inv Hrep. pose proof Hrepl as Hrepl'. rep_inv Hrepl'.
    exists a, n. split_and!; [done|by left| |done|done].
    simpl. intros ->. simpl in *. congruence.
  - rep_inv Hrep.
    destruct (IH _ _ _ _ _ _ _ Hrepl) as (mp & n' & E & Hin & Hne & Hn' & Hl').
    exists mp, n'. split_and!; try done. right.
    destruct Hin as [->|Hin]; apply in_addrs_node; auto.
Qed.

Lemma root_tminright_in l r x :
  root (tminright l r) = Some x → x ∈ addrs l ∨ x ∈ addrs r.
Proof. intros H. by apply tminright_sub, root_in_addrs. Qed.

(** Detaching the leftmost node: its parent adopts its right subtree. *)
Lemma tdelmin_rep ll : ∀ h h' par b w lr a v r mp nmp,
  rep h par (Node (Node ll b w lr) a v r) →
  NoDup (addrs (Node (Node ll b w lr) a v r)) →
  tminparent (Node ll b w lr) a par = Some mp → h !! mp = Some nmp →
  (∀ c, c ∈ addrs (Node (Node ll b w lr) a v r) →
        c ≠ tmin (Node ll b w lr) a → c ≠ mp →
        root (tminright (Node ll b w lr) r) ≠ Some c →
        lnk <$> h' !! c = lnk <$> h !! c) →
  lnk <$> h' !! mp
    = Some (root (tminright (Node ll b w lr) r), right nmp, parent nmp, value_ nmp) →
  (∀ x nx, root (tminright (Node ll b w lr) r) = Some x → h !! x = Some nx →
           lnk <$> h' !! x = Some (left nx, right nx, Some mp, value_ nx)) →
  rep h' par (tdelmin (Node (Node ll b w lr) a v r)).
Proof.
  induction ll as [|lll IH c u llr _];
    intros h h' par b w lr a v r mp nmp Hrep Hnd Hmp Hnmp Hother Hpar Hchild.
  - simpl in Hmp. injection Hmp as <-.
    pose proof (NoDup_node _ _ _ _ Hnd) as (Hndl & Hndr & Hal & Har & Hdisj).
    pose proof (NoDup_node _ _ _ _ Hndl) as (_ & Hndlr & _ & Hblr & _).
    rep_inv Hrep. rep_inv Hrepl. simplify_eq. simpl in *.
    rewrite Hpar, Hright, Hvalue. split_and!; [done| |].
    + eapply rep_reparent; [exact Hrepr0| | |done].
      * intros x Hx Hroot. apply Hother; [|..|done].
        -- apply in_addrs_node. left. apply in_addrs_node. auto.
        -- intros ->. done.
        -- intros ->. apply Hal. apply in_addrs_node. auto.
      * intros x nx Hx Hnx. by apply Hchild.
    + eapply rep_frame; [|done]. intros x Hx. apply Hother.
      * apply in_addrs_node. auto.
      * intros ->. apply (Hdisj b); [apply in_addrs_node; auto|done].
      * intros ->. done.
      * intros Hr. apply root_in_addrs in Hr. apply (Hdisj x); [|done].
        apply in_addrs_node. auto.
  - pose proof (NoDup_node _ _ _ _ Hnd) as (Hndl & Hndr & Hal & Har & Hdisj).
    pose proof Hrep as Hrep0. rep_inv Hrep.
    destruct (rep_min_parent _ _ _ _ _ _ _ _ _ Hrepl) as (mp' & n' & E & Hin & Hne & _).
    assert (mp' = mp) as -> by (simpl in *; congruence).
    assert (mp ∈ addrs (Node (Node lll c u llr) b w lr)) as Hmpl.
    { destruct Hin as [->|Hin]; apply in_addrs_node; auto. }
    change (tdelmin (Node (Node (Node lll c u llr) b w lr) a v r))
      with (Node (tdelmin (Node (Node lll c u llr) b w lr)) a v r).
    change (tminright (Node (Node lll c u llr) b w lr) r)
      with (tminright (Node lll c u llr) lr) in *.
    change (tmin (Node (Node lll c u llr) b w lr) a)
      with (tmin (Node lll c u llr) b) in *.
    cbn [rep]. split_and!.
    + rewrite Hother.
      * rewrite Hn. simpl. unfold lnk. by rewrite Hleft, Hright, Hparent, Hvalue.
      * apply in_addrs_node. auto.
      * intros Ha. apply Hal. rewrite Ha. apply in_addrs_node. left. apply tmin_in_left.
      * intros ->. done.
      * intros Hr. apply root_tminright_in in Hr. apply Hal.
        apply in_addrs_node. destruct Hr; auto.
    + eapply (IH h h' (Some a) c u llr b w lr mp nmp); try done.
      intros x Hx. apply Hother. apply in_addrs_node. auto.
    + eapply rep_frame; [|done]. intros x Hx. apply Hother.
      * apply in_addrs_node. auto.
      * intros ->. apply (Hdisj (tmin (Node lll c u llr) b)); [|done].
        apply in_addrs_node. left. apply tmin_in_left.
      * intros ->. by apply (Hdisj mp).
      * intros Hr. apply root_tminright_in in Hr. apply (Hdisj x); [|done].
        apply in_addrs_node. destruct Hr; auto.
Qed.

Lemma tdelmin_addrs l a v r :
  addrs (Node l a v r) = tmin l a :: addrs (tdelmin (Node l a v r)).
Proof.
  unfold addrs. rewrite tdelmin_elems, fmap_cons. f_equal. apply tminelem_tmin.
Qed.

Lemma tdelmin_root ll b w lr a v r :
  root (tdelmin (Node (Node ll b w lr) a v r)) = Some a.
Proof. done. Qed.

Ltac alter_at :=
  repeat first
    [ rewrite lookup_alter_eq
    | rewrite lookup_alter_ne by done ].

(** Making [m] the root above [l] and [t2]. *)
Lemma attach_rep h l t2 m nm mv pl pr la ra :
  rep h pl l → rep h pr t2 → root l = Some la → root t2 = Some ra →
  h !! m = Some nm → value_ nm = Some mv →
  NoDup (addrs l ++ m :: addrs t2) →
  rep (alter (λ n, with_parent n (Some m)) ra
         (alter (λ n, with_parent n (Some m)) la
            (alter (λ n, with_right n (Some ra)) m
               (alter (λ n, with_left n (Some la)) m h))))
      (parent nm) (Node l m mv t2).
Proof.
  intros Hl Ht2 Hla Hra Hm Hmv Hnd.
  apply NoDup_app in Hnd as (Hndl & Hdisj & Hnd2).
  apply NoDup_cons in Hnd2 as (Hm2 & Hnd2).
  assert (m ∉ addrs l) as Hml by (intros Hin; apply (Hdisj _ Hin); set_solver).
  pose proof (root_in_addrs _ _ Hla) as Hlain.
  pose proof (root_in_addrs _ _ Hra) as Hrain.
  assert (la ≠ m) as Hlam by (intros ->; done).
  assert (ra ≠ m) as Hram by (intros ->; done).
  assert (la ≠ ra) as Hlara by (intros ->; apply (Hdisj _ Hlain); set_solver).
  cbn [rep]. split_and!.
  - alter_at. rewrite Hm. simpl. unfold lnk. simpl. by rewrite Hla, Hra, Hmv.
  - eapply rep_reparent; [exact Hl| | |done].
    + intros b Hb Hroot. rewrite Hla in Hroot.
      assert (b ≠ ra) by (intros ->; apply (Hdisj _ Hb); set_solver).
      assert (b ≠ la) by congruence. assert (b ≠ m) by (intros ->; done).
      by alter_at.
    + intros b n Hb Hn. rewrite Hla in Hb. injection Hb as <-.
      alter_at. by rewrite Hn.
  - eapply rep_reparent; [exact Ht2| | |done].
    + intros b Hb Hroot. rewrite Hra in Hroot.
      assert (b ≠ ra) by congruence.
      assert (b ≠ la) by (intros ->; apply (Hdisj _ Hlain); set_solver).
      assert (b ≠ m) by (intros ->; done).
      by alter_at.
    + intros b n Hb Hn. rewrite Hra in Hb. injection Hb as <-.
      alter_at. by rewrite Hn.
Qed.

(** [merge] when the right tree has no left subtree: [l] is hung below
    its root. *)
Lemma attach_left_rep h l rr la ra rv pl pr :
  rep h pl l → rep h pr (Node Leaf ra rv rr) → root l = Some la →
  NoDup (addrs l ++ addrs (Node Leaf ra rv rr)) →
  rep (alter (λ n, with_parent n (Some ra)) la
         (alter (λ n, with_left n (Some la)) ra h))
      pr (Node l ra rv rr).
Proof.
  intros Hl Hr Hla Hnd.
  apply NoDup_app in Hnd as (Hndl & Hdisj & Hndr).
  pose proof (NoDup_node _ _ _ _ Hndr) as (_ & Hndrr & _ & Hrarr & _).
  pose proof (root_in_addrs _ _ Hla) as Hlain.
  assert (la ≠ ra) as Hlara.
  { intros ->. apply (Hdisj _ Hlain). apply in_addrs_node. auto. }
  rep_inv Hr. cbn [rep]. split_and!.
  - alter_at. rewrite Hn. simpl. unfold lnk. simpl. by rewrite Hla, Hright, Hparent, Hvalue.
  - eapply rep_reparent; [exact Hl| | |done].
    + intros b Hb Hroot. rewrite Hla in Hroot.
      assert (b ≠ ra) by (intros ->; apply (Hdisj _ Hb); apply in_addrs_node; auto).
      assert (b ≠ la) by congruence.
      by alter_at.
    + intros b n' Hb Hn'. rewrite Hla in Hb. injection Hb as <-.
      alter_at. by rewrite Hn'.
  - eapply rep_frame; [|done]. intros b Hb.
    assert (b ≠ ra) by (intros ->; done).
    assert (b ≠ la).
    { intros ->. apply (Hdisj _ Hlain). apply in_addrs_node. auto. }
    by alter_at.
Qed.

Lemma tmin_notin_right l a v r :
  NoDup (addrs (Node l a v r)) → tmin l a ∉ addrs (tminright l r).
Proof.
  revert a v r. induction l as [|ll IH b w lr _]; intros a v r Hnd.
  - by pose proof (NoDup_node _ _ _ _ Hnd) as (_ & _ & _ & ? & _).
  - pose proof (NoDup_node _ _ _ _ Hnd) as (Hndl & _). simpl. by eapply IH.
Qed.

Lemma tminparent_notin_right ll : ∀ b w lr a v r par mp,
  NoDup (addrs (Node (Node ll b w lr) a v r)) →
  tminparent (Node ll b w lr) a par = Some mp →
  mp ∉ addrs (tminright (Node ll b w lr) r).
Proof.
  induction ll as [|lll IH c u llr _]; intros b w lr a v r par mp Hnd Hmp.
  - simpl in *. injection Hmp as <-.
    pose proof (NoDup_node _ _ _ _ Hnd) as (_ & _ & Hal & _).
    intros Hin. apply Hal. apply in_addrs_node. auto.
  - pose proof (NoDup_node _ _ _ _ Hnd) as (Hndl & _).
    change (tminright (Node (Node lll c u llr) b w lr) r)
      with (tminright (Node lll c u llr) lr).
    by eapply (IH c u llr b w lr (Some a) mp).
Qed.

(** The heap after the leftmost node of a tree was detached from its
    parent [mp], [mr] being the root of its right subtree. *)
Definition detach h (mp : positive) (mr : ptr) : gmap positive sentinel_node :=
  match mr with
  | Some x => alter (λ n, with_parent n (Some mp)) x (alter (λ n, with_left n mr) mp h)
  | None => alter (λ n, with_left n mr) mp h
  end.

Lemma detach_rep h par ll b w lr a v r mp :
  rep h par (Node (Node ll b w lr) a v r) →
  NoDup (addrs (Node (Node ll b w lr) a v r)) →
  tminparent (Node ll b w lr) a par = Some mp →
  let m := tmin (Node ll b w lr) a in
  let h' := detach h mp (root (tminright (Node ll b w lr) r)) in
  rep h' par (tdelmin (Node (Node ll b w lr) a v r))
  ∧ h' !! m = h !! m
  ∧ (∀ c, c ∉ addrs (Node (Node ll b w lr) a v r) → h' !! c = h !! c).
Proof.
  intros Hrep Hnd Hmp m h'.
  destruct (rep_min_parent _ _ _ _ _ _ _ _ _ Hrep) as (mp' & nmp & E & Hin & Hne & Hnmp & Hlmp).
  assert (mp' = mp) as -> by congruence.
  pose proof (tmin_notin_right _ _ _ _ Hnd) as Hmr.
  pose proof (tminparent_notin_right _ _ _ _ _ _ _ _ _ Hnd Hmp) as Hmpr.
  fold m in Hmr, Hne.
  assert (mp ∈ addrs (Node (Node ll b w lr) a v r)) as Hmpin.
  { apply in_addrs_node. destruct Hin as [->|?]; auto. }
  assert (∀ x, root (tminright (Node ll b w lr) r) = Some x →
               x ≠ mp ∧ x ≠ m ∧ x ∈ addrs (Node (Node ll b w lr) a v r)) as Hx.
  { intros x Hx. pose proof (root_in_addrs _ _ Hx) as Hxin. split_and!.
    - intros ->. done.
    - intros ->. done.
    - apply in_addrs_node. apply tminright_sub in Hxin as [?|?]; auto. }
  split_and!.
  - eapply (tdelmin_rep ll h h' par b w lr a v r mp nmp); try done.
    + intros c Hc Hcm Hcmp Hcx. unfold h', detach.
      destruct (root (tminright (Node ll b w lr) r)) as [x|] eqn:Hr.
      * assert (x ≠ c) by congruence. by alter_at.
      * by alter_at.
    + unfold h', detach.
      destruct (root (tminright (Node ll b w lr) r)) as [x|] eqn:Hr.
      * destruct (Hx x eq_refl) as (? & ? & ?). alter_at. by rewrite Hnmp.
      * alter_at. by rewrite Hnmp.
    + intros x nx Hr Hnx. unfold h', detach. rewrite Hr.
      destruct (Hx x Hr) as (? & ? & ?). alter_at. by rewrite Hnx.
  - unfold h', detach.
    destruct (root (tminright (Node ll b w lr) r)) as [x|] eqn:Hr.
    + destruct (Hx x eq_refl) as (? & ? & ?). by alter_at.
    + by alter_at.
  - intros c Hc. unfold h', detach.
    assert (mp ≠ c) by (intros ->; done).
    destruct (root (tminright (Node ll b w lr) r)) as [x|] eqn:Hr.
    + destruct (Hx x eq_refl) as (? & ? & ?).
      assert (x ≠ c) by (intros ->; done). by alter_at.
    + by alter_at.
Qed.

(** Relinking keeps the [share] and the value of every node. *)
Definition same_payload (h h' : gmap positive sentinel_node) : Prop :=
  ∀ b, (λ n, (share n, value_ n)) <$> h' !! b = (λ n, (share n, value_ n)) <$> h !! b.

Lemma same_payload_refl h : same_payload h h.
Proof. by intros b. Qed.

Lemma same_payload_trans h1 h2 h3 :
  same_payload h1 h2 → same_payload h2 h3 → same_payload h1 h3.
Proof. intros H1 H2 b. by rewrite H2, H1. Qed.

Lemma alter_payload h a (f : sentinel_node → sentinel_node) :
  (∀ n, share (f n) = share n ∧ value_ (f n) = value_ n) →
  same_payload h (alter f a h).
Proof.
  intros Hf b. destruct (decide (a = b)) as [->|Hne].
  - rewrite lookup_alter_eq. destruct (h !! b) as [n|]; [|done]. simpl.
    by destruct (Hf n) as [-> ->].
  - by rewrite lookup_alter_ne.
Qed.

Lemma detach_payload h mp mr : same_payload h (detach h mp mr).
Proof.
  unfold detach. destruct mr.
  - eapply same_payload_trans; by apply alter_payload.
  - by apply alter_payload.
Qed.

Lemma same_payload_is_Some h h' a : same_payload h h' → is_Some (h' !! a) ↔ is_Some (h !! a).
Proof.
  intros H. specialize (H a). destruct (h !! a), (h' !! a); simplify_eq/=; split; eauto;
    intros [? ?]; done.
Qed.

Lemma set_left_alter st a p :
  is_Some (nodes st !! a) →
  set_left a p st = Ok () (with_nodes st (alter (λ n, with_left n p) a (nodes st))).
Proof. apply modify_alter. Qed.

Lemma set_right_alter st a p :
  is_Some (nodes st !! a) →
  set_right a p st = Ok () (with_nodes st (alter (λ n, with_right n p) a (nodes st))).
Proof. apply modify_alter. Qed.

Lemma set_parent_alter st a p :
  is_Some (nodes st !! a) →
  set_parent a p st = Ok () (with_nodes st (alter (λ n, with_parent n p) a (nodes st))).
Proof. apply modify_alter. Qed.

(** The detaching half of [merge]. *)
Lemma detach_run st m nm mp nmp :
  nodes st !! m = Some nm → nodes st !! mp = Some nmp → m ≠ mp →
  parent nm = Some mp →
  (∀ x, right nm = Some x → is_Some (nodes st !! x)) →
  (mr ← get_right m;
   set_left mp mr;;
   mr ← get_right m;
   match mr with
   | Some x => mp ← get_parent m; set_parent x mp
   | None => mret ()
   end) st
  = Ok () (with_nodes st (detach (nodes st) mp (right nm))).
Proof.
  intros Hm Hmp Hne Hpar Hx.
  rewrite (bind_ok _ _ _ _ _ (get_right_run _ _ _ Hm)).
  rewrite (bind_ok _ _ _ _ _ (set_left_alter _ _ _ ltac:(by eexists))).
  set (st1 := with_nodes st _).
  assert (nodes st1 !! m = Some nm) as Hm1.
  { unfold st1. sstate. by rewrite lookup_alter_ne. }
  rewrite (bind_ok _ _ _ _ _ (get_right_run _ _ _ Hm1)).
  unfold detach. destruct (right nm) as [x|] eqn:Hr; [|done].
  rewrite (bind_ok _ _ _ _ _ (get_parent_run _ _ _ Hm1)), Hpar.
  rewrite set_parent_alter; [done|].
  unfold st1. sstate. apply is_Some_alter. by apply Hx.
Qed.

(** The attaching half. *)
Lemma attach_run st m la ra :
  is_Some (nodes st !! m) → is_Some (nodes st !! la) → is_Some (nodes st !! ra) →
  (set_left m (Some la);;
   set_right m (Some ra);;
   set_parent la (Some m);;
   set_parent ra (Some m);;
   mret (Some m)) st
  = Ok (Some m)
       (with_nodes st
          (alter (λ n, with_parent n (Some m)) ra
             (alter (λ n, with_parent n (Some m)) la
                (alter (λ n, with_right n (Some ra)) m
                   (alter (λ n, with_left n (Some la)) m (nodes st)))))).
Proof.
  intros Hm Hla Hra.
  rewrite (bind_ok _ _ _ _ _ (set_left_alter _ _ _ Hm)).
  set (st1 := with_nodes st _).
  assert (is_Some (nodes st1 !! m)) as Hm1 by (unfold st1; sstate; by rewrite is_Some_alter).
  rewrite (bind_ok _ _ _ _ _ (set_right_alter _ _ _ Hm1)).
  set (st2 := with_nodes st1 _).
  assert (is_Some (nodes st2 !! la)) as Hla2
    by (unfold st2, st1; sstate; by rewrite !is_Some_alter).
  rewrite (bind_ok _ _ _ _ _ (set_parent_alter _ _ _ Hla2)).
  set (st3 := with_nodes st2 _).
  assert (is_Some (nodes st3 !! ra)) as Hra3
    by (unfold st3, st2, st1; sstate; by rewrite !is_Some_alter).
  by rewrite (bind_ok _ _ _ _ _ (set_parent_alter _ _ _ Hra3)).
Qed.

(** [merge] turns the representations of [l] and [r] into one of
    [tmerge l r]; the parent pointer of the new root is left for the caller
    to set.  Only nodes of [l] and [r] are written, and only their links. *)
Lemma merge_spec st fuel l r pl pr :
  rep (nodes st) pl l → rep (nodes st) pr r →
  NoDup (addrs l ++ addrs r) → (count r < fuel)%nat →
  ∃ st',
    merge fuel (root l) (root r) st = Ok (root (tmerge l r)) st'
    ∧ (∃ p', rep (nodes st') p' (tmerge l r))
    ∧ (∀ c, c ∉ addrs l → c ∉ addrs r → nodes st' !! c = nodes st !! c)
    ∧ same_payload (nodes st) (nodes st')
    ∧ sizes st' = sizes st ∧ iters st' = iters st ∧ oracle st' = oracle st.
Proof.
  intros Hl Hr Hnd Hf.
  destruct l as [|ll la lv lr0].
  { exists st. split_and!; [reflexivity|by exists pr|done|apply same_payload_refl|done..]. }
  destruct r as [|rl ra rv rr].
  { exists st. split_and!; [reflexivity|by exists pl|done|apply same_payload_refl|done..]. }
  pose proof Hnd as Hnd0.
  apply NoDup_app in Hnd as (Hndl & Hdisj & Hndr).
  assert (find_min fuel (nodes st) ra = Val (tmin rl ra)) as Hmin.
  { eapply find_min_rep; [done|]. simpl in Hf. lia. }
  assert (la ∈ addrs (Node ll la lv lr0)) as Hlain by (apply in_addrs_node; auto).
  assert (ra ∈ addrs (Node rl ra rv rr)) as Hrain by (apply in_addrs_node; auto).
  destruct (rep_in_dom _ _ _ _ Hl Hlain) as [nla Hnla].
  destruct (rep_in_dom _ _ _ _ Hr Hrain) as [nra Hnra].
  assert (la ≠ ra) as Hlara by (intros ->; by apply (Hdisj ra)).
  unfold merge. cbn [root].
  rewrite (bind_ok _ _ _ _ _ (lift_val (λ h, find_min fuel h ra) st _ Hmin)).
  destruct rl as [|rll rb rw rlr].
  - (* the root of [r] is its minimum *)
    cbn [tmin]. rewrite decide_True by done.
    rewrite (bind_ok _ _ _ _ _ (set_left_alter _ _ _ ltac:(by eexists))).
    set (st1 := with_nodes st _).
    assert (is_Some (nodes st1 !! la)) as Hla1.
    { unfold st1. sstate. rewrite is_Some_alter. by eexists. }
    rewrite (bind_ok _ _ _ _ _ (set_parent_alter _ _ _ Hla1)).
    eexists. split; [reflexivity|]. unfold st1. sstate. split_and!; try done.
    + exists pr. by eapply (attach_left_rep _ _ _ _ _ _ pl pr).
    + intros c Hcl Hcr.
      assert (la ≠ c) by (intros ->; done). assert (ra ≠ c) by (intros ->; done).
      by alter_at.
    + eapply same_payload_trans; by apply alter_payload.
  - (* the minimum lies deeper: detach it, then make it the root *)
    set (m := tmin (Node rll rb rw rlr) ra) in *.
    destruct (rep_min _ _ _ _ _ _ Hr) as (nm & Hnm & Hlm & Hrm & Hpm & Hvm & Hrepmr).
    fold m in Hnm, Hrepmr.
    destruct (rep_min_parent _ _ _ _ _ _ _ _ _ Hr) as (mp & nmp & Hmp & Hmpin & Hmpne & Hnmp & Hlmp).
    fold m in Hmpne, Hlmp.
    assert (m ∈ addrs (Node (Node rll rb rw rlr) ra rv rr)) as Hmin' by apply tmin_in.
    assert (m ≠ ra) as Hmra.
    { pose proof (NoDup_node _ _ _ _ Hndr) as (_ & _ & Hra & _).
      intros E. apply Hra. rewrite <- E. apply tmin_in_left. }
    assert (m ≠ la) as Hmla by (intros ->; by apply (Hdisj la)).
    rewrite decide_False by done.
    rewrite (bind_ok _ _ _ _ _ (get_parent_run _ _ _ Hnm)), Hpm, Hmp. cbn [nonnull].
    rewrite bind_unfold, ret_unfold.
    rewrite (bind_ok _ _ _ _ _ (get_left_run _ _ _ Hnmp)), Hlmp.
    rewrite decide_True by done.
    assert (∀ x, right nm = Some x → is_Some (nodes st !! x)) as Hx.
    { intros x Hx. rewrite Hrm in Hx. eapply rep_in_dom; [exact Hrepmr|].
      by apply root_in_addrs. }
    rewrite (bind_ok _ _ _ _ _
      (detach_run st m nm mp nmp Hnm Hnmp (not_eq_sym Hmpne) ltac:(congruence) Hx)).
    rewrite Hrm.
    destruct (detach_rep _ _ _ _ _ _ _ _ _ _ Hr Hndr Hmp) as (Hrep1 & Hm1 & Hout1).
    fold m in Hm1.
    set (h1 := detach (nodes st) mp (root (tminright (Node rll rb rw rlr) rr))) in *.
    pose proof (detach_payload (nodes st) mp (root (tminright (Node rll rb rw rlr) rr))) as Hpay1.
    fold h1 in Hpay1.
    rewrite attach_run; sstate;
      [|rewrite (same_payload_is_Some _ _ _ Hpay1); by eexists..].
    eexists. split.
    { cbn [tmerge root]. by rewrite (tminelem_tmin (Node rll rb rw rlr) ra rv). }
    sstate. split_and!; try done.
    + exists (parent nm). cbn [tmerge].
      rewrite (tminelem_tmin (Node rll rb rw rlr) ra rv). fold m.
      pose proof (tdelmin_addrs (Node rll rb rw rlr) ra rv rr) as Haddr. fold m in Haddr.
      eapply (attach_rep h1 _ _ m nm _ pl pr la ra); try done.
      * eapply rep_frame; [|exact Hl]. intros c Hc. rewrite Hout1; [done|].
        intros Hcr. by apply (Hdisj c).
      * by rewrite Hm1.
      * rewrite Haddr in Hnd0. apply NoDup_app in Hnd0 as (H1 & H2 & H3).
        apply NoDup_app. split_and!; [done| |done].
        intros c Hc. rewrite <- Haddr. by apply Hdisj.
    + intros c Hcl Hcr.
      assert (la ≠ c) by (intros ->; done). assert (ra ≠ c) by (intros ->; done).
      assert (m ≠ c) by (intros ->; done).
      alter_at. by apply Hout1.
    + eapply same_payload_trans; [exact Hpay1|].
      do 3 (eapply same_payload_trans; [|by apply alter_payload]).
      by apply alter_payload.
Qed.

(** ** Erasing a node *)

Lemma tfind_none t e par : tfind t e par = None → e ∉ addrs t.
Proof.
  revert par. induction t as [|l IHl a v r IHr]; intros par; simpl.
  - intros _ H. by apply elem_of_nil in H.
  - case_decide; [done|]. destruct (tfind l e (Some a)) eqn:El; [done|].
    intros Er. rewrite in_addrs_node. intros [?|[?|?]].
    + by eapply IHl.
    + congruence.
    + by eapply IHr.
Qed.

Lemma tfind_some t e par : e ∈ addrs t → is_Some (tfind t e par).
Proof.
  intros Hin. destruct (tfind t e par) eqn:E; [by eexists|].
  by apply tfind_none in E.
Qed.

(** Where the node at [e] sits: either it is the root, or its parent [dp]
    is a node of the tree outside the subtree of [e]. *)
Lemma tfind_spec t : ∀ e par l v r pe,
  tfind t e par = Some (l, v, r, pe) → NoDup (addrs t) →
  e ∈ addrs t
  ∧ (∀ c, c ∈ addrs (Node l e v r) → c ∈ addrs t)
  ∧ NoDup (addrs (Node l e v r))
  ∧ ((pe = par ∧ root t = Some e)
     ∨ (∃ dp, pe = Some dp ∧ dp ∈ addrs t ∧ dp ∉ addrs (Node l e v r)
              ∧ root t ≠ Some e)).
Proof.
  induction t as [|tl IHl a x tr IHr]; intros e par l v r pe Hf Hnd; [done|].
  pose proof (NoDup_node _ _ _ _ Hnd) as (Hndl & Hndr & Hal & Har & Hdisj).
  simpl in Hf. case_decide as Hae.
  - simplify_eq. split_and!; [apply in_addrs_node; auto|done|done|by left].
  - destruct (tfind tl e (Some a)) as [y|] eqn:El.
    + simplify_eq. destruct (IHl _ _ _ _ _ _ El Hndl) as (Hin & Hsub & Hnd' & Hcase).
      split_and!; [apply in_addrs_node; auto| |done|].
      { intros c Hc. apply in_addrs_node. auto. }
      right. destruct Hcase as [[-> Hroot]|(dp & -> & Hdp & Hdpn & Hroot)].
      * exists a. split_and!; [done|apply in_addrs_node; auto| |simpl; congruence].
        intros Ha. by apply Hal, Hsub.
      * exists dp. split_and!; [done|apply in_addrs_node; auto|done|simpl; congruence].
    + destruct (IHr _ _ _ _ _ _ Hf Hndr) as (Hin & Hsub & Hnd' & Hcase).
      split_and!; [apply in_addrs_node; auto| |done|].
      { intros c Hc. apply in_addrs_node. auto. }
      right. destruct Hcase as [[-> Hroot]|(dp & -> & Hdp & Hdpn & Hroot)].
      * exists a. split_and!; [done|apply in_addrs_node; auto| |simpl; congruence].
        intros Ha. by apply Har, Hsub.
      * exists dp. split_and!; [done|apply in_addrs_node; auto|done|simpl; congruence].
Qed.

Lemma tfind_rep t : ∀ h e par l v r pe,
  rep h par t → tfind t e par = Some (l, v, r, pe) →
  rep h pe (Node l e v r) ∧ (e, v) ∈ elems t.
Proof.
  induction t as [|tl IHl a x tr IHr]; intros h e par l v r pe Hrep Hf; [done|].
  simpl in Hf. case_decide as Hae.
  - simplify_eq. split; [done|]. apply elems_node. auto.
  - pose proof Hrep as Hrep0. rep_inv Hrep.
    destruct (tfind tl e (Some a)) as [y|] eqn:El.
    + simplify_eq. destruct (IHl _ _ _ _ _ _ _ Hrepl El). split; [done|].
      apply elems_node. auto.
    + destruct (IHr _ _ _ _ _ _ _ Hrepr Hf). split; [done|]. apply elems_node. auto.
Qed.

Lemma terase_root t e : root t ≠ Some e → root (terase t e) = root t.
Proof. destruct t as [|l a v r]; [done|]. simpl. intros H. by rewrite decide_False by congruence. Qed.

(** Replacing the subtree at [e] by the merge of its children, in the
    slot of the parent that designated [e]. *)
Lemma terase_rep t : ∀ h h' par e l v r pe,
  rep h par t → NoDup (addrs t) → tfind t e par = Some (l, v, r, pe) →
  rep h' pe (tmerge l r) →
  (∀ c, c ∈ addrs t → c ∉ addrs (Node l e v r) → Some c ≠ pe →
        lnk <$> h' !! c = lnk <$> h !! c) →
  (∀ dp n, pe = Some dp → dp ∈ addrs t → h !! dp = Some n →
           lnk <$> h' !! dp
           = Some (if decide (left n = Some e)
                   then (root (tmerge l r), right n, parent n, value_ n)
                   else (left n, root (tmerge l r), parent n, value_ n))) →
  rep h' par (terase t e).
Proof.
  induction t as [|tl IHl a x tr IHr];
    intros h h' par e l v r pe Hrep Hnd Hf Hsub Hother Hdp; [done|].
  pose proof (NoDup_node _ _ _ _ Hnd) as (Hndl & Hndr & Hal & Har & Hdisj).
  pose proof Hrep as Hrep0. rep_inv Hrep.
  simpl in Hf. simpl. case_decide as Hae.
  { by simplify_eq. }
  destruct (tfind tl e (Some a)) as [y|] eqn:El.
  - simplify_eq.
    destruct (tfind_spec _ _ _ _ _ _ _ El Hndl) as (Hin & Hsubl & _ & Hcase).
    assert (e ∉ addrs tr) as Her by (by apply Hdisj).
    rewrite (terase_notin tr e Her). cbn [rep]. split_and!.
    + destruct Hcase as [[-> Hroot]|(dp & -> & Hdpin & Hdpn & Hroot)].
      * rewrite (Hdp a n eq_refl ltac:(apply in_addrs_node; auto) Hn).
        rewrite Hleft, Hroot, decide_True by done.
        destruct tl as [|tll ta tx tlr]; [done|]. simpl in Hroot. injection Hroot as ->.
        simpl in El. rewrite decide_True in El by done. injection El as <- <- <-.
        simpl. rewrite decide_True by done. by rewrite Hright, Hvalue.
      * rewrite Hother.
        -- rewrite Hn. simpl. unfold lnk.
           by rewrite (terase_root _ _ Hroot), Hleft, Hright, Hvalue.
        -- apply in_addrs_node. auto.
        -- intros Ha. by apply Hal, Hsubl.
        -- intros [= ->]. done.
    + eapply IHl; try done.
      * intros c Hc. apply Hother. apply in_addrs_node. auto.
      * intros dp n' E Hdpin. apply Hdp; [done|]. apply in_addrs_node. auto.
    + eapply rep_frame; [|done]. intros c Hc. apply Hother.
      * apply in_addrs_node. auto.
      * intros Hcs. apply Hsubl in Hcs. by apply (Hdisj c).
      * destruct Hcase as [[-> _]|(dp & -> & Hdpin & _)].
        -- intros [= ->]. done.
        -- intros [= <-]. by apply (Hdisj c).
  - destruct (tfind_spec _ _ _ _ _ _ _ Hf Hndr) as (Hin & Hsubr & _ & Hcase).
    assert (e ∉ addrs tl) as Hel by (intros He; by apply (Hdisj e)).
    rewrite (terase_notin tl e Hel). cbn [rep]. split_and!.
    + destruct Hcase as [[-> Hroot]|(dp & -> & Hdpin & Hdpn & Hroot)].
      * rewrite (Hdp a n eq_refl ltac:(apply in_addrs_node; auto) Hn).
        rewrite decide_False.
        2: { rewrite Hleft. intros Hr. by apply Hel, root_in_addrs. }
        destruct tr as [|trl ta tx trr]; [done|]. simpl in Hroot. injection Hroot as ->.
        simpl in Hf. rewrite decide_True in Hf by done. injection Hf as <- <- <-.
        simpl. rewrite decide_True by done. by rewrite Hleft, Hparent, Hvalue.
      * rewrite Hother.
        -- rewrite Hn. simpl. unfold lnk.
           by rewrite (terase_root _ _ Hroot), Hleft, Hright, Hparent, Hvalue.
        -- apply in_addrs_node. auto.
        -- intros Ha. by apply Har, Hsubr.
        -- intros [= ->]. done.
    + eapply rep_frame; [|done]. intros c Hc. apply Hother.
      * apply in_addrs_node. auto.
      * intros Hcs. apply Hsubr in Hcs. by apply (Hdisj c).
      * destruct Hcase as [[-> _]|(dp & -> & Hdpin & _)].
        -- intros [= ->]. done.
        -- intros [= <-]. by apply (Hdisj c).
    + eapply IHr; try done.
      * intros c Hc. apply Hother. apply in_addrs_node. auto.
      * intros dp n' E Hdpin. apply Hdp; [done|]. apply in_addrs_node. auto.
Qed.

(** The iterators after a node destructor ran over its [share]. *)
Fixpoint nulled (xs : list positive) (m : gmap positive s_iterator)
    : gmap positive s_iterator :=
  match xs with
  | [] => m
  | i :: xs' => nulled xs' (alter (λ it, mk_iterator None (container_ it)) i m)
  end.

Lemma nulled_lookup (xs : list positive) (m : gmap positive s_iterator) i :
  nulled xs m !! i
  = if decide (i ∈ xs) then (λ it, mk_iterator None (container_ it)) <$> m !! i
    else m !! i.
Proof.
  revert m. induction xs as [|j xs IH]; intros m; simpl.
  - done.
  - rewrite IH. destruct (decide (j = i)) as [->|Hne].
    + rewrite lookup_alter_eq.
      destruct (decide (i ∈ i :: xs)) as [_|Hn]; [|set_solver].
      case_decide; destruct (m !! i); done.
    + rewrite lookup_alter_ne by done.
      destruct (decide (i ∈ xs)), (decide (i ∈ j :: xs)); set_solver.
Qed.

Lemma nulled_app (xs ys : list positive) (m : gmap positive s_iterator) :
  nulled (xs ++ ys) m = nulled ys (nulled xs m).
Proof. revert m. induction xs as [|j xs IH]; intros m; simpl; [done|apply IH]. Qed.

Lemma clear_iterators_run (xs : list positive) : ∀ st,
  (∀ i, i ∈ xs → is_Some (iters st !! i)) →
  clear_iterators xs st = Ok () (with_iters st (nulled xs (iters st))).
Proof.
  induction xs as [|j xs IH]; intros st Hlive; simpl.
  - by destruct st.
  - destruct (Hlive j ltac:(set_solver)) as [it Hit].
    rewrite (bind_ok _ _ _ _ _ (set_node__run _ _ _ _ Hit)).
    rewrite IH.
    + sstate. do 3 f_equal. apply map_eq. intros i.
      destruct (decide (j = i)) as [->|Hne].
      * by rewrite lookup_insert_eq, lookup_alter_eq, Hit.
      * by rewrite lookup_insert_ne, lookup_alter_ne.
    + intros i Hi. sstate. destruct (decide (j = i)) as [->|Hne].
      * rewrite lookup_insert_eq. by eexists.
      * rewrite lookup_insert_ne by done. apply Hlive. set_solver.
Qed.

Lemma delete_node_run st a n :
  nodes st !! a = Some n →
  (∀ i, i ∈ items (share n) → is_Some (iters st !! i)) →
  delete_node a st
  = Ok () (mk_state (delete a (nodes st)) (sizes st)
             (nulled (items (share n)) (iters st)) (oracle st)).
Proof.
  intros Hn Hlive. unfold delete_node, sentinel_node_dtor.
  rewrite bind_unfold, (bind_ok _ _ _ _ _ (load_run _ _ _ Hn)).
  by rewrite clear_iterators_run.
Qed.

Lemma tmerge_addrs l r : addrs (tmerge l r) = addrs l ++ addrs r.
Proof. unfold addrs. by rewrite tmerge_elems, fmap_app. Qed.

(** The heap after [erase] relinked the tree, compared with the heap
    [h1] before and the heap [h2] that [merge] left: any heap [h'] with the
    links of the relinked one represents [terase t e] below the anchor. *)
Lemma erase_heap h1 h2 s t e l v r pe dpa ndp na :
  rep h1 (Some s) t → NoDup (addrs t) →
  tfind t e (Some s) = Some (l, v, r, pe) → pe = Some dpa →
  h1 !! dpa = Some ndp →
  h1 !! s = Some na → value_ na = None → (t ≠ Leaf → left na = root t) →
  (∃ p', rep h2 p' (tmerge l r)) →
  (∀ c, c ∉ addrs l → c ∉ addrs r → h2 !! c = h1 !! c) →
  ∀ h',
    (∀ c, c ≠ e →
       lnk <$> h' !! c
       = lnk <$> (match root (tmerge l r) with
                  | Some x => alter (λ n, with_parent n pe) x
                  | None => id
                  end
                    (alter (if decide (left ndp = Some e)
                            then (λ n, with_left n (root (tmerge l r)))
                            else (λ n, with_right n (root (tmerge l r))))
                       dpa h2)) !! c) →
    rep h' (Some s) (terase t e)
    ∧ ∃ na', h' !! s = Some na' ∧ value_ na' = None ∧ right na' = right na
             ∧ left na' ≠ Some e
             ∧ left na' = root (terase t e).
Proof.
  intros Hrep Hnd Hf -> Hndp Hna Hva Hroot (p' & Hrep2) Hout h' Hh'.
  destruct (tfind_spec _ _ _ _ _ _ _ Hf Hnd) as (Hein & Hsub & Hnds & Hcase).
  pose proof (NoDup_node _ _ _ _ Hnds) as (Hndl & Hndr & Hel & Her & Hdisj).
  assert (s ∉ addrs t) as Hs.
  { intros Hin. destruct (rep_value _ _ _ _ Hrep Hin) as (? & ? & ? & ? & _). congruence. }
  assert (dpa ∉ addrs (Node l e v r)) as Hdpa.
  { destruct Hcase as [[[= ->] _]|(dp & [= ->] & _ & ? & _)]; [|done].
    intros Hin. by apply Hs, Hsub. }
  assert (dpa ≠ e) as Hdpe by (intros ->; apply Hdpa, in_addrs_node; auto).
  assert (∀ c, c ∈ addrs (tmerge l r) → c ∈ addrs (Node l e v r) ∧ c ≠ e ∧ c ≠ dpa) as Hm.
  { intros c. rewrite tmerge_addrs, elem_of_app. intros Hc.
    assert (c ∈ addrs (Node l e v r)) by (apply in_addrs_node; tauto).
    split_and!; [done| |by intros ->].
    intros ->. tauto. }
  assert (NoDup (addrs (tmerge l r))) as Hndm.
  { rewrite tmerge_addrs. apply NoDup_app. split_and!; try done. }
  set (new := root (tmerge l r)) in *.
  set (h3 := alter _ dpa h2) in *.
  set (h4 := _ h3) in Hh'.
  assert (h2 !! dpa = Some ndp) as Hndp2.
  { rewrite Hout; [done|..]; intros Hin; apply Hdpa, in_addrs_node; auto. }
  assert (rep h3 p' (tmerge l r)) as Hrep3.
  { eapply rep_frame; [|exact Hrep2]. intros c Hc. destruct (Hm c Hc) as (_ & _ & ?).
    unfold h3. by rewrite lookup_alter_ne. }
  assert (rep h4 (Some dpa) (tmerge l r)) as Hrep4.
  { unfold h4. destruct new as [x|] eqn:Hnew.
    - eapply rep_reparent; [exact Hrep3| | |done].
      + intros c Hc Hr. fold new in Hr. rewrite Hnew in Hr.
        rewrite lookup_alter_ne; [done|congruence].
      + intros c n Hr Hn. fold new in Hr. rewrite Hnew in Hr. injection Hr as ->.
        by rewrite lookup_alter_eq, Hn.
    - unfold new in Hnew. by destruct (tmerge l r). }
  assert (∀ x, new = Some x → x ∈ addrs (Node l e v r) ∧ x ≠ e ∧ x ≠ dpa) as Hx.
  { intros x Hnew. by apply Hm, root_in_addrs. }
  assert (∀ c, c ∉ addrs (Node l e v r) → h4 !! c = h3 !! c) as H43.
  { intros c Hc. unfold h4. destruct new as [x|] eqn:Hnew; [|done].
    destruct (Hx x eq_refl) as (? & _). rewrite lookup_alter_ne; [done|]. by intros ->. }
  assert (lnk <$> h4 !! dpa
          = Some (if decide (left ndp = Some e)
                  then (new, right ndp, parent ndp, value_ ndp)
                  else (left ndp, new, parent ndp, value_ ndp))) as Hdp4.
  { rewrite (H43 _ Hdpa). unfold h3. rewrite lookup_alter_eq, Hndp2.
    by case_decide. }
  split.
  - eapply (terase_rep t h1 h' (Some s) e l v r (Some dpa)); try done.
    + eapply rep_frame; [|exact Hrep4]. intros c Hc. destruct (Hm c Hc) as (_ & ? & _).
      by apply Hh'.
    + intros c Hc Hcs Hcp.
      assert (c ≠ e) by (intros ->; apply Hcs, in_addrs_node; auto).
      assert (dpa ≠ c) by congruence.
      rewrite (Hh' c), (H43 c) by done. unfold h3. rewrite lookup_alter_ne by done.
      rewrite Hout; [done|..]; intros Hin; apply Hcs, in_addrs_node; auto.
    + intros dp n [= <-] Hdpin Hn. rewrite (Hh' dpa Hdpe), Hdp4.
      assert (n = ndp) as -> by congruence. done.
  - assert (s ≠ e) as Hse by (intros ->; done).
    assert (s ∉ addrs (Node l e v r)) as Hss by (intros Hin; by apply Hs, Hsub).
    pose proof (Hh' s Hse) as Hls.
    destruct Hcase as [[[= ->] Hr]|(dp & [= <-] & Hdpin & _ & Hr)].
    + rewrite Hdp4 in Hls. assert (ndp = na) as -> by congruence.
      assert (t ≠ Leaf) as Hne by (by destruct t).
      rewrite (Hroot Hne), Hr, decide_True in Hls by done.
      destruct (h' !! s) as [na'|]; [|done]. injection Hls as El Er Ep Ev.
      exists na'. split_and!; try done; [congruence| |].
      { rewrite El. intros Hx'. by destruct (Hx e Hx') as (_ & ? & _). }
      rewrite El. unfold new.
      destruct t as [|tl ta tx tr]; [done|]. simpl in Hr. injection Hr as ->.
      simpl in Hf. rewrite decide_True in Hf by done. injection Hf as <- <- <-.
      simpl. by rewrite decide_True.
    + assert (dpa ≠ s) as Hds by (intros ->; done).
      rewrite (H43 s Hss) in Hls. unfold h3 in Hls. rewrite lookup_alter_ne in Hls by done.
      rewrite Hout, Hna in Hls.
      2,3: intros Hin; apply Hss, in_addrs_node; auto.
      destruct (h' !! s) as [na'|]; [|done]. injection Hls as El Er Ep Ev.
      assert (t ≠ Leaf) as Hne by (intros ->; by apply elem_of_nil in Hein).
      exists na'. split_and!; try done; [congruence| |].
      { rewrite El, (Hroot Hne). done. }
      rewrite El, (terase_root _ _ Hr). by apply Hroot.
Qed.

(** * Further properties of the code *)

(** ** Iteration, [size] and [empty] *)

(** X1.  On every set, the loop from [begin()] to [end()] that
    dereferences and increments an iterator returns the values of the tree
    in order, a strictly increasing list; afterwards no link, value or size
    has changed and the iterator registry holds the iterators it held
    before. *)
Theorem iteration_in_order st s t :
  set_inv st s t → oracle st = [] →
  ∃ st',
    to_list s st = Ok (values t) st'
    ∧ StronglySorted Z.lt (values t)
    ∧ iters st' = iters st
    ∧ same_links (nodes st) (nodes st')
    ∧ sizes st' = sizes st.
Proof.
  intros Hinv Ho. destruct (to_list_spec _ _ _ Hinv Ho) as (st' & Hrun & Hit & Hl & Hs & _).
  exists st'. split_and!; try done.
  apply bst_sorted. destruct Hinv as (? & ? & ? & ? & ? & ? & ? & ? & ? & ?); done.
Qed.

Lemma iteration_in_order_witness :
  ∃ st',
    to_list 1 (final_state set_1357) = Ok (values tree_1357) st'
    ∧ StronglySorted Z.lt (values tree_1357)
    ∧ iters st' = iters (final_state set_1357)
    ∧ same_links (nodes (final_state set_1357)) (nodes st')
    ∧ sizes st' = sizes (final_state set_1357).
Proof.
  apply (iteration_in_order (final_state set_1357) 1 tree_1357);
    [apply set_1357_inv|reflexivity].
Defined.

Lemma set_inv_size st s t : set_inv st s t → sizes st !! s = Some (Z.of_nat (length (values t))).
Proof.
  intros (n & _ & _ & _ & Hsz & _). by rewrite values_length.
Qed.

(** X2.  After a sequence of [insert] statements on an empty set,
    [size()] returns the number of distinct values inserted and [empty()]
    tells whether the sequence was empty. *)
Theorem size_counts_distinct st s vs :
  set_inv st s Leaf → oracle st = [] →
  Z.of_nat (length vs) < size_max →
  ∃ st',
    insert_all s vs st = Ok () st'
    ∧ size_ s st' = Ok (Z.of_nat (length (remove_dups vs))) st'
    ∧ empty s st' = Ok (bool_decide (vs = [])) st'.
Proof.
  intros Hinv Ho Hlen.
  destruct (insert_all_spec vs st s Leaf Hinv Ho ltac:(simpl; lia))
    as (st' & t & Hrun & Hinv' & _ & _ & Hvals).
  pose proof (set_inv_size _ _ _ Hinv') as Hsz.
  assert (values t ≡ₚ remove_dups vs) as Hperm.
  { apply NoDup_Permutation.
    - assert (bst t) as Hb by (destruct Hinv' as (? & ? & ? & ? & ? & ? & ? & ? & ? & ?); done).
      apply bst_sorted in Hb. clear -Hb.
      induction Hb as [|x xs Hs IH Hall]; constructor; [|done].
      intros Hin. rewrite Forall_forall in Hall. specialize (Hall _ Hin). lia.
    - apply NoDup_remove_dups.
    - intros x. rewrite Hvals, elem_of_remove_dups. split; [intros [?|?%elem_of_nil]; done|auto]. }
  rewrite Hperm in Hsz.
  exists st'. split_and!; [done|by apply load_size_run|].
  rewrite (empty_run _ _ _ Hsz). do 2 f_equal.
  destruct vs as [|v vs]; [done|].
  rewrite bool_decide_eq_false_2 by done. apply Z.eqb_neq.
  assert (v ∈ remove_dups (v :: vs)) as Hin by (apply elem_of_remove_dups; set_solver).
  destruct (remove_dups (v :: vs)); [by apply elem_of_nil in Hin|simpl; lia].
Qed.

Lemma size_counts_distinct_witness :
  ∃ st',
    insert_all 1 [3; 1; 2; 3; 1] (final_state empty_set) = Ok () st'
    ∧ size_ 1 st' = Ok (Z.of_nat (length (remove_dups [3; 1; 2; 3; 1]))) st'
    ∧ empty 1 st' = Ok (bool_decide ([3; 1; 2; 3; 1] = [])) st'.
Proof.
  apply (size_counts_distinct (final_state empty_set) 1 [3; 1; 2; 3; 1]);
    [apply empty_set_inv|reflexivity|vm_compute; reflexivity].
Defined.

(** ** Dereferencing the past-the-end iterator *)

(** X3.  [operator*] on an iterator positioned on an anchor: the
    assertion of [base_assert] fails exactly when the anchor's left pointer
    is the self reference its constructor wrote; once the left pointer holds
    anything else, as it does in every non-empty set, the assertion passes
    and the cast of the anchor to [node] is undefined behaviour. *)
Theorem deref_end st s i it n :
  iters st !! i = Some it → node_ it = Some s →
  nodes st !! s = Some n → value_ n = None →
  deref i st = Crash (if decide (left n = Some s) then AssertFailed else Undefined)
  ∧ ∀ t, set_inv st s t → t ≠ Leaf → deref i st = Crash Undefined.
Proof.
  intros Hi Hnode Hn Hv.
  assert (deref i st = Crash (if decide (left n = Some s) then AssertFailed else Undefined))
    as Hd.
  { unfold deref. case_decide as Hl.
    - unfold base_assert. rewrite bind_unfold.
      rewrite (bind_ok _ _ _ _ _ (load_iter_run _ _ _ Hi)), Hnode.
      rewrite (bind_ok _ _ _ _ _ (get_left_run _ _ _ Hn)).
      by rewrite bool_decide_eq_true_2.
    - rewrite (bind_ok _ _ _ _ _ (base_assert_run _ _ _ _ _ Hi Hnode Hn Hl)).
      rewrite (bind_ok _ _ _ _ _ (load_iter_run _ _ _ Hi)), Hnode. simpl.
      rewrite bind_unfold, ret_unfold. unfold get_value.
      by rewrite (bind_ok _ _ _ _ _ (load_run _ _ _ Hn)), Hv. }
  split; [done|]. intros t Hinv Hne. rewrite Hd.
  pose proof (set_inv_anchor_not_in _ _ _ Hinv) as Hs.
  destruct Hinv as (n' & Hn' & _ & _ & _ & _ & Hroot & _).
  assert (n' = n) as -> by congruence.
  rewrite decide_False; [done|]. rewrite (Hroot Hne). intros Hr.
  by apply Hs, root_in_addrs.
Qed.

(** The set {1, 3, 5, 7} with an iterator from [end()], which is the
    iterator object at address 1. *)
Definition set_1357_with_end : M positive := set_1357;; end_ 1.

Lemma set_1357_with_end_inv : set_inv (final_state set_1357_with_end) 1 tree_1357.
Proof. concrete_inv. Qed.

(** The record stored at an address (an empty sentinel when there is none). *)
Definition node_at (st : state) (a : positive) : sentinel_node :=
  default (mk_node None None None empty_vector None) (nodes st !! a).

Lemma deref_end_witness :
  deref 1 (final_state set_1357_with_end) = Crash Undefined
  ∧ deref 1 (final_state empty_set_with_end) = Crash AssertFailed.
Proof.
  split.
  - apply (deref_end (final_state set_1357_with_end) 1 1
             (mk_iterator (Some 1%positive) (Some 1%positive))
             (node_at (final_state set_1357_with_end) 1)
             ltac:(vm_compute; reflexivity) eq_refl
             ltac:(vm_compute; reflexivity) ltac:(vm_compute; reflexivity)).
  - apply (deref_end (final_state empty_set_with_end) 1 1
             (mk_iterator (Some 1%positive) (Some 1%positive))
             (node_at (final_state empty_set_with_end) 1)
             ltac:(vm_compute; reflexivity) eq_refl
             ltac:(vm_compute; reflexivity) ltac:(vm_compute; reflexivity)).
Defined.

(** ** [find] *)

Fixpoint tsearch (t : tree) (v : Z) : ptr :=
  match t with
  | Leaf => None
  | Node l a x r =>
      if x =? v then Some a
      else if v <? x then tsearch l v
      else tsearch r v
  end.

Lemma find_node_rep h par t fuel v :
  rep h par t → (count t < fuel)%nat →
  find_node fuel h (root t) v = Val (tsearch t v).
Proof.
  revert par fuel. induction t as [|l IHl a x r IHr]; intros par fuel H Hf; [by destruct fuel|].
  rep_inv H. destruct fuel; [lia|]. simpl in *. rewrite Hn, Hvalue, Hleft, Hright.
  repeat case_match; [done|eapply IHl|eapply IHr]; eauto; lia.
Qed.

Lemma tsearch_spec t v :
  bst t →
  match tsearch t v with
  | Some a => (a, v) ∈ elems t
  | None => v ∉ values t
  end.
Proof.
  induction t as [|l IHl a x r IHr]; intros Hb; simpl.
  - intros H. by apply elem_of_nil in H.
  - destruct Hb as (Hlt & Hgt & Hbl & Hbr). rewrite Forall_forall in Hlt, Hgt.
    destruct (Z.eqb_spec x v) as [->|Hne]; [apply elems_node; auto|].
    destruct (Z.ltb_spec v x).
    + specialize (IHl Hbl). destruct (tsearch l v).
      * apply elems_node. auto.
      * intros [?|[?|Hr]]%in_values_node; [done|lia|]. specialize (Hgt _ Hr). lia.
    + specialize (IHr Hbr). destruct (tsearch r v).
      * apply elems_node. auto.
      * intros [Hl|[?|?]]%in_values_node; [|lia|done]. specialize (Hlt _ Hl). lia.
Qed.

Lemma find_run st s t v :
  set_inv st s t → oracle st = [] →
  ∃ q st' p,
    find s v st = Ok q st'
    ∧ iters st !! q = None
    ∧ iters st' = <[q := mk_iterator (Some p) (Some s)]> (iters st)
    ∧ frame st st'
    ∧ ((v ∈ values t ∧ (p, v) ∈ elems t ∧ deref q st' = Ok v st')
       ∨ (v ∉ values t ∧ p = s)).
Proof.
  intros Hinv Ho. pose proof (set_inv_fuel _ _ _ Hinv) as Hfuel.
  destruct Hinv as (n & Hn & Hval & Hright & Hsz & Hbound & Hroot & Hrep & Hnd & Hbst).
  assert (valid_ptr (nodes st) (Some s)) as Hvs by (by eexists).
  unfold find. rewrite (bind_ok _ _ _ _ _ (empty_run _ _ _ Hsz)).
  destruct (Z.eqb_spec (Z.of_nat (count t)) 0) as [Hz|Hz].
  { assert (t = Leaf) as -> by (apply count_zero; lia).
    destruct (s_iterator_ctor_frame st (Some s) (Some s) Hvs Ho)
      as (q & st' & Hrun & Hfresh & Hit & Hfr).
    exists q, st', s. split_and!; [done..|]. right. split; [|done].
    intros H. by apply elem_of_nil in H. }
  assert (t ≠ Leaf) as Hne by (intros ->; simpl in Hz; lia).
  unfold take_root. rewrite (bind_ok _ _ _ _ _ (get_left_run _ _ _ Hn)).
  rewrite (bind_ok _ _ _ _ _ (heap_fuel_run _)).
  assert (find_node (S (size (nodes st))) (nodes st) (left n) v
          = Val (tsearch t v)) as Hloop.
  { rewrite (Hroot Hne). by eapply find_node_rep. }
  rewrite (bind_ok _ _ _ _ _
    (lift_val (λ h, find_node _ h (left n) v) st _ Hloop)).
  pose proof (tsearch_spec t v Hbst) as Hs.
  destruct (tsearch t v) as [a|].
  - destruct (rep_elem _ _ _ _ _ Hrep Hnd Hs) as (na & Hna & Hva & Hla).
    destruct (s_iterator_ctor_frame st (Some a) (Some s) ltac:(by eexists) Ho)
      as (q & st' & Hrun & Hfresh & Hit & Hfr).
    exists q, st', a. split_and!; [done..|]. left.
    split_and!; [by eapply elems_values|done|].
    destruct Hfr as (Hl & _).
    destruct (same_links_elem _ _ _ _ _ Hl Hna Hva Hla) as (n' & Hn' & Hv' & Hl').
    eapply deref_run; [rewrite Hit; apply lookup_insert_eq|done..].
  - destruct (s_iterator_ctor_frame st (Some s) (Some s) Hvs Ho)
      as (q & st' & Hrun & Hfresh & Hit & Hfr).
    exists q, st', s. split_and!; [done..|]. by right.
Qed.

(** X4.  [find(v)] returns an iterator on the node holding [v] when [v]
    is an element of the set, and an iterator on the anchor, the position
    of [end()], when it is not; it changes no link, value or size and only
    adds the iterator it returns. *)
Theorem find_present_or_end st s t v :
  set_inv st s t → oracle st = [] →
  ∃ q st' p,
    find s v st = Ok q st'
    ∧ iters st !! q = None
    ∧ iters st' = <[q := mk_iterator (Some p) (Some s)]> (iters st)
    ∧ frame st st'
    ∧ ((v ∈ values t ∧ (p, v) ∈ elems t ∧ deref q st' = Ok v st')
       ∨ (v ∉ values t ∧ p = s)).
Proof. apply find_run. Qed.

Lemma find_present_or_end_witness :
  ∃ q st' p,
    find 1 5 (final_state set_1357) = Ok q st'
    ∧ iters (final_state set_1357) !! q = None
    ∧ iters st' = <[q := mk_iterator (Some p) (Some 1%positive)]> (iters (final_state set_1357))
    ∧ frame (final_state set_1357) st'
    ∧ ((5 ∈ values tree_1357 ∧ (p, 5) ∈ elems tree_1357 ∧ deref q st' = Ok 5 st')
       ∨ (5 ∉ values tree_1357 ∧ p = 1%positive)).
Proof.
  apply (find_present_or_end (final_state set_1357) 1 tree_1357 5);
    [apply set_1357_inv|reflexivity].
Defined.

(** X5.  Round trip: after [insert(v)] on any set, [find(v)] designates
    an element equal to [v]; for every other value [w], [find(w)] designates
    [w] if [w] was an element before and returns the end position if not. *)
Theorem insert_then_find st s t v :
  set_inv st s t → oracle st = [] →
  Z.of_nat (count t) + 1 < size_max →
  ∃ st1,
    insert_stmt s v st = Ok () st1
    ∧ ∀ w, ∃ q st2 p,
        find s w st1 = Ok q st2
        ∧ iters st2 !! q = Some (mk_iterator (Some p) (Some s))
        ∧ (((w = v ∨ w ∈ values t) ∧ deref q st2 = Ok w st2)
           ∨ (w ≠ v ∧ w ∉ values t ∧ p = s)).
Proof.
  intros Hinv Ho Hb.
  destruct (insert_stmt_spec st s t v Hinv Ho ltac:(done))
    as (st1 & t1 & Hrun & Hinv1 & Ho1 & _ & Hvals & _).
  exists st1. split; [done|]. intros w.
  destruct (find_run st1 s t1 w Hinv1 Ho1) as (q & st2 & p & Hf & _ & Hit & _ & Hcase).
  exists q, st2, p. split_and!; [done|rewrite Hit; apply lookup_insert_eq|].
  destruct Hcase as [(Hin & _ & Hd)|(Hnin & ->)].
  - left. split; [by apply Hvals|done].
  - right. rewrite Hvals in Hnin. split_and!; [|by auto|done].
    intros ->. auto.
Qed.

Lemma insert_then_find_witness :
  ∃ st1,
    insert_stmt 1 4 (final_state set_1357) = Ok () st1
    ∧ ∀ w, ∃ q st2 p,
        find 1 w st1 = Ok q st2
        ∧ iters st2 !! q = Some (mk_iterator (Some p) (Some 1%positive))
        ∧ (((w = 4 ∨ w ∈ values tree_1357) ∧ deref q st2 = Ok w st2)
           ∨ (w ≠ 4 ∧ w ∉ values tree_1357 ∧ p = 1%positive)).
Proof.
  apply (insert_then_find (final_state set_1357) 1 tree_1357 4);
    [apply set_1357_inv|reflexivity|vm_compute; reflexivity].
Defined.

(** ** Erasing an element *)

Lemma next_in_ne (xs : list positive) a : NoDup xs → next_in xs a ≠ Some a.
Proof.
  induction xs as [|x xs IH]; intros Hnd; [done|].
  apply NoDup_cons in Hnd as [Hx Hnd]. simpl. case_decide as E.
  - subst. destruct xs as [|y ys]; [done|]. simpl. intros [= ->]. set_solver.
  - by apply IH.
Qed.

Lemma reg_lookup h a i n :
  h !! a = Some n → reg a i h !! a = Some (with_share n (pushed (share n) i)).
Proof. intros H. unfold reg. by rewrite lookup_alter_eq, H. Qed.

Lemma reg_lookup_ne h a i b : a ≠ b → reg a i h !! b = h !! b.
Proof. intros H. unfold reg. by rewrite lookup_alter_ne. Qed.

Lemma reg_payload h h' a i :
  same_payload h h' → same_payload (reg a i h) (reg a i h').
Proof.
  intros H b. unfold reg. specialize (H b). destruct (decide (a = b)) as [->|Hne].
  - rewrite !lookup_alter_eq. destruct (h !! b), (h' !! b); simplify_eq/=; try done.
    by rewrite H, H0.
  - by rewrite !lookup_alter_ne.
Qed.

(** [erase] on an iterator [p] that designates the element at [e]: the
    tree becomes [terase t e], the node at [e] is freed, every iterator
    that was registered at it is detached, and the result is a new
    iterator on the successor of [e] (the anchor when [e] held the
    maximum). *)
Lemma erase_run st s t p e v :
  set_inv st s t → oracle st = [] →
  iters st !! p = Some (mk_iterator (Some e) (Some s)) → (e, v) ∈ elems t →
  (∀ ne i, nodes st !! e = Some ne → i ∈ items (share ne) → is_Some (iters st !! i)) →
  ∃ q st' ne,
    erase s p st = Ok q st'
    ∧ nodes st !! e = Some ne
    ∧ set_inv st' s (terase t e)
    ∧ oracle st' = []
    ∧ iters st !! q = None
    ∧ iters st'
      = <[q := mk_iterator (Some (default s (next_in (addrs t) e))) (Some s)]>
          (nulled (items (share ne)) (iters st))
    ∧ nodes st' !! e = None
    ∧ (∀ c, c ≠ e →
         (λ n, (share n, value_ n)) <$> nodes st' !! c
         = (λ n, (share n, value_ n))
             <$> reg (default s (next_in (addrs t) e)) q (nodes st) !! c)
    ∧ left <$> nodes st' !! s = Some (root (terase t e)).
Proof.
  intros Hinv Ho Hp Hin Hlive.
  pose proof (set_inv_anchor_not_in _ _ _ Hinv) as Hs.
  pose proof (elems_addrs _ _ _ Hin) as He.
  assert (e ≠ s) as Hes by (intros ->; done).
  assert (∃ ne, nodes st !! e = Some ne) as [ne Hne].
  { destruct Hinv as (n & Hn & Hval & Hright & Hsz & Hbound & Hroot & Hrep & Hnd & Hbst).
    destruct (rep_elem _ _ _ _ _ Hrep Hnd Hin) as (ne & ? & _). by exists ne. }
  specialize (Hlive ne).
  (* the copy of the argument *)
  set (pos := fresh (dom (iters st))).
  assert (iters st !! pos = None) as Hpos by apply fresh_iter_not_in.
  set (P := mk_iterator (Some e) (Some s)).
  set (st1 := mk_state (reg e pos (nodes st)) (sizes st) (<[pos := P]> (iters st))
                (oracle st)).
  assert (s_iterator_copy p st = Ok pos st1) as Hcopy.
  { rewrite (s_iterator_copy_run _ _ _ Hp). apply s_iterator_ctor_run; [|done].
    simpl. by eexists. }
  assert (frame st st1) as Hfr1.
  { split_and!; [apply reg_links|done..]. }
  pose proof (set_inv_frame _ _ _ _ Hfr1 Hinv) as Hinv1.
  pose proof (set_inv_fuel _ _ _ Hinv1) as Hfuel.
  assert (nodes st1 !! e = Some (with_share ne (pushed (share ne) pos))) as Hne1
    by (by apply reg_lookup).
  assert (iters st1 !! pos = Some P) as Hpos1 by apply lookup_insert_eq.
  pose proof (find_next_set _ _ _ _ Hinv1 He) as Hnext.
  set (succ := default s (next_in (addrs t) e)) in *.
  destruct Hinv1 as (na & Hna & Hvala & Hrighta & Hsz & Hbound & Hroot & Hrep & Hnd & Hbst).
  destruct (tfind_some t e (Some s) He) as [[[[l v'] r] pe] Hf].
  destruct (tfind_rep _ _ _ _ _ _ _ _ Hrep Hf) as (Hrepe & Hin').
  assert (v' = v) as -> by (by eapply NoDup_addrs_elems).
  destruct (tfind_spec _ _ _ _ _ _ _ Hf Hnd) as (_ & Hsub & Hnds & Hcase).
  pose proof (NoDup_node _ _ _ _ Hnds) as (Hndl & Hndr & Hel & Her & Hdisj).
  pose proof Hrepe as Hrepe0. rep_inv Hrepe.
  rewrite Hne1 in Hn. injection Hn as <-. sstate.
  assert (∃ dpa ndp, pe = Some dpa ∧ nodes st1 !! dpa = Some ndp
                     ∧ dpa ∉ addrs l ∧ dpa ∉ addrs r ∧ dpa ≠ e)
    as (dpa & ndp & Hpe & Hndp & Hdl & Hdr & Hde).
  { destruct Hcase as [[-> _]|(dp & -> & Hdp & Hdpn & _)].
    - exists s, na. split_and!; [done..| | |done];
        intros Hx; apply Hs, Hsub, in_addrs_node; auto.
    - destruct (rep_in_dom _ _ _ _ Hrep Hdp) as [ndp Hndp]. exists dp, ndp.
      rewrite in_addrs_node in Hdpn. split_and!; [done..| | |]; intros ?; apply Hdpn; auto. }
  assert (succ ≠ e) as Hse.
  { unfold succ. destruct (next_in (addrs t) e) as [x|] eqn:E; simpl; [|done].
    intros ->. by apply (next_in_ne _ _ Hnd) in E. }
  assert (is_Some (nodes st1 !! succ)) as Hsucc.
  { unfold succ. destruct (next_in (addrs t) e) as [x|] eqn:E; simpl; [|by eexists].
    apply next_in_elem in E. apply (rep_in_dom _ _ _ _ Hrep E). }
  (* the two subtrees are merged *)
  set (fuel := S (size (nodes st1))) in *.
  assert (count r < fuel)%nat as Hfr.
  { pose proof (count_le_size _ _ _ Hrepr Hndr). unfold fuel. lia. }
  assert (NoDup (addrs l ++ addrs r)) as Hndlr by (by apply NoDup_app).
  destruct (merge_spec st1 fuel l r (Some e) (Some e) Hrepl Hrepr Hndlr Hfr)
    as (st2 & Hmerge & Hrep2 & Hout2 & Hpay2 & Hsz2 & Hit2 & Ho2).
  set (new := root (tmerge l r)) in *.
  assert (∀ x, new = Some x → x ≠ e ∧ is_Some (nodes st2 !! x)) as Hnew.
  { intros x Hx. pose proof (root_in_addrs _ _ Hx) as Hx'. destruct Hrep2 as [p' Hrep2].
    split; [|by eapply rep_in_dom].
    rewrite tmerge_addrs, elem_of_app in Hx'. intros ->. tauto. }
  assert (nodes st2 !! dpa = Some ndp) as Hndp2 by (by rewrite Hout2).
  assert (nodes st2 !! e = Some (with_share ne (pushed (share ne) pos))) as Hne2
    by (by rewrite Hout2).
  (* the parent and the merged subtree are linked *)
  set (fdp := if decide (left ndp = Some e) then (λ n, with_left n new)
              else (λ n, with_right n new)).
  set (h3 := alter fdp dpa (nodes st2)).
  set (st3 := with_nodes st2 h3).
  assert ((if decide (left ndp = Some e) then set_left dpa new else set_right dpa new) st2
          = Ok () st3) as Hrun3.
  { unfold st3, h3, fdp.
    destruct (decide _); [apply set_left_alter|apply set_right_alter]; by eexists. }
  set (h4 := match new with
             | Some x => alter (λ n, with_parent n pe) x
             | None => id
             end h3).
  set (st4 := with_nodes st2 h4).
  assert ((match new with Some x => set_parent x pe | None => mret () end) st3
          = Ok () st4) as Hrun4.
  { unfold st4, h4. destruct new as [x|] eqn:Enew.
    - rewrite set_parent_alter; [done|]. unfold st3, h3. sstate.
      apply is_Some_alter. by apply Hnew.
    - rewrite ret_unfold. unfold st3. by destruct st2. }
  assert (same_payload (nodes st1) h4) as Hpay4.
  { eapply same_payload_trans; [exact Hpay2|].
    eapply same_payload_trans; [apply (alter_payload _ dpa fdp)|].
    { intros n. unfold fdp. by destruct (decide _). }
    fold h3. unfold h4. destruct new; [by apply alter_payload|apply same_payload_refl]. }
  assert (h4 !! e = Some (with_share ne (pushed (share ne) pos))) as Hne4.
  { unfold h4. destruct new as [x|] eqn:Enew.
    - destruct (Hnew x eq_refl) as [Hxe _]. rewrite lookup_alter_ne by done.
      unfold h3. by rewrite lookup_alter_ne.
    - simpl. unfold h3. by rewrite lookup_alter_ne. }
  pose proof (erase_heap (nodes st1) (nodes st2) s t e l v r pe dpa ndp na
                Hrep Hnd Hf Hpe Hndp Hna Hvala Hroot Hrep2 Hout2) as Hheap.
  destruct (Hheap h4 (λ c _, eq_refl)) as (_ & na4 & Hna4 & _ & _ & Hleft4 & _).
  (* the node is freed *)
  set (xs := items (share ne) ++ [pos]).
  set (st5 := mk_state (delete e h4) (sizes st2) (nulled xs (iters st2)) (oracle st2)).
  assert (delete_node e st4 = Ok () st5) as Hrun5.
  { rewrite (delete_node_run st4 _ _ Hne4); [done|].
    unfold st4. sstate. rewrite Hit2. unfold st1, pushed. sstate.
    intros i [Hi| ->%list_elem_of_singleton]%elem_of_app.
    - destruct (decide (i = pos)) as [->|Hip].
      + rewrite lookup_insert_eq. by eexists.
      + rewrite lookup_insert_ne by done. by apply Hlive.
    - rewrite lookup_insert_eq. by eexists. }
  assert (sizes st5 !! s = Some (Z.of_nat (count t))) as Hsz5.
  { unfold st5. sstate. by rewrite Hsz2. }
  set (st6 := with_sizes st5 (<[s := wrap (Z.of_nat (count t) - 1)]> (sizes st5))).
  (* the iterator that is returned *)
  set (q := fresh (dom (iters st6))).
  assert (iters st6 !! q = None) as Hq6 by apply fresh_iter_not_in.
  set (R := mk_iterator (Some succ) (Some s)).
  set (st7 := mk_state (reg succ q (nodes st6)) (sizes st6) (<[q := R]> (iters st6))
                (oracle st6)).
  assert (oracle st6 = []) as Ho6.
  { unfold st6, st5. sstate. by rewrite Ho2. }
  assert (s_iterator_ctor (Some succ) (Some s) st6 = Ok q st7) as Hrun7.
  { apply s_iterator_ctor_run; [|done]. unfold st6, st5, valid_ptr. sstate.
    rewrite lookup_delete_ne by done. by apply (same_payload_is_Some _ _ _ Hpay4). }
  assert (iters st6 = nulled xs (<[pos := P]> (iters st))) as Hit6.
  { unfold st6, st5. sstate. by rewrite Hit2. }
  assert (pos ∉ items (share ne)) as Hposn.
  { intros Hx. destruct (Hlive _ Hne Hx) as [? ?]. congruence. }
  assert (q ≠ pos ∧ iters st !! q = None) as [Hqp Hq].
  { rewrite Hit6, nulled_lookup in Hq6. destruct (decide (q = pos)) as [E|Hqp].
    - rewrite E, lookup_insert_eq in Hq6.
      destruct (decide (pos ∈ xs)); simpl in Hq6; discriminate.
    - rewrite lookup_insert_ne in Hq6 by done. split; [done|].
      destruct (decide (q ∈ xs)); [|done]. by destruct (iters st !! q). }
  (* the copy of the argument goes *)
  assert (iters st7 !! pos = Some (mk_iterator None (Some s))) as Hpos7.
  { unfold st7. sstate. rewrite lookup_insert_ne by done.
    rewrite Hit6, nulled_lookup, decide_True, lookup_insert_eq; [done|].
    unfold xs. set_solver. }
  pose proof (s_iterator_dtor_run st7 pos _ Hpos7 I) as Hrun8.
  sstate.
  eexists q, _, ne. split_and!.
  - unfold erase. rewrite (bind_ok _ _ _ _ _ Hcopy).
    eapply scoped_ok; [|exact Hrun8].
    unfold erase_body.
    rewrite (bind_ok _ _ _ _ _ (load_iter_run _ _ _ Hpos1)).
    unfold assert. simpl. rewrite bool_decide_eq_true_2 by done.
    rewrite bind_unfold, ret_unfold.
    rewrite (bind_ok _ _ _ _ _ (empty_run _ _ _ Hsz)).
    destruct (Z.eqb_spec (Z.of_nat (count t)) 0) as [Hz|Hz].
    { assert (t = Leaf) as -> by (apply count_zero; lia). by apply elem_of_nil in Hin. }
    rewrite (bind_ok _ _ _ _ _ (load_iter_run _ _ _ Hpos1)).
    simpl. rewrite bind_unfold, ret_unfold.
    rewrite (bind_ok _ _ _ _ _ (heap_fuel_run _)).
    rewrite (bind_ok _ _ _ _ _ (lift_val (λ h, find_next _ h e) st1 _ Hnext)).
    rewrite (bind_ok _ _ _ _ _ (load_iter_run _ _ _ Hpos1)).
    simpl. rewrite bind_unfold, ret_unfold.
    rewrite (bind_ok _ _ _ _ _ (get_parent_run _ _ _ Hne1)).
    rewrite (bind_ok _ _ _ _ _ (get_left_run _ _ _ Hne1)).
    rewrite (bind_ok _ _ _ _ _ (get_right_run _ _ _ Hne1)).
    sstate. rewrite Hleft, Hright.
    rewrite (bind_ok _ _ _ _ _ Hmerge).
    rewrite Hparent, Hpe. simpl. rewrite bind_unfold, ret_unfold.
    rewrite (bind_ok _ _ _ _ _ (get_left_run _ _ _ Hndp2)).
    rewrite <- Hpe.
    rewrite (bind_ok _ _ _ _ _ Hrun3).
    rewrite (bind_ok _ _ _ _ _ Hrun4).
    unfold take_root.
    rewrite (bind_ok _ _ _ _ _ (get_left_run st4 _ _ Hna4)).
    rewrite decide_False by done. rewrite bind_unfold, ret_unfold.
    rewrite (bind_ok _ _ _ _ _ Hrun5).
    rewrite (bind_ok _ _ _ _ _ (decr_size_run _ _ _ Hsz5)).
    exact Hrun7.
  - done.
  - destruct (Hheap (nodes st7)) as (Hrep8 & na8 & Hna8 & Hval8 & Hright8 & _ & Hroot8).
    { intros c Hc. unfold st7, st6, st5. sstate.
      rewrite (same_links_at _ _ c (reg_links (delete e h4) succ q)).
      by rewrite lookup_delete_ne. }
    destruct (terase_inv _ _ _ Hnd Hbst Hin) as (Hnd' & Hbst' & _).
    pose proof (terase_count _ _ _ Hnd Hin) as Hcount.
    exists na8. split_and!; try done.
    + congruence.
    + unfold st7, st6. sstate. rewrite lookup_insert_eq. f_equal.
      rewrite wrap_small; lia.
    + lia.
  - done.
  - done.
  - unfold st7. sstate. rewrite Hit6. apply map_eq. intros i.
    destruct (decide (i = pos)) as [->|Hip].
    { rewrite lookup_delete_eq, lookup_insert_ne by done.
      rewrite nulled_lookup, Hpos. by destruct (decide (pos ∈ items (share ne))). }
    rewrite lookup_delete_ne by done.
    destruct (decide (i = q)) as [E|Hiq].
    { by rewrite E, !lookup_insert_eq. }
    rewrite !lookup_insert_ne by done. rewrite !nulled_lookup, lookup_insert_ne by done.
    unfold xs.
    destruct (decide (i ∈ items (share ne) ++ [pos])), (decide (i ∈ items (share ne)));
      set_solver.
  - unfold st7, st6, st5. sstate. cbn [unreg_opt].
    rewrite reg_lookup_ne by done. apply lookup_delete_eq.
  - intros c Hc.
    assert ((λ n, (share n, value_ n)) <$> h4 !! c
            = (λ n, (share n, value_ n)) <$> nodes st !! c) as Hpc.
    { rewrite (Hpay4 c). unfold st1. sstate. by rewrite reg_lookup_ne. }
    unfold st7, st6, st5. sstate. cbn [unreg_opt]. unfold reg.
    destruct (decide (succ = c)) as [E|Hsc].
    + rewrite E, !lookup_alter_eq, lookup_delete_ne by done.
      destruct (h4 !! c), (nodes st !! c); simplify_eq/=; try done.
      by rewrite H, H0.
    + by rewrite !lookup_alter_ne, lookup_delete_ne.
  - destruct (Hheap (nodes st7)) as (_ & na8 & Hna8 & _ & _ & _ & Hroot8).
    { intros c Hc. unfold st7, st6, st5. sstate.
      rewrite (same_links_at _ _ c (reg_links (delete e h4) succ q)).
      by rewrite lookup_delete_ne. }
    change (left <$> nodes st7 !! s = Some (root (terase t e))).
    by rewrite Hna8, <- Hroot8.
Qed.

(** ** The registry of iterators

    Every node keeps in [share] the iterators that designate it.  The
    constructors, the destructor and the assignment of [s_iterator] keep
    the registry up to date, and the destructor of a node goes through
    it. *)

Definition shared st (a : positive) : option (list positive) :=
  (λ n, items (share n)) <$> nodes st !! a.

Definition registered_at st (i : positive) (p : ptr) : Prop :=
  match p with
  | Some a => i ∈ default [] (shared st a)
  | None => True
  end.

#[global] Instance registered_at_dec st i p : Decision (registered_at st i p).
Proof. destruct p; simpl; apply _. Defined.

Definition registered st : Prop :=
  map_Forall (λ a n, NoDup (items (share n))
                     ∧ Forall (λ i, node_ <$> iters st !! i = Some (Some a))
                         (items (share n)))
    (nodes st)
  ∧ map_Forall (λ i it, registered_at st i (node_ it)) (iters st).

Lemma registered_iff st :
  registered st
  ↔ (∀ a xs, shared st a = Some xs →
       NoDup xs ∧ ∀ i, i ∈ xs → node_ <$> iters st !! i = Some (Some a))
    ∧ (∀ i a, node_ <$> iters st !! i = Some (Some a) →
         ∃ xs, shared st a = Some xs ∧ i ∈ xs).
Proof.
  unfold registered, shared. split.
  - intros [H1 H2]. split.
    + intros a xs Hxs. destruct (nodes st !! a) as [n|] eqn:Hn; [|done].
      injection Hxs as <-. destruct (H1 a n Hn) as [Hnd HF]. split; [done|].
      by apply Forall_forall.
    + intros i a Hi. destruct (iters st !! i) as [it|] eqn:E; [|done].
      injection Hi as Hi. pose proof (H2 i it E) as H. cbv beta in H. rewrite Hi in H.
      unfold registered_at, shared in H.
      destruct (nodes st !! a) as [n|]; simpl in H; [by eexists|].
      by apply elem_of_nil in H.
  - intros [H1 H2]. split.
    + intros a n Hn. destruct (H1 a (items (share n))) as [Hnd HF]; [by rewrite Hn|].
      split; [done|]. by apply Forall_forall.
    + intros i it Hi. unfold registered_at. destruct (node_ it) as [a|] eqn:E; [|done].
      destruct (H2 i a) as (xs & Hxs & Hin); [by rewrite Hi, <- E|].
      unfold shared. by rewrite Hxs.
Qed.

Lemma registered_live st a n i :
  registered st → nodes st !! a = Some n → i ∈ items (share n) →
  is_Some (iters st !! i).
Proof.
  intros [H _]%registered_iff Hn Hi.
  destruct (H a (items (share n))) as [_ HF]; [unfold shared; by rewrite Hn|].
  specialize (HF i Hi). by destruct (iters st !! i).
Qed.

Lemma registered_valid st i it :
  registered st → iters st !! i = Some it → valid_ptr (nodes st) (node_ it).
Proof.
  intros [_ H]%registered_iff Hi. destruct (node_ it) as [a|] eqn:E; [|done].
  destruct (H i a) as (xs & Hxs & _); [by rewrite Hi, <- E|].
  unfold shared in Hxs. simpl. by destruct (nodes st !! a).
Qed.

Lemma reg_opt_shared st st' p i :
  nodes st' = reg_opt p i (nodes st) →
  ∀ a, shared st' a
       = (λ xs, xs ++ if decide (p = Some a) then [i] else []) <$> shared st a.
Proof.
  intros E a. unfold shared. rewrite E. destruct p as [b|]; simpl.
  - unfold reg. destruct (decide (b = a)) as [->|Hne].
    + rewrite lookup_alter_eq, decide_True by done. by destruct (nodes st !! a).
    + rewrite lookup_alter_ne, decide_False by congruence.
      destruct (nodes st !! a); simpl; [|done]. by rewrite app_nil_r.
  - destruct (nodes st !! a); simpl; [|done]. by rewrite app_nil_r.
Qed.

Lemma remove_first_in (i j : positive) (xs : list positive) :
  j ∈ remove_first i xs → j ∈ xs.
Proof.
  induction xs as [|x xs IH]; simpl; [done|]. case_decide; set_solver.
Qed.

Lemma remove_first_NoDup (i : positive) (xs : list positive) :
  NoDup xs → NoDup (remove_first i xs) ∧ i ∉ remove_first i xs.
Proof.
  induction xs as [|x xs IH]; simpl; [split; [done|set_solver]|].
  intros [Hx Hnd]%NoDup_cons. case_decide as E.
  - subst. done.
  - destruct (IH Hnd) as [IH1 IH2]. split.
    + apply NoDup_cons. split; [|done]. intros Hin. by apply Hx, (remove_first_in i).
    + set_solver.
Qed.

Lemma remove_first_other (i j : positive) (xs : list positive) :
  j ∈ xs → j ≠ i → j ∈ remove_first i xs.
Proof.
  induction xs as [|x xs IH]; simpl; [done|]. case_decide; set_solver.
Qed.

Lemma unreg_opt_shared st st' p i :
  nodes st' = unreg_opt p i (nodes st) →
  ∀ a, shared st' a
       = (λ xs, if decide (p = Some a) then remove_first i xs else xs) <$> shared st a.
Proof.
  intros E a. unfold shared. rewrite E. destruct p as [b|]; simpl.
  - unfold unreg. destruct (decide (b = a)) as [->|Hne].
    + rewrite lookup_alter_eq. destruct (nodes st !! a); simpl; [|done].
      by rewrite decide_True.
    + rewrite lookup_alter_ne by done. destruct (nodes st !! a); simpl; [|done].
      by rewrite decide_False by congruence.
  - by destruct (nodes st !! a).
Qed.

(** A new iterator is entered in the registry of its node. *)
Lemma ctor_registered st p c :
  registered st → valid_ptr (nodes st) p →
  registered (mk_state (reg_opt p (fresh (dom (iters st))) (nodes st)) (sizes st)
                (<[fresh (dom (iters st)) := mk_iterator p c]> (iters st)) (oracle st)).
Proof.
  intros Hreg Hv. set (i := fresh (dom (iters st))).
  assert (iters st !! i = None) as Hi by apply fresh_iter_not_in.
  set (st' := mk_state _ _ _ _).
  pose proof (reg_opt_shared st st' p i eq_refl) as Hsh.
  apply registered_iff in Hreg as [H1 H2]. apply registered_iff. split.
  - intros a xs' Hxs'. rewrite Hsh in Hxs'.
    destruct (shared st a) as [xs|] eqn:Hxs; [|done]. injection Hxs' as <-.
    destruct (H1 a xs Hxs) as [Hnd HF].
    assert (i ∉ xs) as Hixs.
    { intros Hin. specialize (HF i Hin). by rewrite Hi in HF. }
    split.
    + case_decide; [|by rewrite app_nil_r].
      apply NoDup_app. split_and!; [done| |apply NoDup_singleton].
      by intros j Hj ->%list_elem_of_singleton.
    + intros j [Hj|Hj]%elem_of_app; unfold st'; sstate.
      * rewrite lookup_insert_ne by (by intros <-). by apply HF.
      * case_decide as E; [|by apply elem_of_nil in Hj].
        apply list_elem_of_singleton in Hj as ->. by rewrite lookup_insert_eq, E.
  - intros j a Hj. rewrite Hsh. unfold st' in Hj. sstate.
    destruct (decide (i = j)) as [<-|Hne].
    + rewrite lookup_insert_eq in Hj. simpl in Hj. injection Hj as ->.
      destruct Hv as [n Hn]. unfold shared. rewrite Hn. simpl.
      eexists. split; [done|]. rewrite decide_True by done. set_solver.
    + rewrite lookup_insert_ne in Hj by done. destruct (H2 j a Hj) as (xs & -> & Hin).
      eexists. split; [done|]. set_solver.
Qed.

(** A destroyed iterator leaves the registry of its node. *)
Lemma dtor_registered st i it :
  registered st → iters st !! i = Some it →
  registered (mk_state (unreg_opt (node_ it) i (nodes st)) (sizes st)
                (delete i (iters st)) (oracle st)).
Proof.
  intros Hreg Hi. set (st' := mk_state _ _ _ _).
  pose proof (unreg_opt_shared st st' (node_ it) i eq_refl) as Hsh.
  apply registered_iff in Hreg as [H1 H2]. apply registered_iff. split.
  - intros a xs' Hxs'. rewrite Hsh in Hxs'.
    destruct (shared st a) as [xs|] eqn:Hxs; [|done]. injection Hxs' as <-.
    destruct (H1 a xs Hxs) as [Hnd HF]. case_decide as E.
    + destruct (remove_first_NoDup i xs Hnd) as [Hnd' Hnot]. split; [done|].
      intros j Hj. unfold st'. sstate.
      rewrite lookup_delete_ne by (intros <-; done).
      by apply HF, (remove_first_in i).
    + split; [done|]. intros j Hj. unfold st'. sstate.
      pose proof (HF j Hj) as Hjn.
      rewrite lookup_delete_ne; [done|]. intros <-. rewrite Hi in Hjn. simpl in Hjn.
      congruence.
  - intros j a Hj. unfold st' in Hj. sstate.
    destruct (decide (i = j)) as [<-|Hne].
    { by rewrite lookup_delete_eq in Hj. }
    rewrite lookup_delete_ne in Hj by done. rewrite Hsh.
    destruct (H2 j a Hj) as (xs & -> & Hin). eexists. split; [done|].
    case_decide; [|done]. by apply remove_first_other.
Qed.

(** Freeing a node detaches the iterators of its registry; together with
    the registration of a new iterator at another node this is what
    [erase] does to the registry. *)
Lemma erase_registered st st' e ne succ q c :
  registered st → nodes st !! e = Some ne → succ ≠ e → is_Some (nodes st !! succ) →
  iters st !! q = None →
  iters st' = <[q := mk_iterator (Some succ) c]> (nulled (items (share ne)) (iters st)) →
  nodes st' !! e = None →
  (∀ b, b ≠ e →
     (λ n, (share n, value_ n)) <$> nodes st' !! b
     = (λ n, (share n, value_ n)) <$> reg succ q (nodes st) !! b) →
  registered st'.
Proof.
  intros Hreg Hne Hse [ns Hns] Hq Hit He Hpay.
  apply registered_iff in Hreg as [H1 H2].
  assert (shared st e = Some (items (share ne))) as Hshe.
  { unfold shared. by rewrite Hne. }
  assert (∀ b, b ≠ e →
            shared st' b
            = (λ xs, xs ++ if decide (Some succ = Some b) then [q] else [])
                <$> shared st b) as Hsh.
  { intros b Hb.
    rewrite <- (reg_opt_shared st (with_nodes st (reg succ q (nodes st))) (Some succ) q
                  eq_refl b).
    unfold shared. sstate. specialize (Hpay b Hb).
    destruct (nodes st' !! b), (reg succ q (nodes st) !! b); simplify_eq/=; try done.
    by rewrite H. }
  apply registered_iff. split.
  - intros a xs' Hxs'. destruct (decide (a = e)) as [->|Hae].
    { unfold shared in Hxs'. by rewrite He in Hxs'. }
    rewrite (Hsh a Hae) in Hxs'.
    destruct (shared st a) as [xs|] eqn:Hxs; [|done]. injection Hxs' as <-.
    destruct (H1 a xs Hxs) as [Hnd HF].
    assert (q ∉ xs) as Hqxs.
    { intros Hin. specialize (HF q Hin). by rewrite Hq in HF. }
    split.
    + case_decide; [|by rewrite app_nil_r].
      apply NoDup_app. split_and!; [done| |apply NoDup_singleton].
      by intros j Hj ->%list_elem_of_singleton.
    + intros j [Hj|Hj]%elem_of_app; rewrite Hit.
      * rewrite lookup_insert_ne by (by intros <-). rewrite nulled_lookup.
        rewrite decide_False; [by apply HF|]. intros Hje.
        destruct (H1 e _ Hshe) as [_ HFe]. specialize (HFe j Hje).
        specialize (HF j Hj). congruence.
      * case_decide as E; [|by apply elem_of_nil in Hj].
        apply list_elem_of_singleton in Hj as ->. by rewrite lookup_insert_eq, E.
  - intros j a Hj. rewrite Hit in Hj. destruct (decide (q = j)) as [<-|Hne'].
    + rewrite lookup_insert_eq in Hj. simpl in Hj. injection Hj as <-.
      rewrite (Hsh succ Hse). unfold shared. rewrite Hns. simpl.
      eexists. split; [done|]. rewrite decide_True by done. set_solver.
    + rewrite lookup_insert_ne, nulled_lookup in Hj by done.
      destruct (decide (j ∈ items (share ne))) as [Hje|Hje].
      { by destruct (iters st !! j). }
      destruct (H2 j a Hj) as (xs & Hxs & Hin).
      assert (a ≠ e) as Hae by (intros ->; congruence).
      rewrite (Hsh a Hae), Hxs. eexists. split; [done|]. set_solver.
Qed.

Lemma next_in_split (pre post : list (positive * Z)) e v :
  e ∉ pre.*1 → next_in (pre ++ (e, v) :: post).*1 e = head post.*1.
Proof.
  intros Hpre. rewrite fmap_app, next_in_app_r by done. simpl.
  by rewrite decide_True.
Qed.

(** [erase_run] for a state whose registry is consistent, which stays so. *)
Lemma erase_full st s t p e v :
  set_inv st s t → oracle st = [] → registered st →
  iters st !! p = Some (mk_iterator (Some e) (Some s)) → (e, v) ∈ elems t →
  ∃ q st' ne,
    erase s p st = Ok q st'
    ∧ nodes st !! e = Some ne
    ∧ set_inv st' s (terase t e)
    ∧ oracle st' = []
    ∧ iters st !! q = None
    ∧ iters st'
      = <[q := mk_iterator (Some (default s (next_in (addrs t) e))) (Some s)]>
          (nulled (items (share ne)) (iters st))
    ∧ (∀ b, is_Some (nodes st' !! b) ↔ b ≠ e ∧ is_Some (nodes st !! b))
    ∧ left <$> nodes st' !! s = Some (root (terase t e))
    ∧ registered st'.
Proof.
  intros Hinv Ho Hreg Hp Hin.
  destruct (erase_run st s t p e v Hinv Ho Hp Hin) as
    (q & st' & ne & Hrun & Hne & Hinv' & Ho' & Hq & Hit & He & Hpay & Hleft).
  { intros ne i Hne Hi. by eapply registered_live. }
  pose proof (set_inv_anchor_not_in _ _ _ Hinv) as Hs.
  pose proof (elems_addrs _ _ _ Hin) as Hea.
  assert (default s (next_in (addrs t) e) ≠ e) as Hse.
  { destruct (next_in (addrs t) e) as [x|] eqn:E; simpl; [|by intros ->].
    intros ->. destruct Hinv as (_ & _ & _ & _ & _ & _ & _ & _ & Hnd & _).
    by apply (next_in_ne _ _ Hnd) in E. }
  assert (is_Some (nodes st !! default s (next_in (addrs t) e))) as Hsucc.
  { destruct Hinv as (n & Hn & _ & _ & _ & _ & _ & Hrep & _).
    destruct (next_in (addrs t) e) as [x|] eqn:E; simpl; [|by eexists].
    apply next_in_elem in E. apply (rep_in_dom _ _ _ _ Hrep E). }
  exists q, st', ne. split_and!; try done.
  - intros b. destruct (decide (b = e)) as [->|Hbe].
    { rewrite He. split; [by intros [? ?]|by intros [? _]]. }
    specialize (Hpay b Hbe). unfold reg in Hpay. split.
    + intros [n Hn]. split; [done|]. rewrite Hn in Hpay.
      apply (is_Some_alter _ (λ n, with_share n (pushed (share n) q))
               (default s (next_in (addrs t) e))).
      by destruct (alter _ _ _ !! b).
    + intros [_ Hb].
      apply (is_Some_alter _ (λ n, with_share n (pushed (share n) q))
               (default s (next_in (addrs t) e))) in Hb as [n Hn].
      rewrite Hn in Hpay. by destruct (nodes st' !! b).
  - by eapply erase_registered.
Qed.

Lemma values_split t (pre post : list (positive * Z)) e v :
  elems t = pre ++ (e, v) :: post → values t = pre.*2 ++ v :: post.*2.
Proof. intros E. unfold values. by rewrite E, fmap_app. Qed.

(** X6.  [erase(pos)] on an iterator that designates an element of a set
    whose registry is consistent: exactly that element leaves the sequence
    of the set ([to_list] returns the others in their order), [size()]
    goes down by one, exactly the node of the element is freed, and the
    iterator returned designates the element that followed the erased one,
    or the anchor when there is none. *)
Theorem erase_at st s t p e v :
  set_inv st s t → oracle st = [] → registered st →
  iters st !! p = Some (mk_iterator (Some e) (Some s)) → (e, v) ∈ elems t →
  ∃ q st' pre post,
    erase s p st = Ok q st'
    ∧ values t = pre ++ v :: post
    ∧ (∃ st'', to_list s st' = Ok (pre ++ post) st'')
    ∧ size_ s st' = Ok (Z.of_nat (count t) - 1) st'
    ∧ (∀ b, is_Some (nodes st' !! b) ↔ b ≠ e ∧ is_Some (nodes st !! b))
    ∧ match post with
      | [] => node_ <$> iters st' !! q = Some (Some s)
      | w :: _ => deref q st' = Ok w st'
      end.
Proof.
  intros Hinv Ho Hreg Hp Hin.
  destruct (erase_full st s t p e v Hinv Ho Hreg Hp Hin) as
    (q & st' & ne & Hrun & Hne & Hinv' & Ho' & Hq & Hit & Hdom & Hleft & Hreg').
  assert (NoDup (addrs t)) as Hnd by (by destruct Hinv as (_ & _ & _ & _ & _ & _ & _ & _ & ? & _)).
  destruct (terase_split _ _ _ Hnd Hin) as (epre & epost & E1 & E2 & Hpre & Hpost).
  exists q, st', epre.*2, epost.*2. split_and!; [done|by apply (values_split _ _ _ e)| | |done|].
  - destruct (to_list_spec _ _ _ Hinv' Ho') as (st'' & Hl & _).
    exists st''. rewrite Hl. unfold values. by rewrite E2, fmap_app.
  - destruct Hinv' as (_ & _ & _ & _ & Hsz & _). unfold size_.
    rewrite (load_size_run _ _ _ Hsz). f_equal.
    pose proof (terase_count _ _ _ Hnd Hin). lia.
  - assert (next_in (addrs t) e = head epost.*1) as Hnext.
    { unfold addrs. rewrite E1. by apply next_in_split. }
    rewrite Hnext in Hit. destruct epost as [|[a w] epost]; simpl in *.
    + by rewrite Hit, lookup_insert_eq.
    + assert ((a, w) ∈ elems (terase t e)) as Hin' by (rewrite E2; set_solver).
      destruct Hinv' as (_ & _ & _ & _ & _ & _ & _ & Hrep' & Hnd' & _).
      destruct (rep_elem _ _ _ _ _ Hrep' Hnd' Hin') as (n & Hn & Hv & Hl).
      eapply deref_run; [rewrite Hit; apply lookup_insert_eq|done..].
Qed.

#[global] Instance registered_dec st : Decision (registered st).
Proof. unfold registered. apply _. Defined.

(** The set {1, 3, 5, 7} with an iterator from [find(3)]. *)
Definition set_1357_with_find : M positive := set_1357;; find 1 3.

Lemma set_1357_with_find_inv : set_inv (final_state set_1357_with_find) 1 tree_1357.
Proof. concrete_inv. Qed.

Lemma set_1357_with_find_registered : registered (final_state set_1357_with_find).
Proof. apply (bool_decide_unpack _). vm_compute. exact I. Qed.

Lemma erase_at_witness :
  ∃ q st' pre post,
    erase 1 1 (final_state set_1357_with_find) = Ok q st'
    ∧ values tree_1357 = pre ++ 3 :: post
    ∧ (∃ st'', to_list 1 st' = Ok (pre ++ post) st'')
    ∧ size_ 1 st' = Ok (Z.of_nat (count tree_1357) - 1) st'
    ∧ (∀ b, is_Some (nodes st' !! b)
            ↔ b ≠ 3%positive ∧ is_Some (nodes (final_state set_1357_with_find) !! b))
    ∧ match post with
      | [] => node_ <$> iters st' !! q = Some (Some 1%positive)
      | w :: _ => deref q st' = Ok w st'
      end.
Proof.
  apply (erase_at (final_state set_1357_with_find) 1 tree_1357 1 3 3);
    [apply set_1357_with_find_inv|reflexivity|apply set_1357_with_find_registered
    |vm_compute; reflexivity|apply (bool_decide_unpack _); vm_compute; exact I].
Defined.

Lemma registered_share st a n i :
  registered st → nodes st !! a = Some n →
  i ∈ items (share n) ↔ node_ <$> iters st !! i = Some (Some a).
Proof.
  intros [H1 H2]%registered_iff Hn.
  assert (shared st a = Some (items (share n))) as Hsh by (unfold shared; by rewrite Hn).
  split.
  - intros Hi. by apply (H1 a _ Hsh).
  - intros Hi. destruct (H2 i a Hi) as (xs & Hxs & Hin). congruence.
Qed.

Lemma frame_is_Some st st' b :
  frame st st' → is_Some (nodes st' !! b) ↔ is_Some (nodes st !! b).
Proof.
  intros (Hl & _). pose proof (same_links_at _ _ b Hl) as E.
  destruct (nodes st' !! b), (nodes st !! b); simplify_eq/=; split; intros [? ?]; done.
Qed.

Lemma ctor_full st p c :
  valid_ptr (nodes st) p → oracle st = [] → registered st →
  ∃ q st',
    s_iterator_ctor p c st = Ok q st'
    ∧ iters st !! q = None
    ∧ iters st' = <[q := mk_iterator p c]> (iters st)
    ∧ frame st st' ∧ oracle st' = [] ∧ registered st'.
Proof.
  intros Hv Ho Hreg.
  destruct (s_iterator_ctor_frame st p c Hv Ho) as (q & st' & Hrun & Hq & Hit & Hfr).
  exists q, st'. split_and!; try done.
  - destruct Hfr as (_ & _ & ->). done.
  - rewrite (s_iterator_ctor_run _ _ _ Hv Ho) in Hrun. injection Hrun as <- <-.
    by apply ctor_registered.
Qed.

Lemma dtor_full st i it :
  iters st !! i = Some it → registered st →
  ∃ st',
    s_iterator_dtor i st = Ok () st'
    ∧ iters st' = delete i (iters st)
    ∧ frame st st' ∧ registered st'.
Proof.
  intros Hi Hreg. pose proof (registered_valid _ _ _ Hreg Hi) as Hv.
  destruct (s_iterator_dtor_frame st i it Hi Hv) as (st' & Hrun & Hit & Hfr).
  exists st'. split_and!; try done.
  rewrite (s_iterator_dtor_run _ _ _ Hi Hv) in Hrun. injection Hrun as <-.
  by apply dtor_registered.
Qed.

Lemma find_as_ctor st s t v :
  set_inv st s t →
  ∃ p, find s v st = s_iterator_ctor (Some p) (Some s) st
       ∧ is_Some (nodes st !! p)
       ∧ ((p, v) ∈ elems t ∨ (v ∉ values t ∧ p = s)).
Proof.
  intros Hinv. pose proof (set_inv_fuel _ _ _ Hinv) as Hfuel.
  destruct Hinv as (n & Hn & Hval & Hright & Hsz & Hbound & Hroot & Hrep & Hnd & Hbst).
  unfold find. rewrite (bind_ok _ _ _ _ _ (empty_run _ _ _ Hsz)).
  destruct (Z.eqb_spec (Z.of_nat (count t)) 0) as [Hz|Hz].
  { assert (t = Leaf) as -> by (apply count_zero; lia).
    exists s. split_and!; [done|by eexists|]. right. split; [|done].
    intros H. by apply elem_of_nil in H. }
  assert (t ≠ Leaf) as Hne by (intros ->; simpl in Hz; lia).
  unfold take_root. rewrite (bind_ok _ _ _ _ _ (get_left_run _ _ _ Hn)).
  rewrite (bind_ok _ _ _ _ _ (heap_fuel_run _)).
  assert (find_node (S (size (nodes st))) (nodes st) (left n) v
          = Val (tsearch t v)) as Hloop.
  { rewrite (Hroot Hne). by eapply find_node_rep. }
  rewrite (bind_ok _ _ _ _ _
    (lift_val (λ h, find_node _ h (left n) v) st _ Hloop)).
  pose proof (tsearch_spec t v Hbst) as Hs.
  destruct (tsearch t v) as [a|].
  - exists a. split_and!; [done| |by left].
    apply (rep_in_dom _ _ _ _ Hrep). by eapply elems_addrs.
  - exists s. split_and!; [done|by eexists|by right].
Qed.

(** The iterators of a state, those on the node [e] detached. *)
Definition detached (e : positive) (x : s_iterator) : s_iterator :=
  if decide (node_ x = Some e) then mk_iterator None (container_ x) else x.

Lemma erase_value_run st s t v :
  set_inv st s t → oracle st = [] → registered st →
  ∃ k st' t',
    erase_value s v st = Ok k st'
    ∧ set_inv st' s t' ∧ oracle st' = [] ∧ registered st'
    ∧ ((v ∉ values t ∧ k = 0 ∧ t' = t ∧ iters st' = iters st ∧ frame st st')
       ∨ (∃ e, (e, v) ∈ elems t ∧ k = 1 ∧ t' = terase t e
               ∧ (∀ b, is_Some (nodes st' !! b) ↔ b ≠ e ∧ is_Some (nodes st !! b))
               ∧ ∀ j, iters st' !! j = detached e <$> iters st !! j)).
Proof.
  intros Hinv Ho Hreg.
  pose proof (set_inv_anchor_not_in _ _ _ Hinv) as Hs.
  destruct (set_inv_anchor _ _ _ Hinv) as (na & Hna & _).
  destruct (find_as_ctor st s t v Hinv) as (p & Hfind & Hp & Hcase).
  (* the iterator from find *)
  destruct (ctor_full st (Some p) (Some s) Hp Ho Hreg)
    as (it & st1 & Hrun1 & Hfresh1 & Hit1 & Hfr1 & Ho1 & Hreg1).
  rewrite <- Hfind in Hrun1.
  pose proof (set_inv_frame _ _ _ _ Hfr1 Hinv) as Hinv1.
  (* the iterator from end *)
  destruct (ctor_full st1 (Some s) (Some s)
              (frame_valid _ _ (Some s) Hfr1 ltac:(by eexists)) Ho1 Hreg1)
    as (en & st2 & Hrun2 & Hfresh2 & Hit2 & Hfr2 & Ho2 & Hreg2).
  assert (en ≠ it) as Hne.
  { intros ->. by rewrite Hit1, lookup_insert_eq in Hfresh2. }
  assert (iters st2 !! it = Some (mk_iterator (Some p) (Some s))) as Hit2'.
  { by rewrite Hit2, lookup_insert_ne, Hit1, lookup_insert_eq. }
  assert (iters st2 !! en = Some (mk_iterator (Some s) (Some s))) as Hen2.
  { by rewrite Hit2, lookup_insert_eq. }
  pose proof (iter_eq_run st2 it en _ _ Hit2' Hen2 eq_refl ltac:(done)) as Heq.
  destruct (dtor_full st2 en _ Hen2 Hreg2) as (st3 & Hrun3 & Hit3 & Hfr3 & Hreg3).
  assert (iters st3 = iters st1) as Hit3'.
  { by rewrite Hit3, Hit2, delete_insert_eq, delete_id. }
  assert (iters st3 !! it = Some (mk_iterator (Some p) (Some s))) as Hi3.
  { by rewrite Hit3', Hit1, lookup_insert_eq. }
  pose proof (frame_trans _ _ _ Hfr1 (frame_trans _ _ _ Hfr2 Hfr3)) as Hfr13.
  pose proof (set_inv_frame _ _ _ _ Hfr13 Hinv) as Hinv3.
  assert (oracle st3 = []) as Ho3 by (destruct Hfr3 as (_ & _ & ->); done).
  unfold erase_value. rewrite (bind_ok _ _ _ _ _ Hrun1).
  unfold end_.
  destruct Hcase as [Hin|[Hnin ->]].
  - (* present *)
    assert (p ≠ s) as Hps by (intros ->; by apply Hs, (elems_addrs _ _ v)).
    destruct (erase_full st3 s t it p v Hinv3 Ho3 Hreg3 Hi3 Hin) as
      (q & st5 & ne & Hrun5 & Hne3 & Hinv5 & Ho5 & Hq & Hit5 & Hdom & _ & Hreg5).
    assert (iters st5 !! q = Some (mk_iterator (Some (default s (next_in (addrs t) p)))
                                     (Some s))) as Hq5.
    { by rewrite Hit5, lookup_insert_eq. }
    destruct (dtor_full st5 q _ Hq5 Hreg5) as (st6 & Hrun6 & Hit6 & Hfr6 & Hreg6).
    assert (q ≠ it) as Hqi by (intros ->; congruence).
    assert (it ∈ items (share ne)) as Hin3.
    { apply (registered_share st3 p ne it Hreg3 Hne3). by rewrite Hi3. }
    assert (iters st6 !! it = Some (mk_iterator None (Some s))) as Hi6.
    { rewrite Hit6, lookup_delete_ne, Hit5, lookup_insert_ne by done.
      by rewrite nulled_lookup, decide_True, Hi3. }
    destruct (dtor_full st6 it _ Hi6 Hreg6) as (st7 & Hrun7 & Hit7 & Hfr7 & Hreg7).
    pose proof (frame_trans _ _ _ Hfr6 Hfr7) as Hfr57.
    exists 1, st7, (terase t p). split_and!.
    + eapply scoped_ok; [|exact Hrun7].
      rewrite (bind_ok _ _ _ _ _ Hrun2).
      rewrite (bind_ok _ _ _ _ _ (scoped_ok _ _ _ _ _ _ Heq Hrun3)).
      rewrite bool_decide_eq_false_2 by (simpl; congruence).
      rewrite (bind_ok _ _ _ _ _ Hrun5).
      by rewrite (bind_ok _ _ _ _ _ Hrun6).
    + by apply (set_inv_frame _ _ _ _ Hfr57).
    + destruct Hfr57 as (_ & _ & ->). done.
    + done.
    + right. exists p. split_and!; [done..| |].
      * intros b. rewrite (frame_is_Some _ _ b Hfr57), Hdom.
        by rewrite (frame_is_Some _ _ b Hfr13).
      * intros j. rewrite Hit7, Hit6, Hit5.
        destruct (decide (j = it)) as [->|Hji].
        { by rewrite lookup_delete_eq, Hfresh1. }
        rewrite lookup_delete_ne by done.
        assert (iters st !! q = None) as Hq0.
        { rewrite Hit3', Hit1, lookup_insert_ne in Hq by done. done. }
        destruct (decide (j = q)) as [->|Hjq].
        { by rewrite lookup_delete_eq, Hq0. }
        rewrite lookup_delete_ne, lookup_insert_ne, nulled_lookup by done.
        assert (iters st3 !! j = iters st !! j) as E3.
        { by rewrite Hit3', Hit1, lookup_insert_ne. }
        pose proof (registered_share st3 p ne j Hreg3 Hne3) as Hsh. rewrite E3 in *.
        destruct (decide (j ∈ items (share ne))) as [Hj|Hj];
          (destruct (iters st !! j) as [x|]; simpl; [|done]);
          unfold detached; simpl in Hsh.
        -- apply Hsh in Hj. injection Hj as Hj. by rewrite decide_True.
        -- rewrite decide_False; [done|]. intros Hx. apply Hj, Hsh. by rewrite Hx.
  - (* absent *)
    destruct (dtor_full st3 it _ Hi3 Hreg3) as (st4 & Hrun4 & Hit4 & Hfr4 & Hreg4).
    pose proof (frame_trans _ _ _ Hfr13 Hfr4) as Hfr14.
    exists 0, st4, t. split_and!.
    + eapply scoped_ok; [|exact Hrun4].
      rewrite (bind_ok _ _ _ _ _ Hrun2).
      rewrite (bind_ok _ _ _ _ _ (scoped_ok _ _ _ _ _ _ Heq Hrun3)).
      by rewrite bool_decide_eq_true_2.
    + by apply (set_inv_frame _ _ _ _ Hfr14).
    + destruct Hfr14 as (_ & _ & ->). done.
    + done.
    + left. split_and!; [done..| |done].
      by rewrite Hit4, Hit3', Hit1, delete_insert_eq, delete_id.
Qed.

Lemma filter_ne_id (xs : list Z) v : v ∉ xs → filter (λ x, x ≠ v) xs = xs.
Proof.
  induction xs as [|x xs IH]; [done|]. intros Hn.
  rewrite filter_cons_True by set_solver. f_equal. apply IH. set_solver.
Qed.

Lemma sorted_lt_NoDup (xs : list Z) : StronglySorted Z.lt xs → NoDup xs.
Proof.
  induction 1 as [|x xs Hs IH Hx]; [constructor|].
  apply NoDup_cons. split; [|done]. intros Hin.
  rewrite Forall_forall in Hx. specialize (Hx x Hin). lia.
Qed.

Lemma terase_values t e v :
  NoDup (addrs t) → bst t → (e, v) ∈ elems t →
  values (terase t e) = filter (λ x, x ≠ v) (values t).
Proof.
  intros Hnd Hbst Hin.
  destruct (terase_split _ _ _ Hnd Hin) as (pre & post & E1 & E2 & _).
  pose proof (sorted_lt_NoDup _ (bst_sorted _ Hbst)) as Hv.
  rewrite (values_split _ _ _ _ _ E1) in *. unfold values. rewrite E2, fmap_app.
  apply NoDup_app in Hv as (_ & Hd & Hpost). apply NoDup_cons in Hpost as [Hpost _].
  rewrite filter_app, filter_cons_False by naive_solver.
  rewrite !filter_ne_id; [done|done|]. intros Hp. apply (Hd _ Hp). set_solver.
Qed.

(** X7.  [erase(val)] returns 1 and removes [val] when it is an element,
    and returns 0 when it is not; in both cases the set then holds the
    former elements other than [val], [size()] went down by the number
    returned, and the registry of iterators is consistent again.  When
    [val] is absent, no link, size or iterator has changed. *)
Theorem erase_value_spec st s t v :
  set_inv st s t → oracle st = [] → registered st →
  ∃ k st' t',
    erase_value s v st = Ok k st'
    ∧ k = (if bool_decide (v ∈ values t) then 1 else 0)
    ∧ set_inv st' s t' ∧ registered st'
    ∧ values t' = filter (λ x, x ≠ v) (values t)
    ∧ size_ s st' = Ok (Z.of_nat (count t) - k) st'
    ∧ (v ∉ values t → iters st' = iters st ∧ frame st st').
Proof.
  intros Hinv Ho Hreg.
  destruct (erase_value_run st s t v Hinv Ho Hreg)
    as (k & st' & t' & Hrun & Hinv' & Ho' & Hreg' & Hcase).
  pose proof Hinv as (_ & _ & _ & _ & _ & _ & _ & _ & Hnd & Hbst).
  pose proof Hinv' as (_ & _ & _ & _ & Hsz & _).
  exists k, st', t'. split; [done|].
  destruct Hcase as [(Hnin & -> & -> & Hit & Hfr)|(e & Hin & -> & -> & _)].
  - rewrite bool_decide_eq_false_2 by done. split_and!; try done.
    + by rewrite filter_ne_id.
    + unfold size_. rewrite (load_size_run _ _ _ Hsz). f_equal. lia.
  - pose proof (elems_values _ _ _ Hin) as Hv.
    rewrite bool_decide_eq_true_2 by done. split_and!; try done.
    + by apply terase_values.
    + unfold size_. rewrite (load_size_run _ _ _ Hsz). f_equal.
      pose proof (terase_count _ _ _ Hnd Hin). lia.
Qed.

Lemma set_1357_registered : registered (final_state set_1357).
Proof. apply (bool_decide_unpack _). vm_compute. exact I. Qed.

Lemma erase_value_spec_witness :
  ∃ k st' t',
    erase_value 1 5 (final_state set_1357) = Ok k st'
    ∧ k = (if bool_decide (5 ∈ values tree_1357) then 1 else 0)
    ∧ set_inv st' 1 t' ∧ registered st'
    ∧ values t' = filter (λ x, x ≠ 5) (values tree_1357)
    ∧ size_ 1 st' = Ok (Z.of_nat (count tree_1357) - k) st'
    ∧ (5 ∉ values tree_1357
       → iters st' = iters (final_state set_1357) ∧ frame (final_state set_1357) st').
Proof.
  apply (erase_value_spec (final_state set_1357) 1 tree_1357 5);
    [apply set_1357_inv|reflexivity|apply set_1357_registered].
Defined.

Lemma singular_deref st i c :
  iters st !! i = Some (mk_iterator None c) → deref i st = Crash AssertFailed.
Proof.
  intros Hi. unfold deref, base_assert.
  rewrite bind_unfold, (bind_ok _ _ _ _ _ (load_iter_run _ _ _ Hi)). done.
Qed.

Lemma singular_incr st i c :
  iters st !! i = Some (mk_iterator None c) → incr i st = Crash AssertFailed.
Proof.
  intros Hi. unfold incr, base_assert.
  rewrite bind_unfold, (bind_ok _ _ _ _ _ (load_iter_run _ _ _ Hi)). done.
Qed.

Lemma singular_decr st i c :
  iters st !! i = Some (mk_iterator None c) → decr i st = Crash AssertFailed.
Proof.
  intros Hi. unfold decr, base_assert.
  rewrite bind_unfold, (bind_ok _ _ _ _ _ (load_iter_run _ _ _ Hi)). done.
Qed.

(** X8.  What [erase(pos)] does to the other iterators: those that
    designated the erased element are detached (their [node_] is null),
    so that dereferencing, incrementing or decrementing them fails the
    assertion of [base_assert]; an iterator on another element of the set
    is left as it was and still dereferences to that element. *)
Theorem erase_invalidates st s t p e v :
  set_inv st s t → oracle st = [] → registered st →
  iters st !! p = Some (mk_iterator (Some e) (Some s)) → (e, v) ∈ elems t →
  ∃ q st',
    erase s p st = Ok q st'
    ∧ iters st !! q = None
    ∧ registered st'
    ∧ ∀ j x, iters st !! j = Some x →
        (node_ x = Some e →
           iters st' !! j = Some (mk_iterator None (container_ x))
           ∧ deref j st' = Crash AssertFailed
           ∧ incr j st' = Crash AssertFailed
           ∧ decr j st' = Crash AssertFailed)
        ∧ (node_ x ≠ Some e → iters st' !! j = Some x)
        ∧ (∀ b w, node_ x = Some b → b ≠ e → (b, w) ∈ elems t →
             deref j st' = Ok w st').
Proof.
  intros Hinv Ho Hreg Hp Hin.
  destruct (erase_full st s t p e v Hinv Ho Hreg Hp Hin) as
    (q & st' & ne & Hrun & Hne & Hinv' & Ho' & Hq & Hit & Hdom & Hleft & Hreg').
  exists q, st'. split_and!; [done..|]. intros j x Hj.
  assert (j ≠ q) as Hjq by (intros ->; congruence).
  pose proof (registered_share st e ne j Hreg Hne) as Hsh. rewrite Hj in Hsh. simpl in Hsh.
  assert (iters st' !! j = Some (detached e x)) as Hj'.
  { rewrite Hit, lookup_insert_ne, nulled_lookup, Hj by done. unfold detached. simpl.
    destruct (decide (j ∈ items (share ne))) as [Hi|Hi].
    - apply Hsh in Hi. injection Hi as Hi. by rewrite decide_True.
    - rewrite decide_False; [done|]. intros Hx. apply Hi, Hsh. by rewrite Hx. }
  unfold detached in Hj'. split_and!.
  - intros Hx. rewrite decide_True in Hj' by done.
    split_and!; [done|by eapply singular_deref|by eapply singular_incr
                |by eapply singular_decr].
  - intros Hx. by rewrite decide_False in Hj'.
  - intros b w Hb Hbe Hbw. rewrite decide_False in Hj' by congruence.
    pose proof Hinv as (_ & _ & _ & _ & _ & _ & _ & _ & Hnd & _).
    assert ((b, w) ∈ elems (terase t e)) as Hin'.
    { rewrite (terase_elems _ _ Hnd). apply list_elem_of_filter. done. }
    destruct Hinv' as (_ & _ & _ & _ & _ & _ & _ & Hrep' & Hnd' & _).
    destruct (rep_elem _ _ _ _ _ Hrep' Hnd' Hin') as (n & Hn & Hv & Hl).
    eapply deref_run; done.
Qed.

Lemma erase_invalidates_witness :
  ∃ q st',
    erase 1 1 (final_state set_1357_with_find) = Ok q st'
    ∧ iters (final_state set_1357_with_find) !! q = None
    ∧ registered st'
    ∧ ∀ j x, iters (final_state set_1357_with_find) !! j = Some x →
        (node_ x = Some 3%positive →
           iters st' !! j = Some (mk_iterator None (container_ x))
           ∧ deref j st' = Crash AssertFailed
           ∧ incr j st' = Crash AssertFailed
           ∧ decr j st' = Crash AssertFailed)
        ∧ (node_ x ≠ Some 3%positive → iters st' !! j = Some x)
        ∧ (∀ b w, node_ x = Some b → b ≠ 3%positive → (b, w) ∈ elems tree_1357 →
             deref j st' = Ok w st').
Proof.
  apply (erase_invalidates (final_state set_1357_with_find) 1 tree_1357 1 3 3);
    [apply set_1357_with_find_inv|reflexivity|apply set_1357_with_find_registered
    |vm_compute; reflexivity|apply (bool_decide_unpack _); vm_compute; exact I].
Defined.

(** ** The empty set *)

(** X9.  [begin() == end()] holds exactly when the set has no element,
    which is also what [empty()] answers. *)
Theorem begin_is_end_iff_empty st s t :
  set_inv st s t → oracle st = [] →
  ∃ b st1 e st2,
    begin_ s st = Ok b st1
    ∧ end_ s st1 = Ok e st2
    ∧ iter_eq b e st2 = Ok (count t =? 0)%nat st2
    ∧ empty s st = Ok (count t =? 0)%nat st.
Proof.
  intros Hinv Ho. pose proof (set_inv_anchor_not_in _ _ _ Hinv) as Hs.
  destruct (begin_spec _ _ _ Hinv Ho) as (b & st1 & Hrun1 & Hb & Hit1 & Hfr1).
  assert (oracle st1 = []) as Ho1 by (destruct Hfr1 as (_ & _ & ->); done).
  destruct (set_inv_anchor _ _ _ Hinv) as (na & Hna & _).
  destruct (s_iterator_ctor_frame st1 (Some s) (Some s)
              (frame_valid _ _ (Some s) Hfr1 ltac:(by eexists)) Ho1)
    as (e & st2 & Hrun2 & He & Hit2 & Hfr2).
  assert (e ≠ b) as Heb by (intros ->; by rewrite Hit1, lookup_insert_eq in He).
  exists b, st1, e, st2. split_and!; [done..| |].
  - rewrite (iter_eq_run st2 b e (mk_iterator (Some (default s (head (addrs t)))) (Some s))
               (mk_iterator (Some s) (Some s))); [|by rewrite Hit2, lookup_insert_ne, Hit1, lookup_insert_eq|by rewrite Hit2, lookup_insert_eq|done..].
    f_equal. simpl. destruct t as [|l a v r]; [by rewrite bool_decide_eq_true_2|].
    rewrite head_addrs. simpl. apply bool_decide_eq_false_2. intros [= E].
    apply Hs. rewrite <- E. apply tmin_in.
  - destruct Hinv as (_ & _ & _ & _ & Hsz & _). rewrite (empty_run _ _ _ Hsz). f_equal.
    destruct (count t); [done|]. apply Z.eqb_neq. lia.
Qed.

Lemma begin_is_end_iff_empty_witness :
  ∃ b st1 e st2,
    begin_ 1 (final_state set_1357) = Ok b st1
    ∧ end_ 1 st1 = Ok e st2
    ∧ iter_eq b e st2 = Ok (count tree_1357 =? 0)%nat st2
    ∧ empty 1 (final_state set_1357) = Ok (count tree_1357 =? 0)%nat (final_state set_1357).
Proof.
  apply (begin_is_end_iff_empty (final_state set_1357) 1 tree_1357);
    [apply set_1357_inv|reflexivity].
Defined.

(** X10.  After [erase(pos)] the anchor's [left] designates the root of
    the remaining tree; when the erased element was the only one, [left]
    is null (it is not set back to the anchor itself), [empty()] is true
    and the iterator returned is on the anchor. *)
Theorem erase_root_slot st s t p e v :
  set_inv st s t → oracle st = [] → registered st →
  iters st !! p = Some (mk_iterator (Some e) (Some s)) → (e, v) ∈ elems t →
  ∃ q st',
    erase s p st = Ok q st'
    ∧ set_inv st' s (terase t e)
    ∧ left <$> nodes st' !! s = Some (root (terase t e))
    ∧ (count t = 1%nat →
       left <$> nodes st' !! s = Some None
       ∧ empty s st' = Ok true st'
       ∧ node_ <$> iters st' !! q = Some (Some s)).
Proof.
  intros Hinv Ho Hreg Hp Hin.
  destruct (erase_full st s t p e v Hinv Ho Hreg Hp Hin) as
    (q & st' & ne & Hrun & Hne & Hinv' & Ho' & Hq & Hit & Hdom & Hleft & Hreg').
  exists q, st'. split_and!; [done..|]. intros Hc.
  destruct t as [|[|? ? ? ?] a w [|? ? ? ?]]; simpl in Hc; try lia.
  apply list_elem_of_singleton in Hin as [= <- <-].
  assert (terase (Node Leaf e v Leaf) e = Leaf) as Et.
  { simpl. by rewrite decide_True. }
  assert (next_in (addrs (Node Leaf e v Leaf)) e = None) as En.
  { rewrite addrs_node. simpl. by rewrite decide_True. }
  rewrite Et in Hleft, Hinv'. rewrite En in Hit.
  split_and!; [done| |by rewrite Hit, lookup_insert_eq].
  destruct Hinv' as (_ & _ & _ & _ & Hsz & _). by rewrite (empty_run _ _ _ Hsz).
Qed.

(** The set {9} with an iterator from [find(9)]. *)
Definition set_9_with_find : M positive :=
  s ← fresh_addr; set_ctor s;; insert_stmt s 9;; find s 9.

Lemma set_9_with_find_inv :
  set_inv (final_state set_9_with_find) 1 (Node Leaf 2 9 Leaf).
Proof. concrete_inv. Qed.

Lemma set_9_with_find_registered : registered (final_state set_9_with_find).
Proof. apply (bool_decide_unpack _). vm_compute. exact I. Qed.

Lemma erase_root_slot_witness :
  ∃ q st',
    erase 1 1 (final_state set_9_with_find) = Ok q st'
    ∧ set_inv st' 1 (terase (Node Leaf 2 9 Leaf) 2)
    ∧ left <$> nodes st' !! 1%positive = Some (root (terase (Node Leaf 2 9 Leaf) 2))
    ∧ (count (Node Leaf 2 9 Leaf) = 1%nat →
       left <$> nodes st' !! 1%positive = Some None
       ∧ empty 1 st' = Ok true st'
       ∧ node_ <$> iters st' !! q = Some (Some 1%positive)).
Proof.
  apply (erase_root_slot (final_state set_9_with_find) 1 (Node Leaf 2 9 Leaf) 1 2 9);
    [apply set_9_with_find_inv|reflexivity|apply set_9_with_find_registered
    |vm_compute; reflexivity|apply (bool_decide_unpack _); vm_compute; exact I].
Defined.

(** ** Freeing nodes *)

Lemma registered_ext st st' :
  (∀ a, shared st' a = shared st a) → iters st' = iters st →
  registered st → registered st'.
Proof.
  intros Hsh Hit [H1 H2]%registered_iff. apply registered_iff. split.
  - intros a xs Hxs. rewrite Hsh in Hxs. rewrite Hit. by apply H1.
  - intros i a Hi. rewrite Hit in Hi. rewrite Hsh. by apply H2.
Qed.

(** The destructor of a node detaches the iterators registered at it,
    which are all the iterators that designate it. *)
Lemma delete_registered st a n :
  registered st → nodes st !! a = Some n →
  registered (mk_state (delete a (nodes st)) (sizes st)
                (nulled (items (share n)) (iters st)) (oracle st))
  ∧ ∀ j, nulled (items (share n)) (iters st) !! j = detached a <$> iters st !! j.
Proof.
  intros Hreg Hn.
  assert (∀ j, nulled (items (share n)) (iters st) !! j = detached a <$> iters st !! j)
    as Hnull.
  { intros j. rewrite nulled_lookup.
    pose proof (registered_share st a n j Hreg Hn) as Hsh.
    destruct (decide (j ∈ items (share n))) as [Hj|Hj];
      (destruct (iters st !! j) as [x|]; simpl; [|done]);
      unfold detached; simpl in Hsh.
    - apply Hsh in Hj. injection Hj as Hj. by rewrite decide_True.
    - rewrite decide_False; [done|]. intros Hx. apply Hj, Hsh. by rewrite Hx. }
  split; [|done]. set (st' := mk_state _ _ _ _).
  assert (∀ b, shared st' b = if decide (b = a) then None else shared st b) as Hsh.
  { intros b. unfold shared, st'. sstate. case_decide as E.
    - subst. by rewrite lookup_delete_eq.
    - by rewrite lookup_delete_ne. }
  assert (∀ j, iters st' !! j = detached a <$> iters st !! j) as Hit by done.
  apply registered_iff in Hreg as [H1 H2]. apply registered_iff. split.
  - intros b xs Hxs. rewrite Hsh in Hxs. case_decide as E; [done|].
    destruct (H1 b xs Hxs) as [Hnd HF]. split; [done|].
    intros j Hj. rewrite Hit. specialize (HF j Hj).
    destruct (iters st !! j) as [x|]; [|done]. simpl in *. injection HF as HF.
    unfold detached. rewrite decide_False by congruence. by rewrite HF.
  - intros j b Hj. rewrite Hit in Hj.
    destruct (iters st !! j) as [x|] eqn:Ex; [|done]. simpl in Hj.
    unfold detached in Hj. case_decide as E; [done|].
    injection Hj as Hj. rewrite Hsh. rewrite decide_False by congruence.
    apply H2. by rewrite Ex, <- Hj.
Qed.

(** The iterators of a state, those on a node of [xs] detached. *)
Definition detached_in (xs : list positive) (x : s_iterator) : s_iterator :=
  match node_ x with
  | Some a => if decide (a ∈ xs) then mk_iterator None (container_ x) else x
  | None => x
  end.

Lemma detached_in_nil x : detached_in [] x = x.
Proof. unfold detached_in. destruct (node_ x); [|done]. by rewrite decide_False by set_solver. Qed.

Lemma detached_in_node (l r : list positive) a x :
  detached a (detached_in r (detached_in l x)) = detached_in (l ++ a :: r) x.
Proof.
  destruct x as [[b|] c]; unfold detached, detached_in; simpl; [|done].
  destruct (decide (b ∈ l)) as [Hl|Hl]; simpl.
  { by rewrite (decide_True (P := b ∈ l ++ a :: r)) by set_solver. }
  destruct (decide (b ∈ r)) as [Hr|Hr]; simpl.
  { by rewrite (decide_True (P := b ∈ l ++ a :: r)) by set_solver. }
  destruct (decide (Some b = Some a)) as [E|E].
  - by rewrite (decide_True (P := b ∈ l ++ a :: r)) by set_solver.
  - rewrite (decide_False (P := b ∈ l ++ a :: r)); [done|].
    rewrite elem_of_app, elem_of_cons. intros [?|[->|?]]; done.
Qed.

(** [del_subtree] frees the nodes of the subtree and detaches the
    iterators on them. *)
Lemma del_subtree_spec t : ∀ st par fuel,
  rep (nodes st) par t → NoDup (addrs t) → registered st → (count t < fuel)%nat →
  ∃ st',
    del_subtree fuel (root t) st = Ok () st'
    ∧ (∀ b, nodes st' !! b = if decide (b ∈ addrs t) then None else nodes st !! b)
    ∧ (∀ j, iters st' !! j = detached_in (addrs t) <$> iters st !! j)
    ∧ sizes st' = sizes st ∧ oracle st' = oracle st ∧ registered st'.
Proof.
  induction t as [|l IHl a v r IHr]; intros st par fuel Hrep Hnd Hreg Hfuel.
  { exists st. split_and!; try done.
    - by destruct fuel.
    - intros j. destruct (iters st !! j) as [x|]; [|done]. simpl.
      by rewrite detached_in_nil. }
  pose proof (NoDup_node _ _ _ _ Hnd) as (Hndl & Hndr & Hal & Har & Hdisj).
  rep_inv Hrep. destruct fuel as [|f]; [lia|]. simpl in Hfuel.
  destruct (IHl st (Some a) f Hrepl Hndl Hreg ltac:(lia))
    as (st1 & Hrun1 & Hn1 & Hi1 & Hs1 & Ho1 & Hreg1).
  assert (nodes st1 !! a = Some n) as Hna1 by (by rewrite Hn1, decide_False).
  assert (rep (nodes st1) (Some a) r) as Hrepr1.
  { eapply rep_frame; [|exact Hrepr]. intros c Hc.
    rewrite Hn1, decide_False; [done|]. intros Hcl. by apply (Hdisj c). }
  destruct (IHr st1 (Some a) f Hrepr1 Hndr Hreg1 ltac:(lia))
    as (st2 & Hrun2 & Hn2 & Hi2 & Hs2 & Ho2 & Hreg2).
  assert (nodes st2 !! a = Some n) as Hna2 by (by rewrite Hn2, decide_False).
  destruct (delete_registered st2 a n Hreg2 Hna2) as [Hreg3 Hi3].
  eexists. split_and!.
  - cbn [root del_subtree].
    rewrite (bind_ok _ _ _ _ _ (get_left_run _ _ _ Hn)), Hleft.
    rewrite (bind_ok _ _ _ _ _ Hrun1).
    rewrite (bind_ok _ _ _ _ _ (get_right_run _ _ _ Hna1)), Hright.
    rewrite (bind_ok _ _ _ _ _ Hrun2).
    apply (delete_node_run _ _ _ Hna2). intros i Hi. by eapply registered_live.
  - intros b. sstate. destruct (decide (b = a)) as [->|Hba].
    + rewrite lookup_delete_eq, decide_True; [done|]. apply in_addrs_node. auto.
    + rewrite lookup_delete_ne, Hn2, Hn1 by done.
      destruct (decide (b ∈ addrs r)), (decide (b ∈ addrs l)),
        (decide (b ∈ addrs (Node l a v r))) as [H|H]; try done;
        try (apply in_addrs_node in H; naive_solver);
        exfalso; apply H, in_addrs_node; auto.
  - intros j. sstate. rewrite Hi3, Hi2, Hi1, addrs_node.
    destruct (iters st !! j) as [x|]; [|done]. simpl. by rewrite detached_in_node.
  - sstate. congruence.
  - sstate. congruence.
  - done.
Qed.

Lemma clear_run st s t :
  set_inv st s t → registered st →
  ∃ st',
    clear s st = Ok () st'
    ∧ set_inv st' s Leaf ∧ registered st' ∧ oracle st' = oracle st
    ∧ (∀ b, b ≠ s →
         nodes st' !! b = if decide (b ∈ addrs t) then None else nodes st !! b)
    ∧ nodes st' !! s
      = (λ n, if (count t =? 0)%nat then n else with_left n None) <$> nodes st !! s
    ∧ (∀ j, iters st' !! j = detached_in (addrs t) <$> iters st !! j)
    ∧ sizes st' = <[s := 0]> (sizes st).
Proof.
  intros Hinv Hreg. pose proof (set_inv_fuel _ _ _ Hinv) as Hfuel.
  pose proof (set_inv_anchor_not_in _ _ _ Hinv) as Hs.
  pose proof Hinv as (n & Hn & Hval & Hright & Hsz & Hbound & Hroot & Hrep & Hnd & Hbst).
  unfold clear. rewrite (bind_ok _ _ _ _ _ (empty_run _ _ _ Hsz)).
  destruct (Z.eqb_spec (Z.of_nat (count t)) 0) as [Hz|Hz].
  { assert (t = Leaf) as -> by (apply count_zero; lia).
    exists st. split_and!; try done.
    - rewrite Hn. done.
    - intros j. destruct (iters st !! j) as [x|]; [|done]. simpl.
      by rewrite detached_in_nil.
    - by rewrite insert_id. }
  assert (t ≠ Leaf) as Hne by (intros ->; simpl in Hz; lia).
  unfold take_root. rewrite (bind_ok _ _ _ _ _ (get_left_run _ _ _ Hn)).
  rewrite (bind_ok _ _ _ _ _ (heap_fuel_run _)). rewrite (Hroot Hne).
  destruct (del_subtree_spec t st (Some s) _ Hrep Hnd Hreg Hfuel)
    as (st1 & Hrun1 & Hn1 & Hi1 & Hs1 & Ho1 & Hreg1).
  rewrite (bind_ok _ _ _ _ _ Hrun1).
  assert (nodes st1 !! s = Some n) as Hns1 by (by rewrite Hn1, decide_False).
  rewrite (bind_ok _ _ _ _ _ (set_left_run _ _ _ _ Hns1)).
  rewrite store_size_run. eexists. split; [done|]. sstate.
  assert ((count t =? 0)%nat = false) as Hc by (apply Nat.eqb_neq; lia).
  split_and!.
  - exists (with_left n None). sstate.
    split_and!; [apply lookup_insert_eq|done|done|apply lookup_insert_eq|done|done|done
                |constructor|done].
  - apply (registered_ext st1); [|done|done]. intros a. unfold shared. sstate.
    destruct (decide (s = a)) as [<-|Hsa].
    + by rewrite lookup_insert_eq, Hns1.
    + by rewrite lookup_insert_ne.
  - done.
  - intros b Hb. by rewrite lookup_insert_ne, Hn1.
  - by rewrite lookup_insert_eq, Hn, Hc.
  - done.
  - by rewrite Hs1.
Qed.

(** X11.  [clear()] leaves the set empty ([size()] is 0 and the loop from
    [begin()] to [end()] returns nothing), frees exactly the nodes of its
    elements, detaches exactly the iterators that designated an element
    and keeps the others (those on the anchor included) as they were; when
    the set had an element, the anchor's [left] is null afterwards. *)
Theorem clear_spec st s t :
  set_inv st s t → registered st → oracle st = [] →
  ∃ st',
    clear s st = Ok () st'
    ∧ size_ s st' = Ok 0 st'
    ∧ (∃ st'', to_list s st' = Ok [] st'')
    ∧ registered st'
    ∧ (∀ b, b ≠ s →
         nodes st' !! b = if decide (b ∈ addrs t) then None else nodes st !! b)
    ∧ (∀ j, iters st' !! j = detached_in (addrs t) <$> iters st !! j)
    ∧ (t ≠ Leaf → left <$> nodes st' !! s = Some None).
Proof.
  intros Hinv Hreg Ho.
  destruct (clear_run st s t Hinv Hreg)
    as (st' & Hrun & Hinv' & Hreg' & Ho' & Hn' & Hs' & Hi' & Hsz').
  exists st'. split_and!; try done.
  - unfold size_. apply load_size_run. by rewrite Hsz', lookup_insert_eq.
  - destruct (to_list_spec _ _ _ Hinv' ltac:(congruence)) as (st'' & Hl & _).
    by exists st''.
  - intros Hne. rewrite Hs'. destruct (set_inv_anchor _ _ _ Hinv) as (n & -> & _).
    destruct t; [done|]. done.
Qed.

Lemma clear_spec_witness :
  ∃ st',
    clear 1 (final_state set_1357_with_find) = Ok () st'
    ∧ size_ 1 st' = Ok 0 st'
    ∧ (∃ st'', to_list 1 st' = Ok [] st'')
    ∧ registered st'
    ∧ (∀ b, b ≠ 1%positive →
         nodes st' !! b = if decide (b ∈ addrs tree_1357) then None
                          else nodes (final_state set_1357_with_find) !! b)
    ∧ (∀ j, iters st' !! j
            = detached_in (addrs tree_1357)
                <$> iters (final_state set_1357_with_find) !! j)
    ∧ (tree_1357 ≠ Leaf → left <$> nodes st' !! 1%positive = Some None).
Proof.
  apply (clear_spec (final_state set_1357_with_find) 1 tree_1357);
    [apply set_1357_with_find_inv|apply set_1357_with_find_registered|reflexivity].
Defined.

(** X12.  The destructor of a set frees the nodes of its elements and its
    anchor, and detaches every iterator that designated one of them, the
    iterators from [end()] included; the other nodes and iterators are as
    they were, and the registry of iterators stays consistent. *)
Theorem set_dtor_spec st s t :
  set_inv st s t → registered st →
  ∃ st',
    set_dtor s st = Ok () st'
    ∧ registered st'
    ∧ (∀ b, nodes st' !! b = if decide (b ∈ s :: addrs t) then None else nodes st !! b)
    ∧ (∀ j, iters st' !! j = detached_in (s :: addrs t) <$> iters st !! j)
    ∧ sizes st' = delete s (sizes st).
Proof.
  intros Hinv Hreg.
  destruct (clear_run st s t Hinv Hreg)
    as (st1 & Hrun1 & Hinv1 & Hreg1 & Ho1 & Hn1 & Hs1 & Hi1 & Hsz1).
  destruct (set_inv_anchor _ _ _ Hinv1) as (n1 & Hns1 & _).
  destruct (delete_registered st1 s n1 Hreg1 Hns1) as [Hreg2 Hi2].
  eexists. split_and!.
  - unfold set_dtor, destroy_members. rewrite (bind_ok _ _ _ _ _ Hrun1).
    rewrite (bind_ok _ _ _ _ _ (delete_node_run _ _ _ Hns1
                                  (λ i Hi, registered_live _ _ _ _ Hreg1 Hns1 Hi))).
    reflexivity.
  - eapply registered_ext; [| |exact Hreg2]; done.
  - intros b. sstate. destruct (decide (b = s)) as [->|Hbs].
    + rewrite lookup_delete_eq, decide_True; [done|]. set_solver.
    + rewrite lookup_delete_ne, (Hn1 b Hbs) by done.
      destruct (decide (b ∈ addrs t)), (decide (b ∈ s :: addrs t)); set_solver.
  - intros j. sstate. rewrite Hi2, Hi1.
    destruct (iters st !! j) as [x|]; [|done]. simpl. f_equal.
    rewrite <- (detached_in_nil x) at 1. apply (detached_in_node [] (addrs t)).
  - sstate. by rewrite Hsz1, delete_insert_eq.
Qed.

Lemma set_1357_with_end_registered : registered (final_state set_1357_with_end).
Proof. apply (bool_decide_unpack _). vm_compute. exact I. Qed.

Lemma set_dtor_spec_witness :
  ∃ st',
    set_dtor 1 (final_state set_1357_with_end) = Ok () st'
    ∧ registered st'
    ∧ (∀ b, nodes st' !! b
            = if decide (b ∈ 1%positive :: addrs tree_1357) then None
              else nodes (final_state set_1357_with_end) !! b)
    ∧ (∀ j, iters st' !! j
            = detached_in (1%positive :: addrs tree_1357)
                <$> iters (final_state set_1357_with_end) !! j)
    ∧ sizes st' = delete 1%positive (sizes (final_state set_1357_with_end)).
Proof.
  apply (set_dtor_spec (final_state set_1357_with_end) 1 tree_1357);
    [apply set_1357_with_end_inv|apply set_1357_with_end_registered].
Defined.

(** ** The predecessor *)

(** The element before [a] in a list without duplicates. *)
Definition prev_in (xs : list positive) (a : positive) : option positive :=
  next_in (reverse xs) a.

Lemma reverse_addrs_node l a v r :
  reverse (addrs (Node l a v r)) = reverse (addrs r) ++ a :: reverse (addrs l).
Proof. by rewrite addrs_node, reverse_app, reverse_cons, <- app_assoc. Qed.

Lemma last_addrs l a v r : head (reverse (addrs (Node l a v r))) = Some (tmax r a).
Proof.
  revert a v l. induction r as [|rl _ b w rr IH]; intros a v l.
  - by rewrite reverse_addrs_node.
  - rewrite reverse_addrs_node. specialize (IH b w rl).
    destruct (reverse (addrs (Node rl b w rr))); simplify_eq/=. done.
Qed.

Lemma find_prev_rep t : ∀ h par fuel a k res,
  rep h par t → NoDup (addrs t) → a ∈ addrs t →
  (∀ x f, root t = Some x → (k ≤ f)%nat → climb_left f h x par = Val res) →
  (count t + k ≤ fuel)%nat →
  find_prev fuel h a
  = Val (match prev_in (addrs t) a with
         | Some b => Some b
         | None => res
         end).
Proof.
  unfold prev_in.
  induction t as [|l IHl x v r IHr]; intros h par fuel a k res Hrep Hnd Ha Hclimb Hfuel.
  { by apply elem_of_nil in Ha. }
  pose proof (NoDup_node _ _ _ _ Hnd) as (Hndl & Hndr & Hxl & Hxr & Hdisj).
  rep_inv Hrep. simpl in Hfuel. rewrite reverse_addrs_node.
  apply in_addrs_node in Ha as [Ha|[->|Ha]].
  - assert (a ∉ reverse (addrs r)) as Har.
    { rewrite elem_of_reverse. by apply Hdisj. }
    assert (a ≠ x) as Hax by (intros ->; done).
    rewrite (next_in_app_r _ _ _ Har). simpl. rewrite decide_False by done.
    apply (IHl h (Some x) fuel a (S k) res Hrepl Hndl Ha); [|lia].
    intros lx f Hlx Hf. destruct f as [|f]; [lia|]. simpl.
    rewrite Hn, Hleft, Hparent, decide_True by done.
    apply Hclimb; [done|lia].
  - assert (x ∉ reverse (addrs r)) as Hxr' by (by rewrite elem_of_reverse).
    rewrite (next_in_app_r _ _ _ Hxr'). simpl. rewrite decide_True by done.
    unfold find_prev. rewrite Hn, Hleft, Hparent.
    destruct l as [|ll lx lv lr]; simpl.
    + apply Hclimb; [done|lia].
    + rewrite (find_max_rep _ _ _ _ _ _ _ Hrepl); [|simpl in Hfuel; lia].
      by rewrite last_addrs.
  - assert (a ∈ reverse (addrs r)) as Har by (by rewrite elem_of_reverse).
    rewrite (next_in_app_l _ _ _ Har). simpl.
    rewrite (IHr h (Some x) fuel a 1%nat (Some x) Hrepr Hndr Ha); [|intros rx f Hrx Hf|lia].
    { by destruct (next_in (reverse (addrs r)) a). }
    destruct f as [|f]; [lia|]. simpl. rewrite Hn, Hleft.
    rewrite decide_False; [done|]. intros Hl.
    apply (Hdisj rx); by apply root_in_addrs.
Qed.

Lemma base_assert_links st st' i b c n :
  frame st st' → iters st' !! i = Some (mk_iterator (Some b) c) →
  nodes st !! b = Some n → left n ≠ Some b →
  base_assert i st' = Ok () st'.
Proof.
  intros (Hl & _) Hi Hn Hleft. pose proof (same_links_at _ _ b Hl) as E.
  rewrite Hn in E. destruct (nodes st' !! b) as [n'|] eqn:Hn'; [|done].
  injection E as El _ _ _.
  eapply base_assert_run; [done..|]. by rewrite El.
Qed.

Lemma set_inv_fuel_anchor st s t : set_inv st s t → (S (count t) ≤ size (nodes st))%nat.
Proof.
  intros Hinv. pose proof (set_inv_anchor_not_in _ _ _ Hinv) as Hs.
  destruct Hinv as (n & Hn & _ & _ & _ & _ & _ & Hrep & Hnd & _).
  rewrite <- addrs_length, <- size_dom.
  change (length (s :: addrs t) ≤ size (dom (nodes st)))%nat.
  unfold size, set_size. cbn [length].
  apply (submseteq_length (s :: addrs t)), NoDup_submseteq; [by apply NoDup_cons|].
  intros a [->|Ha]%elem_of_cons; apply elem_of_elements, elem_of_dom;
    [by eexists|by eapply rep_in_dom].
Qed.

Lemma decr_run st s t i a c na :
  set_inv st s t → oracle st = [] →
  iters st !! i = Some (mk_iterator (Some a) c) →
  nodes st !! s = Some na → parent na = None ∨ parent na = Some s →
  a ∈ addrs t ∨ (a = s ∧ t ≠ Leaf) →
  match prev_in (addrs t ++ [s]) a with
  | Some b =>
      ∃ st', decr i st = Ok () st'
             ∧ iters st' = <[i := mk_iterator (Some b) c]> (iters st)
             ∧ frame st st'
  | None =>
      match parent na with
      | None => decr i st = Crash AssertFailed
      | Some _ =>
          ∃ st', decr i st = Ok () st'
                 ∧ iters st' = <[i := mk_iterator (Some s) c]> (iters st)
                 ∧ frame st st'
      end
  end.
Proof.
  intros Hinv Ho Hi Hna Hpar Ha. pose proof (set_inv_fuel_anchor _ _ _ Hinv) as Hfuel.
  pose proof (set_inv_anchor_not_in _ _ _ Hinv) as Hs.
  destruct Hinv as (n & Hn & Hval & Hright & Hsz & Hbound & Hroot & Hrep & Hnd & Hbst).
  assert (n = na) as -> by congruence.
  assert (t ≠ Leaf) as Hne.
  { destruct Ha as [Ha|[_ ?]]; [|done]. intros ->. by apply elem_of_nil in Ha. }
  specialize (Hroot Hne).
  assert (left na ≠ Some s) as Hls.
  { rewrite Hroot. intros Hr. by apply Hs, root_in_addrs. }
  (* the node under the iterator *)
  assert (∃ n, nodes st !! a = Some n ∧ left n ≠ Some a) as (n & Hn' & Hla).
  { destruct Ha as [Ha|[-> _]]; [|by exists na].
    destruct (rep_value _ _ _ _ Hrep Ha) as (n & w & Hn' & Hw & Hin).
    destruct (rep_elem _ _ _ _ _ Hrep Hnd Hin) as (n' & ? & _ & ?).
    exists n. split; [done|]. congruence. }
  (* where the iterator goes *)
  assert (find_prev (S (size (nodes st))) (nodes st) a
          = Val (match prev_in (addrs t ++ [s]) a with
                 | Some b => Some b
                 | None => parent na
                 end)
          ∧ ∀ b, prev_in (addrs t ++ [s]) a = Some b → b ∈ addrs t) as (Hprev & Hin).
  { unfold prev_in. rewrite reverse_app. simpl.
    destruct Ha as [Ha|[-> _]].
    - rewrite decide_False by (intros ->; done). split.
      + apply (find_prev_rep t (nodes st) (Some s) _ a 2%nat (parent na) Hrep Hnd Ha);
          [|lia].
        intros x f Hx Hf. destruct f as [|[|f]]; [lia..|]. simpl.
        rewrite Hn, Hroot, Hx, decide_True by done.
        destruct Hpar as [->| ->]; [done|]. rewrite Hn, Hroot, Hx.
        rewrite decide_False; [done|]. intros [= ->]. by apply Hs, root_in_addrs.
      + intros b Hb%next_in_elem. by rewrite elem_of_reverse in Hb.
    - rewrite decide_True by done. unfold find_prev. rewrite Hn, Hroot.
      destruct t as [|l x v r]; [done|]. cbn [root].
      rewrite (find_max_rep _ _ _ _ _ _ _ Hrep); [|simpl in Hfuel; lia].
      rewrite last_addrs. split; [done|]. intros b [= <-].
      rewrite <- elem_of_reverse. apply (head_Some_elem_of _ _ (last_addrs l x v r)). }
  (* the run up to the new position *)
  assert (∀ new, find_prev (S (size (nodes st))) (nodes st) a = Val new →
            decr i st = (move_to_another_node i new;; base_assert i) st) as Hrun.
  { intros new Hnew. unfold decr.
    rewrite (bind_ok _ _ _ _ _ (base_assert_run _ _ _ _ _ Hi eq_refl Hn' Hla)).
    rewrite (bind_ok _ _ _ _ _ (load_iter_run _ _ _ Hi)). simpl.
    rewrite bind_unfold, ret_unfold.
    rewrite (bind_ok _ _ _ _ _ (heap_fuel_run _)).
    by rewrite (bind_ok _ _ _ _ _
      (lift_val (λ h, find_prev _ h a) st _ Hnew)). }
  rewrite (Hrun _ Hprev). clear Hrun Hprev.
  assert (valid_ptr (nodes st) (Some a)) as Hva by (by eexists).
  destruct (prev_in (addrs t ++ [s]) a) as [b|].
  - specialize (Hin b eq_refl).
    destruct (rep_value _ _ _ _ Hrep Hin) as (nb & w & Hnb & Hw & Hbin).
    destruct (rep_elem _ _ _ _ _ Hrep Hnd Hbin) as (nb' & Hnb' & _ & Hlb).
    assert (nb' = nb) as -> by congruence.
    destruct (move_to_another_node_frame st i _ (Some b) Hi Hva ltac:(by eexists) Ho)
      as (st' & Hmove & Hit & Hfr).
    exists st'. split_and!; [|done..].
    rewrite (bind_ok _ _ _ _ _ Hmove).
    apply (base_assert_links st st' i b c nb); [done| |done..].
    rewrite Hit. apply lookup_insert_eq.
  - destruct Hpar as [Hp|Hp]; rewrite Hp.
    + destruct (move_to_another_node_frame st i _ None Hi Hva I Ho)
        as (st' & Hmove & Hit & Hfr).
      rewrite (bind_ok _ _ _ _ _ Hmove). unfold base_assert.
      assert (iters st' !! i = Some (mk_iterator None c)) as Hi'.
      { rewrite Hit. apply lookup_insert_eq. }
      by rewrite (bind_ok _ _ _ _ _ (load_iter_run _ _ _ Hi')).
    + destruct (move_to_another_node_frame st i _ (Some s) Hi Hva ltac:(by eexists) Ho)
        as (st' & Hmove & Hit & Hfr).
      exists st'. split_and!; [|done..].
      rewrite (bind_ok _ _ _ _ _ Hmove).
      apply (base_assert_links st st' i s c na); [done| |done..].
      rewrite Hit. apply lookup_insert_eq.
Qed.

(** ** Invariants of the state

    [keeps I E m]: from a state in which [I] holds, [m] returns in a state
    in which [I] holds, or throws in a state in which [E] holds. *)
Definition keeps (I E : state → Prop) {A} (m : M A) : Prop :=
  ∀ st, I st → match m st with
               | Ok _ st' => I st'
               | Throw st' => E st'
               | Crash _ => True
               end.

(** The exceptional condition of code that does not throw. *)
Definition never : state → Prop := λ _, False.

(** Code that leaves the state as it is. *)
Definition reads {A} (m : M A) : Prop :=
  ∀ st, match m st with
        | Ok _ st' => st' = st
        | Throw st' => False
        | Crash _ => True
        end.

Create HintDb keeps discriminated.

Section keeps_rules.
Context (I E : state → Prop).

Lemma keeps_ret {A} (x : A) : keeps I E (mret x).
Proof. by intros st H. Qed.

Lemma keeps_bind {A B} (m : M A) (k : A → M B) :
  keeps I E m → (∀ x, keeps I E (k x)) → keeps I E (m ≫= k).
Proof.
  intros Hm Hk st H. specialize (Hm st H). rewrite bind_unfold.
  destruct (m st) as [x st'| |]; [|done..]. by apply Hk.
Qed.

Lemma keeps_crash {A} c : keeps I E (crash_with c : M A).
Proof. by intros st H. Qed.

Lemma keeps_reads {A} (m : M A) : reads m → keeps I E m.
Proof.
  intros Hm st H. specialize (Hm st). destruct (m st); [by subst|done..].
Qed.

Lemma keeps_catch_rethrow {A} (m : M A) hd :
  keeps I E m → keeps E E hd → keeps I E (catch_rethrow m hd).
Proof.
  intros Hm Hh st H. specialize (Hm st H). unfold catch_rethrow.
  destruct (m st) as [x st'|st'|]; [done| |done].
  specialize (Hh st' Hm). by destruct (hd st').
Qed.

Lemma keeps_scoped {A} (m : M A) d :
  keeps I E m → keeps I E d → keeps E E d → keeps I E (scoped m d).
Proof.
  intros Hm Hd Hd' st H. specialize (Hm st H). unfold scoped.
  destruct (m st) as [x st'|st'|]; [| |done].
  - specialize (Hd st' Hm). by destruct (d st').
  - specialize (Hd' st' Hm). by destruct (d st').
Qed.
End keeps_rules.

Lemma keeps_never {A} (m : M A) : keeps never never m.
Proof. by intros st H. Qed.

Lemma keeps_throw (I : state → Prop) {A} : keeps I I (throw : M A).
Proof. by intros st H. Qed.

Lemma reads_ret {A} (x : A) : reads (mret x).
Proof. by intros st. Qed.

Lemma reads_bind {A B} (m : M A) (k : A → M B) :
  reads m → (∀ x, reads (k x)) → reads (m ≫= k).
Proof.
  intros Hm Hk st. specialize (Hm st). rewrite bind_unfold.
  destruct (m st) as [x st'| |]; [|done..]. subst. apply Hk.
Qed.

Lemma reads_crash {A} c : reads (crash_with c : M A).
Proof. by intros st. Qed.

Lemma reads_load a : reads (load a).
Proof. intros st. unfold load. by destruct (nodes st !! a). Qed.

Lemma reads_load_iter i : reads (load_iter i).
Proof. intros st. unfold load_iter. by destruct (iters st !! i). Qed.

Lemma reads_load_size s : reads (load_size s).
Proof. intros st. unfold load_size. by destruct (sizes st !! s). Qed.

Lemma reads_lift {A} (f : gmap positive sentinel_node → outcome A) : reads (lift f).
Proof. intros st. unfold lift. by destruct (f (nodes st)). Qed.

Lemma reads_heap_fuel : reads heap_fuel.
Proof. by intros st. Qed.

Lemma reads_fresh_addr : reads fresh_addr.
Proof. by intros st. Qed.

Lemma reads_assert (x : bool) : reads (assert x).
Proof. by destruct x. Qed.

Lemma reads_nonnull (p : ptr) : reads (nonnull p).
Proof. by destruct p. Qed.

#[global] Hint Resolve reads_ret reads_crash reads_load reads_load_iter reads_load_size
  reads_lift reads_heap_fuel reads_fresh_addr reads_assert reads_nonnull : keeps.

Lemma reads_get_left a : reads (get_left a).
Proof. apply reads_bind; auto with keeps. Qed.
Lemma reads_get_right a : reads (get_right a).
Proof. apply reads_bind; auto with keeps. Qed.
Lemma reads_get_parent a : reads (get_parent a).
Proof. apply reads_bind; auto with keeps. Qed.
Lemma reads_get_value a : reads (get_value a).
Proof.
  apply reads_bind; [auto with keeps|]. intros n. destruct (value_ n); auto with keeps.
Qed.
Lemma reads_size_ s : reads (size_ s).
Proof. apply reads_load_size. Qed.
Lemma reads_empty s : reads (empty s).
Proof. apply reads_bind; [apply reads_size_|]. auto with keeps. Qed.
Lemma reads_take_root s : reads (take_root s).
Proof. apply reads_get_left. Qed.
Lemma reads_base_assert i : reads (base_assert i).
Proof.
  apply reads_bind; [auto with keeps|]. intros it. destruct (node_ it); [|auto with keeps].
  apply reads_bind; [apply reads_get_left|]. auto with keeps.
Qed.
Lemma reads_iter_eq (x y : positive) : reads (iter_eq x y).
Proof. repeat (apply reads_bind; [auto with keeps|]; intros ?). auto with keeps. Qed.

#[global] Hint Resolve reads_get_left reads_get_right reads_get_parent reads_get_value
  reads_size_ reads_empty reads_take_root reads_base_assert reads_iter_eq : keeps.

#[global] Hint Resolve keeps_ret keeps_crash keeps_never keeps_throw : keeps.
#[global] Hint Extern 5 (keeps _ _ _) => apply keeps_reads; solve [auto with keeps] : keeps.

(** ** What the operations on iterators do to the state

    These lemmas cover every outcome of an operation, the allocation
    failures of [push_back] included. *)

(** Links, values and sizes are as before; an allocation may have been
    asked for. *)
Definition quiet st st' : Prop :=
  same_links (nodes st) (nodes st') ∧ sizes st' = sizes st
  ∧ (oracle st = [] → oracle st' = []).

Lemma quiet_refl st : quiet st st.
Proof. split_and!; [apply same_links_refl|done..]. Qed.

Lemma quiet_trans st1 st2 st3 : quiet st1 st2 → quiet st2 st3 → quiet st1 st3.
Proof.
  intros (H1 & H2 & H3) (H1' & H2' & H3'). split_and!.
  - by eapply same_links_trans.
  - congruence.
  - auto.
Qed.

Lemma push_back_cases (v : vector) i st :
  match push_back v i st with
  | Ok v' st' =>
      items v' = items v ++ [i]
      ∧ nodes st' = nodes st ∧ iters st' = iters st ∧ sizes st' = sizes st
      ∧ (oracle st = [] → oracle st' = [])
  | Throw st' =>
      nodes st' = nodes st ∧ iters st' = iters st ∧ sizes st' = sizes st
      ∧ oracle st ≠ []
  | Crash _ => False
  end.
Proof.
  unfold push_back. destruct (length (items v) <? capacity v)%nat; [done|].
  rewrite bind_unfold. unfold alloc_ok.
  destruct (oracle st) as [|[] o] eqn:Ho; simpl; try done.
Qed.

Lemma add_iterator_cases st a i :
  match add_iterator a i st with
  | Ok _ st' =>
      ∃ n v, nodes st !! a = Some n ∧ items v = items (share n) ++ [i]
             ∧ nodes st' = <[a := with_share n v]> (nodes st)
             ∧ iters st' = iters st ∧ sizes st' = sizes st
             ∧ (oracle st = [] → oracle st' = [])
  | Throw st' =>
      nodes st' = nodes st ∧ iters st' = iters st ∧ sizes st' = sizes st
      ∧ oracle st ≠ []
  | Crash _ => True
  end.
Proof.
  unfold add_iterator. rewrite bind_unfold. unfold load.
  destruct (nodes st !! a) as [n|] eqn:Hn; [|done]. rewrite bind_unfold.
  pose proof (push_back_cases (share n) i st) as H.
  destruct (push_back (share n) i st) as [v st'|st'|]; [|done..].
  destruct H as (Hv & Hn' & Hi & Hs & Ho). unfold store. sstate.
  exists n, v. by rewrite Hn'.
Qed.

Lemma shared_insert st st' a n n' (xs : list positive) :
  nodes st !! a = Some n → nodes st' = <[a := n']> (nodes st) →
  items (share n') = xs →
  ∀ b, shared st' b = if decide (a = b) then Some xs else shared st b.
Proof.
  intros Hn Hn' Hxs b. unfold shared. rewrite Hn'. case_decide as E.
  - subst. by rewrite lookup_insert_eq.
  - by rewrite lookup_insert_ne.
Qed.

Lemma insert_share_links (h : gmap positive sentinel_node) a n v :
  h !! a = Some n → same_links h (<[a := with_share n v]> h).
Proof.
  intros Hn b. destruct (decide (a = b)) as [<-|Hne].
  - by rewrite lookup_insert_eq, Hn.
  - by rewrite lookup_insert_ne.
Qed.

Lemma set_node__cases st i it p :
  iters st !! i = Some it →
  set_node_ i p st
  = Ok () (with_iters st (<[i := mk_iterator p (container_ it)]> (iters st))).
Proof. apply set_node__run. Qed.

Lemma append_to_node_cases st i p c :
  iters st !! i = Some (mk_iterator p c) →
  match append_to_node i st with
  | Ok _ st' =>
      valid_ptr (nodes st) p ∧ iters st' = iters st
      ∧ (∀ b, shared st' b
              = (λ xs, xs ++ if decide (p = Some b) then [i] else []) <$> shared st b)
      ∧ quiet st st'
  | Throw st' =>
      nodes st' = nodes st ∧ iters st' = <[i := mk_iterator None c]> (iters st)
      ∧ sizes st' = sizes st ∧ oracle st ≠ []
  | Crash _ => True
  end.
Proof.
  intros Hi. unfold append_to_node, catch_rethrow.
  rewrite (bind_ok _ _ _ _ _ (load_iter_run _ _ _ Hi)). sstate.
  destruct p as [a|].
  - pose proof (add_iterator_cases st a i) as H.
    destruct (add_iterator a i st) as [[] st'|st'|]; [| |done].
    + destruct H as (n & v & Hn & Hv & Hn' & Hi' & Hs & Ho).
      split_and!; [by eexists|done| |].
      * intros b. rewrite (shared_insert st st' a n (with_share n v) _ Hn Hn' Hv).
        unfold shared. case_decide as E.
        -- subst. rewrite Hn. simpl. by rewrite decide_True.
        -- destruct (nodes st !! b); simpl; [|done].
           by rewrite decide_False, app_nil_r by congruence.
      * split_and!; [|done..]. rewrite Hn'. by apply insert_share_links.
    + destruct H as (Hn' & Hi' & Hs & Ho).
      assert (iters st' !! i = Some (mk_iterator (Some a) c)) as Hi'' by congruence.
      rewrite (set_node__cases _ _ _ _ Hi''). sstate. by rewrite Hi'.
  - rewrite ret_unfold. split_and!; [done..| |apply quiet_refl].
    intros b. destruct (shared st b); simpl; [|done]. by rewrite app_nil_r.
Qed.

Lemma construct_cases st i p c :
  iters st !! i = Some (mk_iterator p c) →
  match constructing i (append_to_node i) st with
  | Ok q st' =>
      q = i ∧ valid_ptr (nodes st) p ∧ iters st' = iters st
      ∧ (∀ b, shared st' b
              = (λ xs, xs ++ if decide (p = Some b) then [i] else []) <$> shared st b)
      ∧ quiet st st'
  | Throw st' =>
      nodes st' = nodes st ∧ iters st' = delete i (iters st) ∧ sizes st' = sizes st
      ∧ oracle st ≠ []
  | Crash _ => True
  end.
Proof.
  intros Hi. unfold constructing. rewrite bind_unfold. unfold catch_rethrow.
  pose proof (append_to_node_cases st i p c Hi) as H.
  destruct (append_to_node i st) as [[] st'|st'|]; [| |done].
  - by rewrite ret_unfold.
  - destruct H as (Hn' & Hi' & Hs & Ho). unfold free_iter. sstate.
    split_and!; [done| |done..]. by rewrite Hi', delete_insert_eq.
Qed.

Lemma s_iterator_ctor_cases st p c :
  match s_iterator_ctor p c st with
  | Ok q st' =>
      q = fresh (dom (iters st)) ∧ valid_ptr (nodes st) p
      ∧ iters st' = <[q := mk_iterator p c]> (iters st)
      ∧ (∀ b, shared st' b
              = (λ xs, xs ++ if decide (p = Some b) then [q] else []) <$> shared st b)
      ∧ quiet st st'
  | Throw st' =>
      nodes st' = nodes st ∧ iters st' = iters st ∧ sizes st' = sizes st
      ∧ oracle st ≠ []
  | Crash _ => True
  end.
Proof.
  unfold s_iterator_ctor, new_iter. rewrite bind_unfold.
  set (q := fresh (dom (iters st))).
  set (st0 := with_iters st (<[q := mk_iterator p c]> (iters st))).
  pose proof (construct_cases st0 q p c (lookup_insert_eq _ _ _)) as H.
  destruct (constructing q (append_to_node q) st0) as [q' st'|st'|]; [| |done].
  - destruct H as (-> & Hv & Hi & Hsh & Hq). done.
  - destruct H as (Hn & Hi & Hs & Ho). split_and!; [done| |done..].
    rewrite Hi. unfold st0. sstate. rewrite delete_insert_eq.
    apply delete_id, fresh_iter_not_in.
Qed.

Lemma s_iterator_copy_cases st j :
  match s_iterator_copy j st with
  | Ok q st' =>
      ∃ it, iters st !! j = Some it
      ∧ q = fresh (dom (iters st)) ∧ valid_ptr (nodes st) (node_ it)
      ∧ iters st' = <[q := it]> (iters st)
      ∧ (∀ b, shared st' b
              = (λ xs, xs ++ if decide (node_ it = Some b) then [q] else [])
                  <$> shared st b)
      ∧ quiet st st'
  | Throw st' =>
      nodes st' = nodes st ∧ iters st' = iters st ∧ sizes st' = sizes st
      ∧ oracle st ≠ []
  | Crash _ => True
  end.
Proof.
  destruct (iters st !! j) as [it|] eqn:Hj.
  - rewrite (s_iterator_copy_run _ _ _ Hj).
    pose proof (s_iterator_ctor_cases st (node_ it) (container_ it)) as H.
    destruct (s_iterator_ctor _ _ st) as [q st'|st'|]; [|done..].
    exists it. by destruct it.
  - unfold s_iterator_copy. rewrite bind_unfold. unfold load_iter. by rewrite Hj.
Qed.

Lemma remove_iterator_cases st a i :
  match remove_iterator a i st with
  | Ok _ st' =>
      ∃ n, nodes st !! a = Some n
           ∧ nodes st' = <[a := with_share n (removed (share n) i)]> (nodes st)
           ∧ iters st' = iters st ∧ sizes st' = sizes st ∧ oracle st' = oracle st
  | Throw _ => False
  | Crash _ => True
  end.
Proof.
  unfold remove_iterator. rewrite bind_unfold. unfold load.
  destruct (nodes st !! a) as [n|] eqn:Hn; [|done]. by exists n.
Qed.

(** The registry of the node [b] after the iterator [i] has gone from the
    node [old] to the node [p]. *)
Definition moved (old p : ptr) (i b : positive) (xs : list positive) : list positive :=
  (if decide (old = Some b) then remove_first i else id)
    (xs ++ if decide (p = Some b) then [i] else []).

Lemma s_iterator_dtor_cases st i :
  match s_iterator_dtor i st with
  | Ok _ st' =>
      ∃ it, iters st !! i = Some it ∧ valid_ptr (nodes st) (node_ it)
            ∧ iters st' = delete i (iters st)
            ∧ (∀ b, shared st' b = moved (node_ it) None i b <$> shared st b)
            ∧ quiet st st'
  | Throw _ => False
  | Crash _ => True
  end.
Proof.
  unfold s_iterator_dtor. rewrite bind_unfold. unfold load_iter.
  destruct (iters st !! i) as [it|] eqn:Hi; [|done]. rewrite bind_unfold.
  destruct (node_ it) as [a|] eqn:Ha.
  - pose proof (remove_iterator_cases st a i) as H.
    destruct (remove_iterator a i st) as [[] st'|st'|]; [|done..].
    destruct H as (n & Hn & Hn' & Hi' & Hs & Ho). unfold free_iter. sstate.
    exists it. rewrite Ha. split_and!; [done|by eexists|by rewrite Hi'| |].
    + intros b. change (shared st' b = moved (Some a) None i b <$> shared st b).
      rewrite (shared_insert st st' a n _ _ Hn Hn' eq_refl).
      unfold shared, moved. case_decide as E.
      * subst. rewrite Hn. simpl. by rewrite decide_True, app_nil_r.
      * destruct (nodes st !! b); simpl; [|done].
        by rewrite decide_False, app_nil_r by congruence.
    + split_and!; sstate; [|done|congruence]. rewrite Hn'. by apply insert_share_links.
  - rewrite ret_unfold. unfold free_iter. sstate. exists it. rewrite Ha.
    split_and!; [done..| |apply (quiet_refl st)].
    intros b. change (shared st b = moved None None i b <$> shared st b).
    unfold moved. destruct (shared st b); simpl; [|done]. by rewrite app_nil_r.
Qed.

Lemma move_to_another_node_cases st i p :
  match move_to_another_node i p st with
  | Ok _ st' =>
      ∃ it, iters st !! i = Some it
            ∧ valid_ptr (nodes st) p ∧ valid_ptr (nodes st) (node_ it)
            ∧ iters st' = <[i := mk_iterator p (container_ it)]> (iters st)
            ∧ (∀ b, shared st' b = moved (node_ it) p i b <$> shared st b)
            ∧ quiet st st'
  | Throw st' =>
      nodes st' = nodes st ∧ iters st' = iters st ∧ sizes st' = sizes st
      ∧ oracle st ≠ []
  | Crash _ => True
  end.
Proof.
  unfold move_to_another_node. rewrite bind_unfold. unfold load_iter.
  destruct (iters st !! i) as [it|] eqn:Hi; [|done]. rewrite bind_unfold.
  unfold catch_rethrow. rewrite (bind_ok _ _ _ _ _ (set_node__run _ _ _ _ Hi)).
  set (st1 := with_iters st _).
  assert (iters st1 !! i = Some (mk_iterator p (container_ it))) as Hi1
    by apply lookup_insert_eq.
  assert ((∃ st2, match p with Some n => add_iterator n i | None => mret () end st1
                  = Ok () st2
                  ∧ valid_ptr (nodes st) p ∧ iters st2 = iters st1
                  ∧ (∀ b, shared st2 b
                          = (λ xs, xs ++ if decide (p = Some b) then [i] else [])
                              <$> shared st b)
                  ∧ quiet st st2)
          ∨ (∃ st2, match p with Some n => add_iterator n i | None => mret () end st1
                    = Throw st2
                    ∧ nodes st2 = nodes st ∧ iters st2 = iters st1
                    ∧ sizes st2 = sizes st ∧ oracle st ≠ [])
          ∨ (∃ cr, match p with Some n => add_iterator n i | None => mret () end st1
                   = Crash cr)) as Hadd.
  { destruct p as [a|].
    - pose proof (add_iterator_cases st1 a i) as H.
      destruct (add_iterator a i st1) as [[] st2|st2|cr]; [| |right; right; by eexists].
      + left. exists st2. destruct H as (n & v & Hn & Hv & Hn' & Hi' & Hs & Ho).
        change (nodes st1) with (nodes st) in Hn, Hn'.
        split_and!; [done|by eexists|done| |].
        * intros b. rewrite (shared_insert st st2 a n (with_share n v) _ Hn Hn' Hv).
          unfold shared. case_decide as E.
          -- subst. rewrite Hn. simpl. by rewrite decide_True.
          -- destruct (nodes st !! b); simpl; [|done].
             by rewrite decide_False, app_nil_r by congruence.
        * split_and!; [|done..]. rewrite Hn'. by apply (insert_share_links (nodes st)).
      + right. left. exists st2. by destruct H as (? & ? & ? & ?).
    - left. exists st1. split_and!; [done..| |apply (quiet_refl st)].
      intros b. unfold shared, st1. sstate.
      destruct (nodes st !! b); simpl; [|done]. by rewrite app_nil_r. }
  destruct Hadd as [(st2 & -> & Hv & Hi2 & Hsh2 & Hq2)|[(st2 & -> & Hn2 & Hi2 & Hs2 & Ho2)
                                                       |[cr ->]]]; [| |done].
  - destruct (node_ it) as [o|] eqn:Hold.
    + pose proof (remove_iterator_cases st2 o i) as H.
      destruct (remove_iterator o i st2) as [[] st'|st'|]; [|done..].
      destruct H as (n & Hn & Hn' & Hi' & Hs & Ho).
      exists it. rewrite Hold. split_and!; [done|done| |by rewrite Hi', Hi2| |].
      * destruct Hq2 as (Hl & _). pose proof (same_links_at _ _ o Hl) as E.
        rewrite Hn in E. simpl. by destruct (nodes st !! o).
      * intros b. rewrite (shared_insert st2 st' o n _ _ Hn Hn' eq_refl).
        unfold moved. case_decide as E.
        -- subst. rewrite decide_True by done.
           specialize (Hsh2 b). unfold shared in Hsh2 at 1. rewrite Hn in Hsh2.
           simpl in Hsh2. destruct (shared st b); simplify_eq/=. by rewrite Hsh2.
        -- rewrite Hsh2. destruct (shared st b); simpl; [|done].
           by rewrite (decide_False (P := Some o = Some b)) by congruence.
      * eapply quiet_trans; [exact Hq2|]. split_and!; [|done|congruence].
        rewrite Hn'. by apply insert_share_links.
    + rewrite ret_unfold. exists it. rewrite Hold.
      split_and!; [done..|by rewrite Hi2| |done].
      intros b. rewrite Hsh2. unfold moved. by destruct (shared st b).
  - assert (iters st2 !! i = Some (mk_iterator p (container_ it))) as Hi2' by congruence.
    rewrite (set_node__cases _ _ _ _ Hi2'). sstate.
    split_and!; [done| |done..].
    rewrite Hi2. unfold st1. sstate. rewrite insert_insert_eq.
    destruct it. by apply insert_id.
Qed.

Lemma remove_first_app_in (i : positive) (xs ys : list positive) :
  i ∈ xs → remove_first i (xs ++ ys) = remove_first i xs ++ ys.
Proof.
  induction xs as [|x xs IH]; [by intros ?%elem_of_nil|]. simpl.
  case_decide; [done|]. intros Hin. simpl. f_equal. apply IH. set_solver.
Qed.

Lemma remove_first_app_notin (i : positive) (xs : list positive) :
  i ∉ xs → remove_first i (xs ++ [i]) = xs.
Proof.
  induction xs as [|x xs IH]; simpl; intros Hn.
  - by rewrite decide_True.
  - rewrite decide_False by set_solver. f_equal. apply IH. set_solver.
Qed.

Lemma remove_first_elem (i j : positive) (xs : list positive) :
  NoDup xs → j ∈ remove_first i xs ↔ j ≠ i ∧ j ∈ xs.
Proof.
  intros Hnd. destruct (remove_first_NoDup i xs Hnd) as [_ Hi]. split.
  - intros Hj. split; [by intros ->|by eapply remove_first_in].
  - intros [Hne Hj]. by apply remove_first_other.
Qed.

Lemma moved_spec old p (i b : positive) (xs : list positive) :
  NoDup xs → (i ∈ xs ↔ old = Some b) →
  NoDup (moved old p i b xs)
  ∧ ∀ j, j ∈ moved old p i b xs ↔ (j ≠ i ∧ j ∈ xs) ∨ (j = i ∧ p = Some b).
Proof.
  intros Hnd Hi. unfold moved.
  destruct (remove_first_NoDup i xs Hnd) as [Hnd' Hi'].
  destruct (decide (old = Some b)) as [Ho|Ho], (decide (p = Some b)) as [Hp|Hp].
  - rewrite remove_first_app_in by tauto. split.
    + apply NoDup_app. split_and!; [done| |apply NoDup_singleton].
      by intros j Hj ->%list_elem_of_singleton.
    + intros j. rewrite elem_of_app, list_elem_of_singleton, remove_first_elem by done.
      tauto.
  - rewrite app_nil_r. split; [done|]. intros j. rewrite remove_first_elem by done.
    tauto.
  - assert (i ∉ xs) as Hn by tauto. simpl. split.
    + apply NoDup_app. split_and!; [done| |apply NoDup_singleton].
      by intros j Hj ->%list_elem_of_singleton.
    + intros j. rewrite elem_of_app, list_elem_of_singleton. split; [|tauto].
      intros [Hj| ->]; [|tauto]. left. split; [|done]. by intros ->.
  - assert (i ∉ xs) as Hn by tauto. simpl. rewrite app_nil_r. split; [done|].
    intros j. split; [|tauto]. intros Hj. left. split; [|done]. by intros ->.
Qed.

(** The registry stays consistent when one iterator [i] goes from the
    node [old] (or from not existing) to the node [p] (or to not
    existing) and the registries of the two nodes follow. *)
Lemma registered_step st st' i old p :
  registered st →
  node_ <$> iters st !! i = Some old ∨ (iters st !! i = None ∧ old = None) →
  valid_ptr (nodes st) p →
  (∀ j, j ≠ i → node_ <$> iters st' !! j = node_ <$> iters st !! j) →
  node_ <$> iters st' !! i = Some p ∨ (iters st' !! i = None ∧ p = None) →
  (∀ b, shared st' b = moved old p i b <$> shared st b) →
  registered st'.
Proof.
  intros [H1 H2]%registered_iff Hold Hv Hother Hnew Hsh.
  assert (∀ b xs, shared st b = Some xs → (i ∈ xs ↔ old = Some b)) as Hi.
  { intros b xs Hxs. split.
    - intros Hin. destruct (H1 b xs Hxs) as [_ HF]. specialize (HF i Hin).
      destruct Hold as [Ho|[Ho _]]; rewrite Ho in HF; by simplify_eq.
    - intros ->. destruct Hold as [Ho|[_ ?]]; [|done].
      destruct (H2 i b Ho) as (xs' & ? & ?). by simplify_eq. }
  apply registered_iff. split.
  - intros b xs' Hxs'. rewrite Hsh in Hxs'.
    destruct (shared st b) as [xs|] eqn:Hxs; [|done]. injection Hxs' as <-.
    destruct (H1 b xs Hxs) as [Hnd HF].
    destruct (moved_spec old p i b xs Hnd (Hi b xs Hxs)) as [Hnd' Hm].
    split; [done|]. intros j [[Hji Hj]|[-> ->]]%Hm.
    + rewrite (Hother j Hji). by apply HF.
    + destruct Hnew as [?|[_ ?]]; by simplify_eq.
  - intros j b Hj. rewrite Hsh. destruct (decide (j = i)) as [->|Hji].
    + assert (p = Some b) as ->.
      { destruct Hnew as [Hp|[Hp _]]; rewrite Hp in Hj; by simplify_eq. }
      destruct Hv as [n Hn].
      assert (shared st b = Some (items (share n))) as Hxs by (unfold shared; by rewrite Hn).
      destruct (H1 b _ Hxs) as [Hnd _].
      destruct (moved_spec old (Some b) i b _ Hnd (Hi b _ Hxs)) as [_ Hm].
      rewrite Hxs. eexists. split; [done|]. apply Hm. by right.
    + rewrite (Hother j Hji) in Hj. destruct (H2 j b Hj) as (xs & Hxs & Hin).
      destruct (H1 b xs Hxs) as [Hnd _].
      destruct (moved_spec old p i b xs Hnd (Hi b xs Hxs)) as [_ Hm].
      rewrite Hxs. eexists. split; [done|]. apply Hm. by left.
Qed.

(** ** The registry is an invariant

    Each operation keeps the registry of iterators consistent, whether it
    returns or throws. *)

Lemma registered_same st st' :
  (∀ a, shared st' a = shared st a) →
  (∀ j, node_ <$> iters st' !! j = node_ <$> iters st !! j) →
  registered st → registered st'.
Proof.
  intros Hsh Hit [H1 H2]%registered_iff. apply registered_iff. split.
  - intros a xs Hxs. rewrite Hsh in Hxs. destruct (H1 a xs Hxs) as [Hnd HF].
    split; [done|]. intros i Hi. rewrite Hit. by apply HF.
  - intros i a Hi. rewrite Hit in Hi. rewrite Hsh. by apply H2.
Qed.

Lemma shared_links st st' :
  nodes st' = nodes st → ∀ a, shared st' a = shared st a.
Proof. intros E a. unfold shared. by rewrite E. Qed.

Lemma keeps_modify a (f : sentinel_node → sentinel_node) :
  (∀ n, share (f n) = share n) → keeps registered registered (modify a f).
Proof.
  intros Hf st Hreg. unfold modify. rewrite bind_unfold. unfold load.
  destruct (nodes st !! a) as [n|] eqn:Hn; [|done]. unfold store.
  eapply registered_same; [| |exact Hreg]; [|done].
  intros b. unfold shared. sstate. destruct (decide (a = b)) as [<-|Hne].
  - rewrite lookup_insert_eq, Hn. simpl. by rewrite Hf.
  - by rewrite lookup_insert_ne.
Qed.

Lemma keeps_set_left a p : keeps registered registered (set_left a p).
Proof. by apply keeps_modify. Qed.
Lemma keeps_set_right a p : keeps registered registered (set_right a p).
Proof. by apply keeps_modify. Qed.
Lemma keeps_set_parent a p : keeps registered registered (set_parent a p).
Proof. by apply keeps_modify. Qed.
Lemma keeps_put_root a p : keeps registered registered (put_root a p).
Proof. by apply keeps_modify. Qed.

Lemma keeps_store_size s z : keeps registered registered (store_size s z).
Proof. intros st Hreg. by eapply registered_same; [| |exact Hreg]. Qed.

Lemma keeps_release_size s : keeps registered registered (release_size s).
Proof. intros st Hreg. by eapply registered_same; [| |exact Hreg]. Qed.

Lemma keeps_alloc_ok : keeps registered registered alloc_ok.
Proof.
  intros st Hreg. unfold alloc_ok.
  destruct (oracle st); [done|]. by eapply registered_same; [| |exact Hreg].
Qed.

#[global] Hint Resolve keeps_set_left keeps_set_right keeps_set_parent keeps_put_root
  keeps_store_size keeps_release_size keeps_alloc_ok : keeps.

Ltac keeps_go :=
  repeat first
    [ progress auto with keeps
    | apply keeps_bind; [|intros ?]
    | apply keeps_catch_rethrow
    | apply keeps_scoped
    | match goal with
      | |- keeps _ _ (if ?b then _ else _) => destruct b
      | |- keeps _ _ (match ?x with _ => _ end) => destruct x
      end ].

Lemma keeps_incr_size s : keeps registered registered (incr_size s).
Proof. unfold incr_size. keeps_go. Qed.
Lemma keeps_decr_size s : keeps registered registered (decr_size s).
Proof. unfold decr_size. keeps_go. Qed.

Lemma keeps_new_node (x y z : ptr) v : keeps registered registered (new_node x y z v).
Proof.
  unfold new_node. apply keeps_bind; [auto with keeps|]. intros [|]; [|auto with keeps].
  intros st Hreg. unfold place_node. set (a := fresh (dom (nodes st))).
  assert (nodes st !! a = None) as Ha by apply fresh_node_not_in.
  apply registered_iff in Hreg as [H1 H2]. apply registered_iff.
  assert (∀ b, shared (with_nodes st (<[a := mk_node x y z empty_vector (Some v)]>
                                        (nodes st))) b
               = if decide (a = b) then Some [] else shared st b) as Hsh.
  { intros b. unfold shared. sstate. case_decide as E.
    - subst. by rewrite lookup_insert_eq.
    - by rewrite lookup_insert_ne. }
  split.
  - intros b xs Hxs. rewrite Hsh in Hxs. case_decide.
    + injection Hxs as <-. split; [constructor|]. by intros i ?%elem_of_nil.
    + by apply H1.
  - intros i b Hi. rewrite Hsh. destruct (H2 i b Hi) as (xs & Hxs & Hin).
    rewrite decide_False; [by eexists|]. intros <-. unfold shared in Hxs.
    by rewrite Ha in Hxs.
Qed.

Lemma keeps_default_ctor : keeps registered registered s_iterator_default_ctor.
Proof.
  intros st Hreg. unfold s_iterator_default_ctor, new_iter.
  set (q := fresh (dom (iters st))).
  apply (registered_step st _ q None None Hreg); sstate.
  - right. split; [apply fresh_iter_not_in|done].
  - done.
  - intros j Hj. by rewrite lookup_insert_ne.
  - left. by rewrite lookup_insert_eq.
  - intros b. unfold moved. change (shared (with_iters st _) b) with (shared st b).
    destruct (shared st b); simpl; [|done]. by rewrite app_nil_r.
Qed.

Lemma moved_new (p : ptr) (i b : positive) (xs : list positive) :
  moved None p i b xs = xs ++ if decide (p = Some b) then [i] else [].
Proof. done. Qed.

Lemma keeps_ctor p c : keeps registered registered (s_iterator_ctor p c).
Proof.
  intros st Hreg. pose proof (s_iterator_ctor_cases st p c) as H.
  destruct (s_iterator_ctor p c st) as [q st'|st'|]; [| |done].
  - destruct H as (-> & Hv & Hi & Hsh & _).
    apply (registered_step st st' (fresh (dom (iters st))) None p Hreg).
    + right. split; [apply fresh_iter_not_in|done].
    + done.
    + intros j Hj. by rewrite Hi, lookup_insert_ne.
    + left. by rewrite Hi, lookup_insert_eq.
    + done.
  - destruct H as (Hn & Hi & _). eapply registered_same; [| |exact Hreg].
    + by apply shared_links.
    + intros j. by rewrite Hi.
Qed.

Lemma keeps_copy j : keeps registered registered (s_iterator_copy j).
Proof.
  intros st Hreg. pose proof (s_iterator_copy_cases st j) as H.
  destruct (s_iterator_copy j st) as [q st'|st'|]; [| |done].
  - destruct H as (it & Hj & -> & Hv & Hi & Hsh & _).
    apply (registered_step st st' (fresh (dom (iters st))) None (node_ it) Hreg).
    + right. split; [apply fresh_iter_not_in|done].
    + done.
    + intros k Hk. by rewrite Hi, lookup_insert_ne.
    + left. by rewrite Hi, lookup_insert_eq.
    + done.
  - destruct H as (Hn & Hi & _). eapply registered_same; [| |exact Hreg].
    + by apply shared_links.
    + intros k. by rewrite Hi.
Qed.

Lemma keeps_dtor i : keeps registered registered (s_iterator_dtor i).
Proof.
  intros st Hreg. pose proof (s_iterator_dtor_cases st i) as H.
  destruct (s_iterator_dtor i st) as [[] st'|st'|]; [|done..].
  destruct H as (it & Hi & Hv & Hi' & Hsh & _).
  apply (registered_step st st' i (node_ it) None Hreg).
  - left. by rewrite Hi.
  - done.
  - intros j Hj. by rewrite Hi', lookup_delete_ne.
  - right. by rewrite Hi', lookup_delete_eq.
  - done.
Qed.

Lemma keeps_move i p : keeps registered registered (move_to_another_node i p).
Proof.
  intros st Hreg. pose proof (move_to_another_node_cases st i p) as H.
  destruct (move_to_another_node i p st) as [[] st'|st'|]; [| |done].
  - destruct H as (it & Hi & Hv & _ & Hi' & Hsh & _).
    apply (registered_step st st' i (node_ it) p Hreg).
    + left. by rewrite Hi.
    + done.
    + intros j Hj. by rewrite Hi', lookup_insert_ne.
    + left. by rewrite Hi', lookup_insert_eq.
    + done.
  - destruct H as (Hn & Hi & _). eapply registered_same; [| |exact Hreg].
    + by apply shared_links.
    + intros k. by rewrite Hi.
Qed.

Lemma keeps_set_container_ i c : keeps registered registered (set_container_ i c).
Proof.
  intros st Hreg. unfold set_container_. rewrite bind_unfold. unfold load_iter.
  destruct (iters st !! i) as [it|] eqn:Hi; [|done]. unfold store_iter.
  eapply registered_same; [| |exact Hreg]; [done|]. intros j. sstate.
  destruct (decide (i = j)) as [<-|Hne].
  - by rewrite lookup_insert_eq, Hi.
  - by rewrite lookup_insert_ne.
Qed.

#[global] Hint Resolve keeps_incr_size keeps_decr_size keeps_new_node keeps_default_ctor
  keeps_ctor keeps_copy keeps_dtor keeps_move keeps_set_container_ : keeps.

Lemma keeps_assign i j : keeps registered registered (s_iterator_assign i j).
Proof. unfold s_iterator_assign. keeps_go. Qed.

Lemma keeps_delete_node a : keeps registered registered (delete_node a).
Proof.
  intros st Hreg. destruct (nodes st !! a) as [n|] eqn:Hn.
  - rewrite (delete_node_run _ _ _ Hn (λ i Hi, registered_live _ _ _ _ Hreg Hn Hi)).
    by apply delete_registered.
  - unfold delete_node, sentinel_node_dtor. rewrite !bind_unfold. unfold load.
    by rewrite Hn.
Qed.

#[global] Hint Resolve keeps_assign keeps_delete_node : keeps.

Lemma keeps_swap_field (get : sentinel_node → ptr)
    (set : sentinel_node → ptr → sentinel_node) (x y : positive) :
  (∀ n p, share (set n p) = share n) →
  keeps registered registered (swap_field get set x y).
Proof.
  intros Hset st Hreg. unfold swap_field. rewrite bind_unfold. unfold load at 1.
  destruct (nodes st !! x) as [nx|] eqn:Hx; [|done].
  rewrite bind_unfold. unfold load at 1.
  destruct (nodes st !! y) as [ny|] eqn:Hy; [|done].
  rewrite bind_unfold. unfold store at 1. rewrite bind_unfold. unfold load. sstate.
  destruct (<[x:=set nx (get ny)]> (nodes st) !! y) as [ny'|] eqn:Hy'; [|done].
  unfold store. eapply registered_same; [| |exact Hreg]; [|done].
  intros b. unfold shared. sstate.
  assert (share ny' = share ny) as Hsy.
  { destruct (decide (x = y)) as [->|Hne].
    - rewrite lookup_insert_eq in Hy'. injection Hy' as <-. rewrite Hset. congruence.
    - rewrite lookup_insert_ne in Hy' by done. congruence. }
  destruct (decide (y = b)) as [<-|Hyb].
  { rewrite lookup_insert_eq, Hy. simpl. by rewrite Hset, Hsy. }
  rewrite lookup_insert_ne by done.
  destruct (decide (x = b)) as [<-|Hxb].
  { rewrite lookup_insert_eq, Hx. simpl. by rewrite Hset. }
  by rewrite lookup_insert_ne.
Qed.

Lemma keeps_swap_nodes (x y : positive) : keeps registered registered (swap_nodes x y).
Proof.
  unfold swap_nodes.
  apply keeps_bind; [by apply keeps_swap_field|intros _].
  apply keeps_bind; [by apply keeps_swap_field|intros _].
  by apply keeps_swap_field.
Qed.

Lemma keeps_swap_sizes (x y : positive) : keeps registered registered (swap_sizes x y).
Proof. unfold swap_sizes. keeps_go. Qed.

#[global] Hint Resolve keeps_swap_nodes keeps_swap_sizes : keeps.

Lemma keeps_swap (x y : positive) : keeps registered registered (swap x y).
Proof. unfold swap. keeps_go. Qed.

Lemma keeps_del_subtree fuel : ∀ d, keeps registered registered (del_subtree fuel d).
Proof.
  induction fuel as [|f IH]; intros [d|]; simpl; keeps_go.
Qed.

Lemma keeps_merge fuel (x y : ptr) : keeps registered registered (merge fuel x y).
Proof. unfold merge. keeps_go. Qed.

#[global] Hint Resolve keeps_swap keeps_del_subtree keeps_merge : keeps.

Lemma keeps_clear s : keeps registered registered (clear s).
Proof. unfold clear. keeps_go. Qed.

Lemma keeps_end s : keeps registered registered (end_ s).
Proof. unfold end_. keeps_go. Qed.

#[global] Hint Resolve keeps_clear keeps_end : keeps.

Lemma keeps_begin s : keeps registered registered (begin_ s).
Proof. unfold begin_. keeps_go. Qed.

Lemma keeps_pair_of_temporary (mk : M positive) (x : bool) :
  keeps registered registered mk →
  keeps registered registered (pair_of_temporary mk x).
Proof. intros H. unfold pair_of_temporary. keeps_go. Qed.

Lemma keeps_insert_handler (p : ptr) : keeps registered registered (insert_handler p).
Proof. unfold insert_handler, delete_ptr. keeps_go. Qed.

#[global] Hint Resolve keeps_begin keeps_pair_of_temporary keeps_insert_handler : keeps.

Lemma keeps_insert s v : keeps registered registered (insert s v).
Proof. unfold insert. keeps_go. Qed.

Lemma keeps_erase_body s pos : keeps registered registered (erase_body s pos).
Proof. unfold erase_body. keeps_go. Qed.

#[global] Hint Resolve keeps_insert keeps_erase_body : keeps.

Lemma keeps_erase s p : keeps registered registered (erase s p).
Proof. unfold erase. keeps_go. Qed.

Lemma keeps_find s v : keeps registered registered (find s v).
Proof. unfold find. keeps_go. Qed.

Lemma keeps_lower_bound s v : keeps registered registered (lower_bound s v).
Proof. unfold lower_bound. keeps_go. Qed.

Lemma keeps_upper_bound s v : keeps registered registered (upper_bound s v).
Proof. unfold upper_bound. keeps_go. Qed.

#[global] Hint Resolve keeps_erase keeps_find keeps_lower_bound keeps_upper_bound : keeps.

Lemma keeps_erase_value s v : keeps registered registered (erase_value s v).
Proof. unfold erase_value. keeps_go. Qed.

Lemma keeps_incr i : keeps registered registered (incr i).
Proof. unfold incr. keeps_go. Qed.

Lemma keeps_decr i : keeps registered registered (decr i).
Proof. unfold decr. keeps_go. Qed.

#[global] Hint Resolve keeps_erase_value keeps_incr keeps_decr : keeps.

Lemma keeps_post_incr i : keeps registered registered (post_incr i).
Proof. unfold post_incr. keeps_go. Qed.

Lemma keeps_post_decr i : keeps registered registered (post_decr i).
Proof. unfold post_decr. keeps_go. Qed.

Lemma keeps_copy_tree fuel : ∀ o, keeps registered registered (copy_tree fuel o).
Proof.
  induction fuel as [|f IH]; intros [o|]; simpl; keeps_go.
Qed.

Lemma keeps_set_dtor s : keeps registered registered (set_dtor s).
Proof. unfold set_dtor, destroy_members. keeps_go. Qed.

(** *** [swap] on iterators *)

Lemma retarget_cases (xs : list positive) (p : ptr) : ∀ st,
  match retarget xs p st with
  | Ok _ st' =>
      nodes st' = nodes st ∧ sizes st' = sizes st ∧ oracle st' = oracle st
      ∧ ∀ i, iters st' !! i
             = if decide (i ∈ xs)
               then (λ it, mk_iterator p (container_ it)) <$> iters st !! i
               else iters st !! i
  | Throw _ => False
  | Crash _ => True
  end.
Proof.
  induction xs as [|j xs IH]; intros st; simpl.
  - done.
  - rewrite bind_unfold. unfold set_node_ at 1. rewrite bind_unfold. unfold load_iter.
    destruct (iters st !! j) as [it|] eqn:Hj; [|done]. unfold store_iter.
    set (st1 := with_iters st _). specialize (IH st1).
    destruct (retarget xs p st1) as [[] st'| |]; [|done..].
    destruct IH as (Hn & Hs & Ho & Hi). split_and!; [done..|].
    intros i. rewrite Hi. unfold st1. sstate.
    destruct (decide (j = i)) as [<-|Hne].
    + rewrite lookup_insert_eq, Hj, (decide_True (P := j ∈ j :: xs)) by set_solver.
      by case_decide.
    + rewrite lookup_insert_ne by done.
      destruct (decide (i ∈ xs)), (decide (i ∈ j :: xs)); set_solver.
Qed.

Lemma keeps_swap_iterators (x y : positive) :
  keeps registered registered (swap_iterators x y).
Proof.
  intros st Hreg. unfold swap_iterators.
  rewrite bind_unfold. unfold load_iter at 1.
  destruct (iters st !! x) as [ix|] eqn:Hx; [|done].
  rewrite bind_unfold. unfold load_iter at 1.
  destruct (iters st !! y) as [iy|] eqn:Hy; [|done]. cbv zeta.
  rewrite (bind_ok _ _ _ _ _ (set_container__run _ _ _ _ Hx)).
  set (st1 := with_iters st _).
  assert (∃ iy1, iters st1 !! y = Some iy1 ∧ node_ iy1 = node_ iy) as (iy1 & Hy1 & Hny1).
  { unfold st1. sstate. destruct (decide (x = y)) as [->|Hne].
    - rewrite lookup_insert_eq. eexists. split; [done|]. simpl. congruence.
    - rewrite lookup_insert_ne by done. by exists iy. }
  rewrite (bind_ok _ _ _ _ _ (set_container__run _ _ _ _ Hy1)).
  set (st2 := with_iters st1 _).
  assert (∀ j, node_ <$> iters st2 !! j = node_ <$> iters st !! j) as HN2.
  { intros j. unfold st2, st1. sstate. destruct (decide (y = j)) as [<-|Hyj].
    - rewrite lookup_insert_eq, Hy. simpl. by rewrite Hny1.
    - rewrite lookup_insert_ne by done. destruct (decide (x = j)) as [<-|Hxj].
      + by rewrite lookup_insert_eq, Hx.
      + by rewrite lookup_insert_ne. }
  assert (is_Some (iters st2 !! x)) as [ix2 Hx2].
  { specialize (HN2 x). rewrite Hx in HN2. by destruct (iters st2 !! x). }
  rewrite (bind_ok _ _ _ _ _ (set_node__run _ _ _ _ Hx2)).
  set (st3 := with_iters st2 _).
  assert (is_Some (iters st3 !! y)) as [iy3 Hy3].
  { unfold st3. sstate. destruct (decide (x = y)) as [->|Hne].
    - rewrite lookup_insert_eq. by eexists.
    - rewrite lookup_insert_ne by done. specialize (HN2 y). rewrite Hy in HN2.
      by destruct (iters st2 !! y). }
  rewrite (bind_ok _ _ _ _ _ (set_node__run _ _ _ _ Hy3)).
  set (st4 := with_iters st3 _).
  assert (∀ j, j ≠ x → j ≠ y → node_ <$> iters st4 !! j = node_ <$> iters st !! j) as HN4.
  { intros j Hjx Hjy. unfold st4, st3. sstate. by rewrite !lookup_insert_ne. }
  assert (∀ j, is_Some (iters st4 !! j) ↔ is_Some (iters st !! j)) as Hlive4.
  { intros j. unfold st4, st3. sstate. destruct (decide (y = j)) as [<-|Hyj].
    { rewrite lookup_insert_eq, Hy. split; by eexists. }
    rewrite lookup_insert_ne by done. destruct (decide (x = j)) as [<-|Hxj].
    { rewrite lookup_insert_eq, Hx. split; by eexists. }
    rewrite lookup_insert_ne by done. specialize (HN2 j).
    destruct (iters st2 !! j), (iters st !! j); simplify_eq/=; split; intros [? ?]; done. }
  destruct (node_ ix) as [ln|] eqn:Hln; [|done]. simpl.
  rewrite bind_unfold, ret_unfold, bind_unfold. unfold load at 1.
  change (nodes st4) with (nodes st).
  destruct (nodes st !! ln) as [nl|] eqn:Hnl; [|done].
  rewrite bind_unfold.
  pose proof (retarget_cases (items (share nl)) (Some ln) st4) as H5.
  destruct (retarget (items (share nl)) (Some ln) st4) as [[] st5| |]; [|done..].
  destruct H5 as (Hn5 & Hs5 & Ho5 & Hi5).
  destruct (node_ iy) as [rn|] eqn:Hrn; [|done]. simpl.
  rewrite bind_unfold, ret_unfold, bind_unfold. unfold load.
  rewrite Hn5. change (nodes st4) with (nodes st).
  destruct (nodes st !! rn) as [nr|] eqn:Hnr; [|done].
  pose proof (retarget_cases (items (share nr)) (Some rn) st5) as H6.
  destruct (retarget (items (share nr)) (Some rn) st5) as [[] st6| |]; [|done..].
  destruct H6 as (Hn6 & Hs6 & Ho6 & Hi6).
  eapply registered_same; [| |exact Hreg].
  { apply shared_links. by rewrite Hn6, Hn5. }
  intros j. rewrite Hi6, Hi5.
  pose proof (registered_share st ln nl j Hreg Hnl) as Hsl.
  pose proof (registered_share st rn nr j Hreg Hnr) as Hsr.
  pose proof (registered_share st ln nl x Hreg Hnl) as Hxl. rewrite Hx in Hxl.
  pose proof (registered_share st rn nr y Hreg Hnr) as Hyr. rewrite Hy in Hyr.
  simpl in Hxl, Hyr. rewrite Hln in Hxl. rewrite Hrn in Hyr.
  destruct (Hlive4 j) as [Hl1 Hl2].
  destruct (decide (j ∈ items (share nr))) as [Hjr|Hjr].
  { apply Hsr in Hjr. rewrite Hjr.
    destruct (iters st !! j) as [ij|] eqn:Hj; [|done].
    destruct (Hl2 ltac:(by eexists)) as [ij4 Hj4].
    case_decide; rewrite Hj4; done. }
  destruct (decide (j ∈ items (share nl))) as [Hjl|Hjl].
  { apply Hsl in Hjl. rewrite Hjl.
    destruct (iters st !! j) as [ij|] eqn:Hj; [|done].
    destruct (Hl2 ltac:(by eexists)) as [ij4 Hj4]. by rewrite Hj4. }
  apply HN4.
  - intros ->. apply Hjl, Hxl. done.
  - intros ->. apply Hjr, Hyr. done.
Qed.

Lemma retarget_run (xs : list positive) (p : ptr) : ∀ st,
  (∀ i, i ∈ xs → is_Some (iters st !! i)) →
  ∃ st', retarget xs p st = Ok () st'.
Proof.
  induction xs as [|j xs IH]; intros st Hlive; simpl; [by eexists|].
  destruct (Hlive j ltac:(set_solver)) as [it Hit].
  rewrite (bind_ok _ _ _ _ _ (set_node__run _ _ _ _ Hit)). apply IH.
  intros i Hi. sstate. destruct (decide (j = i)) as [<-|Hne].
  - rewrite lookup_insert_eq. by eexists.
  - rewrite lookup_insert_ne by done. apply Hlive. set_solver.
Qed.

Lemma swap_iterators_run st (x y a b : positive) (c d : ptr) :
  registered st → x ≠ y →
  iters st !! x = Some (mk_iterator (Some a) c) →
  iters st !! y = Some (mk_iterator (Some b) d) →
  ∃ st',
    swap_iterators x y st = Ok () st'
    ∧ nodes st' = nodes st ∧ sizes st' = sizes st ∧ oracle st' = oracle st
    ∧ iters st' = <[x := mk_iterator (Some a) d]> (<[y := mk_iterator (Some b) c]> (iters st)).
Proof.
  intros Hreg Hxy Hx Hy.
  destruct (registered_valid _ _ _ Hreg Hx) as [na Hna].
  destruct (registered_valid _ _ _ Hreg Hy) as [nb Hnb]. sstate.
  unfold swap_iterators.
  rewrite (bind_ok _ _ _ _ _ (load_iter_run _ _ _ Hx)).
  rewrite (bind_ok _ _ _ _ _ (load_iter_run _ _ _ Hy)). cbv zeta. sstate.
  rewrite (bind_ok _ _ _ _ _ (set_container__run _ _ _ _ Hx)). sstate.
  set (st1 := with_iters st _).
  assert (iters st1 !! y = Some (mk_iterator (Some b) d)) as Hy1.
  { unfold st1. sstate. by rewrite lookup_insert_ne. }
  rewrite (bind_ok _ _ _ _ _ (set_container__run _ _ _ _ Hy1)). sstate.
  set (st2 := with_iters st1 _).
  assert (iters st2 !! x = Some (mk_iterator (Some a) d)) as Hx2.
  { unfold st2, st1. sstate. by rewrite lookup_insert_ne, lookup_insert_eq. }
  rewrite (bind_ok _ _ _ _ _ (set_node__run _ _ _ _ Hx2)). sstate.
  set (st3 := with_iters st2 _).
  assert (iters st3 !! y = Some (mk_iterator (Some b) c)) as Hy3.
  { unfold st3, st2. sstate. by rewrite lookup_insert_ne, lookup_insert_eq. }
  rewrite (bind_ok _ _ _ _ _ (set_node__run _ _ _ _ Hy3)). sstate.
  set (st4 := with_iters st3 _).
  assert (iters st4 = <[x := mk_iterator (Some b) d]>
                        (<[y := mk_iterator (Some a) c]> (iters st))) as Hi4.
  { unfold st4, st3, st2, st1. sstate. apply map_eq. intros j.
    destruct (decide (y = j)) as [<-|Hyj].
    { by rewrite lookup_insert_eq, lookup_insert_ne, lookup_insert_eq. }
    rewrite lookup_insert_ne by done. destruct (decide (x = j)) as [<-|Hxj].
    { by rewrite !lookup_insert_eq. }
    by rewrite !lookup_insert_ne. }
  assert (∀ j, is_Some (iters st4 !! j) ↔ is_Some (iters st !! j)) as Hlive4.
  { intros j. rewrite Hi4. destruct (decide (x = j)) as [<-|Hxj].
    { rewrite lookup_insert_eq, Hx. split; by eexists. }
    rewrite lookup_insert_ne by done. destruct (decide (y = j)) as [<-|Hyj].
    { rewrite lookup_insert_eq, Hy. split; by eexists. }
    by rewrite lookup_insert_ne. }
  simpl. rewrite bind_unfold, ret_unfold.
  rewrite (bind_ok _ _ _ _ _ (load_run st4 _ _ Hna)).
  destruct (retarget_run (items (share na)) (Some a) st4) as [st5 Hrun5].
  { intros i Hi. apply Hlive4. apply (registered_live st a na i Hreg Hna Hi). }
  pose proof (retarget_cases (items (share na)) (Some a) st4) as H5.
  rewrite Hrun5 in H5. destruct H5 as (Hn5 & Hs5 & Ho5 & Hi5).
  rewrite (bind_ok _ _ _ _ _ Hrun5). rewrite bind_unfold, ret_unfold.
  assert (nodes st5 !! b = Some nb) as Hnb5 by (by rewrite Hn5).
  rewrite (bind_ok _ _ _ _ _ (load_run st5 _ _ Hnb5)).
  destruct (retarget_run (items (share nb)) (Some b) st5) as [st6 Hrun6].
  { intros i Hi. rewrite Hi5.
    assert (is_Some (iters st4 !! i)) as [? Hl]
      by (apply Hlive4; apply (registered_live st b nb i Hreg Hnb Hi)).
    rewrite Hl. case_decide; by eexists. }
  pose proof (retarget_cases (items (share nb)) (Some b) st5) as H6.
  rewrite Hrun6 in H6. destruct H6 as (Hn6 & Hs6 & Ho6 & Hi6).
  exists st6. split; [done|].
  split_and!; [by rewrite Hn6, Hn5|by rewrite Hs6, Hs5|by rewrite Ho6, Ho5|].
  apply map_eq. intros j. rewrite Hi6, Hi5, Hi4.
  pose proof (registered_share st a na j Hreg Hna) as Hsa.
  pose proof (registered_share st b nb j Hreg Hnb) as Hsb.
  destruct (decide (x = j)) as [<-|Hxj].
  { rewrite Hx in Hsa, Hsb. simpl in Hsa, Hsb.
    rewrite !lookup_insert_eq. rewrite (decide_True (P := x ∈ items (share na))) by tauto.
    simpl. by case_decide as E; [apply Hsb in E; simplify_eq|]. }
  rewrite (lookup_insert_ne _ x j) by done.
  rewrite (lookup_insert_ne _ x j) by done.
  destruct (decide (y = j)) as [<-|Hyj].
  { rewrite Hy in Hsa, Hsb. simpl in Hsa, Hsb.
    rewrite !lookup_insert_eq. rewrite (decide_True (P := y ∈ items (share nb))) by tauto.
    by case_decide. }
  rewrite !lookup_insert_ne by done.
  destruct (iters st !! j) as [[nj cj]|] eqn:Hj; simpl in *; [|by repeat case_decide].
  destruct (decide (j ∈ items (share nb))) as [Hb|Hb];
    destruct (decide (j ∈ items (share na))) as [Ha|Ha]; simpl;
    try apply Hsa in Ha; try apply Hsb in Hb; by simplify_eq.
Qed.

(** *** New sets *)

Lemma registered_place st a n :
  registered st → nodes st !! a = None → items (share n) = [] →
  registered (with_nodes st (<[a := n]> (nodes st))).
Proof.
  intros [H1 H2]%registered_iff Ha Hn. apply registered_iff.
  assert (∀ b, shared (with_nodes st (<[a := n]> (nodes st))) b
               = if decide (a = b) then Some [] else shared st b) as Hsh.
  { intros b. unfold shared. sstate. case_decide as E.
    - subst. rewrite lookup_insert_eq. simpl. by rewrite Hn.
    - by rewrite lookup_insert_ne. }
  split.
  - intros b xs Hxs. rewrite Hsh in Hxs. case_decide.
    + injection Hxs as <-. split; [constructor|]. by intros i ?%elem_of_nil.
    + by apply H1.
  - intros i b Hi. rewrite Hsh. destruct (H2 i b Hi) as (xs & Hxs & Hin).
    rewrite decide_False; [by eexists|]. intros <-. unfold shared in Hxs.
    by rewrite Ha in Hxs.
Qed.

Lemma set_ctor_size_fresh st s z :
  registered st → nodes st !! s = None →
  match set_ctor_size s z st with
  | Ok _ st' => registered st'
  | Throw st' => registered st'
  | Crash _ => True
  end.
Proof.
  intros Hreg Hs. unfold set_ctor_size. rewrite bind_unfold. unfold store at 1.
  apply (keeps_bind registered registered (store_size s z));
    [auto with keeps|intros _; keeps_go|by apply registered_place].
Qed.

(** A set variable coming into scope, default-constructed or copied from
    another set. *)
Definition new_set : M positive :=
  this ← fresh_addr; set_ctor this;; mret this.

Definition new_set_from (other : positive) : M positive :=
  this ← fresh_addr; set_copy_ctor this other;; mret this.

Lemma keeps_new_set : keeps registered registered new_set.
Proof.
  intros st Hreg. unfold new_set, fresh_addr. rewrite bind_unfold, bind_unfold.
  pose proof (set_ctor_size_fresh st (fresh (dom (nodes st))) 0 Hreg
                (fresh_node_not_in _)) as H.
  unfold set_ctor. by destruct (set_ctor_size _ 0 st).
Qed.

Lemma keeps_copy_body s other :
  keeps registered registered
    (catch_rethrow
       (catch_rethrow
          (e ← empty other;
           if (e : bool) then mret ()
           else
             r ← take_root other;
             fuel ← heap_fuel;
             c ← copy_tree fuel r;
             put_root s c;;
             r' ← take_root s;
             r'' ← nonnull r';
             set_parent r'' (Some s))
          (store_size s 0))
       (destroy_members s)).
Proof.
  pose proof keeps_copy_tree. unfold destroy_members. keeps_go.
Qed.

Lemma keeps_new_set_from other : keeps registered registered (new_set_from other).
Proof.
  intros st Hreg. unfold new_set_from, fresh_addr. rewrite bind_unfold.
  set (s := fresh (dom (nodes st))). rewrite bind_unfold.
  unfold set_copy_ctor. rewrite bind_unfold. unfold size_, load_size.
  destruct (sizes st !! other) as [z|]; [|done]. rewrite bind_unfold.
  pose proof (set_ctor_size_fresh st s z Hreg (fresh_node_not_in _)) as H.
  destruct (set_ctor_size s z st) as [[] st1|st1|]; [|done..].
  pose proof (keeps_copy_body s other st1 H) as H'.
  by destruct (catch_rethrow _ _ st1).
Qed.

(** [set& operator=(const set& other)]: the copy is a local variable, whose
    destructor runs when the function returns. *)
Definition set_assign (this other : positive) : M unit :=
  if decide (this = other) then mret ()
  else
    copy ← new_set_from other;
    scoped (swap this copy) (set_dtor copy).

Lemma keeps_set_assign (x y : positive) : keeps registered registered (set_assign x y).
Proof.
  pose proof keeps_new_set_from. pose proof keeps_set_dtor.
  unfold set_assign. keeps_go.
Qed.

(** *** Every reachable state

    The calls a client can make on sets and iterators; the values they
    return are left out, since the client may use any address in a later
    call. *)
Inductive call :=
  | CallNewSet
  | CallNewSetFrom (other : positive)
  | CallSetAssign (this other : positive)
  | CallSetDtor (this : positive)
  | CallClear (this : positive)
  | CallInsert (this : positive) (val : Z)
  | CallErase (this pos : positive)
  | CallEraseValue (this : positive) (val : Z)
  | CallFind (this : positive) (val : Z)
  | CallLowerBound (this : positive) (val : Z)
  | CallUpperBound (this : positive) (val : Z)
  | CallBegin (this : positive)
  | CallEnd (this : positive)
  | CallSwap (lhs rhs : positive)
  | CallIterDefault
  | CallIterCopy (other : positive)
  | CallIterAssign (this other : positive)
  | CallIterDtor (this : positive)
  | CallIncr (this : positive)
  | CallDecr (this : positive)
  | CallPostIncr (this : positive)
  | CallPostDecr (this : positive)
  | CallIterSwap (lhs rhs : positive).

Definition perform (c : call) : M unit :=
  match c with
  | CallNewSet => new_set;; mret ()
  | CallNewSetFrom other => new_set_from other;; mret ()
  | CallSetAssign this other => set_assign this other
  | CallSetDtor this => set_dtor this
  | CallClear this => clear this
  | CallInsert this val => insert this val;; mret ()
  | CallErase this pos => erase this pos;; mret ()
  | CallEraseValue this val => erase_value this val;; mret ()
  | CallFind this val => find this val;; mret ()
  | CallLowerBound this val => lower_bound this val;; mret ()
  | CallUpperBound this val => upper_bound this val;; mret ()
  | CallBegin this => begin_ this;; mret ()
  | CallEnd this => end_ this;; mret ()
  | CallSwap lhs rhs => swap lhs rhs
  | CallIterDefault => s_iterator_default_ctor;; mret ()
  | CallIterCopy other => s_iterator_copy other;; mret ()
  | CallIterAssign this other => s_iterator_assign this other
  | CallIterDtor this => s_iterator_dtor this
  | CallIncr this => incr this
  | CallDecr this => decr this
  | CallPostIncr this => post_incr this;; mret ()
  | CallPostDecr this => post_decr this;; mret ()
  | CallIterSwap lhs rhs => swap_iterators lhs rhs
  end.

(** The states a client can reach from the initial state: by a call that
    returns, by a call that throws, and by the allocator deciding which of
    the next allocations fail. *)
Inductive reachable : state → Prop :=
  | reachable_init : reachable init_state
  | reachable_returns c st st' :
      reachable st → perform c st = Ok () st' → reachable st'
  | reachable_throws c st st' :
      reachable st → perform c st = Throw st' → reachable st'
  | reachable_oracle st o :
      reachable st → reachable (with_oracle st o).

Lemma keeps_perform c : keeps registered registered (perform c).
Proof.
  pose proof keeps_new_set. pose proof keeps_new_set_from.
  pose proof keeps_set_assign. pose proof keeps_set_dtor.
  pose proof keeps_post_incr. pose proof keeps_post_decr.
  pose proof keeps_swap_iterators.
  destruct c; simpl; keeps_go.
Qed.

Lemma registered_init : registered init_state.
Proof. split; apply map_Forall_empty. Qed.

(** X13.  In every state that a client can reach from the initial state
    by calls on sets and iterators, whether they return or throw and
    whichever allocations fail, the registry of iterators is consistent:
    no node lists an iterator twice, a node lists exactly the live
    iterators whose [node_] designates it, and the [node_] of every live
    iterator is null or designates a live node. *)
Theorem reachable_registered st : reachable st → registered st.
Proof.
  induction 1 as [|c st st' _ IH Hrun|c st st' _ IH Hrun|st o _ IH].
  - apply registered_init.
  - pose proof (keeps_perform c st IH) as H. by rewrite Hrun in H.
  - pose proof (keeps_perform c st IH) as H. by rewrite Hrun in H.
  - by eapply registered_same; [| |exact IH].
Qed.

Lemma reachable_registered_witness :
  registered
    (final_state (perform CallNewSet;; perform (CallInsert 1 5);;
                  perform (CallFind 1 5);; perform (CallErase 1 2))).
Proof.
  apply reachable_registered.
  eapply (reachable_returns (CallErase 1 2));
    [eapply (reachable_returns (CallFind 1 5));
       [eapply (reachable_returns (CallInsert 1 5));
          [eapply (reachable_returns CallNewSet);
             [apply reachable_init|vm_compute; reflexivity]
          |vm_compute; reflexivity]
       |vm_compute; reflexivity]
    |vm_compute; reflexivity].
Defined.

(** X14.  [swap] on two iterators that designate nodes exchanges their
    [container_] fields only: the loops over the two registries set the
    [node_] of each iterator back to the node it designated before, so
    both iterators still dereference to the same element as before; no
    other iterator and no node changes. *)
Theorem swap_iterators_spec st (x y a b : positive) (c d : ptr) :
  registered st → x ≠ y →
  iters st !! x = Some (mk_iterator (Some a) c) →
  iters st !! y = Some (mk_iterator (Some b) d) →
  ∃ st',
    swap_iterators x y st = Ok () st'
    ∧ nodes st' = nodes st
    ∧ iters st' = <[x := mk_iterator (Some a) d]> (<[y := mk_iterator (Some b) c]> (iters st))
    ∧ registered st'
    ∧ ∀ n v, nodes st !! a = Some n → value_ n = Some v → left n ≠ Some a →
             deref x st = Ok v st ∧ deref x st' = Ok v st'.
Proof.
  intros Hreg Hxy Hx Hy.
  destruct (swap_iterators_run st x y a b c d Hreg Hxy Hx Hy)
    as (st' & Hrun & Hn & Hs & Ho & Hi).
  exists st'. split_and!; [done..| |].
  - pose proof (keeps_swap_iterators x y st Hreg) as H. by rewrite Hrun in H.
  - intros n v Hna Hv Hl. split.
    + by eapply deref_run.
    + eapply (deref_run st' x _ a n v); [by rewrite Hi, lookup_insert_eq|done| |done..].
      by rewrite Hn.
Qed.

(** The set {1, 3, 5, 7} with iterators from [find(3)] and [find(7)]. *)
Definition set_1357_with_two : M positive := set_1357;; find 1 3;; find 1 7.

Lemma set_1357_with_two_registered : registered (final_state set_1357_with_two).
Proof. apply (bool_decide_unpack _). vm_compute. exact I. Qed.

Lemma swap_iterators_spec_witness :
  ∃ st',
    swap_iterators 1 2 (final_state set_1357_with_two) = Ok () st'
    ∧ nodes st' = nodes (final_state set_1357_with_two)
    ∧ iters st' = <[1%positive := mk_iterator (Some 3%positive) (Some 1%positive)]>
                    (<[2%positive := mk_iterator (Some 4%positive) (Some 1%positive)]>
                       (iters (final_state set_1357_with_two)))
    ∧ registered st'
    ∧ ∀ n v, nodes (final_state set_1357_with_two) !! 3%positive = Some n →
             value_ n = Some v → left n ≠ Some 3%positive →
             deref 1 (final_state set_1357_with_two) = Ok v (final_state set_1357_with_two)
             ∧ deref 1 st' = Ok v st'.
Proof.
  apply (swap_iterators_spec (final_state set_1357_with_two) 1 2 3 4
           (Some 1%positive) (Some 1%positive));
    [apply set_1357_with_two_registered|done|vm_compute; reflexivity..].
Defined.

(** X15.  [operator--] on an iterator of a non-empty set whose anchor has
    a null [parent] or is its own [parent]: from an element with a
    predecessor the iterator goes to the predecessor, and from the anchor
    (the position of [end()]) to the last element.  From the first element
    the outcome depends on the anchor: when its [parent] is null the
    iterator becomes singular and the second [base_assert] fails; when the
    anchor is its own [parent] the iterator ends on the anchor and no
    assertion fails. *)
Theorem decr_spec st s t i a c na :
  set_inv st s t → oracle st = [] →
  iters st !! i = Some (mk_iterator (Some a) c) →
  nodes st !! s = Some na → parent na = None ∨ parent na = Some s →
  a ∈ addrs t ∨ (a = s ∧ t ≠ Leaf) →
  match prev_in (addrs t ++ [s]) a with
  | Some b =>
      ∃ st', decr i st = Ok () st'
             ∧ iters st' = <[i := mk_iterator (Some b) c]> (iters st)
             ∧ frame st st'
  | None =>
      match parent na with
      | None => decr i st = Crash AssertFailed
      | Some _ =>
          ∃ st', decr i st = Ok () st'
                 ∧ iters st' = <[i := mk_iterator (Some s) c]> (iters st)
                 ∧ frame st st'
      end
  end.
Proof. apply decr_run. Qed.

Lemma decr_spec_witness :
  ∃ st',
    decr 1 (final_state set_1357_with_end) = Ok () st'
    ∧ iters st' = <[1%positive := mk_iterator (Some 4%positive) (Some 1%positive)]>
                    (iters (final_state set_1357_with_end))
    ∧ frame (final_state set_1357_with_end) st'.
Proof.
  apply (decr_spec (final_state set_1357_with_end) 1 tree_1357 1 1 (Some 1%positive)
           (mk_node (Some 2%positive) None None (mk_vector [1%positive] 1) None));
    [apply set_1357_with_end_inv|reflexivity|vm_compute; reflexivity
    |vm_compute; reflexivity|by left|by right].
Defined.

(** ** The parent of the anchor

    [insert] into an empty set sets the anchor's [parent] to null; no
    later [insert] changes it. *)

Definition anchor_parent_null (s : positive) : state → Prop :=
  λ st, oracle st = [] ∧ parent <$> nodes st !! s = Some None.

Lemma anchor_quiet s st st' : anchor_parent_null s st → quiet st st' → anchor_parent_null s st'.
Proof.
  intros [Ho Hp] (Hl & _ & Ho'). split; [auto|].
  pose proof (same_links_at _ _ s Hl) as E.
  destruct (nodes st' !! s), (nodes st !! s); simplify_eq/=. congruence.
Qed.

Section anchor.
Context (s : positive).
Local Notation I := (anchor_parent_null s).

Lemma anchor_modify a (f : sentinel_node → sentinel_node) :
  (∀ n, parent (f n) = parent n) → keeps I never (modify a f).
Proof.
  intros Hf st [Ho Hp]. unfold modify. rewrite bind_unfold. unfold load.
  destruct (nodes st !! a) as [n|] eqn:Hn; [|done]. unfold store. split; [done|]. sstate.
  destruct (decide (a = s)) as [->|Hne].
  - rewrite lookup_insert_eq. rewrite Hn in Hp. simpl in *. by rewrite Hf.
  - by rewrite lookup_insert_ne.
Qed.

Lemma anchor_set_left a p : keeps I never (set_left a p).
Proof. by apply anchor_modify. Qed.
Lemma anchor_set_right a p : keeps I never (set_right a p).
Proof. by apply anchor_modify. Qed.
Lemma anchor_put_root a p : keeps I never (put_root a p).
Proof. by apply anchor_modify. Qed.

Lemma anchor_set_parent_null a : keeps I never (set_parent a None).
Proof.
  intros st [Ho Hp]. unfold set_parent, modify. rewrite bind_unfold. unfold load.
  destruct (nodes st !! a) as [n|] eqn:Hn; [|done]. unfold store. split; [done|]. sstate.
  destruct (decide (a = s)) as [->|Hne].
  - by rewrite lookup_insert_eq.
  - by rewrite lookup_insert_ne.
Qed.

Lemma anchor_store_size a z : keeps I never (store_size a z).
Proof. by intros st H. Qed.

Lemma anchor_incr_size a : keeps I never (incr_size a).
Proof.
  unfold incr_size. apply keeps_bind; [auto with keeps|]. intros z. apply anchor_store_size.
Qed.

Lemma anchor_new_node (x y z : ptr) v : keeps I never (new_node x y z v).
Proof.
  intros st [Ho Hp]. unfold new_node. rewrite bind_unfold. unfold alloc_ok. rewrite Ho.
  unfold place_node. split; [done|]. sstate. rewrite lookup_insert_ne; [done|].
  intros E. rewrite <- E, fresh_node_not_in in Hp. done.
Qed.

Lemma anchor_default_ctor : keeps I never s_iterator_default_ctor.
Proof. by intros st H. Qed.

Lemma anchor_ctor p c : keeps I never (s_iterator_ctor p c).
Proof.
  intros st H. pose proof (s_iterator_ctor_cases st p c) as Hc.
  destruct (s_iterator_ctor p c st) as [q st'|st'|]; [| |done].
  - destruct Hc as (_ & _ & _ & _ & Hq). by eapply anchor_quiet.
  - destruct Hc as (_ & _ & _ & Ho). by destruct H.
Qed.

Lemma anchor_copy j : keeps I never (s_iterator_copy j).
Proof.
  intros st H. pose proof (s_iterator_copy_cases st j) as Hc.
  destruct (s_iterator_copy j st) as [q st'|st'|]; [| |done].
  - destruct Hc as (it & _ & _ & _ & _ & _ & Hq). by eapply anchor_quiet.
  - destruct Hc as (_ & _ & _ & Ho). by destruct H.
Qed.

Lemma anchor_dtor i : keeps I never (s_iterator_dtor i).
Proof.
  intros st H. pose proof (s_iterator_dtor_cases st i) as Hc.
  destruct (s_iterator_dtor i st) as [[] st'|st'|]; [|done..].
  destruct Hc as (it & _ & _ & _ & _ & Hq). by eapply anchor_quiet.
Qed.

Lemma anchor_move i p : keeps I never (move_to_another_node i p).
Proof.
  intros st H. pose proof (move_to_another_node_cases st i p) as Hc.
  destruct (move_to_another_node i p st) as [[] st'|st'|]; [| |done].
  - destruct Hc as (it & _ & _ & _ & _ & _ & Hq). by eapply anchor_quiet.
  - destruct Hc as (_ & _ & _ & Ho). by destruct H.
Qed.

Lemma anchor_set_container_ i c : keeps I never (set_container_ i c).
Proof.
  intros st H. unfold set_container_. rewrite bind_unfold. unfold load_iter.
  by destruct (iters st !! i).
Qed.

Hint Resolve anchor_set_left anchor_set_right anchor_put_root anchor_set_parent_null
  anchor_store_size anchor_incr_size anchor_new_node anchor_default_ctor anchor_ctor
  anchor_copy anchor_dtor anchor_move anchor_set_container_ : keeps.

Lemma anchor_assign i j : keeps I never (s_iterator_assign i j).
Proof. unfold s_iterator_assign. keeps_go. Qed.

Hint Resolve anchor_assign : keeps.

Lemma anchor_insert this v : keeps I never (insert this v).
Proof. unfold insert, pair_of_temporary. keeps_go. Qed.

Lemma anchor_insert_stmt this v : keeps I never (insert_stmt this v).
Proof. unfold insert_stmt. pose proof anchor_insert. keeps_go. Qed.

Lemma anchor_insert_all this vs : keeps I never (insert_all this vs).
Proof.
  induction vs as [|v vs IH]; simpl; [auto with keeps|].
  apply keeps_bind; [apply anchor_insert_stmt|done].
Qed.

End anchor.

Lemma insert_empty_anchor st s v (ret : positive * bool) st' :
  set_inv st s Leaf → oracle st = [] → insert s v st = Ok ret st' →
  anchor_parent_null s st'.
Proof.
  intros (n & Hn & Hval & Hright & Hsz & _) Ho Hrun.
  set (a := fresh (dom (nodes st))).
  assert (a ≠ s) as Has by (apply not_eq_sym; by eapply lookup_fresh_ne).
  unfold insert in Hrun. rewrite (bind_ok _ _ _ _ _ (empty_run _ _ _ Hsz)) in Hrun.
  simpl in Hrun.
  rewrite (bind_ok _ _ _ _ _ (new_node_run _ _ _ _ _ Ho)) in Hrun. fold a in Hrun.
  set (st1 := with_nodes st _) in Hrun.
  assert (nodes st1 !! s = Some n) as Hn1.
  { unfold st1. sstate. by rewrite lookup_insert_ne. }
  unfold put_root in Hrun. rewrite (bind_ok _ _ _ _ _ (set_left_run _ _ _ _ Hn1)) in Hrun.
  set (st2 := with_nodes st1 _) in Hrun.
  rewrite (bind_ok _ _ _ _ _ (incr_size_run st2 _ _ Hsz)) in Hrun.
  set (st3 := with_sizes st2 _) in Hrun.
  assert (nodes st3 !! s = Some (with_left n (Some a))) as Hn3.
  { unfold st3, st2. sstate. by rewrite lookup_insert_eq. }
  rewrite (bind_ok _ _ _ _ _ (set_parent_run _ _ _ _ Hn3)) in Hrun.
  set (st4 := with_nodes st3 _) in Hrun.
  assert (anchor_parent_null s st4) as H4.
  { split; [done|]. unfold st4. sstate. by rewrite lookup_insert_eq. }
  assert (keeps (anchor_parent_null s) never
            (catch_rethrow
               (x ← take_root s; pair_of_temporary (s_iterator_ctor x (Some s)) true)
               (clear s))) as Hk.
  { unfold pair_of_temporary. pose proof (anchor_ctor s). pose proof (anchor_copy s).
    pose proof (anchor_dtor s). keeps_go. }
  specialize (Hk st4 H4). by rewrite Hrun in Hk.
Qed.

Lemma prev_in_head (xs : list positive) m :
  NoDup xs → head xs = Some m → prev_in xs m = None.
Proof.
  unfold prev_in. destruct xs as [|x xs]; [done|]. intros Hnd [= ->].
  apply NoDup_cons in Hnd as [Hm _]. rewrite reverse_cons.
  rewrite next_in_app_r by (by rewrite elem_of_reverse). simpl.
  by rewrite decide_True.
Qed.

(** X16.  In a set that was empty and has been filled by one or more
    calls of [insert], decrementing the iterator from [begin()] fails the
    assertion of [base_assert]: the iterator has become singular. *)
Theorem decr_begin_asserts st s vs :
  set_inv st s Leaf → oracle st = [] → vs ≠ [] →
  Z.of_nat (length vs) < size_max →
  ∃ st1 b st2,
    insert_all s vs st = Ok () st1
    ∧ begin_ s st1 = Ok b st2
    ∧ decr b st2 = Crash AssertFailed.
Proof.
  intros Hinv Ho Hvs Hb. destruct vs as [|v vs]; [done|]. clear Hvs. simpl in Hb.
  destruct (insert_stmt_spec st s Leaf v Hinv Ho ltac:(simpl; lia))
    as (st0 & t0 & Hrun0 & Hinv0 & Ho0 & Hit0 & Hval0 & Hcount0).
  assert (anchor_parent_null s st0) as Ha0.
  { unfold insert_stmt in Hrun0. rewrite bind_unfold in Hrun0.
    destruct (insert s v st) as [ret st'| |] eqn:Hins; [|done..].
    pose proof (insert_empty_anchor _ _ _ _ _ Hinv Ho Hins) as H'.
    pose proof (anchor_dtor s ret.1 st' H') as H''. by rewrite Hrun0 in H''. }
  destruct (insert_all_spec vs st0 s t0 Hinv0 Ho0 ltac:(simpl in Hcount0; lia))
    as (st1 & t1 & Hrun1 & Hinv1 & Ho1 & Hit1 & Hval1).
  assert (anchor_parent_null s st1) as Ha1.
  { pose proof (anchor_insert_all s s vs st0 Ha0) as H'. by rewrite Hrun1 in H'. }
  destruct (begin_spec _ _ _ Hinv1 Ho1) as (b & st2 & Hrun2 & Hfresh & Hit2 & Hfr2).
  exists st1, b, st2. split_and!; [|done|].
  { simpl. by rewrite (bind_ok _ _ _ _ _ Hrun0). }
  pose proof (set_inv_frame _ _ _ _ Hfr2 Hinv1) as Hinv2.
  assert (t1 ≠ Leaf) as Hne.
  { intros ->. assert (v ∈ values Leaf) as Hv by (apply Hval1; right; apply Hval0; by left).
    by apply elem_of_nil in Hv. }
  destruct t1 as [|l x w r]; [done|].
  pose proof Hinv2 as (na & Hna & _ & _ & _ & _ & _ & _ & Hnd & _).
  assert (parent na = None) as Hpar.
  { destruct Ha1 as [_ Hp]. destruct Hfr2 as (Hl & _).
    pose proof (same_links_at _ _ s Hl) as E. rewrite Hna in E.
    destruct (nodes st1 !! s); simplify_eq/=. congruence. }
  pose proof (set_inv_anchor_not_in _ _ _ Hinv2) as Hs.
  pose proof (decr_run st2 s (Node l x w r) b (tmin l x) (Some s) na Hinv2
                ltac:(destruct Hfr2 as (_ & _ & ->); done)
                ltac:(rewrite Hit2, head_addrs; apply lookup_insert_eq)
                Hna ltac:(by left) ltac:(left; apply tmin_in)) as Hd.
  assert (prev_in (addrs (Node l x w r) ++ [s]) (tmin l x) = None) as Hprev.
  { apply prev_in_head.
    - apply NoDup_app. split_and!; [done| |apply NoDup_singleton].
      by intros y Hy ->%list_elem_of_singleton.
    - pose proof (head_addrs l x w r) as Hh.
      destruct (addrs (Node l x w r)); simplify_eq/=. done. }
  by rewrite Hprev, Hpar in Hd.
Qed.

Lemma decr_begin_asserts_witness :
  ∃ st1 b st2,
    insert_all 1 [5; 3; 7; 1] (final_state empty_set) = Ok () st1
    ∧ begin_ 1 st1 = Ok b st2
    ∧ decr b st2 = Crash AssertFailed.
Proof.
  apply (decr_begin_asserts (final_state empty_set) 1 [5; 3; 7; 1]);
    [apply empty_set_inv|reflexivity|done|vm_compute; reflexivity].
Defined.

(** ** Copying a set *)

Fixpoint same_shape (t t' : tree) : Prop :=
  match t, t' with
  | Leaf, Leaf => True
  | Node l _ v r, Node l' _ v' r' => v = v' ∧ same_shape l l' ∧ same_shape r r'
  | _, _ => False
  end.

Lemma same_shape_values t : ∀ t', same_shape t t' → values t' = values t.
Proof.
  induction t as [|l IHl a v r IHr]; intros [|l' a' v' r']; try done.
  intros (-> & Hl & Hr). by rewrite !values_node, (IHl _ Hl), (IHr _ Hr).
Qed.

Lemma same_shape_count t t' : same_shape t t' → count t' = count t.
Proof.
  intros H. by rewrite <- !values_length, (same_shape_values _ _ H).
Qed.

Lemma same_shape_bst t t' : same_shape t t' → bst t → bst t'.
Proof.
  intros H Hb. apply sorted_bst. rewrite (same_shape_values _ _ H). by apply bst_sorted.
Qed.

Lemma same_shape_leaf t t' : same_shape t t' → t ≠ Leaf → t' ≠ Leaf.
Proof. by destruct t, t'. Qed.

(** The state after [copy_tree] has copied [t] into the new tree [t']. *)
Definition copied st st' t t' : Prop :=
  same_shape t t' ∧ rep (nodes st') None t' ∧ NoDup (addrs t')
  ∧ (∀ b, b ∈ addrs t' → nodes st !! b = None)
  ∧ (∀ b, b ∉ addrs t' → nodes st' !! b = nodes st !! b)
  ∧ iters st' = iters st ∧ sizes st' = sizes st ∧ oracle st' = [].

(** The state after the copy [t'] has been made a child of the node [a]. *)
Definition adopted st st' (a : positive) (upd : sentinel_node → ptr → sentinel_node)
    t t' : Prop :=
  same_shape t t' ∧ rep (nodes st') (Some a) t' ∧ NoDup (addrs t') ∧ (a ∉ addrs t')
  ∧ (∀ b, b ∈ addrs t' → nodes st !! b = None)
  ∧ (∀ b, b ≠ a → b ∉ addrs t' → nodes st' !! b = nodes st !! b)
  ∧ (t ≠ Leaf → nodes st' !! a = (λ n, upd n (root t')) <$> nodes st !! a)
  ∧ (t = Leaf → nodes st' !! a = nodes st !! a)
  ∧ iters st' = iters st ∧ sizes st' = sizes st ∧ oracle st' = [].

Lemma adopt_run st a na c (setf : positive → ptr → M unit) (getf : positive → M ptr)
    (upd : sentinel_node → ptr → sentinel_node) :
  (∀ st n p, nodes st !! a = Some n →
     setf a p st = Ok () (with_nodes st (<[a := upd n p]> (nodes st)))) →
  (∀ st n p, nodes st !! a = Some (upd n p) → getf a st = Ok p st) →
  nodes st !! a = Some na → rep (nodes st) None c → NoDup (addrs c) →
  a ∉ addrs c → c ≠ Leaf →
  ∃ st',
    (setf a (root c);; x ← getf a; x' ← nonnull x; set_parent x' (Some a)) st
    = Ok () st'
    ∧ nodes st' !! a = Some (upd na (root c))
    ∧ rep (nodes st') (Some a) c
    ∧ (∀ b, b ≠ a → b ∉ addrs c → nodes st' !! b = nodes st !! b)
    ∧ iters st' = iters st ∧ sizes st' = sizes st ∧ oracle st' = oracle st.
Proof.
  intros Hset Hget Hna Hrep Hnd Ha Hne.
  destruct c as [|cl x cv cr]; [done|]. clear Hne. cbn [root].
  assert (x ≠ a) as Hxa by (intros ->; apply Ha, in_addrs_node; auto).
  pose proof Hrep as Hrep0. rep_inv Hrep.
  rewrite (bind_ok _ _ _ _ _ (Hset st na (Some x) Hna)).
  set (st1 := with_nodes st _).
  assert (nodes st1 !! a = Some (upd na (Some x))) as Ha1 by apply lookup_insert_eq.
  rewrite (bind_ok _ _ _ _ _ (Hget st1 na (Some x) Ha1)). simpl.
  rewrite bind_unfold, ret_unfold.
  assert (nodes st1 !! x = Some n) as Hx1.
  { unfold st1. sstate. by rewrite lookup_insert_ne. }
  rewrite (set_parent_run _ _ _ _ Hx1).
  set (h2 := <[x := with_parent n (Some a)]> (nodes st1)).
  assert (rep h2 (Some a) (Node cl x cv cr)) as Hrep2.
  { eapply (rep_reparent (nodes st) _ None (Some a)); [exact Hrep0| | |done].
    - intros b Hb Hr. cbn [root] in Hr. unfold h2, st1. sstate.
      rewrite !lookup_insert_ne; [done| |congruence].
      intros <-. done.
    - intros b nb [= <-] Hnb. unfold h2. rewrite lookup_insert_eq. by simplify_eq. }
  exists (with_nodes st1 h2). split; [done|]. split; [|split; [exact Hrep2|split]].
  - unfold h2. cbn [nodes with_nodes]. by rewrite lookup_insert_ne, Ha1.
  - intros b Hba Hb. unfold h2, st1. cbn [nodes with_nodes].
    rewrite !lookup_insert_ne; [done|by apply not_eq_sym|].
    intros <-. apply Hb, in_addrs_node. auto.
  - done.
Qed.

Lemma set_left_upd a st n p :
  nodes st !! a = Some n →
  set_left a p st = Ok () (with_nodes st (<[a := with_left n p]> (nodes st))).
Proof. apply set_left_run. Qed.

Lemma get_left_upd a st n p :
  nodes st !! a = Some (with_left n p) → get_left a st = Ok p st.
Proof. intros H. by rewrite (get_left_run _ _ _ H). Qed.

Lemma set_right_upd a st n p :
  nodes st !! a = Some n →
  set_right a p st = Ok () (with_nodes st (<[a := with_right n p]> (nodes st))).
Proof. apply set_right_run. Qed.

Lemma get_right_upd a st n p :
  nodes st !! a = Some (with_right n p) → get_right a st = Ok p st.
Proof. intros H. by rewrite (get_right_run _ _ _ H). Qed.

(** One of the two [if] statements of [copy_tree]. *)
Lemma copy_child_run fuel st a na t
    (setf : positive → ptr → M unit) (getf : positive → M ptr)
    (upd : sentinel_node → ptr → sentinel_node) :
  (∀ st n p, nodes st !! a = Some n →
     setf a p st = Ok () (with_nodes st (<[a := upd n p]> (nodes st)))) →
  (∀ st n p, nodes st !! a = Some (upd n p) → getf a st = Ok p st) →
  (t ≠ Leaf →
   ∃ st' t', copy_tree fuel (root t) st = Ok (root t') st' ∧ copied st st' t t') →
  nodes st !! a = Some na → oracle st = [] →
  ∃ st' t',
    match root t with
    | Some _ =>
        c ← copy_tree fuel (root t);
        setf a c;;
        x ← getf a;
        x' ← nonnull x;
        set_parent x' (Some a)
    | None => mret ()
    end st = Ok () st'
    ∧ adopted st st' a upd t t'.
Proof.
  intros Hset Hget IH Hna Ho. destruct t as [|l o v r].
  { exists st, Leaf. split; [done|]. unfold adopted.
    split_and!; try done; try apply NoDup_nil_2;
      [by intros ?%elem_of_nil|by intros ? ?%elem_of_nil]. }
  destruct (IH ltac:(done))
    as (st2 & t2 & Hrun2 & Hsh2 & Hrep2 & Hnd2 & Hfresh2 & Hout2 & Hi2 & Hs2 & Ho2).
  assert (a ∉ addrs t2) as Hat.
  { intros Hin. specialize (Hfresh2 a Hin). congruence. }
  assert (nodes st2 !! a = Some na) as Hna2 by (by rewrite Hout2).
  destruct (adopt_run st2 a na t2 setf getf upd Hset Hget Hna2 Hrep2 Hnd2 Hat
              (same_shape_leaf _ _ Hsh2 ltac:(done)))
    as (st3 & Hrun3 & Hna3 & Hrep3 & Hout3 & Hi3 & Hs3 & Ho3).
  exists st3, t2. split.
  { cbn [root]. cbn [root] in Hrun2. by rewrite (bind_ok _ _ _ _ _ Hrun2). }
  unfold adopted. split_and!; try done; try congruence.
  - intros b Hba Hb. by rewrite Hout3, Hout2.
  - intros _. by rewrite Hna3, Hna.
Qed.

Lemma copy_tree_spec t : ∀ st par fuel,
  rep (nodes st) par t → oracle st = [] → (count t < fuel)%nat →
  ∃ st' t', copy_tree fuel (root t) st = Ok (root t') st' ∧ copied st st' t t'.
Proof.
  induction t as [|l IHl o v r IHr]; intros st par fuel Hrep Ho Hfuel.
  { exists st, Leaf. split; [by destruct fuel|]. unfold copied.
    split_and!; try done; try apply NoDup_nil_2. by intros ? ?%elem_of_nil. }
  pose proof Hrep as Hrep0. rep_inv Hrep. destruct fuel as [|f]; [lia|]. simpl in Hfuel.
  set (a := fresh (dom (nodes st))).
  assert (nodes st !! a = None) as Hafresh by apply fresh_node_not_in.
  set (N0 := mk_node None None None empty_vector (Some v)).
  set (st1 := with_nodes st (<[a := N0]> (nodes st))).
  assert (∀ b, is_Some (nodes st !! b) → nodes st1 !! b = nodes st !! b) as Hst1.
  { intros b [nb Hb]. unfold st1. sstate. rewrite lookup_insert_ne; [done|].
    intros <-. congruence. }
  assert (oracle st1 = []) as Ho1 by done.
  (* the left subtree *)
  assert (rep (nodes st1) (Some o) l) as Hrepl1.
  { eapply rep_frame; [|exact Hrepl]. intros b Hb.
    by rewrite (Hst1 b (rep_in_dom _ _ _ _ Hrepl Hb)). }
  destruct (copy_child_run f st1 a N0 l set_left get_left with_left
              (set_left_upd a) (get_left_upd a)
              (λ _, IHl st1 (Some o) f Hrepl1 Ho1 ltac:(lia))
              (lookup_insert_eq _ _ _) Ho1)
    as (stL & l' & HrunL & HshL & HrepL & HndL & HaL & HfreshL & HoutL & HnaL & HnaL'
        & HiL & HsL & HoL).
  assert (∀ b, is_Some (nodes st !! b) → nodes stL !! b = nodes st !! b) as HstL.
  { intros b Hb. rewrite <- (Hst1 b Hb). apply HoutL.
    - intros ->. destruct Hb. congruence.
    - intros Hin. specialize (HfreshL b Hin). rewrite (Hst1 b Hb) in HfreshL.
      destruct Hb. congruence. }
  assert (∃ naL, nodes stL !! a = Some naL
                 ∧ lnk naL = (root l', None, None, Some v)) as (naL & HaL' & HlnkL).
  { assert (l = Leaf ∨ l ≠ Leaf) as [->|Hl] by (destruct l; [by left|by right]).
    - exists N0. rewrite (HnaL' eq_refl). unfold st1. sstate. rewrite lookup_insert_eq.
      destruct l'; done.
    - exists (with_left N0 (root l')). rewrite (HnaL Hl). unfold st1. sstate.
      by rewrite lookup_insert_eq. }
  (* the right subtree *)
  assert (rep (nodes stL) (Some o) r) as HreprL.
  { eapply rep_frame; [|exact Hrepr]. intros b Hb.
    by rewrite (HstL b (rep_in_dom _ _ _ _ Hrepr Hb)). }
  destruct (copy_child_run f stL a naL r set_right get_right with_right
              (set_right_upd a) (get_right_upd a)
              (λ _, IHr stL (Some o) f HreprL HoL ltac:(lia)) HaL' HoL)
    as (stR & r' & HrunR & HshR & HrepR & HndR & HaR & HfreshR & HoutR & HnaR & HnaR'
        & HiR & HsR & HoR).
  assert (∃ naR, nodes stR !! a = Some naR
                 ∧ lnk naR = (root l', root r', None, Some v)) as (naR & HaR' & HlnkR).
  { injection HlnkL as El Er Ep Ev.
    assert (r = Leaf ∨ r ≠ Leaf) as [->|Hr] by (destruct r; [by left|by right]).
    - exists naL. rewrite (HnaR' eq_refl). split; [done|]. unfold lnk.
      rewrite El, Er, Ep, Ev. by destruct r'.
    - exists (with_right naL (root r')). rewrite (HnaR Hr), HaL'. split; [done|].
      unfold lnk. sstate. by rewrite El, Ep, Ev. }
  assert (∀ b, b ∈ addrs l' → b ∉ addrs r') as Hdisj.
  { intros b Hl Hr. specialize (HfreshR b Hr).
    destruct (rep_in_dom _ _ _ _ HrepL Hl). congruence. }
  exists stR, (Node l' a v r'). split.
  - cbn [root copy_tree].
    rewrite (bind_ok _ _ _ _ _ (get_value_run _ _ _ _ Hn Hvalue)).
    rewrite (bind_ok _ _ _ _ _ (catch_rethrow_ok _ _ _ _ _ (new_node_run _ _ _ _ _ Ho))).
    fold a N0 st1.
    assert (nodes st1 !! o = Some n) as Hn1 by (rewrite Hst1; [done|by eexists]).
    assert (nodes stL !! o = Some n) as HnL by (rewrite HstL; [done|by eexists]).
    erewrite bind_ok; [done|]. apply catch_rethrow_ok.
    rewrite (bind_ok _ _ _ _ _ (get_left_run _ _ _ Hn1)), Hleft.
    rewrite (bind_ok _ _ _ _ _ HrunL).
    rewrite (bind_ok _ _ _ _ _ (get_right_run _ _ _ HnL)), Hright.
    exact HrunR.
  - unfold copied. split; [done|]. split; [|split; [|split; [|split]]].
    + cbn [rep]. split; [by rewrite HaR', <- HlnkR|]. split; [|done].
      eapply rep_frame; [|exact HrepL]. intros b Hb. rewrite HoutR; [done| |by apply Hdisj].
      intros ->. done.
    + rewrite addrs_node. apply NoDup_app. split_and!; [done| |].
      * intros b Hb [->|Hb']%elem_of_cons; [done|]. by apply (Hdisj b).
      * by apply NoDup_cons.
    + intros b [Hb|[->|Hb]]%in_addrs_node; [|done|].
      * specialize (HfreshL b Hb). unfold st1 in HfreshL. sstate.
        rewrite lookup_insert_ne in HfreshL; [done|]. intros <-. done.
      * specialize (HfreshR b Hb).
        rewrite HoutL in HfreshR.
        -- unfold st1 in HfreshR. sstate.
           rewrite lookup_insert_ne in HfreshR; [done|]. intros <-. done.
        -- intros ->. done.
        -- intros Hl. by apply (Hdisj b).
    + intros b Hb. rewrite in_addrs_node in Hb.
      rewrite HoutR, HoutL by tauto. unfold st1. sstate.
      rewrite lookup_insert_ne; [done|]. intros <-. tauto.
    + split_and!; [by rewrite HiR, HiL|by rewrite HsR, HsL|done].
Qed.

Lemma set_inv_intro st s t n :
  nodes st !! s = Some n → value_ n = None → right n = None →
  sizes st !! s = Some (Z.of_nat (count t)) → Z.of_nat (count t) < size_max →
  (t ≠ Leaf → left n = root t) → rep (nodes st) (Some s) t → NoDup (addrs t) → bst t →
  set_inv st s t.
Proof. intros. by exists n. Qed.

Lemma set_copy_ctor_run st s t this :
  set_inv st s t → oracle st = [] → nodes st !! this = None →
  ∃ st' t',
    set_copy_ctor this s st = Ok () st'
    ∧ set_inv st' this t' ∧ set_inv st' s t ∧ same_shape t t'
    ∧ (∀ b, b ∈ addrs t' → nodes st !! b = None) ∧ (this ∉ addrs t')
    ∧ (∀ b, b ≠ this → b ∉ addrs t' → nodes st' !! b = nodes st !! b)
    ∧ parent <$> nodes st' !! this = Some (Some this)
    ∧ iters st' = iters st ∧ oracle st' = []
    ∧ sizes st' = <[this := Z.of_nat (count t)]> (sizes st).
Proof.
  intros Hinv Ho Hthis.
  pose proof (set_inv_anchor_not_in _ _ _ Hinv) as Hs.
  pose proof Hinv as (n & Hn & Hval & Hright & Hsz & Hbound & Hroot & Hrep & Hnd & Hbst).
  assert (this ≠ s) as Hts by (intros ->; congruence).
  assert (this ∉ addrs t) as Htt.
  { intros Hin. destruct (rep_in_dom _ _ _ _ Hrep Hin). congruence. }
  unfold set_copy_ctor, size_. rewrite (bind_ok _ _ _ _ _ (load_size_run _ _ _ Hsz)).
  rewrite (bind_ok _ _ _ _ _ (set_ctor_size_run _ _ _)).
  set (N := mk_node (Some this) None (Some this) empty_vector None).
  set (stA := mk_state _ _ _ _).
  assert (nodes stA !! this = Some N) as HthisA by apply lookup_insert_eq.
  assert (∀ b, b ≠ this → nodes stA !! b = nodes st !! b) as HoutA.
  { intros b Hb. unfold stA. sstate. by rewrite lookup_insert_ne. }
  assert (sizes stA !! s = Some (Z.of_nat (count t))) as HszA.
  { unfold stA. sstate. by rewrite lookup_insert_ne. }
  assert (rep (nodes stA) (Some s) t) as HrepA.
  { eapply rep_frame; [|exact Hrep]. intros b Hb. rewrite HoutA; [done|].
    intros ->. done. }
  destruct (Z.eqb_spec (Z.of_nat (count t)) 0) as [Hz|Hz].
  { assert (t = Leaf) as -> by (apply count_zero; lia).
    exists stA, Leaf. split.
    { apply catch_rethrow_ok, catch_rethrow_ok.
      rewrite (bind_ok _ _ _ _ _ (empty_run _ _ _ HszA)). by rewrite Hz. }
    split_and!; try done.
    - apply (set_inv_intro _ _ _ N); try done.
      unfold stA. sstate. by rewrite lookup_insert_eq.
    - apply (set_inv_intro _ _ _ n); try done. by rewrite HoutA.
    - by intros ? ?%elem_of_nil.
    - intros b Hb _. by apply HoutA.
    - by rewrite HthisA. }
  assert (t ≠ Leaf) as Hne by (intros ->; simpl in Hz; lia).
  assert (nodes stA !! s = Some n) as HnA by (by rewrite HoutA).
  assert (count t < S (size (nodes stA)))%nat as Hfuel.
  { pose proof (count_le_size _ _ _ HrepA Hnd). lia. }
  destruct (copy_tree_spec t stA (Some s) _ HrepA Ho Hfuel)
    as (stB & t' & HrunB & HshB & HrepB & HndB & HfreshB & HoutB & HiB & HsB & HoB).
  assert (this ∉ addrs t') as Htt'.
  { intros Hin. specialize (HfreshB this Hin). congruence. }
  assert (nodes stB !! this = Some N) as HthisB by (by rewrite HoutB).
  destruct (adopt_run stB this N t' set_left get_left with_left
              (set_left_upd this) (get_left_upd this) HthisB HrepB HndB Htt'
              (same_shape_leaf _ _ HshB Hne))
    as (stC & HrunC & HthisC & HrepC & HoutC & HiC & HsC & HoC).
  assert (∀ b, b ≠ this → b ∉ addrs t' → nodes stC !! b = nodes st !! b) as Hout.
  { intros b Hb Hb'. by rewrite HoutC, HoutB, HoutA. }
  assert (∀ b, b ∈ addrs t' → nodes st !! b = None) as Hfresh.
  { intros b Hb. specialize (HfreshB b Hb). rewrite HoutA in HfreshB; [done|].
    intros ->. done. }
  assert (s ∉ addrs t') as Hst'.
  { intros Hin. specialize (Hfresh s Hin). congruence. }
  exists stC, t'. split.
  { apply catch_rethrow_ok, catch_rethrow_ok.
    rewrite (bind_ok _ _ _ _ _ (empty_run _ _ _ HszA)).
    rewrite (proj2 (Z.eqb_neq _ _) Hz).
    unfold take_root at 1. rewrite (bind_ok _ _ _ _ _ (get_left_run _ _ _ HnA)).
    rewrite (bind_ok _ _ _ _ _ (heap_fuel_run _)). rewrite (Hroot Hne).
    rewrite (bind_ok _ _ _ _ _ HrunB). exact HrunC. }
  split_and!; try done.
  - apply (set_inv_intro _ _ _ (with_left N (root t'))); try done.
    + rewrite HsC, HsB. unfold stA. sstate.
      by rewrite lookup_insert_eq, (same_shape_count _ _ HshB).
    + by rewrite (same_shape_count _ _ HshB).
    + by eapply same_shape_bst.
  - apply (set_inv_intro _ _ _ n); try done.
    + by rewrite Hout.
    + by rewrite HsC, HsB.
    + eapply rep_frame; [|exact Hrep]. intros b Hb. rewrite Hout; [done| |].
      * intros ->. done.
      * intros Hin. specialize (Hfresh b Hin).
        destruct (rep_in_dom _ _ _ _ Hrep Hb). congruence.
  - by rewrite HthisC.
  - by rewrite HiC, HiB.
  - by rewrite HoC.
  - by rewrite HsC, HsB.
Qed.

Lemma new_set_from_run st s t :
  set_inv st s t → oracle st = [] →
  ∃ c st' t',
    new_set_from s st = Ok c st'
    ∧ c = fresh (dom (nodes st))
    ∧ set_inv st' c t' ∧ set_inv st' s t ∧ same_shape t t'
    ∧ (∀ b, b ∈ addrs t' → nodes st !! b = None) ∧ (c ∉ addrs t')
    ∧ (∀ b, b ≠ c → b ∉ addrs t' → nodes st' !! b = nodes st !! b)
    ∧ parent <$> nodes st' !! c = Some (Some c)
    ∧ iters st' = iters st ∧ oracle st' = []
    ∧ sizes st' = <[c := Z.of_nat (count t)]> (sizes st).
Proof.
  intros Hinv Ho.
  destruct (set_copy_ctor_run st s t (fresh (dom (nodes st))) Hinv Ho
              (fresh_node_not_in _)) as (st' & t' & Hrun & H).
  exists (fresh (dom (nodes st))), st', t'. split; [|done].
  unfold new_set_from, fresh_addr. rewrite bind_unfold.
  by rewrite (bind_ok _ _ _ _ _ Hrun).
Qed.

(** X17.  The copy constructor builds, in new nodes, a set with the
    elements of the source: iterating the copy returns the same sequence
    and [size()] is the same; the source, every existing node and every
    iterator are left as they were. *)
Theorem copy_ctor_spec st s t :
  set_inv st s t → oracle st = [] →
  ∃ c st',
    new_set_from s st = Ok c st'
    ∧ nodes st !! c = None
    ∧ (∃ st'', to_list c st' = Ok (values t) st'')
    ∧ size_ c st' = Ok (Z.of_nat (count t)) st'
    ∧ set_inv st' s t
    ∧ (∀ b, is_Some (nodes st !! b) → nodes st' !! b = nodes st !! b)
    ∧ iters st' = iters st.
Proof.
  intros Hinv Ho.
  destruct (new_set_from_run st s t Hinv Ho)
    as (c & st' & t' & Hrun & -> & Hinvc & Hinvs & Hsh & Hfresh & Hc & Hout & Hpar
        & Hi & Ho' & Hsz).
  eexists _, st'. split_and!; [done|apply fresh_node_not_in| | |done| |done].
  - destruct (to_list_spec _ _ _ Hinvc Ho') as (st'' & Hl & _).
    exists st''. by rewrite Hl, (same_shape_values _ _ Hsh).
  - unfold size_. apply load_size_run. by rewrite Hsz, lookup_insert_eq.
  - intros b [nb Hb]. apply Hout.
    + intros ->. by rewrite fresh_node_not_in in Hb.
    + intros Hin. specialize (Hfresh b Hin). congruence.
Qed.

Lemma copy_ctor_spec_witness :
  ∃ c st',
    new_set_from 1 (final_state set_1357) = Ok c st'
    ∧ nodes (final_state set_1357) !! c = None
    ∧ (∃ st'', to_list c st' = Ok (values tree_1357) st'')
    ∧ size_ c st' = Ok (Z.of_nat (count tree_1357)) st'
    ∧ set_inv st' 1 tree_1357
    ∧ (∀ b, is_Some (nodes (final_state set_1357) !! b)
            → nodes st' !! b = nodes (final_state set_1357) !! b)
    ∧ iters st' = iters (final_state set_1357).
Proof.
  apply (copy_ctor_spec (final_state set_1357) 1 tree_1357);
    [apply set_1357_inv|reflexivity].
Defined.

(** X18.  In a set made by the copy constructor from a non-empty set,
    decrementing the iterator from [begin()] fails no assertion: the
    anchor of the copy is its own [parent], the iterator ends on the
    anchor and compares equal to [end()]. *)
Theorem decr_begin_in_copy st s t :
  set_inv st s t → oracle st = [] → t ≠ Leaf →
  ∃ c st0 b st1 st2 e st3,
    new_set_from s st = Ok c st0
    ∧ begin_ c st0 = Ok b st1
    ∧ decr b st1 = Ok () st2
    ∧ end_ c st2 = Ok e st3
    ∧ iter_eq b e st3 = Ok true st3.
Proof.
  intros Hinv Ho Hne.
  destruct (new_set_from_run st s t Hinv Ho)
    as (c & st0 & t' & Hrun0 & _ & Hinvc & _ & Hsh & _ & _ & _ & Hpar & _ & Ho0 & _).
  destruct (begin_spec _ _ _ Hinvc Ho0) as (b & st1 & Hrun1 & Hfresh1 & Hit1 & Hfr1).
  pose proof (set_inv_frame _ _ _ _ Hfr1 Hinvc) as Hinv1.
  assert (oracle st1 = []) as Ho1 by (destruct Hfr1 as (_ & _ & ->); done).
  pose proof (same_shape_leaf _ _ Hsh Hne) as Hne'.
  destruct t' as [|l x w r]; [done|].
  pose proof Hinv1 as (na & Hna & _ & _ & _ & _ & _ & _ & Hnd & _).
  assert (parent na = Some c) as Hpar1.
  { destruct Hfr1 as (Hl & _). pose proof (same_links_at _ _ c Hl) as E.
    rewrite Hna in E. destruct (nodes st0 !! c); simplify_eq/=. congruence. }
  pose proof (set_inv_anchor_not_in _ _ _ Hinv1) as Hs.
  pose proof (decr_run st1 c (Node l x w r) b (tmin l x) (Some c) na Hinv1 Ho1
                ltac:(rewrite Hit1, head_addrs; apply lookup_insert_eq)
                Hna ltac:(by right) ltac:(left; apply tmin_in)) as Hd.
  assert (prev_in (addrs (Node l x w r) ++ [c]) (tmin l x) = None) as Hprev.
  { apply prev_in_head.
    - apply NoDup_app. split_and!; [done| |apply NoDup_singleton].
      by intros y Hy ->%list_elem_of_singleton.
    - pose proof (head_addrs l x w r) as Hh.
      destruct (addrs (Node l x w r)); simplify_eq/=. done. }
  rewrite Hprev, Hpar1 in Hd. destruct Hd as (st2 & Hrun2 & Hit2 & Hfr2).
  assert (oracle st2 = []) as Ho2 by (destruct Hfr2 as (_ & _ & ->); done).
  destruct (s_iterator_ctor_frame st2 (Some c) (Some c)
              (frame_valid _ _ (Some c) Hfr2 ltac:(by eexists)) Ho2)
    as (e & st3 & Hrun3 & He & Hit3 & Hfr3).
  assert (e ≠ b) as Heb by (intros ->; by rewrite Hit2, lookup_insert_eq in He).
  exists c, st0, b, st1, st2, e, st3. split_and!; [done..|].
  rewrite (iter_eq_run st3 b e (mk_iterator (Some c) (Some c))
             (mk_iterator (Some c) (Some c)));
    [by rewrite bool_decide_eq_true_2
    |by rewrite Hit3, lookup_insert_ne, Hit2, lookup_insert_eq
    |by rewrite Hit3, lookup_insert_eq|done..].
Qed.

Lemma decr_begin_in_copy_witness :
  ∃ c st0 b st1 st2 e st3,
    new_set_from 1 (final_state set_1357) = Ok c st0
    ∧ begin_ c st0 = Ok b st1
    ∧ decr b st1 = Ok () st2
    ∧ end_ c st2 = Ok e st3
    ∧ iter_eq b e st3 = Ok true st3.
Proof.
  apply (decr_begin_in_copy (final_state set_1357) 1 tree_1357);
    [apply set_1357_inv|reflexivity|done].
Defined.

(** ** Swapping two sets *)

Lemma swap_field_run st (x y : positive) nx ny (get : sentinel_node → ptr)
    (set : sentinel_node → ptr → sentinel_node) :
  x ≠ y → nodes st !! x = Some nx → nodes st !! y = Some ny →
  swap_field get set x y st
  = Ok () (with_nodes st (<[y := set ny (get nx)]> (<[x := set nx (get ny)]> (nodes st)))).
Proof.
  intros Hxy Hx Hy. unfold swap_field.
  rewrite (bind_ok _ _ _ _ _ (load_run _ _ _ Hx)).
  rewrite (bind_ok _ _ _ _ _ (load_run _ _ _ Hy)).
  rewrite (bind_ok _ _ _ _ _ (store_run _ _ _)).
  erewrite bind_ok; [|apply load_run; sstate; by rewrite lookup_insert_ne].
  by rewrite store_run.
Qed.

Lemma swap_nodes_run st (x y : positive) nx ny :
  x ≠ y → nodes st !! x = Some nx → nodes st !! y = Some ny →
  swap_nodes x y st
  = Ok () (with_nodes st
             (<[y := mk_node (left nx) (right nx) (parent nx) (share ny) (value_ ny)]>
                (<[x := mk_node (left ny) (right ny) (parent ny) (share nx) (value_ nx)]>
                   (nodes st)))).
Proof.
  intros Hxy Hx Hy. unfold swap_nodes.
  rewrite (bind_ok _ _ _ _ _ (swap_field_run _ _ _ _ _ left with_left Hxy Hx Hy)).
  set (st1 := with_nodes st _).
  assert (nodes st1 !! x = Some (with_left nx (left ny))) as Hx1.
  { unfold st1. sstate. by rewrite lookup_insert_ne, lookup_insert_eq. }
  assert (nodes st1 !! y = Some (with_left ny (left nx))) as Hy1.
  { unfold st1. sstate. by rewrite lookup_insert_eq. }
  rewrite (bind_ok _ _ _ _ _ (swap_field_run _ _ _ _ _ right with_right Hxy Hx1 Hy1)).
  set (st2 := with_nodes st1 _).
  assert (nodes st2 !! x = Some (with_right (with_left nx (left ny)) (right ny))) as Hx2.
  { unfold st2. sstate. by rewrite lookup_insert_ne, lookup_insert_eq. }
  assert (nodes st2 !! y = Some (with_right (with_left ny (left nx)) (right nx))) as Hy2.
  { unfold st2. sstate. by rewrite lookup_insert_eq. }
  rewrite (swap_field_run _ _ _ _ _ parent with_parent Hxy Hx2 Hy2).
  unfold st2, st1. sstate. do 2 f_equal. apply map_eq. intros c.
  destruct (decide (y = c)) as [<-|Hyc].
  { by rewrite !lookup_insert_eq. }
  rewrite !(lookup_insert_ne _ y c) by done.
  destruct (decide (x = c)) as [<-|Hxc].
  { by rewrite !lookup_insert_eq. }
  by rewrite !lookup_insert_ne.
Qed.

Lemma swap_sizes_run st (x y : positive) zx zy :
  sizes st !! x = Some zx → sizes st !! y = Some zy →
  swap_sizes x y st = Ok () (with_sizes st (<[y := zx]> (<[x := zy]> (sizes st)))).
Proof.
  intros Hx Hy. unfold swap_sizes.
  rewrite (bind_ok _ _ _ _ _ (load_size_run _ _ _ Hx)).
  rewrite (bind_ok _ _ _ _ _ (load_size_run _ _ _ Hy)).
  by rewrite (bind_ok _ _ _ _ _ (store_size_run _ _ _)).
Qed.

(** [if (p) p->parent = &q.fake_;] on the heap. *)
Definition reparent (p : ptr) (q : positive) (h : gmap positive sentinel_node)
    : gmap positive sentinel_node :=
  match p with
  | Some x => alter (λ n, with_parent n (Some q)) x h
  | None => h
  end.

Lemma reparent_lookup (p : ptr) (q c : positive) h :
  reparent p q h !! c
  = (λ n, if decide (p = Some c) then with_parent n (Some q) else n) <$> h !! c.
Proof.
  destruct p as [x|]; simpl.
  - destruct (decide (x = c)) as [->|Hne].
    + rewrite lookup_alter_eq. destruct (h !! c); simpl; [|done]. by rewrite decide_True.
    + rewrite lookup_alter_ne by done. destruct (h !! c); simpl; [|done].
      by rewrite decide_False by congruence.
  - by destruct (h !! c).
Qed.

Lemma reparent_run st (p : ptr) (q : positive) :
  valid_ptr (nodes st) p →
  match p with
  | Some x => set_parent x (Some q)
  | None => mret ()
  end st = Ok () (with_nodes st (reparent p q (nodes st))).
Proof.
  intros Hv. destruct p as [x|]; simpl.
  - by apply set_parent_alter.
  - by destruct st.
Qed.

(** One side of [swap]: the tree [t], which hung below the anchor [b],
    hangs below the anchor [a] in a heap [h'] in which the root of [t] has
    the parent [a] and the other nodes of [t] are as in [h]. *)
Lemma swap_side h h' (a b : positive) t :
  rep h (Some b) t → NoDup (addrs t) →
  (∀ c, c ∈ addrs t →
     lnk <$> h' !! c
     = (λ n, (left n, right n, (if decide (root t = Some c) then Some a else parent n),
              value_ n)) <$> h !! c) →
  rep h' (Some a) t.
Proof.
  intros Hrep Hnd Hh'. eapply rep_reparent; [exact Hrep| | |done].
  - intros c Hc Hr. rewrite (Hh' c Hc). destruct (h !! c); simpl; [|done].
    by rewrite decide_False.
  - intros c n Hr Hn. rewrite (Hh' c (root_in_addrs _ _ Hr)), Hn. simpl.
    by rewrite decide_True.
Qed.

Lemma swap_run st (a b : positive) ta tb na nb :
  set_inv st a ta → set_inv st b tb → a ≠ b →
  (∀ c, c ∈ addrs ta → c ∉ addrs tb) →
  nodes st !! a = Some na → nodes st !! b = Some nb →
  (ta = Leaf → ∀ x, left na = Some x → is_Some (nodes st !! x) ∧ x ∉ addrs tb) →
  (tb = Leaf → ∀ x, left nb = Some x → is_Some (nodes st !! x) ∧ x ∉ addrs ta) →
  ∃ st',
    swap a b st = Ok () st'
    ∧ set_inv st' a tb ∧ set_inv st' b ta
    ∧ iters st' = iters st ∧ oracle st' = oracle st
    ∧ same_payload (nodes st) (nodes st')
    ∧ left <$> nodes st' !! a = Some (left nb)
    ∧ left <$> nodes st' !! b = Some (left na)
    ∧ (∀ x, x ≠ a → x ≠ b → left na ≠ Some x → left nb ≠ Some x →
            nodes st' !! x = nodes st !! x)
    ∧ sizes st' = <[b := Z.of_nat (count ta)]> (<[a := Z.of_nat (count tb)]> (sizes st)).
Proof.
  intros Hinva Hinvb Hab Hdisj Hna Hnb Hea Heb.
  pose proof (set_inv_anchor_not_in _ _ _ Hinva) as Haa.
  pose proof (set_inv_anchor_not_in _ _ _ Hinvb) as Hbb.
  destruct Hinva as (na' & Hna' & Hvala & Hrighta & Hsza & Hbounda & Hroota & Hrepa
                     & Hnda & Hbsta).
  destruct Hinvb as (nb' & Hnb' & Hvalb & Hrightb & Hszb & Hboundb & Hrootb & Hrepb
                     & Hndb & Hbstb).
  assert (na' = na) as -> by congruence. assert (nb' = nb) as -> by congruence.
  assert (a ∉ addrs tb) as Hatb.
  { intros Hin. destruct (rep_value _ _ _ _ Hrepb Hin) as (? & ? & ? & ? & _). congruence. }
  assert (b ∉ addrs ta) as Hbta.
  { intros Hin. destruct (rep_value _ _ _ _ Hrepa Hin) as (? & ? & ? & ? & _). congruence. }
  (* where the two left pointers go *)
  assert (∀ c, left na = Some c → c ∉ addrs tb ∧ is_Some (nodes st !! c)) as Hpa'.
  { intros c Hc. assert (ta = Leaf ∨ ta ≠ Leaf) as [Ht|Ht]
      by (destruct ta; [by left|by right]).
    - destruct (Hea Ht c Hc). done.
    - rewrite (Hroota Ht) in Hc. apply root_in_addrs in Hc.
      split; [by apply Hdisj|apply (rep_in_dom _ _ _ _ Hrepa Hc)]. }
  assert (∀ c, left nb = Some c → c ∉ addrs ta ∧ is_Some (nodes st !! c)) as Hpb'.
  { intros c Hc. assert (tb = Leaf ∨ tb ≠ Leaf) as [Ht|Ht]
      by (destruct tb; [by left|by right]).
    - destruct (Heb Ht c Hc). done.
    - rewrite (Hrootb Ht) in Hc. apply root_in_addrs in Hc.
      split; [intros Hin; by apply (Hdisj c)|apply (rep_in_dom _ _ _ _ Hrepb Hc)]. }
  (* the run *)
  set (NA := mk_node (left nb) (right nb) (parent nb) (share na) (value_ na)).
  set (NB := mk_node (left na) (right na) (parent na) (share nb) (value_ nb)).
  set (h2 := <[b := NB]> (<[a := NA]> (nodes st))).
  set (st2 := with_sizes (with_nodes st h2)
                (<[b := Z.of_nat (count ta)]> (<[a := Z.of_nat (count tb)]> (sizes st)))).
  set (h3 := reparent (left na) b h2).
  set (h4 := reparent (left nb) a h3).
  assert (∀ c, is_Some (h2 !! c) ↔ is_Some (nodes st !! c)) as Hdom2.
  { intros c. unfold h2. destruct (decide (b = c)) as [<-|Hbc].
    { rewrite lookup_insert_eq, Hnb. split; by eexists. }
    rewrite lookup_insert_ne by done. destruct (decide (a = c)) as [<-|Hac].
    { rewrite lookup_insert_eq, Hna. split; by eexists. }
    by rewrite lookup_insert_ne. }
  assert (swap a b st = Ok () (with_nodes st2 h4)) as Hrun.
  { unfold swap, take_root.
    rewrite (bind_ok _ _ _ _ _ (get_left_run _ _ _ Hna)).
    rewrite (bind_ok _ _ _ _ _ (get_left_run _ _ _ Hnb)).
    rewrite (bind_ok _ _ _ _ _ (swap_nodes_run _ _ _ _ _ Hab Hna Hnb)).
    rewrite (bind_ok _ _ _ _ _ (swap_sizes_run (with_nodes st h2) _ _ _ _ Hsza Hszb)).
    fold st2.
    assert (valid_ptr (nodes st2) (left na)) as Hva.
    { destruct (left na) as [c|] eqn:Hc; [|done]. simpl. apply Hdom2.
      by destruct (Hpa' c eq_refl) as (_ & Hs). }
    rewrite (bind_ok _ _ _ _ _ (reparent_run st2 (left na) b Hva)).
    rewrite (reparent_run _ (left nb) a); [done|]. sstate.
    destruct (left nb) as [c|] eqn:Hc; [|done]. simpl. rewrite reparent_lookup.
    destruct (Hpb' c eq_refl) as (_ & Hs). apply Hdom2 in Hs as [? ->]. by eexists. }
  (* the heap that results *)
  assert (∀ c, h4 !! c
               = (λ n, if decide (left nb = Some c) then with_parent n (Some a)
                       else if decide (left na = Some c) then with_parent n (Some b)
                       else n)
                   <$> (if decide (c = b) then Some NB
                        else if decide (c = a) then Some NA else nodes st !! c)) as Hh4.
  { intros c. unfold h4, h3. rewrite !reparent_lookup. unfold h2.
    destruct (decide (c = b)) as [->|Hcb].
    - rewrite lookup_insert_eq. simpl. by repeat case_decide.
    - rewrite lookup_insert_ne by done. destruct (decide (c = a)) as [->|Hca].
      + rewrite lookup_insert_eq. simpl. by repeat case_decide.
      + rewrite lookup_insert_ne by done. destruct (nodes st !! c); simpl; [|done].
        by repeat case_decide. }
  exists (with_nodes st2 h4). split; [done|]. sstate.
  split; [|split; [|split; [done|split; [done|split; [|split; [|split; [|split]]]]]]].
  - (* the set at [a] holds [tb] *)
    pose proof (Hh4 a) as Ha4. rewrite decide_False, decide_True in Ha4 by done.
    simpl in Ha4.
    apply (set_inv_intro (with_nodes st2 h4) a tb _ Ha4); sstate.
    + by repeat case_decide.
    + by repeat case_decide.
    + unfold st2. sstate. by rewrite lookup_insert_ne, lookup_insert_eq by done.
    + done.
    + intros Hne. repeat case_decide; sstate; by apply Hrootb.
    + apply (swap_side (nodes st) h4 a b tb Hrepb Hndb). intros c Hc.
      rewrite Hh4. rewrite !decide_False by (intros ->; done).
      destruct (nodes st !! c) as [n|] eqn:Hn; simpl; [|done].
      assert (tb ≠ Leaf) as Hne by (intros ->; by apply elem_of_nil in Hc).
      pose proof (Hrootb Hne) as El.
      destruct (decide (left nb = Some c)) as [E1|E1];
        destruct (decide (root tb = Some c)) as [E2|E2]; [done|congruence..|].
      destruct (decide (left na = Some c)) as [E|E]; [|done].
      by destruct (Hpa' c E) as (? & _).
    + done.
    + done.
  - (* the set at [b] holds [ta] *)
    pose proof (Hh4 b) as Hb4. rewrite decide_True in Hb4 by done. simpl in Hb4.
    apply (set_inv_intro (with_nodes st2 h4) b ta _ Hb4); sstate.
    + by repeat case_decide.
    + by repeat case_decide.
    + unfold st2. sstate. by rewrite lookup_insert_eq.
    + done.
    + intros Hne. repeat case_decide; sstate; by apply Hroota.
    + apply (swap_side (nodes st) h4 b a ta Hrepa Hnda). intros c Hc.
      rewrite Hh4. rewrite !decide_False by (intros ->; done).
      destruct (nodes st !! c) as [n|] eqn:Hn; simpl; [|done].
      assert (ta ≠ Leaf) as Hne by (intros ->; by apply elem_of_nil in Hc).
      pose proof (Hroota Hne) as El.
      destruct (decide (left nb = Some c)) as [E|E];
        [by destruct (Hpb' c E) as (? & _)|].
      destruct (decide (left na = Some c)) as [E1|E1];
        destruct (decide (root ta = Some c)) as [E2|E2]; [done|congruence..|done].
    + done.
    + done.
  - intros c. rewrite Hh4. destruct (decide (c = b)) as [->|Hcb].
    { rewrite Hnb. simpl. by repeat case_decide. }
    destruct (decide (c = a)) as [->|Hca].
    { rewrite Hna. simpl. by repeat case_decide. }
    destruct (nodes st !! c); simpl; [|done]. by repeat case_decide.
  - rewrite Hh4, decide_False, decide_True by done. simpl. by repeat case_decide.
  - rewrite Hh4, decide_True by done. simpl. by repeat case_decide.
  - intros x Hxa Hxb Hla Hlb. rewrite Hh4, !decide_False by done.
    destruct (nodes st !! x); simpl; [|done]. by rewrite !decide_False.
  - done.
Qed.

(** The parent of a node of a tree is the parent of the tree or a node of
    the tree, so that two sets with different anchors share no node. *)
Lemma rep_parent_in h par t c :
  rep h par t → c ∈ addrs t →
  ∃ n, h !! c = Some n ∧ is_Some (value_ n)
       ∧ (parent n = par ∨ ∃ d, parent n = Some d ∧ d ∈ addrs t).
Proof.
  revert par. induction t as [|l IHl x v r IHr]; intros par Hrep Hc.
  - by apply elem_of_nil in Hc.
  - rep_inv Hrep. apply in_addrs_node in Hc as [Hc|[->|Hc]].
    + destruct (IHl _ Hrepl Hc) as (m & Hm & Hv & [Hp|(d & Hp & Hd)]).
      * exists m. split_and!; [done..|]. right. exists x. split; [done|].
        apply in_addrs_node. auto.
      * exists m. split_and!; [done..|]. right. exists d. split; [done|].
        apply in_addrs_node. auto.
    + exists n. split_and!; [done|by rewrite Hvalue|by left].
    + destruct (IHr _ Hrepr Hc) as (m & Hm & Hv & [Hp|(d & Hp & Hd)]).
      * exists m. split_and!; [done..|]. right. exists x. split; [done|].
        apply in_addrs_node. auto.
      * exists m. split_and!; [done..|]. right. exists d. split; [done|].
        apply in_addrs_node. auto.
Qed.

Lemma rep_disjoint h pa (b : positive) nb ta tb :
  rep h pa ta → rep h (Some b) tb → h !! b = Some nb → value_ nb = None →
  pa ≠ Some b → (∀ d, pa = Some d → d ∉ addrs tb) →
  ∀ c, c ∈ addrs ta → c ∉ addrs tb.
Proof.
  intros Hrepa Hrepb Hnb Hvb. revert pa Hrepa.
  induction ta as [|l IHl x v r IHr]; intros pa Hrepa Hne Hpa c Hc.
  - by apply elem_of_nil in Hc.
  - rep_inv Hrepa.
    assert (x ∉ addrs tb) as Hx.
    { intros Hin. destruct (rep_parent_in _ _ _ _ Hrepb Hin) as (m & Hm & _ & Hp).
      assert (m = n) as -> by congruence.
      destruct Hp as [Hp|(d & Hp & Hd)]; [congruence|].
      apply (Hpa d); [congruence|done]. }
    assert (Some x ≠ Some b) as Hxb by (intros [= ->]; congruence).
    apply in_addrs_node in Hc as [Hc|[->|Hc]]; [|done|].
    + apply (IHl (Some x)); [done..| |done]. by intros d [= <-].
    + apply (IHr (Some x)); [done..| |done]. by intros d [= <-].
Qed.

(** The set {1,3,5,7} with an iterator on 3, and a set built by [set()]
    after it. *)
Definition set_1357_and_empty : M positive :=
  set_1357;; new_set;; find 1 3.

Lemma set_1357_and_empty_first : set_inv (final_state set_1357_and_empty) 1 tree_1357.
Proof. concrete_inv. Qed.

Lemma set_1357_and_empty_second : set_inv (final_state set_1357_and_empty) 6 Leaf.
Proof. concrete_inv. Qed.

(** X19. [swap(lhs, rhs)] on two different sets, provided that the left
    pointer of the anchor of a set that is empty is null or designates a
    live node that is not an element of the other set (it is the anchor
    itself after [set()], and null after [clear()] or after the last
    element has been erased): the call returns and exchanges the contents
    and the sizes, so that afterwards [lhs] iterates over the former
    values of [rhs] and [rhs] over those of [lhs]. The left pointers of
    the two anchors are exchanged as they are, so a set that is swapped
    with an empty set built by [set()] ends with a left pointer that
    designates the anchor of the other set. No iterator is touched: an
    iterator on an element stays on that element and still dereferences
    to its value, while its recorded container is still the set it came
    from, which no longer holds the element, so that erasing through it
    in the set that now holds the element fails the assertion
    [this == pos.container_]; an iterator from [lhs.end()] still equals
    [lhs.end()]. *)
Theorem swap_spec st (a b : positive) ta tb :
  set_inv st a ta → set_inv st b tb → a ≠ b → oracle st = [] →
  (ta = Leaf → ∀ x, left <$> nodes st !! a = Some (Some x) →
               is_Some (nodes st !! x) ∧ x ∉ addrs tb) →
  (tb = Leaf → ∀ x, left <$> nodes st !! b = Some (Some x) →
               is_Some (nodes st !! x) ∧ x ∉ addrs ta) →
  ∃ st',
    swap a b st = Ok () st'
    ∧ (∃ st'', to_list a st' = Ok (values tb) st'')
    ∧ (∃ st'', to_list b st' = Ok (values ta) st'')
    ∧ size_ a st' = Ok (Z.of_nat (count tb)) st'
    ∧ size_ b st' = Ok (Z.of_nat (count ta)) st'
    ∧ iters st' = iters st
    ∧ (∀ i e v, iters st !! i = Some (mk_iterator (Some e) (Some a)) →
                (e, v) ∈ elems ta →
                deref i st' = Ok v st' ∧ erase b i st' = Crash AssertFailed)
    ∧ (∀ i, iters st !! i = Some (mk_iterator (Some a) (Some a)) →
            ∃ e st'', end_ a st' = Ok e st'' ∧ iter_eq i e st'' = Ok true st'')
    ∧ left <$> nodes st' !! a = left <$> nodes st !! b
    ∧ left <$> nodes st' !! b = left <$> nodes st !! a.
Proof.
  intros Hinva Hinvb Hab Ho Hea Heb.
  pose proof Hinva as (na & Hna & Hva & _ & _ & _ & _ & Hrepa & _).
  pose proof Hinvb as (nb & Hnb & Hvb & _ & _ & _ & _ & Hrepb & _).
  assert (a ∉ addrs tb) as Hatb.
  { intros Hin. destruct (rep_value _ _ _ _ Hrepb Hin) as (? & ? & ? & ? & _). congruence. }
  assert (∀ c, c ∈ addrs ta → c ∉ addrs tb) as Hdisj.
  { apply (rep_disjoint (nodes st) (Some a) b nb ta tb Hrepa Hrepb Hnb Hvb);
      [congruence|by intros d [= <-]]. }
  destruct (swap_run st a b ta tb na nb Hinva Hinvb Hab Hdisj Hna Hnb)
    as (st' & Hrun & Hinva' & Hinvb' & Hit & Ho' & Hpay & Hla & Hlb & _).
  { intros Ht x Hx. apply (Hea Ht). by rewrite Hna, <- Hx. }
  { intros Ht x Hx. apply (Heb Ht). by rewrite Hnb, <- Hx. }
  rewrite Ho in Ho'.
  exists st'. split_and!; [done| | | | |done| | | |].
  - destruct (to_list_spec _ _ _ Hinva' Ho') as (st'' & Hl & _). by exists st''.
  - destruct (to_list_spec _ _ _ Hinvb' Ho') as (st'' & Hl & _). by exists st''.
  - destruct Hinva' as (? & _ & _ & _ & Hsz & _). by apply load_size_run.
  - destruct Hinvb' as (? & _ & _ & _ & Hsz & _). by apply load_size_run.
  - intros i e v Hi Hin. rewrite <- Hit in Hi.
    pose proof Hinvb' as (_ & _ & _ & _ & _ & _ & _ & Hrep' & Hnd' & _).
    destruct (rep_elem _ _ _ _ _ Hrep' Hnd' Hin) as (n & Hn & Hv & Hl).
    split; [by eapply deref_run|].
    unfold erase. rewrite bind_unfold, (s_iterator_copy_run _ _ _ Hi). simpl.
    rewrite (s_iterator_ctor_run st' (Some e) (Some a)); [|by simpl; eexists|done].
    unfold scoped, erase_body.
    rewrite (bind_ok _ _ _ _ _ (load_iter_run _ _ _ (lookup_insert_eq _ _ _))). simpl.
    by rewrite bool_decide_eq_false_2 by congruence.
  - intros i Hi. rewrite <- Hit in Hi.
    assert (is_Some (nodes st' !! a)) as Hs.
    { destruct Hinva' as (? & ? & _). by eexists. }
    unfold end_. rewrite (s_iterator_ctor_run st' (Some a) (Some a)) by done.
    eexists _, _. split; [done|].
    rewrite (iter_eq_run _ i _ (mk_iterator (Some a) (Some a))
               (mk_iterator (Some a) (Some a))); [|simpl|apply lookup_insert_eq|done..].
    { by rewrite bool_decide_eq_true_2. }
    rewrite lookup_insert_ne; [done|].
    intros <-. apply (is_fresh (dom (iters st'))), elem_of_dom. by eexists.
  - by rewrite Hla, Hnb.
  - by rewrite Hlb, Hna.
Qed.

Lemma swap_spec_witness :
  ∃ st',
    swap 1 6 (final_state set_1357_and_empty) = Ok () st'
    ∧ (∃ st'', to_list 1 st' = Ok (values Leaf) st'')
    ∧ (∃ st'', to_list 6 st' = Ok (values tree_1357) st'')
    ∧ size_ 1 st' = Ok (Z.of_nat (count Leaf)) st'
    ∧ size_ 6 st' = Ok (Z.of_nat (count tree_1357)) st'
    ∧ iters st' = iters (final_state set_1357_and_empty)
    ∧ (∀ i e v, iters (final_state set_1357_and_empty) !! i
                = Some (mk_iterator (Some e) (Some 1%positive)) →
                (e, v) ∈ elems tree_1357 →
                deref i st' = Ok v st' ∧ erase 6 i st' = Crash AssertFailed)
    ∧ (∀ i, iters (final_state set_1357_and_empty) !! i
            = Some (mk_iterator (Some 1%positive) (Some 1%positive)) →
            ∃ e st'', end_ 1 st' = Ok e st'' ∧ iter_eq i e st'' = Ok true st'')
    ∧ left <$> nodes st' !! 1%positive
      = left <$> nodes (final_state set_1357_and_empty) !! 6%positive
    ∧ left <$> nodes st' !! 6%positive
      = left <$> nodes (final_state set_1357_and_empty) !! 1%positive.
Proof.
  apply (swap_spec (final_state set_1357_and_empty) 1 6 tree_1357 Leaf);
    [apply set_1357_and_empty_first|apply set_1357_and_empty_second|done|reflexivity
    |intros [=]|].
  intros _ x Hx. vm_compute in Hx. injection Hx as <-.
  split; [vm_compute; eauto|apply (bool_decide_unpack _); vm_compute; exact I].
Defined.

(** ** [insert] when an allocation fails *)

(** The operations that register an iterator, whatever the allocations
    do: when they return, the heap is the one of the run in which no
    allocation fails; when they throw, nothing but the oracle has changed. *)
Lemma push_back_exact (v : vector) i st :
  match push_back v i st with
  | Ok v' st' =>
      v' = pushed v i
      ∧ nodes st' = nodes st ∧ iters st' = iters st ∧ sizes st' = sizes st
  | Throw st' => nodes st' = nodes st ∧ iters st' = iters st ∧ sizes st' = sizes st
  | Crash _ => False
  end.
Proof.
  unfold push_back, pushed. destruct (length (items v) <? capacity v)%nat; [done|].
  rewrite bind_unfold. unfold alloc_ok. by destruct (oracle st) as [|[|] o].
Qed.

Lemma add_iterator_exact st a i :
  match add_iterator a i st with
  | Ok _ st' =>
      is_Some (nodes st !! a) ∧ nodes st' = reg a i (nodes st)
      ∧ iters st' = iters st ∧ sizes st' = sizes st
  | Throw st' => nodes st' = nodes st ∧ iters st' = iters st ∧ sizes st' = sizes st
  | Crash _ => True
  end.
Proof.
  unfold add_iterator. rewrite bind_unfold. unfold load.
  destruct (nodes st !! a) as [n|] eqn:Hn; [|done]. rewrite bind_unfold.
  pose proof (push_back_exact (share n) i st) as H.
  destruct (push_back (share n) i st) as [v st'|st'|]; [|done..].
  destruct H as (-> & Hn' & Hi & Hs). unfold store. sstate.
  split_and!; [by eexists| |done..].
  rewrite Hn'. by apply (insert_as_alter _ _ _ (λ n, with_share n (pushed (share n) i))).
Qed.

Lemma append_to_node_exact st i p c :
  iters st !! i = Some (mk_iterator p c) →
  match append_to_node i st with
  | Ok _ st' =>
      valid_ptr (nodes st) p ∧ nodes st' = reg_opt p i (nodes st)
      ∧ iters st' = iters st ∧ sizes st' = sizes st
  | Throw st' =>
      nodes st' = nodes st ∧ iters st' = <[i := mk_iterator None c]> (iters st)
      ∧ sizes st' = sizes st
  | Crash _ => True
  end.
Proof.
  intros Hi. unfold append_to_node, catch_rethrow.
  rewrite (bind_ok _ _ _ _ _ (load_iter_run _ _ _ Hi)). sstate.
  destruct p as [a|]; [|done].
  pose proof (add_iterator_exact st a i) as H.
  destruct (add_iterator a i st) as [[] st'|st'|]; [done| |done].
  destruct H as (Hn & Hi' & Hs).
  assert (iters st' !! i = Some (mk_iterator (Some a) c)) as Hi2 by (by rewrite Hi').
  rewrite (set_node__run _ _ _ _ Hi2). sstate. by rewrite Hi'.
Qed.

Lemma s_iterator_ctor_exact st p c :
  match s_iterator_ctor p c st with
  | Ok q st' =>
      q = fresh (dom (iters st)) ∧ valid_ptr (nodes st) p
      ∧ nodes st' = reg_opt p q (nodes st)
      ∧ iters st' = <[q := mk_iterator p c]> (iters st) ∧ sizes st' = sizes st
  | Throw st' => nodes st' = nodes st ∧ iters st' = iters st ∧ sizes st' = sizes st
  | Crash _ => True
  end.
Proof.
  unfold s_iterator_ctor, new_iter. rewrite bind_unfold.
  set (q := fresh (dom (iters st))).
  set (st0 := with_iters st (<[q := mk_iterator p c]> (iters st))).
  assert (iters st0 !! q = Some (mk_iterator p c)) as Hq by apply lookup_insert_eq.
  pose proof (append_to_node_exact st0 q p c Hq) as H.
  unfold constructing, catch_rethrow. rewrite bind_unfold.
  destruct (append_to_node q st0) as [[] st'|st'|]; [by rewrite ret_unfold| |done].
  destruct H as (Hn & Hi & Hs). unfold free_iter. sstate.
  split_and!; [done| |done]. rewrite Hi. unfold st0. sstate.
  rewrite insert_insert_eq, delete_insert_eq. apply delete_id, fresh_iter_not_in.
Qed.

Lemma move_to_node_exact st i c a :
  iters st !! i = Some (mk_iterator None c) →
  match move_to_another_node i (Some a) st with
  | Ok _ st' =>
      is_Some (nodes st !! a) ∧ nodes st' = reg a i (nodes st)
      ∧ iters st' = <[i := mk_iterator (Some a) c]> (iters st) ∧ sizes st' = sizes st
  | Throw st' => nodes st' = nodes st ∧ iters st' = iters st ∧ sizes st' = sizes st
  | Crash _ => True
  end.
Proof.
  intros Hi. unfold move_to_another_node.
  rewrite (bind_ok _ _ _ _ _ (load_iter_run _ _ _ Hi)). sstate.
  rewrite bind_unfold. unfold catch_rethrow.
  rewrite (bind_ok _ _ _ _ _ (set_node__run _ _ _ _ Hi)). sstate.
  set (st1 := with_iters st _).
  pose proof (add_iterator_exact st1 a i) as H.
  destruct (add_iterator a i st1) as [[] st'|st'|]; [by rewrite ret_unfold| |done].
  destruct H as (Hn & Hi' & Hs).
  assert (iters st' !! i = Some (mk_iterator (Some a) c)) as Hi2.
  { rewrite Hi'. apply lookup_insert_eq. }
  rewrite (set_node__run _ _ _ _ Hi2). sstate. split_and!; [done| |done].
  rewrite Hi'. unfold st1. sstate. rewrite insert_insert_eq. by apply insert_id.
Qed.

Lemma new_node_exact st (x y z : ptr) v :
  match new_node x y z v st with
  | Ok a st' =>
      a = fresh (dom (nodes st))
      ∧ nodes st' = <[a := mk_node x y z empty_vector (Some v)]> (nodes st)
      ∧ iters st' = iters st ∧ sizes st' = sizes st
  | Throw st' => nodes st' = nodes st ∧ iters st' = iters st ∧ sizes st' = sizes st
  | Crash _ => False
  end.
Proof.
  unfold new_node. rewrite bind_unfold. unfold alloc_ok.
  by destruct (oracle st) as [|[|] o].
Qed.

(** A set is not affected by what happens to nodes allocated later nor by
    the registries. *)
Lemma set_inv_grown st st' s t :
  (∀ b, is_Some (nodes st !! b) → lnk <$> nodes st' !! b = lnk <$> nodes st !! b) →
  sizes st' = sizes st → set_inv st s t → set_inv st' s t.
Proof.
  intros Hl Hs (n & Hn & Hv & Hr & Hsz & Hb & Hroot & Hrep & Hnd & Hbst).
  pose proof (Hl s ltac:(by eexists)) as P. rewrite Hn in P.
  destruct (nodes st' !! s) as [n'|] eqn:Hn'; [|done].
  injection P as El Er Ep Ev. exists n'.
  split_and!; try done; try congruence.
  - intros Hne. rewrite El. by apply Hroot.
  - eapply rep_frame; [|exact Hrep]. intros a Ha. apply Hl.
    apply (rep_in_dom _ _ _ _ Hrep Ha).
Qed.

Lemma set_inv_links st st' s t :
  same_links (nodes st) (nodes st') → sizes st' = sizes st →
  set_inv st s t → set_inv st' s t.
Proof. intros Hl. apply set_inv_grown. intros b _. apply Hl. Qed.

(** [return {iterator(p, this), b};] when it throws. *)
Lemma pair_of_temporary_throws st p c (x : bool) st' :
  pair_of_temporary (s_iterator_ctor p c) x st = Throw st' →
  same_links (nodes st) (nodes st') ∧ iters st' = iters st ∧ sizes st' = sizes st.
Proof.
  unfold pair_of_temporary. rewrite bind_unfold.
  pose proof (s_iterator_ctor_exact st p c) as H.
  destruct (s_iterator_ctor p c st) as [tmp st1|st1|]; [| |done].
  - destruct H as (-> & Hv & Hn1 & Hi1 & Hs1). set (tmp := fresh (dom (iters st))) in *.
    assert (iters st1 !! tmp = Some (mk_iterator p c)) as Htmp.
    { rewrite Hi1. apply lookup_insert_eq. }
    rewrite bind_unfold. unfold scoped.
    rewrite (s_iterator_copy_run _ _ _ Htmp). sstate.
    pose proof (s_iterator_ctor_exact st1 p c) as H.
    destruct (s_iterator_ctor p c st1) as [q st2|st2|]; [| |done].
    + pose proof (s_iterator_dtor_cases st2 tmp) as Hd.
      by destruct (s_iterator_dtor tmp st2) as [[] st3|st3|].
    + destruct H as (Hn2 & Hi2 & Hs2).
      assert (iters st2 !! tmp = Some (mk_iterator p c)) as Htmp2 by (by rewrite Hi2).
      assert (valid_ptr (nodes st2) p) as Hv2.
      { rewrite Hn2, Hn1. eapply valid_ptr_links; [apply reg_opt_links|done]. }
      rewrite (s_iterator_dtor_run _ _ _ Htmp2 Hv2). intros [= <-]. sstate.
      split_and!.
      * rewrite Hn2, Hn1.
        eapply same_links_trans; [apply reg_opt_links|apply unreg_opt_links].
      * rewrite Hi2, Hi1, delete_insert_eq. apply delete_id, fresh_iter_not_in.
      * congruence.
  - destruct H as (Hn & Hi & Hs). intros [= <-]. split_and!; [|done..].
    rewrite Hn. apply same_links_refl.
Qed.

(** The [try] block of [insert] after the node [nn] has been allocated:
    when it returns, the local iterator [it] is the only one registered at
    the new node, whose registry has room for two. *)
Lemma insert_block_cases st (it nn s : positive) (c0 : ptr) N :
  iters st !! it = Some (mk_iterator None c0) →
  nodes st !! nn = Some N → share N = empty_vector →
  match catch_rethrow
          (tmp ← s_iterator_ctor (Some nn) (Some s);
           scoped (s_iterator_assign it tmp) (s_iterator_dtor tmp))
          (insert_handler (Some nn)) st with
  | Ok _ st' =>
      nodes st' = <[nn := with_share N (mk_vector [it] 2)]> (nodes st)
      ∧ iters st' = <[it := mk_iterator (Some nn) (Some s)]> (iters st)
      ∧ sizes st' = sizes st
  | Throw st' =>
      same_links (nodes st) (nodes st')
      ∧ (∃ c, iters st' = <[it := mk_iterator None c]> (iters st))
      ∧ sizes st' = sizes st
  | Crash _ => True
  end.
Proof.
  intros Hit Hnn Hshare. unfold catch_rethrow. rewrite bind_unfold.
  pose proof (s_iterator_ctor_exact st (Some nn) (Some s)) as H.
  destruct (s_iterator_ctor (Some nn) (Some s) st) as [tmp st1|st1|]; [| |done].
  - destruct H as (-> & Hv & Hn1 & Hi1 & Hs1). set (tmp := fresh (dom (iters st))) in *.
    assert (it ≠ tmp) as Hne by (by eapply lookup_fresh_ne).
    assert (iters st1 !! tmp = Some (mk_iterator (Some nn) (Some s))) as Htmp.
    { rewrite Hi1. apply lookup_insert_eq. }
    assert (iters st1 !! it = Some (mk_iterator None c0)) as Hit1.
    { rewrite Hi1. by rewrite lookup_insert_ne. }
    unfold scoped, s_iterator_assign. rewrite decide_False by done.
    rewrite (bind_ok _ _ _ _ _ (load_iter_run _ _ _ Htmp)).
    rewrite (bind_ok _ _ _ _ _ (set_container__run _ _ _ _ Hit1)). sstate.
    set (st2 := with_iters st1 _).
    assert (iters st2 !! tmp = Some (mk_iterator (Some nn) (Some s))) as Htmp2.
    { unfold st2. sstate. by rewrite lookup_insert_ne. }
    assert (iters st2 !! it = Some (mk_iterator None (Some s))) as Hit2
      by apply lookup_insert_eq.
    rewrite (bind_ok _ _ _ _ _ (load_iter_run _ _ _ Htmp2)). sstate.
    pose proof (move_to_node_exact st2 it (Some s) nn Hit2) as H.
    destruct (move_to_another_node it (Some nn) st2) as [[] st3|st3|]; [| |done].
    + destruct H as (_ & Hn3 & Hi3 & Hs3).
      assert (iters st3 !! tmp = Some (mk_iterator (Some nn) (Some s))) as Htmp3.
      { rewrite Hi3. by rewrite lookup_insert_ne. }
      assert (valid_ptr (nodes st3) (Some nn)) as Hv3.
      { rewrite Hn3. unfold st2. sstate. rewrite Hn1.
        eapply valid_ptr_links; [|exact Hv].
        eapply same_links_trans; apply reg_links. }
      rewrite (s_iterator_dtor_run _ _ _ Htmp3 Hv3). sstate. split_and!.
      * rewrite Hn3. unfold st2. sstate. rewrite Hn1. apply map_eq. intros b.
        unfold unreg_opt, reg_opt, unreg, reg. destruct (decide (nn = b)) as [<-|Hb].
        -- rewrite !lookup_alter_eq, lookup_insert_eq, Hnn. simpl.
           rewrite Hshare. unfold with_share, pushed, removed, empty_vector. simpl.
           by rewrite decide_True.
        -- by rewrite !lookup_alter_ne, lookup_insert_ne.
      * rewrite Hi3. unfold st2. sstate. rewrite Hi1.
        rewrite insert_insert_eq, delete_insert_ne, delete_insert_eq by done.
        f_equal. apply delete_id, fresh_iter_not_in.
      * rewrite Hs3. unfold st2. sstate. done.
    + destruct H as (Hn3 & Hi3 & Hs3).
      assert (iters st3 !! tmp = Some (mk_iterator (Some nn) (Some s))) as Htmp3
        by (by rewrite Hi3).
      assert (valid_ptr (nodes st3) (Some nn)) as Hv3.
      { rewrite Hn3. unfold st2. sstate. rewrite Hn1.
        eapply valid_ptr_links; [apply reg_links|exact Hv]. }
      rewrite (s_iterator_dtor_run _ _ _ Htmp3 Hv3). sstate.
      unfold insert_handler. rewrite bool_decide_eq_false_2 by done.
      rewrite ret_unfold. sstate. split_and!.
      * rewrite Hn3. unfold st2. sstate. rewrite Hn1.
        eapply same_links_trans; [apply reg_links|apply unreg_links].
      * exists (Some s). rewrite Hi3. unfold st2. sstate. rewrite Hi1.
        rewrite delete_insert_ne, delete_insert_eq by done.
        f_equal. apply delete_id, fresh_iter_not_in.
      * rewrite Hs3. unfold st2. sstate. done.
  - destruct H as (Hn & Hi & Hs).
    unfold insert_handler. rewrite bool_decide_eq_false_2 by done.
    rewrite ret_unfold. split_and!; [|exists c0|done].
    + rewrite Hn. apply same_links_refl.
    + rewrite Hi. symmetry. by apply insert_id.
Qed.

(** Registering at a node whose registry has room left needs no
    allocation, so it returns whatever the oracle says. *)
Lemma s_iterator_ctor_spare st a (c : ptr) n :
  nodes st !! a = Some n → (length (items (share n)) < capacity (share n))%nat →
  ∃ q st', s_iterator_ctor (Some a) c st = Ok q st'.
Proof.
  intros Hn Hlt. unfold s_iterator_ctor, new_iter. rewrite bind_unfold.
  set (q := fresh (dom (iters st))).
  set (st0 := with_iters st (<[q := mk_iterator (Some a) c]> (iters st))).
  assert (iters st0 !! q = Some (mk_iterator (Some a) c)) as Hq by apply lookup_insert_eq.
  assert (∃ st1, add_iterator a q st0 = Ok () st1) as [st1 Hadd].
  { unfold add_iterator. rewrite (bind_ok _ _ _ _ _ (load_run st0 a n Hn)).
    unfold push_back. apply Nat.ltb_lt in Hlt. rewrite Hlt. by eexists. }
  assert (append_to_node q st0 = Ok () st1) as Happ.
  { unfold append_to_node. apply catch_rethrow_ok.
    by rewrite (bind_ok _ _ _ _ _ (load_iter_run _ _ _ Hq)). }
  exists q, st1. unfold constructing.
  by rewrite (bind_ok _ _ _ _ _ (catch_rethrow_ok _ _ _ _ _ Happ)).
Qed.

(** The rest of [insert] after the [try] block: linking the new node,
    [++size_] and [return {it, true};] never throw. *)
Lemma insert_tail_returns st (it nn s : positive) (parent_ c : ptr) val N :
  iters st !! it = Some (mk_iterator (Some nn) c) →
  nodes st !! nn = Some N → (length (items (share N)) < capacity (share N))%nat →
  match (p ← nonnull parent_;
         pv ← get_value p;
         (if val <? pv then set_left p (Some nn) else set_right p (Some nn));;
         incr_size s;;
         r ← s_iterator_copy it;
         mret (r, true)) st with
  | Throw _ => False
  | _ => True
  end.
Proof.
  intros Hit Hnn Hlt. destruct parent_ as [p|]; [|done].
  rewrite bind_unfold. cbn [nonnull]. rewrite ret_unfold.
  rewrite bind_unfold. unfold get_value at 1.
  rewrite bind_unfold. unfold load at 1.
  destruct (nodes st !! p) as [np|] eqn:Hp; [|done].
  destruct (value_ np) as [pv|] eqn:Hpv; [|done]. rewrite ret_unfold.
  set (f := if val <? pv then λ n : sentinel_node, with_left n (Some nn)
            else λ n, with_right n (Some nn)).
  assert ((if val <? pv then set_left p (Some nn) else set_right p (Some nn)) st
          = Ok () (with_nodes st (<[p := f np]> (nodes st)))) as Hrun.
  { unfold f. destruct (val <? pv); [by apply set_left_run|by apply set_right_run]. }
  rewrite (bind_ok _ _ _ _ _ Hrun). set (st1 := with_nodes st _).
  assert (∃ N', nodes st1 !! nn = Some N' ∧ share N' = share N) as (N' & HN' & Hsh).
  { unfold st1. sstate. destruct (decide (p = nn)) as [->|Hne].
    - rewrite lookup_insert_eq. eexists. split; [done|].
      assert (np = N) as -> by congruence. unfold f. by destruct (val <? pv).
    - rewrite lookup_insert_ne by done. by exists N. }
  rewrite bind_unfold. unfold incr_size. rewrite bind_unfold. unfold load_size.
  destruct (sizes st1 !! s) as [z|] eqn:Hz; [|done]. unfold store_size.
  set (st2 := with_sizes st1 _).
  assert (iters st2 !! it = Some (mk_iterator (Some nn) c)) as Hit2 by done.
  rewrite bind_unfold, (s_iterator_copy_run _ _ _ Hit2). sstate.
  destruct (s_iterator_ctor_spare st2 nn c N' HN') as (q & st3 & ->); [|done].
  by rewrite Hsh.
Qed.

(** [insert] into an empty set: when the iterator of the result cannot be
    registered, [clear()] in the handler frees the node again. *)
Lemma insert_empty_throws st s v st' :
  set_inv st s Leaf → registered st → insert s v st = Throw st' →
  set_inv st' s Leaf ∧ sizes st' = sizes st ∧ iters st' = iters st
  ∧ (∀ b, b ≠ fresh (dom (nodes st)) → b ≠ s →
          lnk <$> nodes st' !! b = lnk <$> nodes st !! b)
  ∧ nodes st' !! fresh (dom (nodes st)) = None
  ∧ (lnk <$> nodes st' !! s = lnk <$> nodes st !! s
     ∨ lnk <$> nodes st' !! s
       = (λ n, (None, right n, None, value_ n)) <$> nodes st !! s).
Proof.
  intros Hinv Hreg. pose proof Hinv as (n & Hn & Hval & Hright & Hsz & Hb & _).
  unfold insert. rewrite (bind_ok _ _ _ _ _ (empty_run _ _ _ Hsz)).
  change (Z.of_nat (count Leaf) =? 0) with true. cbv iota. rewrite bind_unfold.
  pose proof (new_node_exact st None None (Some s) v) as H.
  pose proof (keeps_new_node None None (Some s) v st Hreg) as Hreg1.
  destruct (new_node None None (Some s) v st) as [a st1|st1|]; [| |done].
  - destruct H as (-> & Hn1 & Hi1 & Hs1). set (a := fresh (dom (nodes st))) in *.
    assert (nodes st !! a = None) as Hafresh by apply fresh_node_not_in.
    assert (a ≠ s) as Has by congruence.
    set (N := mk_node None None (Some s) empty_vector (Some v)) in *.
    assert (nodes st1 !! s = Some n) as Hn1s by (by rewrite Hn1, lookup_insert_ne).
    unfold put_root.
    pose proof (keeps_set_left s (Some a) st1 Hreg1) as Hreg2.
    rewrite (set_left_run _ _ _ _ Hn1s) in Hreg2.
    rewrite (bind_ok _ _ _ _ _ (set_left_run _ _ _ _ Hn1s)).
    set (st2 := with_nodes st1 _) in *.
    assert (sizes st2 !! s = Some 0) as Hsz2 by (unfold st2; sstate; by rewrite Hs1).
    pose proof (keeps_incr_size s st2 Hreg2) as Hreg3.
    rewrite (incr_size_run _ _ _ Hsz2) in Hreg3.
    rewrite (bind_ok _ _ _ _ _ (incr_size_run _ _ _ Hsz2)).
    set (st3 := with_sizes st2 _) in *.
    assert (nodes st3 !! s = Some (with_left n (Some a))) as Hn3 by apply lookup_insert_eq.
    pose proof (keeps_set_parent s None st3 Hreg3) as Hreg4.
    rewrite (set_parent_run _ _ _ _ Hn3) in Hreg4.
    rewrite (bind_ok _ _ _ _ _ (set_parent_run _ _ _ _ Hn3)).
    set (st4 := with_nodes st3 _) in *.
    assert (nodes st4 !! s = Some (with_parent (with_left n (Some a)) None)) as Hn4
      by apply lookup_insert_eq.
    assert (set_inv st4 s (Node Leaf a v Leaf)) as Hinv4.
    { apply (set_inv_intro st4 s _ _ Hn4); sstate; try done.
      - unfold st4, st3, st2. sstate. by rewrite lookup_insert_eq.
      - simpl. split_and!; [|done..]. unfold st4, st3, st2. sstate.
        rewrite lookup_insert_ne, lookup_insert_ne, Hn1, lookup_insert_eq by done. done.
      - apply NoDup_singleton. }
    unfold catch_rethrow, take_root.
    rewrite (bind_ok _ _ _ _ _ (get_left_run _ _ _ Hn4)). sstate.
    pose proof (keeps_pair_of_temporary (s_iterator_ctor (Some a) (Some s)) true
                  (keeps_ctor _ _) st4 Hreg4) as Hreg5.
    destruct (pair_of_temporary (s_iterator_ctor (Some a) (Some s)) true st4)
      as [r st5|st5|] eqn:Hp; [done| |done].
    destruct (pair_of_temporary_throws _ _ _ _ _ Hp) as (Hl5 & Hi5 & Hs5).
    pose proof (set_inv_links _ _ _ _ Hl5 Hs5 Hinv4) as Hinv5.
    destruct (clear_run st5 s _ Hinv5 Hreg5)
      as (st6 & -> & Hinv6 & _ & _ & Hn6 & Hns6 & Hi6 & Hs6).
    assert (addrs (Node Leaf a v Leaf) = [a]) as Ea by done.
    rewrite Ea in Hn6.
    intros [= <-]. split_and!; [done| | | | |].
    + rewrite Hs6, Hs5. unfold st4, st3, st2. sstate. rewrite Hs1.
      rewrite insert_insert_eq. by apply insert_id.
    + apply map_eq. intros j. rewrite Hi6, Hi5. unfold st4, st3, st2. sstate.
      rewrite Hi1. destruct (iters st !! j) as [x|] eqn:Hj; [|done]. simpl. f_equal.
      unfold detached_in. destruct (node_ x) as [b|] eqn:Hx; [|done].
      rewrite decide_False; [done|]. intros Hin.
      assert (b = a) as -> by set_solver.
      pose proof (registered_valid _ _ _ Hreg Hj) as Hv. rewrite Hx in Hv.
      destruct Hv as [? ?]. congruence.
    + intros b Hba Hbs. rewrite (Hn6 b Hbs), decide_False by set_solver.
      rewrite (same_links_at _ _ b Hl5). unfold st4, st3, st2. sstate.
      by rewrite !lookup_insert_ne, Hn1, lookup_insert_ne by done.
    + rewrite (Hn6 a Has), decide_True; [done|]. set_solver.
    + right. rewrite Hns6. pose proof (same_links_at _ _ s Hl5) as E.
      rewrite Hn4 in E. rewrite Hn. simpl.
      destruct (nodes st5 !! s) as [n5|]; [|done]. simpl in *.
      unfold lnk in E |- *. sstate. injection E as El Er Ep Ev.
      by rewrite Er, Ep, Ev.
  - destruct H as (Hn1 & Hi1 & Hs1). intros [= <-].
    split_and!; [|done|done|by rewrite Hn1|rewrite Hn1; apply fresh_node_not_in
                |left; by rewrite Hn1].
    apply (set_inv_links st); [|done..]. rewrite Hn1. apply same_links_refl.
Qed.

(** [insert] of an absent value into a non-empty set: a throw comes from
    the allocation of the node or from the two registrations in the [try]
    block; the node is not linked before these have returned. *)
Lemma insert_fell_throws st s t v q0 st' :
  set_inv st s t → t ≠ Leaf → tdescend t v None = Fell q0 →
  insert s v st = Throw st' →
  set_inv st' s t ∧ sizes st' = sizes st ∧ iters st' = iters st
  ∧ (∀ b, b ≠ fresh (dom (nodes st)) → lnk <$> nodes st' !! b = lnk <$> nodes st !! b)
  ∧ (nodes st' !! fresh (dom (nodes st)) = None
     ∨ ∃ q, lnk <$> nodes st' !! fresh (dom (nodes st)) = Some (None, None, q, Some v)).
Proof.
  intros Hinv Hne Hd. pose proof (set_inv_fuel _ _ _ Hinv) as Hfuel.
  pose proof Hinv as (n & Hn & Hval & Hright & Hsz & Hbound & Hroot & Hrep & Hnd & Hbst).
  unfold insert. rewrite (bind_ok _ _ _ _ _ (empty_run _ _ _ Hsz)).
  destruct (Z.eqb_spec (Z.of_nat (count t)) 0) as [Hz|Hz].
  { destruct Hne. apply count_zero. lia. }
  unfold take_root. rewrite (bind_ok _ _ _ _ _ (get_left_run _ _ _ Hn)).
  rewrite (bind_ok _ _ _ _ _ (heap_fuel_run _)).
  assert (insert_loop (S (size (nodes st))) (nodes st) v None (left n)
          = Val (Fell q0)) as Hloop.
  { rewrite (Hroot Hne), <- Hd. by eapply insert_loop_rep. }
  rewrite (bind_ok _ _ _ _ _
    (lift_val (λ h, insert_loop _ h v None (left n)) st _ Hloop)).
  unfold s_iterator_default_ctor. rewrite bind_unfold. unfold new_iter at 1.
  set (i0 := fresh (dom (iters st))).
  assert (iters st !! i0 = None) as Hi0 by apply fresh_iter_not_in.
  set (st1 := with_iters st _).
  unfold scoped at 1. rewrite bind_unfold. unfold catch_rethrow at 1.
  pose proof (new_node_exact st1 None None q0 v) as H.
  destruct (new_node None None q0 v st1) as [a st2|st2|]; [| |done].
  - destruct H as (-> & Hn2 & Hi2 & Hs2). set (a := fresh (dom (nodes st1))) in *.
    change (fresh (dom (nodes st))) with a.
    set (N := mk_node None None q0 empty_vector (Some v)) in *.
    assert (nodes st !! a = None) as Hafresh by exact (fresh_node_not_in st1).
    assert (iters st2 !! i0 = Some (mk_iterator None None)) as Hit2.
    { rewrite Hi2. apply lookup_insert_eq. }
    assert (nodes st2 !! a = Some N) as Ha2 by (rewrite Hn2; apply lookup_insert_eq).
    assert (∀ b, is_Some (nodes st !! b) → lnk <$> nodes st2 !! b = lnk <$> nodes st !! b)
      as Hold.
    { intros b [nb Hb]. rewrite Hn2, lookup_insert_ne; [done|]. intros <-.
      unfold st1 in Hb. congruence. }
    rewrite bind_unfold.
    pose proof (insert_block_cases st2 i0 a s None N Hit2 Ha2 eq_refl) as H.
    destruct (catch_rethrow
                (tmp ← s_iterator_ctor (Some a) (Some s);
                 scoped (s_iterator_assign i0 tmp) (s_iterator_dtor tmp))
                (insert_handler (Some a)) st2) as [[] st5|st5|]; [| |done].
    + destruct H as (Hn5 & Hi5 & Hs5).
      assert (iters st5 !! i0 = Some (mk_iterator (Some a) (Some s))) as Hit5.
      { rewrite Hi5. apply lookup_insert_eq. }
      assert (nodes st5 !! a = Some (with_share N (mk_vector [i0] 2))) as Ha5.
      { rewrite Hn5. apply lookup_insert_eq. }
      pose proof (insert_tail_returns st5 i0 a s q0 (Some s) v _ Hit5 Ha5
                    ltac:(simpl; lia)) as HT.
      match goal with
      | |- context [match ?m st5 with _ => _ end] =>
          destruct (m st5) as [r st8|st8|]; [|done..]
      end.
      pose proof (s_iterator_dtor_cases st8 i0) as Hd8.
      by destruct (s_iterator_dtor i0 st8) as [[] st9|st9|].
    + destruct H as (Hl5 & (c & Hi5) & Hs5).
      assert (iters st5 !! i0 = Some (mk_iterator None c)) as Hit5.
      { rewrite Hi5. apply lookup_insert_eq. }
      rewrite (s_iterator_dtor_run _ _ _ Hit5 I). intros [= <-]. sstate.
      cbn [unreg_opt]. split_and!.
      * apply (set_inv_grown st); [|by rewrite Hs5, Hs2|done]. sstate.
        intros b Hb. rewrite (same_links_at _ _ b Hl5). by apply Hold.
      * by rewrite Hs5, Hs2.
      * rewrite Hi5, Hi2. unfold st1. sstate.
        rewrite insert_insert_eq, delete_insert_eq. by apply delete_id.
      * intros b Hb. rewrite (same_links_at _ _ b Hl5), Hn2.
        by rewrite lookup_insert_ne.
      * right. exists q0. by rewrite (same_links_at _ _ a Hl5), Ha2.
  - destruct H as (Hn2 & Hi2 & Hs2).
    unfold insert_handler. rewrite bool_decide_eq_true_2 by done.
    cbn [delete_ptr]. rewrite ret_unfold.
    assert (iters st2 !! i0 = Some (mk_iterator None None)) as Hit2.
    { rewrite Hi2. apply lookup_insert_eq. }
    rewrite (s_iterator_dtor_run _ _ _ Hit2 I). intros [= <-]. sstate.
    cbn [unreg_opt]. split_and!.
    + apply (set_inv_links st); [|by rewrite Hs2|done]. sstate.
      rewrite Hn2. apply same_links_refl.
    + by rewrite Hs2.
    + rewrite Hi2. unfold st1. sstate. rewrite delete_insert_eq. by apply delete_id.
    + intros b Hb. by rewrite Hn2.
    + left. rewrite Hn2. exact (fresh_node_not_in st1).
Qed.

Lemma insert_found_throws st s t v a st' :
  set_inv st s t → tdescend t v None = Found a → insert s v st = Throw st' →
  set_inv st' s t ∧ sizes st' = sizes st ∧ iters st' = iters st
  ∧ (∀ b, b ≠ fresh (dom (nodes st)) → lnk <$> nodes st' !! b = lnk <$> nodes st !! b)
  ∧ (nodes st' !! fresh (dom (nodes st)) = None
     ∨ ∃ q, lnk <$> nodes st' !! fresh (dom (nodes st)) = Some (None, None, q, Some v)).
Proof.
  intros Hinv Hd. pose proof (set_inv_fuel _ _ _ Hinv) as Hfuel.
  pose proof Hinv as (n & Hn & Hval & Hright & Hsz & Hbound & Hroot & Hrep & Hnd & Hbst).
  assert (t ≠ Leaf) as Hne by (by intros ->).
  unfold insert. rewrite (bind_ok _ _ _ _ _ (empty_run _ _ _ Hsz)).
  destruct (Z.eqb_spec (Z.of_nat (count t)) 0) as [Hz|Hz].
  { destruct Hne. apply count_zero. lia. }
  unfold take_root. rewrite (bind_ok _ _ _ _ _ (get_left_run _ _ _ Hn)).
  rewrite (bind_ok _ _ _ _ _ (heap_fuel_run _)).
  assert (insert_loop (S (size (nodes st))) (nodes st) v None (left n)
          = Val (Found a)) as Hloop.
  { rewrite (Hroot Hne), <- Hd. by eapply insert_loop_rep. }
  rewrite (bind_ok _ _ _ _ _
    (lift_val (λ h, insert_loop _ h v None (left n)) st _ Hloop)).
  intros (Hl & Hi & Hs)%pair_of_temporary_throws.
  split_and!; [by apply (set_inv_links st)|done|done| |].
  - intros b _. apply Hl.
  - left. pose proof (Hl (fresh (dom (nodes st)))) as E.
    rewrite fresh_node_not_in in E. by destruct (nodes st' !! _).
Qed.

(** X20. When [insert] throws (an allocation has failed: that of the node
    or one made for the registry of a node), the set holds the same
    elements, [size_] is unchanged, the iterators are the ones that
    existed before the call and the registry of iterators is consistent.
    Every node that existed before the call has the same links and value,
    except the anchor of a set that was empty: its left and parent
    pointers are as before or both null. No node is added to the heap
    except possibly one at the next free address: for a set that was empty
    there is none (the node that had already been linked is freed again by
    [clear()] in the handler); for a set that was not empty there is none
    or it holds the value and has no children. *)
Theorem insert_throws st s t v st' :
  set_inv st s t → registered st → insert s v st = Throw st' →
  set_inv st' s t ∧ sizes st' = sizes st ∧ iters st' = iters st ∧ registered st'
  ∧ (∀ b, b ≠ fresh (dom (nodes st)) → (t = Leaf → b ≠ s) →
          lnk <$> nodes st' !! b = lnk <$> nodes st !! b)
  ∧ (t = Leaf →
     nodes st' !! fresh (dom (nodes st)) = None
     ∧ (lnk <$> nodes st' !! s = lnk <$> nodes st !! s
        ∨ lnk <$> nodes st' !! s
          = (λ n, (None, right n, None, value_ n)) <$> nodes st !! s))
  ∧ (t ≠ Leaf →
     nodes st' !! fresh (dom (nodes st)) = None
     ∨ ∃ q, lnk <$> nodes st' !! fresh (dom (nodes st)) = Some (None, None, q, Some v)).
Proof.
  intros Hinv Hreg Hrun.
  assert (registered st') as Hreg'.
  { pose proof (keeps_insert s v st Hreg) as H. by rewrite Hrun in H. }
  assert (t = Leaf ∨ t ≠ Leaf) as [->|Hne] by (destruct t; [by left|by right]).
  { destruct (insert_empty_throws _ _ _ _ Hinv Hreg Hrun)
      as (? & ? & ? & Hold & Hnew & Hanchor).
    split_and!; try done. intros b Hb Hs. apply Hold; [done|by apply Hs]. }
  assert (set_inv st' s t ∧ sizes st' = sizes st ∧ iters st' = iters st
          ∧ (∀ b, b ≠ fresh (dom (nodes st)) →
                  lnk <$> nodes st' !! b = lnk <$> nodes st !! b)
          ∧ (nodes st' !! fresh (dom (nodes st)) = None
             ∨ ∃ q, lnk <$> nodes st' !! fresh (dom (nodes st))
                    = Some (None, None, q, Some v)))
    as (? & ? & ? & Hold & Hnew).
  { destruct (tdescend t v None) as [a|q0] eqn:Hd.
    - by eapply insert_found_throws.
    - by eapply insert_fell_throws. }
  split_and!; try done. intros b Hb _. by apply Hold.
Qed.

(** The set {1,3,5,7} with an iterator on 3, in which the second
    allocation from now on fails. *)
Definition set_1357_failing : state :=
  with_oracle (final_state set_1357_with_find) [true; false].

Lemma set_1357_failing_inv : set_inv set_1357_failing 1 tree_1357.
Proof. concrete_inv. Qed.

Lemma set_1357_failing_registered : registered set_1357_failing.
Proof. apply (bool_decide_unpack _). vm_compute. exact I. Qed.

(** A set built by [set()], in which the second allocation from now on
    fails. *)
Definition empty_set_failing : state := with_oracle (final_state empty_set) [true; false].

Lemma empty_set_failing_inv : set_inv empty_set_failing 1 Leaf.
Proof. concrete_inv. Qed.

Lemma empty_set_failing_registered : registered empty_set_failing.
Proof. apply (bool_decide_unpack _). vm_compute. exact I. Qed.

Lemma insert_throws_witness :
  (∃ st',
     insert 1 9 set_1357_failing = Throw st'
     ∧ set_inv st' 1 tree_1357 ∧ sizes st' = sizes set_1357_failing
     ∧ iters st' = iters set_1357_failing ∧ registered st'
     ∧ (∀ b, b ≠ fresh (dom (nodes set_1357_failing)) →
             (tree_1357 = Leaf → b ≠ 1%positive) →
             lnk <$> nodes st' !! b = lnk <$> nodes set_1357_failing !! b)
     ∧ (tree_1357 = Leaf →
        nodes st' !! fresh (dom (nodes set_1357_failing)) = None
        ∧ (lnk <$> nodes st' !! 1%positive = lnk <$> nodes set_1357_failing !! 1%positive
           ∨ lnk <$> nodes st' !! 1%positive
             = (λ n, (None, right n, None, value_ n))
                 <$> nodes set_1357_failing !! 1%positive))
     ∧ (tree_1357 ≠ Leaf →
        nodes st' !! fresh (dom (nodes set_1357_failing)) = None
        ∨ ∃ q, lnk <$> nodes st' !! fresh (dom (nodes set_1357_failing))
               = Some (None, None, q, Some 9)))
  ∧ (∃ st',
       insert 1 9 empty_set_failing = Throw st'
       ∧ set_inv st' 1 Leaf ∧ sizes st' = sizes empty_set_failing
       ∧ iters st' = iters empty_set_failing ∧ registered st'
       ∧ (∀ b, b ≠ fresh (dom (nodes empty_set_failing)) →
               (Leaf = Leaf → b ≠ 1%positive) →
               lnk <$> nodes st' !! b = lnk <$> nodes empty_set_failing !! b)
       ∧ (Leaf = Leaf →
          nodes st' !! fresh (dom (nodes empty_set_failing)) = None
          ∧ (lnk <$> nodes st' !! 1%positive
             = lnk <$> nodes empty_set_failing !! 1%positive
             ∨ lnk <$> nodes st' !! 1%positive
               = (λ n, (None, right n, None, value_ n))
                   <$> nodes empty_set_failing !! 1%positive))
       ∧ (Leaf ≠ Leaf →
          nodes st' !! fresh (dom (nodes empty_set_failing)) = None
          ∨ ∃ q, lnk <$> nodes st' !! fresh (dom (nodes empty_set_failing))
                 = Some (None, None, q, Some 9))).
Proof.
  split.
  - eexists. split; [vm_compute; reflexivity|].
    apply (insert_throws set_1357_failing 1 tree_1357 9);
      [apply set_1357_failing_inv|apply set_1357_failing_registered
      |vm_compute; reflexivity].
  - eexists. split; [vm_compute; reflexivity|].
    apply (insert_throws empty_set_failing 1 Leaf 9);
      [apply empty_set_failing_inv|apply empty_set_failing_registered
      |vm_compute; reflexivity].
Defined.

(** ** The node that [insert] does not free *)

Lemma new_node_run_true st (x y z : ptr) v o :
  oracle st = true :: o →
  new_node x y z v st
  = Ok (fresh (dom (nodes st)))
       (mk_state (<[fresh (dom (nodes st)) := mk_node x y z empty_vector (Some v)]> (nodes st))
          (sizes st) (iters st) o).
Proof. intros Ho. unfold new_node, alloc_ok. by rewrite bind_unfold, Ho. Qed.

(** Registering at a node whose registry is full, when the allocation
    fails. *)
Lemma s_iterator_ctor_fails st a (c : ptr) n o :
  nodes st !! a = Some n → (capacity (share n) ≤ length (items (share n)))%nat →
  oracle st = false :: o →
  ∃ st',
    s_iterator_ctor (Some a) c st = Throw st'
    ∧ nodes st' = nodes st ∧ iters st' = iters st ∧ sizes st' = sizes st
    ∧ oracle st' = o.
Proof.
  intros Hn Hcap Ho.
  pose proof (s_iterator_ctor_exact st (Some a) c) as H.
  assert (∃ st', s_iterator_ctor (Some a) c st = Throw st' ∧ oracle st' = o)
    as (st' & Hrun & Ho').
  { unfold s_iterator_ctor, new_iter. rewrite bind_unfold.
    set (q := fresh (dom (iters st))).
    set (st0 := with_iters st (<[q := mk_iterator (Some a) c]> (iters st))).
    assert (iters st0 !! q = Some (mk_iterator (Some a) c)) as Hq
      by apply lookup_insert_eq.
    assert (add_iterator a q st0 = Throw (with_oracle st0 o)) as Hadd.
    { unfold add_iterator. rewrite (bind_ok _ _ _ _ _ (load_run st0 a n Hn)).
      unfold push_back. apply Nat.ltb_ge in Hcap. rewrite Hcap.
      rewrite !bind_unfold. unfold alloc_ok. unfold st0. sstate. by rewrite Ho. }
    unfold constructing. rewrite bind_unfold. unfold catch_rethrow at 1.
    unfold append_to_node, catch_rethrow.
    rewrite (bind_ok _ _ _ _ _ (load_iter_run _ _ _ Hq)). sstate. rewrite Hadd.
    rewrite (set_node__run (with_oracle st0 o) q _ None Hq). by eexists. }
  rewrite Hrun in H. destruct H as (? & ? & ?). by exists st'.
Qed.

(** X21. When the node for a new value has been allocated and the
    allocation made to register the first iterator on it fails, [insert]
    throws and the node stays allocated: the handler of the [try] block
    deletes [new_node] only when it is null. The set, the sizes and the
    iterators are as before the call and the node is not linked into the
    tree. *)
Theorem insert_leaks st s t v o :
  set_inv st s t → t ≠ Leaf → v ∉ values t → oracle st = true :: false :: o →
  ∃ st' q0,
    insert s v st = Throw st'
    ∧ nodes st !! fresh (dom (nodes st)) = None
    ∧ nodes st'
      = <[fresh (dom (nodes st)) := mk_node None None q0 empty_vector (Some v)]> (nodes st)
    ∧ iters st' = iters st ∧ sizes st' = sizes st ∧ oracle st' = o
    ∧ set_inv st' s t.
Proof.
  intros Hinv Hne Hv Ho. pose proof (set_inv_fuel _ _ _ Hinv) as Hfuel.
  pose proof Hinv as (n & Hn & Hval & Hright & Hsz & Hbound & Hroot & Hrep & Hnd & Hbst).
  destruct (tdescend t v None) as [a|q0] eqn:Hd.
  { destruct Hv. eapply elems_values, tdescend_found, Hd. }
  set (a := fresh (dom (nodes st))).
  assert (nodes st !! a = None) as Hafresh by apply fresh_node_not_in.
  set (N := mk_node None None q0 empty_vector (Some v)).
  set (i0 := fresh (dom (iters st))).
  assert (iters st !! i0 = None) as Hi0 by apply fresh_iter_not_in.
  set (st1 := with_iters st (<[i0 := mk_iterator None None]> (iters st))).
  set (st2 := mk_state (<[a := N]> (nodes st1)) (sizes st1) (iters st1) (false :: o)).
  assert (new_node None None q0 v st1 = Ok a st2) as Hrun2
    by (by apply new_node_run_true).
  destruct (s_iterator_ctor_fails st2 a (Some s) N o) as (st3 & Hrun3 & Hn3 & Hi3 & Hs3 & Ho3);
    [apply lookup_insert_eq|done|done|].
  assert (iters st3 !! i0 = Some (mk_iterator None None)) as Hit3.
  { rewrite Hi3. apply lookup_insert_eq. }
  assert (insert s v st
          = Throw (mk_state (nodes st3) (sizes st3) (delete i0 (iters st3)) (oracle st3)))
    as Hrun.
  { unfold insert. rewrite (bind_ok _ _ _ _ _ (empty_run _ _ _ Hsz)).
    destruct (Z.eqb_spec (Z.of_nat (count t)) 0) as [Hz|Hz].
    { destruct Hne. apply count_zero. lia. }
    unfold take_root. rewrite (bind_ok _ _ _ _ _ (get_left_run _ _ _ Hn)).
    rewrite (bind_ok _ _ _ _ _ (heap_fuel_run _)).
    assert (insert_loop (S (size (nodes st))) (nodes st) v None (left n)
            = Val (Fell q0)) as Hloop.
    { rewrite (Hroot Hne), <- Hd. by eapply insert_loop_rep. }
    rewrite (bind_ok _ _ _ _ _
      (lift_val (λ h, insert_loop _ h v None (left n)) st _ Hloop)).
    unfold s_iterator_default_ctor. rewrite bind_unfold. unfold new_iter at 1.
    fold i0. fold st1. unfold scoped at 1.
    rewrite (bind_ok _ _ _ _ _ (catch_rethrow_ok _ _ _ _ _ Hrun2)).
    rewrite bind_unfold. unfold catch_rethrow at 1. rewrite bind_unfold, Hrun3.
    unfold insert_handler. rewrite bool_decide_eq_false_2 by done.
    rewrite ret_unfold. by rewrite (s_iterator_dtor_run _ _ _ Hit3 I). }
  eexists _, q0. split; [exact Hrun|]. sstate.
  assert (iters st = delete i0 (iters st3)) as Hit.
  { rewrite Hi3. unfold st2, st1. sstate. rewrite delete_insert_eq.
    symmetry. by apply delete_id. }
  split_and!; [done|by rewrite Hn3|done|by rewrite Hs3|done|].
  apply (set_inv_grown st); [|by rewrite Hs3|done]. sstate.
  intros b [nb Hb]. rewrite Hn3. unfold st2, st1. sstate.
  rewrite lookup_insert_ne; [done|]. intros <-. congruence.
Qed.

Lemma insert_leaks_witness :
  ∃ st' q0,
    insert 1 9 set_1357_failing = Throw st'
    ∧ nodes set_1357_failing !! fresh (dom (nodes set_1357_failing)) = None
    ∧ nodes st'
      = <[fresh (dom (nodes set_1357_failing))
          := mk_node None None q0 empty_vector (Some 9)]> (nodes set_1357_failing)
    ∧ iters st' = iters set_1357_failing ∧ sizes st' = sizes set_1357_failing
    ∧ oracle st' = []
    ∧ set_inv st' 1 tree_1357.
Proof.
  apply (insert_leaks set_1357_failing 1 tree_1357 9 []);
    [apply set_1357_failing_inv|done| |reflexivity].
  apply (bool_decide_unpack _). vm_compute. exact I.
Defined.

(** ** Assignment of sets *)

(** A set only depends on its anchor, its nodes and its size. *)
Lemma set_inv_local st st' s t :
  (∀ x, x = s ∨ x ∈ addrs t → lnk <$> nodes st' !! x = lnk <$> nodes st !! x) →
  sizes st' !! s = sizes st !! s → set_inv st s t → set_inv st' s t.
Proof.
  intros Hl Hs (n & Hn & Hv & Hr & Hsz & Hb & Hroot & Hrep & Hnd & Hbst).
  pose proof (Hl s ltac:(by left)) as P. rewrite Hn in P.
  destruct (nodes st' !! s) as [n'|] eqn:Hn'; [|done].
  injection P as El Er Ep Ev. exists n'.
  split_and!; try done; try congruence.
  - intros Hne. rewrite El. by apply Hroot.
  - eapply rep_frame; [|exact Hrep]. intros a Ha. apply Hl. by right.
Qed.

(** The destructor of a set, with the oracle. *)
Lemma set_dtor_run st s t :
  set_inv st s t → registered st →
  ∃ st',
    set_dtor s st = Ok () st'
    ∧ registered st'
    ∧ (∀ b, nodes st' !! b = if decide (b ∈ s :: addrs t) then None else nodes st !! b)
    ∧ (∀ j, iters st' !! j = detached_in (s :: addrs t) <$> iters st !! j)
    ∧ sizes st' = delete s (sizes st) ∧ oracle st' = oracle st.
Proof.
  intros Hinv Hreg.
  destruct (clear_run st s t Hinv Hreg)
    as (st1 & Hrun1 & Hinv1 & Hreg1 & Ho1 & Hn1 & Hs1 & Hi1 & Hsz1).
  destruct (set_inv_anchor _ _ _ Hinv1) as (n1 & Hns1 & _).
  destruct (delete_registered st1 s n1 Hreg1 Hns1) as [Hreg2 Hi2].
  eexists. split_and!.
  - unfold set_dtor, destroy_members. rewrite (bind_ok _ _ _ _ _ Hrun1).
    rewrite (bind_ok _ _ _ _ _ (delete_node_run _ _ _ Hns1
                                  (λ i Hi, registered_live _ _ _ _ Hreg1 Hns1 Hi))).
    reflexivity.
  - eapply registered_ext; [| |exact Hreg2]; done.
  - intros b. sstate. destruct (decide (b = s)) as [->|Hbs].
    + rewrite lookup_delete_eq, decide_True; [done|]. set_solver.
    + rewrite lookup_delete_ne, (Hn1 b Hbs) by done.
      destruct (decide (b ∈ addrs t)), (decide (b ∈ s :: addrs t)); set_solver.
  - intros j. sstate. rewrite Hi2, Hi1.
    destruct (iters st !! j) as [x|]; [|done]. simpl. f_equal.
    rewrite <- (detached_in_nil x) at 1. apply (detached_in_node [] (addrs t)).
  - sstate. by rewrite Hsz1, delete_insert_eq.
  - done.
Qed.

(** The copy of an empty set: [set(std::size_t)] alone built it. *)
Lemma new_set_from_empty st s :
  set_inv st s Leaf →
  new_set_from s st
  = Ok (fresh (dom (nodes st)))
       (mk_state (<[fresh (dom (nodes st))
                    := mk_node (Some (fresh (dom (nodes st)))) None
                         (Some (fresh (dom (nodes st)))) empty_vector None]> (nodes st))
          (<[fresh (dom (nodes st)) := 0]> (sizes st)) (iters st) (oracle st)).
Proof.
  intros (n & Hn & _ & _ & Hsz & _). simpl in Hsz.
  unfold new_set_from, fresh_addr. rewrite bind_unfold.
  set (c := fresh (dom (nodes st))).
  assert (c ≠ s) as Hcs.
  { intros E. pose proof (fresh_node_not_in st) as Hf. fold c in Hf. congruence. }
  unfold set_copy_ctor, size_. rewrite bind_unfold.
  rewrite (bind_ok _ _ _ _ _ (load_size_run _ _ _ Hsz)).
  rewrite (bind_ok _ _ _ _ _ (set_ctor_size_run _ _ _)).
  set (stA := mk_state _ _ _ _).
  assert (sizes stA !! s = Some 0) as HszA.
  { unfold stA. sstate. by rewrite lookup_insert_ne. }
  unfold catch_rethrow. by rewrite (bind_ok _ _ _ _ _ (empty_run _ _ _ HszA)).
Qed.

(** X22. [operator=] between two different sets (copy, then swap, then the
    destructor of the copy), when no allocation fails and provided that,
    if the left-hand side is empty, the left pointer of its anchor is null
    or designates a live node that is neither the anchor nor an element of
    the right-hand side: the call returns; afterwards both sets iterate
    over the values of the right-hand side and [size()] of the left-hand
    side is the number of these values. Every node that held an element of
    the left-hand side is freed, the iterators that designated such an
    element are detached and all other iterators, those from [end()] of
    the left-hand side included, are unchanged. When the right-hand side
    is empty, the left pointer of the anchor of the left-hand side
    designates, after the call, the anchor of the local copy, which the
    destructor has freed: the left-hand side no longer meets the proviso. *)
Theorem set_assign_spec st (a b : positive) ta tb :
  set_inv st a ta → set_inv st b tb → a ≠ b → registered st → oracle st = [] →
  (ta = Leaf → ∀ x, left <$> nodes st !! a = Some (Some x) →
               is_Some (nodes st !! x) ∧ x ≠ b ∧ x ∉ addrs tb) →
  ∃ st',
    set_assign a b st = Ok () st'
    ∧ (∃ st'', to_list a st' = Ok (values tb) st'')
    ∧ (∃ st'', to_list b st' = Ok (values tb) st'')
    ∧ size_ a st' = Ok (Z.of_nat (count tb)) st'
    ∧ (∀ x, x ∈ addrs ta → nodes st' !! x = None)
    ∧ (∀ j, iters st' !! j = detached_in (addrs ta) <$> iters st !! j)
    ∧ registered st'
    ∧ (tb = Leaf →
       left <$> nodes st' !! a = Some (Some (fresh (dom (nodes st))))
       ∧ nodes st' !! fresh (dom (nodes st)) = None).
Proof.
  intros Hinva Hinvb Hab Hreg Ho Hea.
  pose proof (set_inv_anchor_not_in _ _ _ Hinva) as Haa.
  pose proof Hinva as (na & Hna & Hva & _ & Hsza & _ & Hroota & Hrepa & Hnda & _).
  pose proof Hinvb as (nb & Hnb & Hvb & _ & _ & _ & _ & Hrepb & _).
  destruct (new_set_from_run st b tb Hinvb Ho)
    as (c & st0 & t' & Hrun0 & Ec & Hinvc & Hinvb0 & Hsh & Hfresh & Hc & Hout & Hpar
        & Hi0 & Ho0 & Hsz0).
  assert (nodes st !! c = None) as Hcf by (rewrite Ec; apply fresh_node_not_in).
  assert (c ≠ a) as Hca by congruence.
  assert (c ≠ b) as Hcb by congruence.
  assert (∀ x, is_Some (nodes st !! x) → x ≠ c ∧ x ∉ addrs t') as Hlive.
  { intros x [nx Hx]. split; [congruence|]. intros Hin.
    rewrite (Hfresh x Hin) in Hx. done. }
  assert (∀ x, is_Some (nodes st !! x) → nodes st0 !! x = nodes st !! x) as Hold.
  { intros x Hx. destruct (Hlive x Hx). by apply Hout. }
  (* where the nodes of the two sets are *)
  assert (∀ x, x = a ∨ x ∈ addrs ta → is_Some (nodes st !! x)) as Hina.
  { intros x [->|Hx]; [by eexists|]. apply (rep_in_dom _ _ _ _ Hrepa Hx). }
  assert (∀ x, x = b ∨ x ∈ addrs tb →
               is_Some (nodes st !! x) ∧ x ≠ a ∧ x ∉ addrs ta) as Hinb.
  { intros x [->|Hx].
    - split_and!; [by eexists|done|]. intros Hin.
      destruct (rep_value _ _ _ _ Hrepa Hin) as (? & ? & ? & ? & _). congruence.
    - split_and!; [apply (rep_in_dom _ _ _ _ Hrepb Hx)| |].
      + intros ->. destruct (rep_value _ _ _ _ Hrepb Hx) as (? & ? & ? & ? & _).
        congruence.
      + apply (rep_disjoint (nodes st) (Some b) a na tb ta Hrepb Hrepa Hna Hva);
          [congruence| |done].
        intros d [= <-] Hin.
        destruct (rep_value _ _ _ _ Hrepa Hin) as (? & ? & ? & ? & _). congruence. }
  (* the copy *)
  assert (set_inv st0 a ta) as Hinva0.
  { apply (set_inv_local st); [| |done].
    - intros x Hx. by rewrite (Hold x (Hina x Hx)).
    - rewrite Hsz0. by rewrite lookup_insert_ne. }
  pose proof (keeps_new_set_from b st Hreg) as Hreg0. rewrite Hrun0 in Hreg0.
  assert (nodes st0 !! a = Some na) as Hna0.
  { rewrite Hold; [done|by eexists]. }
  pose proof Hinvc as (nc & Hnc & _ & _ & _ & _ & Hrootc & Hrepc & _).
  assert (t' = Leaf → left nc = Some c) as Hlc.
  { intros ->. assert (tb = Leaf) as -> by (by destruct tb).
    rewrite (new_set_from_empty st b Hinvb) in Hrun0. injection Hrun0 as E1 E2.
    subst st0. sstate. rewrite <- Ec, lookup_insert_eq in Hnc.
    by injection Hnc as <-. }
  assert (t' = Leaf → ∀ x, left nc = Some x →
                      is_Some (nodes st0 !! x) ∧ x ∉ addrs ta) as Hec.
  { intros Ht x Hx. rewrite (Hlc Ht) in Hx. injection Hx as <-.
    split; [by eexists|]. intros Hin.
    destruct (Hina c ltac:(by right)). congruence. }
  assert (ta = Leaf → ∀ x, left na = Some x → x ≠ b ∧ x ∉ addrs tb) as Hea1.
  { intros Ht x Hx. destruct (Hea Ht x) as (_ & ? & ?); [by rewrite Hna, <- Hx|done]. }
  assert (ta = Leaf → ∀ x, left na = Some x →
                      is_Some (nodes st0 !! x) ∧ x ∉ addrs t') as Hea'.
  { intros Ht x Hx. destruct (Hea Ht x) as (Hs & _); [by rewrite Hna, <- Hx|].
    destruct (Hlive x Hs). by rewrite (Hold x Hs). }
  assert (∀ x, x ∈ addrs ta → x ∉ addrs t') as Hdisj.
  { intros x Hx. apply Hlive, Hina. by right. }
  (* the swap *)
  destruct (swap_run st0 a c ta t' na nc Hinva0 Hinvc (not_eq_sym Hca) Hdisj Hna0 Hnc
              Hea' Hec)
    as (st1 & Hrun1 & Hinva1 & Hinvc1 & Hi1 & Ho1 & _ & Hla1 & _ & Hfr1 & Hsz1).
  pose proof (keeps_swap a c st0 Hreg0) as Hreg1. rewrite Hrun1 in Hreg1.
  (* the destructor of the copy *)
  destruct (set_dtor_run st1 c ta Hinvc1 Hreg1)
    as (st2 & Hrun2 & Hreg2 & Hn2 & Hi2 & Hsz2 & Ho2).
  assert (oracle st2 = []) as Ho2' by congruence.
  assert (set_inv st2 a t') as Hinva2.
  { apply (set_inv_local st1); [| |done].
    - intros x Hx. rewrite Hn2, decide_False; [done|].
      intros [->|Hin]%elem_of_cons.
      + destruct Hx as [->|Hx]; done.
      + destruct Hx as [->|Hx]; [done|]. by apply (Hdisj x).
    - rewrite Hsz2. by rewrite lookup_delete_ne. }
  assert (set_inv st2 b tb) as Hinvb2.
  { apply (set_inv_local st0); [| |done].
    - intros x Hx. destruct (Hinb x Hx) as (Hs & Hxa & Hxta).
      destruct (Hlive x Hs) as [Hxc Hxt'].
      rewrite Hn2, decide_False by (intros [->|Hin]%elem_of_cons; done).
      rewrite Hfr1; [done..| |].
      + intros El. destruct ta as [|l r0 v0 r].
        { destruct (Hea1 eq_refl x El) as [Hxb Hxtb]. by destruct Hx as [->|Hx]. }
        apply Hxta. apply root_in_addrs. rewrite <- El. symmetry. by apply Hroota.
      + intros El. destruct t' as [|l r0 v0 r]; [rewrite (Hlc eq_refl) in El; congruence|].
        apply Hxt'. apply root_in_addrs. rewrite <- El. symmetry. by apply Hrootc.
    - rewrite Hsz2, lookup_delete_ne, Hsz1, !lookup_insert_ne by done. done. }
  exists st2. split_and!.
  - unfold set_assign. rewrite decide_False by done.
    rewrite (bind_ok _ _ _ _ _ Hrun0). by eapply scoped_ok.
  - destruct (to_list_spec _ _ _ Hinva2 Ho2') as (st'' & Hl & _).
    exists st''. by rewrite <- (same_shape_values _ _ Hsh).
  - destruct (to_list_spec _ _ _ Hinvb2 Ho2') as (st'' & Hl & _). by exists st''.
  - destruct Hinva2 as (? & _ & _ & _ & Hsz & _). unfold size_.
    rewrite <- (same_shape_count _ _ Hsh). by apply load_size_run.
  - intros x Hx. rewrite Hn2, decide_True; [done|]. apply elem_of_cons. by right.
  - intros j. rewrite Hi2, Hi1, Hi0.
    destruct (iters st !! j) as [x|] eqn:Hj; [|done]. simpl. f_equal.
    pose proof (registered_valid _ _ _ Hreg Hj) as Hv.
    unfold detached_in. destruct (node_ x) as [y|]; [|done]. simpl in Hv.
    assert (y ≠ c) as Hyc by (intros ->; destruct Hv; congruence).
    destruct (decide (y ∈ c :: addrs ta)) as [Hin|Hin],
             (decide (y ∈ addrs ta)) as [Hin'|Hin']; try done.
    + apply elem_of_cons in Hin as [->|Hin]; done.
    + destruct Hin. apply elem_of_cons. by right.
  - done.
  - intros ->. assert (t' = Leaf) as Ht' by (by destruct t').
    rewrite <- Ec. split.
    + rewrite Hn2, decide_False, Hla1, (Hlc Ht'); [done|].
      intros [->|Hin]%elem_of_cons; done.
    + rewrite Hn2, decide_True; [done|]. apply elem_of_cons. by left.
Qed.

Lemma set_1357_and_empty_registered : registered (final_state set_1357_and_empty).
Proof. apply (bool_decide_unpack _). vm_compute. exact I. Qed.

Lemma set_assign_spec_witness :
  (∃ st',
     set_assign 6 1 (final_state set_1357_and_empty) = Ok () st'
     ∧ (∃ st'', to_list 6 st' = Ok (values tree_1357) st'')
     ∧ (∃ st'', to_list 1 st' = Ok (values tree_1357) st'')
     ∧ size_ 6 st' = Ok (Z.of_nat (count tree_1357)) st'
     ∧ (∀ x, x ∈ addrs Leaf → nodes st' !! x = None)
     ∧ (∀ j, iters st' !! j
             = detached_in (addrs Leaf) <$> iters (final_state set_1357_and_empty) !! j)
     ∧ registered st'
     ∧ (tree_1357 = Leaf →
        left <$> nodes st' !! 6%positive
        = Some (Some (fresh (dom (nodes (final_state set_1357_and_empty)))))
        ∧ nodes st' !! fresh (dom (nodes (final_state set_1357_and_empty))) = None))
  ∧ (∃ st',
       set_assign 1 6 (final_state set_1357_and_empty) = Ok () st'
       ∧ (∃ st'', to_list 1 st' = Ok (values Leaf) st'')
       ∧ (∃ st'', to_list 6 st' = Ok (values Leaf) st'')
       ∧ size_ 1 st' = Ok (Z.of_nat (count Leaf)) st'
       ∧ (∀ x, x ∈ addrs tree_1357 → nodes st' !! x = None)
       ∧ (∀ j, iters st' !! j
               = detached_in (addrs tree_1357)
                   <$> iters (final_state set_1357_and_empty) !! j)
       ∧ registered st'
       ∧ (Leaf = Leaf →
          left <$> nodes st' !! 1%positive
          = Some (Some (fresh (dom (nodes (final_state set_1357_and_empty)))))
          ∧ nodes st' !! fresh (dom (nodes (final_state set_1357_and_empty))) = None)).
Proof.
  split.
  - apply (set_assign_spec (final_state set_1357_and_empty) 6 1 Leaf tree_1357);
      [apply set_1357_and_empty_second|apply set_1357_and_empty_first|done
      |apply set_1357_and_empty_registered|reflexivity|].
    intros _ x Hx. vm_compute in Hx. injection Hx as <-.
    split_and!; [vm_compute; eauto|done
                |apply (bool_decide_unpack _); vm_compute; exact I].
  - apply (set_assign_spec (final_state set_1357_and_empty) 1 6 tree_1357 Leaf);
      [apply set_1357_and_empty_first|apply set_1357_and_empty_second|done
      |apply set_1357_and_empty_registered|reflexivity|intros [=]].
Defined.
